(** * DGL neighbourhood sampling: samplers, NodeFlow construction, random walks

    A shallow embedding of [src/graph/sampler.cc] and of the weighted samplers
    of [include/dgl/sample_utils.h], with the properties the specification
    states about them.

    Conventions of the embedding.
    - [dgl_id_t], [size_t] and the [int] loop counters are natural numbers:
      every such quantity is a container position, a container size or an
      identifier that is only copied and compared.  Where the source subtracts
      unsigned quantities the 64-bit wrap-around is written out ([usub]).
    - [std::vector] and raw buffers are lists; [v[i]] outside the vector is
      [Err Undefined], [v.at(i)] outside the vector is [Err OutOfRange].
    - [CHECK], [CHECK_EQ], ... and [LOG(FATAL)] end the computation with
      [Err CheckFailed].
    - [float] / [DType] weights are exact rationals ([Q]) in the main
      embedding, which does not round: what is proved about weights there is
      computed at values on which the operations of the source are exact, or
      does not depend on how sums and differences are rounded (positions,
      sizes, copied values, empty leaves).  [Binary32] repeats [ArrayHeap]
      and the weighted selection over IEEE 754 binary32 numbers, for what
      rounding changes.
    - Random sources are explicit: the values successive calls return are an
      input of the model. *)

From Stdlib Require Import QArith Qround Lqa Lia SpecFloat.
From stdpp Require Import base list gmap sets sorting strings.


(** ** Outcomes of a computation *)

Inductive error : Type :=
| CheckFailed       (* a CHECK failed or LOG(FATAL) was reached *)
| OutOfRange        (* std::out_of_range thrown by vector::at *)
| Undefined         (* unchecked access outside a buffer, division by zero *)
| OutOfRandomness.  (* the supplied random values ran out inside a retry loop *)

Inductive result (A : Type) : Type :=
| Ok (a : A)
| Err (e : error).
Arguments Ok {A} a.
Arguments Err {A} e.

Global Instance result_ret : MRet result := @Ok.
Global Instance result_bind : MBind result :=
  λ A B f m, match m with Ok a => f a | Err e => Err e end.

(** [CHECK(b)] *)
Definition CHECK (b : bool) : result unit :=
  if b then Ok () else Err CheckFailed.

(** [v[i]], unchecked *)
Definition index {A} (v : list A) (i : nat) : result A :=
  match v !! i with Some x => Ok x | None => Err Undefined end.

(** [v.at(i)], checked *)
Definition at_ {A} (v : list A) (i : nat) : result A :=
  match v !! i with Some x => Ok x | None => Err OutOfRange end.

(** [v[i] = x], unchecked *)
Definition store {A} (v : list A) (i : nat) (x : A) : result (list A) :=
  if decide (i < length v) then Ok (<[i:=x]> v) else Err Undefined.

(** Reading the [n] cells a pointer [p] points to: [p, p + n). *)
Definition read_range {A} (p : list A) (n : nat) : result (list A) :=
  if decide (n ≤ length p) then Ok (take n p) else Err Undefined.

(** [a % b] on unsigned operands *)
Definition umod (a b : nat) : result nat :=
  if decide (b = 0) then Err Undefined else Ok (a mod b).

(** [a - b] on 64-bit unsigned operands *)
Definition usub (a b : nat) : nat :=
  if decide (b ≤ a) then a - b else 2 ^ 64 - (b - a).

(** A [for] loop whose body may fail: the body is run on the successive
    elements of [l], threading the loop state. *)
Fixpoint foldM {A B} (f : A → B → result A) (l : list B) (a : A) : result A :=
  match l with
  | [] => Ok a
  | b :: l' => a' ← f a b; foldM f l' a'
  end.

(** [std::sort] of a whole vector by a key, and of the range
    [begin + first, begin + last).  Elements with equal keys keep their
    order here; [std::sort] leaves it unspecified. *)
Definition key_le {A} (key : A → nat) : relation A := λ a b, key a ≤ key b.

Global Instance key_le_dec {A} (key : A → nat) (a b : A) : Decision (key_le key a b) :=
  Nat.le_dec (key a) (key b).

Definition sort_by {A} (key : A → nat) : list A → list A :=
  merge_sort (key_le key).

Definition sort_range {A} (key : A → nat) (v : list A) (first last : nat)
    : result (list A) :=
  if decide (first ≤ last ≤ length v)
  then Ok (take first v ++ sort_by key (take (last - first) (drop first v)) ++ drop last v)
  else Err Undefined.

(** Bounded quantification over positions is decidable. *)
Global Instance forall_lt_dec (P : nat → Prop) `{∀ k, Decision (P k)} (n : nat) :
  Decision (∀ k, k < n → P k).
Proof.
  induction n as [|n IH].
  - left. lia.
  - destruct IH as [IH|IH].
    + destruct (decide (P n)) as [E|E].
      * left. intros k Hk. destruct (decide (k = n)) as [->|]; [done|]. apply IH. lia.
      * right. intros Hall. apply E, Hall. lia.
    + right. intros Hall. apply IH. intros k Hk. apply Hall. lia.
Defined.

(** [rand_r(seed)]: the values the generator will return, in order. *)
Definition seed_t := list nat.

Definition rand_r (seed : seed_t) : result (nat * seed_t) :=
  match seed with
  | [] => Err OutOfRandomness
  | r :: seed' => Ok (r, seed')
  end.

(** ** The graph interface *)

Notation dgl_id_t := nat (only parsing).

(** [GraphInterface::SuccVec]: the successor list of a vertex. *)
Class GraphInterface (G : Type) := {
  SuccVec : G → dgl_id_t → list dgl_id_t
}.

(** The mutable [Graph] of the header keeps one [EdgeList] per vertex. *)
Record EdgeList := { succ : list dgl_id_t; edge_id : list dgl_id_t }.
Record Graph := { adjlist_ : list EdgeList }.

Global Instance Graph_interface : GraphInterface Graph := {|
  SuccVec g vid := match adjlist_ g !! vid with Some el => succ el | None => [] end
|}.

(** [ImmutableGraph::CSR] and the immutable graph that holds an in-view and
    an out-view. *)
Record CSR := { indptr : list nat; indices : list dgl_id_t; edge_ids : list dgl_id_t }.

Record ImmutableGraph := {
  in_csr_ : option CSR;
  out_csr_ : option CSR;
  is_multigraph_ : bool
}.

Definition GetInCSR (g : ImmutableGraph) : result CSR :=
  match in_csr_ g with Some c => Ok c | None => Err Undefined end.
Definition GetOutCSR (g : ImmutableGraph) : result CSR :=
  match out_csr_ g with Some c => Ok c | None => Err Undefined end.

(** Modelled from the spec: [CSR::GetDegree(start, end)], whose body is not
    in the sources at hand, is the number of edges of the rows
    [start, end), read off the row offsets ("running totals of ... per-block
    edge counts"). *)
Definition GetDegree (c : CSR) (start end_ : nat) : result nat :=
  e ← index (indptr c) end_;
  s ← index (indptr c) start;
  mret (usub e s).

Record NodeFlow := {
  graph : ImmutableGraph;
  node_mapping : list dgl_id_t;
  edge_mapping : list dgl_id_t;
  layer_offsets : list nat;
  flow_offsets : list nat
}.


(** ** [ArrayHeap]: a sum tree over the weights of one neighbour list *)

Module ArrayHeap.

Record t := {
  vec_size_ : nat;   (* sample size *)
  bit_len_ : nat;    (* bit size *)
  limit_ : nat;
  heap_ : list Q
}.

Definition with_heap (h : t) (heap : list Q) : t :=
  {| vec_size_ := vec_size_ h; bit_len_ := bit_len_ h; limit_ := limit_ h; heap_ := heap |}.

Definition fill_leaf (prob : list Q) (limit : nat) (heap : list Q) (i : nat)
    : result (list Q) :=
  p ← index prob (i - limit);
  store heap i p.

Definition sum_children (heap : list Q) (j : nat) : result (list Q) :=
  l ← index heap (2 * j);
  r ← index heap (2 * j + 1);
  store heap j (l + r)%Q.

Definition sum_level (heap : list Q) (i : nat) : result (list Q) :=
  foldM sum_children (seq (2 ^ i) (2 ^ i)) heap.

(** The constructor.  [ceil(log2(0))] is not a number an [int] holds. *)
Definition make (prob : list Q) : result t :=
  let vec_size := length prob in
  if decide (vec_size = 0) then Err Undefined else
  let bit_len := Nat.log2_up vec_size in
  let limit := 2 ^ bit_len in
  (* allocate twice the size *)
  let heap := replicate (2 * limit) 0%Q in
  (* allocate the leaves *)
  heap ← foldM (fill_leaf prob limit) (seq limit vec_size) heap;
  (* iterate up the tree *)
  heap ← foldM sum_level (rev (seq 0 bit_len)) heap;
  mret {| vec_size_ := vec_size; bit_len_ := bit_len; limit_ := limit; heap_ := heap |}.

Definition Delete_step (w : Q) (st : list Q * nat) (j : nat) : result (list Q * nat) :=
  let '(heap, i) := st in
  v ← index heap i;
  heap ← store heap i (v - w)%Q;
  mret (heap, i / 2).

(** Remove term from index *)
Definition Delete (h : t) (idx : nat) : result t :=
  let i := idx + limit_ h in
  w ← index (heap_ h) i;
  '(heap, _) ← foldM (Delete_step w) (rev (seq 0 (bit_len_ h + 1))) (heap_ h, i);
  mret (with_heap h heap).

Definition Add_step (w : Q) (st : list Q * nat) (j : nat) : result (list Q * nat) :=
  let '(heap, i) := st in
  v ← index heap i;
  heap ← store heap i (v + w)%Q;
  mret (heap, i / 2).

(** Add value w to index *)
Definition Add (h : t) (idx : nat) (w : Q) : result t :=
  let i := idx + limit_ h in
  '(heap, _) ← foldM (Add_step w) (rev (seq 0 (bit_len_ h + 1))) (heap_ h, i);
  mret (with_heap h heap).

(** [while (i < limit_)]: [i] at least doubles in every round, so
    [limit_] rounds of fuel are never used up when [i] starts at 1. *)
Fixpoint Sample_loop (fuel : nat) (heap : list Q) (limit : nat) (xi : Q) (i : nat)
    : result nat :=
  if decide (i < limit) then
    match fuel with
    | 0 => Err Undefined
    | S fuel' =>
        let i := 2 * i in
        w ← index heap i;
        if Qle_bool w xi
        then Sample_loop fuel' heap limit (xi - w)%Q (i + 1)
        else Sample_loop fuel' heap limit xi i
    end
  else Ok i.

(** Sample from arrayHeap *)
Definition Sample (h : t) (seed : seed_t) : result (nat * seed_t) :=
  root ← index (heap_ h) 1;
  '(r, seed) ← rand_r seed;
  let xi := (root * (inject_Z (Z.of_nat (r mod 100)) / 101))%Q in
  i ← Sample_loop (limit_ h) (heap_ h) (limit_ h) xi 1;
  mret (i - limit_ h, seed).

Definition SampleWithoutReplacement_step
    (st : t * list nat * seed_t) (i : nat) : result (t * list nat * seed_t) :=
  let '(h, samples, seed) := st in
  '(s, seed) ← Sample h seed;
  (if decide (i < length samples) then Ok () else Err OutOfRange);;
  let samples := <[i:=s]> samples in
  h ← Delete h s;
  mret (h, samples, seed).

(** Sample a vector by given the size n *)
Definition SampleWithoutReplacement (h : t) (n : nat) (samples : list nat) (seed : seed_t)
    : result (t * list nat * seed_t) :=
  foldM SampleWithoutReplacement_step (seq 0 n) (h, samples, seed).

End ArrayHeap.

(** ** Uniform selection of positions *)

(** [RandomSample]: uniformly sample integers from [0, set_size) without
    replacement.  The iteration order of the [unordered_set] is whatever
    [elements] gives; both callers sort the result. *)
Fixpoint RandomSample_loop (set_size num : nat) (sampled_idxs : gset nat) (seed : seed_t)
    : result (gset nat * seed_t) :=
  if decide (size sampled_idxs < num) then
    match seed with
    | [] => Err OutOfRandomness
    | r :: seed' =>
        match umod r set_size with
        | Ok x => RandomSample_loop set_size num ({[ x ]} ∪ sampled_idxs) seed'
        | Err e => Err e
        end
    end
  else Ok (sampled_idxs, seed).

Definition RandomSample (set_size num : nat) (seed : seed_t)
    : result (list nat * seed_t) :=
  '(sampled_idxs, seed) ← RandomSample_loop set_size num ∅ seed;
  mret (elements sampled_idxs, seed).

(** [NegateArray]: the positions of [0, arr_size) that are not in the sorted
    list [nz_idxs].  [n] counts the positions left, [arr_size - i]. *)
Fixpoint NegateArray_loop (it : list nat) (i n : nat) (out : list nat) : list nat :=
  match n with
  | 0 => out
  | S n' =>
      match it with
      | [] => NegateArray_loop [] (S i) n' (out ++ [i])
      | x :: it' =>
          if decide (x = i)
          then NegateArray_loop it' (S i) n' out
          else NegateArray_loop it (S i) n' (out ++ [i])
      end
  end.

Definition NegateArray (nz_idxs : list nat) (arr_size : nat) (out : list nat)
    : result (list nat) :=
  back ← match last nz_idxs with Some b => Ok b | None => Err Undefined end;
  CHECK (bool_decide (back < arr_size));;
  mret (NegateArray_loop nz_idxs 0 arr_size out).

Definition sorted_check (sorted_idxs : list nat) (u : unit) (i : nat) : result unit :=
  a ← index sorted_idxs i;
  b ← index sorted_idxs (i - 1);
  CHECK (bool_decide (b < a)).

Definition push_pair (vid_list edge_id_list : list dgl_id_t)
    (out : list dgl_id_t * list dgl_id_t) (idx : nat)
    : result (list dgl_id_t * list dgl_id_t) :=
  let '(out_ver, out_edge) := out in
  v ← index vid_list idx;
  e ← index edge_id_list idx;
  mret (out_ver ++ [v], out_edge ++ [e]).

(** The entries of a slice at the positions [idxs], in that order. *)
Definition picked (slice : list dgl_id_t) (idxs : list nat) : list dgl_id_t :=
  map (λ i, nth i slice 0) idxs.

(** [GetUniformSample]: uniform sample vertices from a list of vertices.
    [edge_id_list] and [vid_list] are what the two pointers point to;
    [ver_len] is the length of the slice. *)
Definition GetUniformSample (edge_id_list vid_list : list dgl_id_t)
    (ver_len max_num_neighbor : nat) (out_ver out_edge : list dgl_id_t) (seed : seed_t)
    : result (list dgl_id_t * list dgl_id_t * seed_t) :=
  (* Copy vid_list to output *)
  if decide (ver_len ≤ max_num_neighbor) then
    vs ← read_range vid_list ver_len;
    es ← read_range edge_id_list ver_len;
    mret (out_ver ++ vs, out_edge ++ es, seed)
  else
    '(sorted_idxs, seed) ←
      (if decide (max_num_neighbor * 2 < ver_len) then
         (* sample a small number of elements from a large neighbor list *)
         '(sorted_idxs, seed) ← RandomSample ver_len max_num_neighbor seed;
         mret (sort_by id sorted_idxs, seed)
       else
         '(negate, seed) ← RandomSample ver_len (ver_len - max_num_neighbor) seed;
         let negate := sort_by id negate in
         sorted_idxs ← NegateArray negate ver_len [];
         mret (sorted_idxs, seed));
    (* verify the result *)
    CHECK (bool_decide (length sorted_idxs = max_num_neighbor));;
    foldM (sorted_check sorted_idxs) (seq 1 (length sorted_idxs - 1)) ();;
    '(out_ver, out_edge) ← foldM (push_pair vid_list edge_id_list) sorted_idxs (out_ver, out_edge);
    mret (out_ver, out_edge, seed).

(** The positions selected when the slice is longer than the fan-out. *)
Definition selected_positions (ver_len max_num_neighbor : nat) (seed : seed_t)
    : result (list nat * seed_t) :=
  if decide (max_num_neighbor * 2 < ver_len) then
    '(l, seed) ← RandomSample ver_len max_num_neighbor seed;
    mret (sort_by id l, seed)
  else
    '(negate, seed) ← RandomSample ver_len (ver_len - max_num_neighbor) seed;
    mret (filter (λ x, x ∉ sort_by id negate) (seq 0 ver_len), seed).

(** ** Weighted selection through [ArrayHeap] *)

(** [v.resize(n)] *)
Definition resize {A} (v : list A) (n : nat) (d : A) : list A :=
  take n v ++ replicate (n - length v) d.

Definition gather_prob (probability : list Q) (vid_list : list dgl_id_t)
    (sp_prob : list Q) (i : nat) : result (list Q) :=
  v ← index vid_list i;
  p ← index probability v;
  store sp_prob i p.

Definition write_pair (vid_list edge_id_list : list dgl_id_t) (sp_index : list nat)
    (out : list dgl_id_t * list dgl_id_t) (i : nat)
    : result (list dgl_id_t * list dgl_id_t) :=
  let '(out_ver, out_edge) := out in
  idx ← index sp_index i;
  v ← index vid_list idx;
  (if decide (i < length out_ver) then Ok () else Err OutOfRange);;
  let out_ver := <[i:=v]> out_ver in
  e ← index edge_id_list idx;
  (if decide (i < length out_edge) then Ok () else Err OutOfRange);;
  let out_edge := <[i:=e]> out_edge in
  mret (out_ver, out_edge).

(** [GetNonUniformSample]: non-uniform sample via ArrayHeap *)
Definition GetNonUniformSample (probability : list Q)
    (edge_id_list vid_list : list dgl_id_t)
    (ver_len max_num_neighbor : nat) (out_ver out_edge : list dgl_id_t) (seed : seed_t)
    : result (list dgl_id_t * list dgl_id_t * seed_t) :=
  (* Copy vid_list to output *)
  if decide (ver_len ≤ max_num_neighbor) then
    vs ← read_range vid_list ver_len;
    es ← read_range edge_id_list ver_len;
    mret (out_ver ++ vs, out_edge ++ es, seed)
  else
    (* Make sample *)
    let sp_index := replicate max_num_neighbor 0 in
    let sp_prob := replicate ver_len 0%Q in
    sp_prob ← foldM (gather_prob probability vid_list) (seq 0 ver_len) sp_prob;
    arrayHeap ← ArrayHeap.make sp_prob;
    '(_, sp_index, seed) ←
      ArrayHeap.SampleWithoutReplacement arrayHeap max_num_neighbor sp_index seed;
    let out_ver := resize out_ver max_num_neighbor 0 in
    let out_edge := resize out_edge max_num_neighbor 0 in
    '(out_ver, out_edge) ←
      foldM (write_pair vid_list edge_id_list sp_index) (seq 0 max_num_neighbor)
            (out_ver, out_edge);
    mret (sort_by id out_ver, sort_by id out_edge, seed).


(** ** Frontier expansion and NodeFlow construction *)

(** Used for subgraph sampling *)
Module neighbor_info.
Record t := {
  id : dgl_id_t;
  pos : nat;
  num_edges : nat
}.
End neighbor_info.

(** [unordered_map::insert]: an existing key keeps its value. *)
Definition map_insert_new (k v : nat) (m : gmap nat nat) : gmap nat nat :=
  match m !! k with
  | Some _ => m
  | None => <[k:=v]> m
  end.

Module ConstructNodeFlow.

(** State of the loop that saves the sampled vertices and their layer. *)
Record ids_state := {
  sub_vers : list (dgl_id_t * nat);
  node_map_data : list dgl_id_t;
  layer_ver_maps : list (gmap nat nat);
  ver_id : nat;
  out_node_idx : nat
}.

Definition save_vertex (layer_id : nat) (s : ids_state) (i : nat) : result ids_state :=
  p ← at_ (sub_vers s) i;
  node_map ← store (node_map_data s) (out_node_idx s) p.1;
  m ← index (layer_ver_maps s) layer_id;
  let maps := <[layer_id := map_insert_new p.1 (ver_id s) m]> (layer_ver_maps s) in
  CHECK (bool_decide (p.2 = layer_id));;
  mret {| sub_vers := sub_vers s;
          node_map_data := node_map;
          layer_ver_maps := maps;
          ver_id := S (ver_id s);
          out_node_idx := S (out_node_idx s) |}.

Definition save_layer (layer_offsets : list nat) (s : ids_state) (layer_id : nat)
    : result ids_state :=
  first ← index layer_offsets layer_id;
  last ← index layer_offsets (layer_id + 1);
  (* sort the vertices in a layer *)
  sv ← sort_range fst (sub_vers s) first last;
  let s := {| sub_vers := sv;
              node_map_data := node_map_data s;
              layer_ver_maps := layer_ver_maps s;
              ver_id := ver_id s;
              out_node_idx := out_node_idx s |} in
  (* Save the sampled vertices and its layer Id. *)
  foldM (save_vertex layer_id) (seq first (last - first)) s.

(** State of the loop that copies the sampled rows into the CSR. *)
Record rows_state := {
  neigh_pos : list neighbor_info.t;
  indptr_out : list nat;
  col_list_out : list dgl_id_t;
  edge_map_data : list dgl_id_t;
  collected_nedges : nat;
  row_idx : nat;
  layer_off_data : list nat;
  out_layer_idx : nat
}.

Definition map_neighbor (neighbor_list : list dgl_id_t) (m : gmap nat nat)
    (pos collected_nedges : nat) (col_list_out : list dgl_id_t) (i : nat)
    : result (list dgl_id_t) :=
  neigh ← index neighbor_list (pos + i);
  match m !! neigh with
  | None => Err CheckFailed
  | Some local => store col_list_out (collected_nedges + i) local
  end.

(** [std::copy_n(src + pos, n, dst + at)] *)
Definition copy_n {A} (src : list A) (pos n : nat) (dst : list A) (at_pos : nat)
    : result (list A) :=
  foldM (λ dst i, x ← index src (pos + i); store dst (at_pos + i) x) (seq 0 n) dst.

Definition copy_row (neighbor_list edge_list : list dgl_id_t)
    (sub_vers : list (dgl_id_t * nat)) (maps : list (gmap nat nat)) (layer_id : nat)
    (s : rows_state) (i : nat) : result rows_state :=
  p ← at_ sub_vers i;
  let dst_id := p.1 in
  np ← at_ (neigh_pos s) i;
  CHECK (bool_decide (dst_id = neighbor_info.id np));;
  let pos := neighbor_info.pos np in
  CHECK (bool_decide (pos ≤ length neighbor_list));;
  let num_edges := neighbor_info.num_edges np in
  (if decide (neighbor_list = []) then CHECK (bool_decide (num_edges = 0)) else Ok ());;
  (* We need to map the Ids of the neighbors to the subgraph. *)
  m ← (if decide (num_edges = 0) then Ok ∅ else index maps (layer_id + 1));
  col_list ← foldM (map_neighbor neighbor_list m pos (collected_nedges s))
                   (seq 0 num_edges) (col_list_out s);
  (* We can simply copy the edge Ids. *)
  edge_map ← copy_n edge_list pos num_edges (edge_map_data s) (collected_nedges s);
  prev ← index (indptr_out s) (row_idx s);
  indptr ← store (indptr_out s) (row_idx s + 1) (prev + num_edges);
  mret {| neigh_pos := neigh_pos s;
          indptr_out := indptr;
          col_list_out := col_list;
          edge_map_data := edge_map;
          collected_nedges := collected_nedges s + num_edges;
          row_idx := S (row_idx s);
          layer_off_data := layer_off_data s;
          out_layer_idx := out_layer_idx s |}.

Definition copy_layer (neighbor_list edge_list : list dgl_id_t)
    (layer_offsets : list nat) (sub_vers : list (dgl_id_t * nat))
    (maps : list (gmap nat nat)) (s : rows_state) (layer_id : nat) : result rows_state :=
  first ← index layer_offsets layer_id;
  last ← index layer_offsets (layer_id + 1);
  np ← sort_range neighbor_info.id (neigh_pos s) first last;
  let s := {| neigh_pos := np;
              indptr_out := indptr_out s;
              col_list_out := col_list_out s;
              edge_map_data := edge_map_data s;
              collected_nedges := collected_nedges s;
              row_idx := row_idx s;
              layer_off_data := layer_off_data s;
              out_layer_idx := out_layer_idx s |} in
  s ← foldM (copy_row neighbor_list edge_list sub_vers maps layer_id)
            (seq first (last - first)) s;
  prev ← index (layer_off_data s) (out_layer_idx s);
  lod ← store (layer_off_data s) (out_layer_idx s + 1) (usub (prev + last) first);
  mret {| neigh_pos := neigh_pos s;
          indptr_out := indptr_out s;
          col_list_out := col_list_out s;
          edge_map_data := edge_map_data s;
          collected_nedges := collected_nedges s;
          row_idx := row_idx s;
          layer_off_data := lod;
          out_layer_idx := S (out_layer_idx s) |}.

Definition zero_row (st : list nat * nat) (i : nat) : result (list nat * nat) :=
  let '(indptr_out, row_idx) := st in
  indptr_out ← store indptr_out row_idx 0;
  mret (indptr_out, S row_idx).

Definition flow_step (subg_csr : CSR) (layer_off_data : list nat)
    (st : list nat * nat) (i : nat) : result (list nat * nat) :=
  let '(flow_off_data, out_flow_idx) := st in
  a ← index layer_off_data (i + 1);
  b ← index layer_off_data (i + 2);
  num_edges ← GetDegree subg_csr a b;
  prev ← index flow_off_data out_flow_idx;
  flow_off_data ← store flow_off_data (out_flow_idx + 1) (prev + num_edges);
  mret (flow_off_data, S out_flow_idx).

(** The first loop: save the sampled vertices and their layer, deepest
    layer first. *)
Definition save_vertices (layer_offsets : list nat) (sub_vers0 : list (dgl_id_t * nat))
    (num_hops : nat) : result ids_state :=
  foldM (save_layer layer_offsets) (rev (seq 0 num_hops))
    {| sub_vers := sub_vers0;
       node_map_data := replicate (length sub_vers0) 0;
       layer_ver_maps := replicate num_hops (∅ : gmap nat nat);
       ver_id := 0;
       out_node_idx := 0 |}.

(** The arrays [IdArray::Empty] returns are not initialised; every cell the
    result exposes is written before it is read. The row offsets of the
    fresh CSR start as zeros. *)
Definition run (neighbor_list edge_list : list dgl_id_t) (layer_offsets : list nat)
    (sub_vers0 : list (dgl_id_t * nat)) (neigh_pos0 : list neighbor_info.t)
    (edge_type : string) (num_edges num_hops : nat) (is_multigraph : bool)
    : result NodeFlow :=
  let num_vertices := length sub_vers0 in
  let edge_mapping := replicate num_edges 0 in
  let nf_layer_offsets := replicate (num_hops + 1) 0 in
  let nf_flow_offsets := replicate num_hops 0 in
  (* Construct sub_csr_graph *)
  let indptr0 := replicate (num_vertices + 1) 0 in
  let col_list0 := replicate num_edges 0 in
  s1 ← save_vertices layer_offsets sub_vers0 num_hops;
  CHECK (bool_decide (out_node_idx s1 = num_vertices));;
  (* the rows of the input layer *)
  (if decide (num_hops = 0) then Err Undefined else Ok ());;
  first ← index layer_offsets (num_hops - 1);
  last ← index layer_offsets num_hops;
  '(indptr0, row0) ← foldM zero_row (seq first (last - first)) (indptr0, 0);
  lod ← store nf_layer_offsets 0 0;
  lod ← store lod 1 (usub last first);
  s2 ← foldM (copy_layer neighbor_list edge_list layer_offsets (sub_vers s1)
                         (layer_ver_maps s1))
         (rev (seq 0 (num_hops - 1)))
         {| neigh_pos := neigh_pos0; indptr_out := indptr0;
            col_list_out := col_list0; edge_map_data := edge_mapping;
            collected_nedges := 0; row_idx := row0;
            layer_off_data := lod; out_layer_idx := 1 |};
  CHECK (bool_decide (row_idx s2 = num_vertices));;
  total ← index (indptr_out s2) (row_idx s2);
  CHECK (bool_decide (total = num_edges));;
  CHECK (bool_decide (out_layer_idx s2 = num_hops));;
  top ← index (layer_off_data s2) (out_layer_idx s2);
  CHECK (bool_decide (top = num_vertices));;
  let subg_csr := {| indptr := indptr_out s2; indices := col_list_out s2;
                     edge_ids := replicate num_edges 0 |} in
  (* Copy flow offsets. *)
  fod ← store nf_flow_offsets 0 0;
  '(fod, out_flow_idx) ← foldM (flow_step subg_csr (layer_off_data s2))
                               (seq 0 (length layer_offsets - 2)) (fod, 0);
  CHECK (bool_decide (out_flow_idx = num_hops - 1));;
  flast ← index fod (num_hops - 1);
  CHECK (bool_decide (flast = num_edges));;
  let subg_csr := {| indptr := indptr subg_csr; indices := indices subg_csr;
                     edge_ids := seq 0 num_edges |} in
  let g := if String.eqb edge_type "in"
           then {| in_csr_ := Some subg_csr; out_csr_ := None;
                   is_multigraph_ := is_multigraph |}
           else {| in_csr_ := None; out_csr_ := Some subg_csr;
                   is_multigraph_ := is_multigraph |} in
  mret {| graph := g;
          node_mapping := node_map_data s1;
          edge_mapping := edge_map_data s2;
          layer_offsets := layer_off_data s2;
          flow_offsets := fod |}.

End ConstructNodeFlow.


Module SampleSubgraph.

Record state := {
  sub_ver_map : gset dgl_id_t;   (* The vertex Ids in a layer. *)
  sub_vers : list (dgl_id_t * nat);
  neigh_pos : list neighbor_info.t;
  neighbor_list : list dgl_id_t;
  edge_list : list dgl_id_t;
  layer_offsets : list nat;
  num_edges : nat;
  time_seed : seed_t
}.

(** add seed vertices *)
Definition add_seed (seed : list dgl_id_t)
    (st : gset dgl_id_t * list (dgl_id_t * nat)) (i : nat)
    : result (gset dgl_id_t * list (dgl_id_t * nat)) :=
  let '(sub_ver_map, sub_vers) := st in
  v ← index seed i;
  (* If the vertex is inserted successfully. *)
  if decide (v ∈ sub_ver_map) then mret (sub_ver_map, sub_vers)
  else mret ({[ v ]} ∪ sub_ver_map, sub_vers ++ [(v, 0)]).

(** A sampled neighbour joins the queue unless the layer has it already. *)
Definition enqueue (cur_node_level : nat)
    (st : gset dgl_id_t * list (dgl_id_t * nat)) (v : dgl_id_t)
    : gset dgl_id_t * list (dgl_id_t * nat) :=
  let '(sub_ver_map, sub_vers) := st in
  if decide (v ∈ sub_ver_map) then (sub_ver_map, sub_vers)
  else ({[ v ]} ∪ sub_ver_map, sub_vers ++ [(v, cur_node_level + 1)]).

Definition expand_vertex (orig_csr : CSR) (probability : option (list Q))
    (num_neighbor : nat) (s : state) (idx : nat) : result state :=
  let val_list := edge_ids orig_csr in
  let col_list := indices orig_csr in
  p ← index (sub_vers s) idx;
  let dst_id := p.1 in
  let cur_node_level := p.2 in
  hi ← index (indptr orig_csr) (dst_id + 1);
  lo ← index (indptr orig_csr) dst_id;
  let ver_len := usub hi lo in
  '(tmp_sampled_src_list, tmp_sampled_edge_list, seed) ←
    match probability with
    | None =>    (* uniform-sample *)
        GetUniformSample (drop lo val_list) (drop lo col_list) ver_len num_neighbor
                         [] [] (time_seed s)
    | Some probability =>   (* non-uniform-sample *)
        GetNonUniformSample probability (drop lo val_list) (drop lo col_list)
                            ver_len num_neighbor [] [] (time_seed s)
    end;
  CHECK (bool_decide (length tmp_sampled_src_list = length tmp_sampled_edge_list));;
  let np := {| neighbor_info.id := dst_id;
               neighbor_info.pos := length (neighbor_list s);
               neighbor_info.num_edges := length tmp_sampled_src_list |} in
  let '(m, sv) := foldl (enqueue cur_node_level) (sub_ver_map s, sub_vers s)
                        tmp_sampled_src_list in
  mret {| sub_ver_map := m;
          sub_vers := sv;
          neigh_pos := neigh_pos s ++ [np];
          neighbor_list := neighbor_list s ++ tmp_sampled_src_list;
          edge_list := edge_list s ++ tmp_sampled_edge_list;
          layer_offsets := layer_offsets s;
          num_edges := num_edges s + length tmp_sampled_src_list;
          time_seed := seed |}.

Definition expand_layer (orig_csr : CSR) (probability : option (list Q))
    (num_neighbor : nat) (s : state) (layer_id : nat) : result state :=
  (* clear the layer's set when entering a new layer *)
  let s := {| sub_ver_map := ∅;
              sub_vers := sub_vers s;
              neigh_pos := neigh_pos s;
              neighbor_list := neighbor_list s;
              edge_list := edge_list s;
              layer_offsets := layer_offsets s;
              num_edges := num_edges s;
              time_seed := time_seed s |} in
  first ← index (layer_offsets s) (layer_id - 1);
  last ← index (layer_offsets s) layer_id;
  s ← foldM (expand_vertex orig_csr probability num_neighbor) (seq first (last - first)) s;
  prev ← index (layer_offsets s) layer_id;
  lo ← store (layer_offsets s) (layer_id + 1) (prev + size (sub_ver_map s));
  top ← index lo (layer_id + 1);
  CHECK (bool_decide (top = length (sub_vers s)));;
  mret {| sub_ver_map := sub_ver_map s;
          sub_vers := sub_vers s;
          neigh_pos := neigh_pos s;
          neighbor_list := neighbor_list s;
          edge_list := edge_list s;
          layer_offsets := lo;
          num_edges := num_edges s;
          time_seed := time_seed s |}.

(** The expansion: everything [SampleSubgraph] does before it hands its
    buffers to [ConstructNodeFlow]. *)
Definition expand (graph : ImmutableGraph) (seed_arr : list dgl_id_t)
    (probability : option (list Q)) (edge_type : string)
    (num_hops num_neighbor : nat) (time_seed : seed_t) : result state :=
  let num_seeds := length seed_arr in
  orig_csr ← (if String.eqb edge_type "in" then GetInCSR graph else GetOutCSR graph);
  '(sub_ver_map, sub_vers) ← foldM (add_seed seed_arr) (seq 0 num_seeds) (∅, []);
  let layer_offsets := replicate (num_hops + 1) 0 in
  layer_offsets ← store layer_offsets 0 0;
  layer_offsets ← store layer_offsets 1 (length sub_vers);
  foldM (expand_layer orig_csr probability num_neighbor) (seq 1 (num_hops - 1))
    {| sub_ver_map := sub_ver_map;
       sub_vers := sub_vers;
       neigh_pos := [];
       neighbor_list := [];
       edge_list := [];
       layer_offsets := layer_offsets;
       num_edges := 0;
       time_seed := time_seed |}.

Definition run (graph : ImmutableGraph) (seed_arr : list dgl_id_t)
    (probability : option (list Q)) (edge_type : string)
    (num_hops num_neighbor : nat) (time_seed : seed_t) : result NodeFlow :=
  s ← expand graph seed_arr probability edge_type num_hops num_neighbor time_seed;
  ConstructNodeFlow.run (neighbor_list s) (edge_list s) (layer_offsets s)
    (sub_vers s) (neigh_pos s) edge_type (num_edges s) num_hops (is_multigraph_ graph).

End SampleSubgraph.

(** The vertices of layer [l]: the entries of [sub_vers] between two
    consecutive layer offsets. *)
Definition layer_slice {A} (v : list A) (first last : nat) : list A :=
  take (last - first) (drop first v).

Definition layer_vertices (sub_vers : list (dgl_id_t * nat)) (layer_offsets : list nat)
    (l : nat) : list dgl_id_t :=
  match layer_offsets !! l, layer_offsets !! (S l) with
  | Some first, Some last => (layer_slice sub_vers first last).*1
  | _, _ => []
  end.



(** [SamplerOp::NeighborUniformSample], the entry point the specification
    calls [SampleNeighbors]. *)
Definition NeighborUniformSample (graph : ImmutableGraph) (seeds : list dgl_id_t)
    (edge_type : string) (num_hops expand_factor : nat) (time_seed : seed_t)
    : result NodeFlow :=
  SampleSubgraph.run graph seeds None edge_type (num_hops + 1) expand_factor time_seed.

(** ** [SamplerOp::RandomWalk] *)

Module RandomWalker.
Section RandomWalk.
Context {G : Type} `{GraphInterface G}.

(** [rnd i j k] is the value [rand_r(&random_seed)] returns at step [k]
    of trace [j] of seed [i]; it depends on the thread that runs iteration
    [i] and on the seed that thread took from the clock, so it is left
    arbitrary. *)
Variable rnd : nat → nat → nat → nat.

Definition walk_step (gptr : G) (num_traces kmax i j : nat)
    (st : list dgl_id_t * dgl_id_t) (k : nat) : result (list dgl_id_t * dgl_id_t) :=
  let '(trace_data, cur) := st in
  let offset := (i * num_traces + j) * kmax + k in
  trace_data ← store trace_data offset cur;
  let succ := SuccVec gptr cur in
  let size := length succ in
  r ← umod (rnd i j k) size;
  cur ← index succ r;
  mret (trace_data, cur).

Definition walk_trace (gptr : G) (num_traces kmax i : nat) (seed_id : dgl_id_t)
    (trace_data : list dgl_id_t) (j : nat) : result (list dgl_id_t) :=
  let cur := seed_id in
  '(trace_data, _) ←
    foldM (walk_step gptr num_traces kmax i j) (seq 0 kmax) (trace_data, cur);
  mret trace_data.

Definition walk_seed (gptr : G) (seed_ids : list dgl_id_t) (num_traces kmax : nat)
    (trace_data : list dgl_id_t) (i : nat) : result (list dgl_id_t) :=
  seed_id ← index seed_ids i;
  foldM (walk_trace gptr num_traces kmax i seed_id) (seq 0 num_traces) trace_data.

Definition RandomWalk (gptr : G) (seeds : list dgl_id_t) (num_traces num_hops : nat)
    : result (list dgl_id_t) :=
  let num_nodes := length seeds in
  let kmax := num_hops + 1 in
  let traces := replicate (num_nodes * num_traces * (num_hops + 1)) 0 in
  foldM (walk_seed gptr seeds num_traces kmax) (seq 0 num_nodes) traces.

(** The vertex a trace holds at position [k], as a function of the seed
    and of the random values. *)
Fixpoint visited (gptr : G) (seed_id : dgl_id_t) (i j k : nat) : dgl_id_t :=
  match k with
  | 0 => seed_id
  | S k' =>
      let cur := visited gptr seed_id i j k' in
      let succ := SuccVec gptr cur in
      nth (rnd i j k' mod length succ) succ 0
  end.

Definition trace_of (gptr : G) (seed_id : dgl_id_t) (kmax i j : nat) : list dgl_id_t :=
  map (visited gptr seed_id i j) (seq 0 kmax).

Definition traces_of (gptr : G) (num_traces kmax : nat) (seed_id : dgl_id_t) (i : nat)
    : list dgl_id_t :=
  concat (map (trace_of gptr seed_id kmax i) (seq 0 num_traces)).

(** Every vertex the first [n] positions of a trace hold has a successor. *)
Definition alive (gptr : G) (seed_id : dgl_id_t) (i j n : nat) : Prop :=
  ∀ k, k < n → SuccVec gptr (visited gptr seed_id i j k) ≠ [].

Global Instance alive_dec gptr seed_id i j n : Decision (alive gptr seed_id i j n).
Proof. unfold alive. apply _. Defined.

(** All the walks of seed [i] stay on vertices with a successor. *)
Definition seed_alive (gptr : G) (seeds : list dgl_id_t) (num_traces kmax i : nat) : Prop :=
  i < length seeds ∧ ∀ j, j < num_traces → alive gptr (nth i seeds 0) i j kmax.

Global Instance seed_alive_dec gptr seeds num_traces kmax i :
  Decision (seed_alive gptr seeds num_traces kmax i).
Proof. unfold seed_alive. apply _. Defined.

(** The buffer a run fills when no walk meets a vertex without successors. *)
Definition all_traces (gptr : G) (seeds : list dgl_id_t) (num_traces kmax : nat)
    : list dgl_id_t :=
  concat (map (λ i, traces_of gptr num_traces kmax (nth i seeds 0) i)
              (seq 0 (length seeds))).

(** What the specification promises about the trace buffer: its shape, the
    seed at the head of every trace, and a successor at every step. *)
Definition walk_contract (gptr : G) (seeds : list dgl_id_t) (num_traces num_hops : nat)
    (traces : list dgl_id_t) : Prop :=
  length traces = length seeds * num_traces * (num_hops + 1) ∧
  ∀ s t seed_id, seeds !! s = Some seed_id → t < num_traces →
    let offset := (s * num_traces + t) * (num_hops + 1) in
    traces !! offset = Some seed_id ∧
    ∀ k, k < num_hops →
      ∃ u v, traces !! (offset + k) = Some u ∧ traces !! (offset + S k) = Some v ∧
             v ∈ SuccVec gptr u.
End RandomWalk.
End RandomWalker.

(** The three-vertex cycle 0 → 1 → 2 → 0, and the edge 0 → 1 into a vertex
    without successors. *)
Definition cycle3 : Graph :=
  {| adjlist_ := [ {| succ := [1]; edge_id := [0] |};
                   {| succ := [2]; edge_id := [1] |};
                   {| succ := [0]; edge_id := [2] |} ] |}.

Definition dead_end : Graph :=
  {| adjlist_ := [ {| succ := [1]; edge_id := [0] |};
                   {| succ := []; edge_id := [] |} ] |}.

(** The path 0 → 1 → 2 → 3, and the NodeFlow two hops from the seed 0 with
    a fan-out above every degree. *)
Definition path4 : ImmutableGraph :=
  {| in_csr_ := None;
     out_csr_ := Some {| indptr := [0; 1; 2; 3; 3]; indices := [1; 2; 3];
                         edge_ids := [0; 1; 2] |};
     is_multigraph_ := false |}.

Definition path4_nodeflow : NodeFlow :=
  {| graph := {| in_csr_ := None;
                 out_csr_ := Some {| indptr := [0; 0; 1; 2]; indices := [0; 1];
                                     edge_ids := [0; 1] |};
                 is_multigraph_ := false |};
     node_mapping := [2; 1; 0];
     edge_mapping := [1; 0];
     layer_offsets := [0; 1; 2; 3];
     flow_offsets := [0; 1; 2] |}.


(** ** The weighted samplers of [sample_utils.h] *)

(** Modelled from the spec: [RandomEngine::Uniform(lower, upper)], whose
    header is not in the sources at hand, "picks a uniform real in"
    [lower, upper).  The engine is the list of the unit variates [u], each in
    [0, 1), its generator will produce; a call consumes one and returns
    [lower + u * (upper - lower)]. *)
Definition RandomEngine := list Q.

Definition unit_variates (re : RandomEngine) : Prop :=
  Forall (λ u, 0 <= u ∧ u < 1)%Q re.

Definition Uniform (re : RandomEngine) (lower upper : Q) : result (Q * RandomEngine) :=
  match re with
  | [] => Err OutOfRandomness
  | u :: re' => Ok ((lower + u * (upper - lower))%Q, re')
  end.

(** [static_cast<Idx>(x)] for a non-negative [x] *)
Definition to_Idx (x : Q) : nat := Z.to_nat (Qfloor x).

Definition of_Idx (n : nat) : Q := inject_Z (Z.of_nat n).

(** [a > b] and [a >= b] on [DType] *)
Definition Qgt_bool (a b : Q) : bool := negb (Qle_bool a b).
Definition Qge_bool (a b : Q) : bool := Qle_bool b a.

Module AliasSampler.
Section AliasSampler.
Variable replace : bool.

Record t := {
  N : nat;
  accum : Q;
  taken : Q;                 (* accumulated likelihood *)
  K : list nat;              (* alias table *)
  U : list Q;                (* probability table *)
  _prob : list Q;            (* category distribution *)
  used : list bool;          (* indicate availability, activated when replace=false *)
  id_mapping : list nat      (* index mapping, activated when replace=false *)
}.

(** Map consecutive indices to unused elements *)
Definition Map (id_mapping : list nat) (x : nat) : result nat :=
  if replace then Ok x else index id_mapping x.

Definition count_unused (prob : list Q) (used : list bool)
    (st : nat * Q * list nat) (i : nat) : result (nat * Q * list nat) :=
  let '(N, accum, id_mapping) := st in
  u ← index used i;
  if (u : bool) then mret (N, accum, id_mapping)
  else
    p ← index prob i;
    mret (S N, (accum + p)%Q, if replace then id_mapping else id_mapping ++ [i]).

Definition classify (prob : list Q) (id_mapping : list nat) (avg : Q)
    (st : list (nat * Q) * list (nat * Q) * list nat) (i : nat)
    : result (list (nat * Q) * list (nat * Q) * list nat) :=
  let '(under, over, K) := st in
  m ← Map id_mapping i;
  p ← index prob m;
  K ← store K i i;
  if Qgt_bool p avg then mret (under, over ++ [(i, p)], K)
  else mret (under ++ [(i, p)], over, K).

(** [while (!under.empty() && !over.empty())]: every round removes one
    entry from each queue and adds at most one, so [fuel] rounds, the
    number of queued entries, are enough. *)
Fixpoint pair_up (fuel : nat) (avg : Q) (under over : list (nat * Q))
    (K : list nat) (U : list Q) : result (list nat * list Q) :=
  match under, over with
  | (i_u, p_u) :: under', (i_o, p_o) :: over' =>
      match fuel with
      | 0 => Err Undefined
      | S fuel' =>
          K ← store K i_u i_o;
          U ← store U i_u p_u;
          if Qgt_bool (p_o + p_u) (2 * avg) then
            pair_up fuel' avg under' (over' ++ [(i_o, (p_o + p_u - avg)%Q)]) K U
          else if Qgt_bool (2 * avg) (p_o + p_u) then
            pair_up fuel' avg (under' ++ [(i_o, (p_o + p_u - avg)%Q)]) over' K U
          else
            pair_up fuel' avg under' over' K U
      end
  | _, _ => Ok (K, U)
  end.

(** Reconstruct alias table *)
Definition Reconstruct (s : t) (prob : list Q) : result t :=
  let id_mapping := if replace then id_mapping s else [] in
  '(N, accum, id_mapping) ←
    foldM (count_unused prob (used s)) (seq 0 (length prob)) (0, 0%Q, id_mapping);
  CHECK (negb (bool_decide (N = 0)));;
  let K := resize (K s) N 0 in
  let avg := (accum / of_Idx N)%Q in
  let U := replicate N avg in
  '(under, over, K) ← foldM (classify prob id_mapping avg) (seq 0 N) ([], [], K);
  '(K, U) ← pair_up (length under + length over) avg under over K U;
  mret {| N := N; accum := accum; taken := 0; K := K; U := U;
          _prob := _prob s; used := used s; id_mapping := id_mapping |}.

Definition ResetState (s : t) (prob : list Q) : result t :=
  let used := replicate (length prob) false in
  let _prob := if replace then _prob s else prob in
  Reconstruct {| N := N s; accum := accum s; taken := taken s; K := K s; U := U s;
                 _prob := _prob; used := used; id_mapping := id_mapping s |} prob.

Definition make (prob : list Q) : result t :=
  ResetState {| N := 0; accum := 0; taken := 0; K := []; U := []; _prob := [];
                used := []; id_mapping := [] |} prob.

(** One throw of the dice: the slot, and the element it stands for. *)
Definition throw (s : t) (avg : Q) (re : RandomEngine) : result (nat * RandomEngine) :=
  '(dice, re) ← Uniform re 0 (of_Idx (N s));
  let i := to_Idx dice in
  let p := ((dice - of_Idx i) * avg)%Q in
  m ← Map (id_mapping s) i;
  u ← index (U s) m;
  if Qle_bool p u then mret (m, re)
  else
    k ← index (K s) i;
    rst ← Map (id_mapping s) k;
    mret (rst, re).

(** [while (true)] of the draw without replacement: one round per variate
    the engine still holds. *)
Fixpoint Draw_retry (fuel : nat) (s : t) (avg : Q) (re : RandomEngine)
    : result (nat * t * RandomEngine) :=
  match fuel with
  | 0 => Err OutOfRandomness
  | S fuel' =>
      '(rst, re) ← throw s avg re;
      cap ← index (_prob s) rst;
      u ← index (used s) rst;
      if (u : bool) then Draw_retry fuel' s avg re
      else
        mret (rst,
              {| N := N s; accum := accum s; taken := (taken s + cap)%Q;
                 K := K s; U := U s; _prob := _prob s;
                 used := <[rst := true]> (used s); id_mapping := id_mapping s |},
              re)
  end.

Definition Draw (s : t) (re : RandomEngine) : result (nat * t * RandomEngine) :=
  let avg := (accum s / of_Idx (N s))%Q in
  if replace then
    '(rst, re) ← throw s avg re;
    mret (rst, s, re)
  else
    s ← (if Qge_bool (2 * taken s) (accum s) then Reconstruct s (_prob s) else Ok s);
    Draw_retry (length re) s avg re.

End AliasSampler.
End AliasSampler.

Module CDFSampler.
Section CDFSampler.
Variable replace : bool.

Record t := {
  N : nat;
  accum : Q;
  taken : Q;
  _prob : list Q;            (* categorical distribution *)
  cdf : list Q;              (* cumulative distribution function *)
  used : list bool;          (* indicate availability, activated when replace=false *)
  id_mapping : list nat      (* indicate index mapping, activated when replace=false *)
}.

(** [std::numeric_limits<double>::min()] *)
Definition eps : Q := 1 # (2 ^ 1022).

Definition Map (id_mapping : list nat) (x : nat) : result nat :=
  if replace then Ok x else index id_mapping x.

Definition count_unused (prob : list Q) (used : list bool)
    (st : nat * Q * list nat * list Q) (i : nat) : result (nat * Q * list nat * list Q) :=
  let '(N, accum, id_mapping, cdf) := st in
  u ← index used i;
  if (u : bool) then mret (N, accum, id_mapping, cdf)
  else
    p ← index prob i;
    let accum := (accum + p)%Q in
    mret (S N, accum, (if replace then id_mapping else id_mapping ++ [i]), cdf ++ [accum]).

(** Reconstruct CDF *)
Definition Reconstruct (s : t) (prob : list Q) : result t :=
  let id_mapping := if replace then id_mapping s else [] in
  '(N, accum, id_mapping, cdf) ←
    foldM (count_unused prob (used s)) (seq 0 (length prob)) (0, 0%Q, id_mapping, [0%Q]);
  CHECK (negb (bool_decide (N = 0)));;
  mret {| N := N; accum := accum; taken := 0; _prob := _prob s; cdf := cdf;
          used := used s; id_mapping := id_mapping |}.

Definition ResetState (s : t) (prob : list Q) : result t :=
  let used := replicate (length prob) false in
  let _prob := if replace then _prob s else prob in
  Reconstruct {| N := N s; accum := accum s; taken := taken s; _prob := _prob;
                 cdf := cdf s; used := used; id_mapping := id_mapping s |} prob.

Definition make (prob : list Q) : result t :=
  ResetState {| N := 0; accum := 0; taken := 0; _prob := []; cdf := [];
                used := []; id_mapping := [] |} prob.

(** [std::lower_bound(cdf.begin(), cdf.end(), p) - cdf.begin()]: the first
    position whose entry is not less than [p]. *)
Fixpoint lower_bound (cdf : list Q) (p : Q) : nat :=
  match cdf with
  | [] => 0
  | c :: cdf' => if Qle_bool p c then 0 else S (lower_bound cdf' p)
  end.

Definition throw (s : t) (re : RandomEngine) : result (nat * RandomEngine) :=
  '(x, re) ← Uniform re 0 (accum s);
  let p := if Qle_bool x eps then eps else x in
  let j := lower_bound (cdf s) p in
  (if decide (j = 0) then Err Undefined else Ok ());;
  rst ← Map (id_mapping s) (j - 1);
  mret (rst, re).

Fixpoint Draw_retry (fuel : nat) (s : t) (re : RandomEngine)
    : result (nat * t * RandomEngine) :=
  match fuel with
  | 0 => Err OutOfRandomness
  | S fuel' =>
      '(rst, re) ← throw s re;
      cap ← index (_prob s) rst;
      u ← index (used s) rst;
      if (u : bool) then Draw_retry fuel' s re
      else
        mret (rst,
              {| N := N s; accum := accum s; taken := (taken s + cap)%Q;
                 _prob := _prob s; cdf := cdf s;
                 used := <[rst := true]> (used s); id_mapping := id_mapping s |},
              re)
  end.

Definition Draw (s : t) (re : RandomEngine) : result (nat * t * RandomEngine) :=
  if replace then
    '(rst, re) ← throw s re;
    mret (rst, s, re)
  else
    s ← (if Qge_bool (2 * taken s) (accum s) then Reconstruct s (_prob s) else Ok s);
    Draw_retry (length re) s re.

End CDFSampler.
End CDFSampler.

Module TreeSampler.
Section TreeSampler.
Variable replace : bool.

Record t := {
  weight : list Q;     (* accumulated likelihood of subtrees. *)
  N : nat;
  num_leafs : nat
}.

Definition set_leaf (prob : list Q) (num_leafs : nat) (weight : list Q) (i : nat)
    : result (list Q) :=
  p ← index prob i;
  store weight (num_leafs + i) p.

Definition sum_children (weight : list Q) (i : nat) : result (list Q) :=
  l ← index weight (i * 2);
  r ← index weight (i * 2 + 1);
  store weight i (l + r)%Q.

Definition ResetState (s : t) (prob : list Q) : result t :=
  let weight := replicate (length (weight s)) 0%Q in
  weight ← foldM (set_leaf prob (num_leafs s)) (seq 0 (length prob)) weight;
  weight ← foldM sum_children (rev (seq 1 (num_leafs s - 1))) weight;
  mret {| weight := weight; N := N s; num_leafs := num_leafs s |}.

(** [while (num_leafs < prob.size()) num_leafs *= 2] *)
Fixpoint grow (fuel : nat) (num_leafs size : nat) : nat :=
  if decide (num_leafs < size) then
    match fuel with
    | 0 => num_leafs
    | S fuel' => grow fuel' (num_leafs * 2) size
    end
  else num_leafs.

Definition make (prob : list Q) : result t :=
  let num_leafs := grow (length prob) 1 (length prob) in
  let N := num_leafs * 2 in
  ResetState {| weight := replicate N 0%Q; N := N; num_leafs := num_leafs |} prob.

(** The descent [while (cur < num_leafs)]: [cur] at least doubles in every
    round. *)
Fixpoint descend (fuel : nat) (weight : list Q) (num_leafs : nat) (p accum : Q) (cur : nat)
    : result nat :=
  if decide (cur < num_leafs) then
    match fuel with
    | 0 => Err Undefined
    | S fuel' =>
        w_l ← index weight (cur * 2);
        w_r ← index weight (cur * 2 + 1);
        let pivot := (accum + w_l)%Q in
        (* w_r > 0 can depress some numerical problems. *)
        let shift := Qgt_bool p pivot && Qgt_bool w_r 0 in
        if shift
        then descend fuel' weight num_leafs p pivot (cur * 2 + 1)
        else descend fuel' weight num_leafs p accum (cur * 2)
    end
  else Ok cur.

(** The way back up [while (cur >= 1)]: [cur] is halved in every round. *)
Fixpoint ascend (fuel : nat) (weight : list Q) (num_leafs : nat) (cur : nat)
    : result (list Q) :=
  if decide (1 ≤ cur) then
    match fuel with
    | 0 => Err Undefined
    | S fuel' =>
        weight ← (if decide (num_leafs ≤ cur) then store weight cur 0%Q
                  else sum_children weight cur);
        ascend fuel' weight num_leafs (cur / 2)
    end
  else Ok weight.

Definition Draw (s : t) (re : RandomEngine) : result (nat * t * RandomEngine) :=
  let cur := 1 in
  root ← index (weight s) cur;
  '(p, re) ← Uniform re 0 root;
  cur ← descend (num_leafs s) (weight s) (num_leafs s) p 0 cur;
  let rst := cur - num_leafs s in
  if replace then mret (rst, s, re)
  else
    weight ← ascend cur (weight s) (num_leafs s) cur;
    mret (rst, {| weight := weight; N := N s; num_leafs := num_leafs s |}, re).

End TreeSampler.
End TreeSampler.


(** ** Invariants of the expansion and of the NodeFlow construction *)

(** The queue grows by vertices the layer's set does not hold yet: what was
    appended since the layer began is duplicate-free, and the set holds
    exactly the appended vertices. *)
Definition layer_grown (sv0 : list (dgl_id_t * nat))
    (st : gset dgl_id_t * list (dgl_id_t * nat)) : Prop :=
  ∃ new, st.2 = sv0 ++ new ∧ NoDup new.*1 ∧ st.1 = list_to_set new.*1.

(** What holds of the layers recorded so far: the offsets [0..upto] delimit
    them, and no layer holds a vertex twice. *)
Record layers_ok (num_hops upto : nat) (sub_vers : list (dgl_id_t * nat))
    (layer_offsets : list nat) : Prop := {
  lo_length : length layer_offsets = num_hops + 1;
  lo_zero : layer_offsets !! 0 = Some 0;
  lo_top : layer_offsets !! upto = Some (length sub_vers);
  lo_layers : ∀ l, l < upto →
    ∃ first last, layer_offsets !! l = Some first ∧ layer_offsets !! (S l) = Some last
                  ∧ first ≤ last ≤ length sub_vers
                  ∧ NoDup (layer_slice sub_vers first last).*1
}.

(** The offset of layer [l], and the number of vertices in the layers
    [l .. num_hops - 1]: the position in [node_mapping] at which the layer
    that comes after layer [l] in the output starts. *)
Definition off (layer_offsets : list nat) (l : nat) : nat :=
  default 0 (layer_offsets !! l).

Definition rank (layer_offsets : list nat) (num_hops l : nat) : nat :=
  off layer_offsets num_hops - off layer_offsets l.

(** The vertices of layer [l] in the order the output lists them. *)
Definition sorted_layer (sub_vers0 : list (dgl_id_t * nat)) (layer_offsets : list nat)
    (l : nat) : list (dgl_id_t * nat) :=
  sort_by fst (layer_slice sub_vers0 (off layer_offsets l) (off layer_offsets (S l))).

Definition block (sub_vers0 : list (dgl_id_t * nat)) (layer_offsets : list nat)
    (l : nat) : list dgl_id_t :=
  (sorted_layer sub_vers0 layer_offsets l).*1.

(** The state of the first loop of [ConstructNodeFlow] when the layers above
    [l] are done and [k] vertices of layer [l] have been saved. *)
Record ids_inv (layer_offsets : list nat) (sub_vers0 : list (dgl_id_t * nat))
    (num_hops l k : nat) (s : ConstructNodeFlow.ids_state) : Prop := {
  ii_mono : ∀ l', l ≤ l' < num_hops →
    off layer_offsets l' ≤ off layer_offsets (S l') ≤ length sub_vers0;
  ii_len_sv : length (ConstructNodeFlow.sub_vers s) = length sub_vers0;
  ii_frame : take (off layer_offsets l) (ConstructNodeFlow.sub_vers s)
             = take (off layer_offsets l) sub_vers0;
  ii_slice : layer_slice (ConstructNodeFlow.sub_vers s)
               (off layer_offsets l) (off layer_offsets (S l))
             = sorted_layer sub_vers0 layer_offsets l;
  ii_idx : ConstructNodeFlow.out_node_idx s = rank layer_offsets num_hops (S l) + k;
  ii_ver : ConstructNodeFlow.ver_id s = rank layer_offsets num_hops (S l) + k;
  ii_len_nm : length (ConstructNodeFlow.node_map_data s) = length sub_vers0;
  ii_nm : take (rank layer_offsets num_hops (S l) + k) (ConstructNodeFlow.node_map_data s)
          = concat (map (block sub_vers0 layer_offsets)
                        (rev (seq (S l) (num_hops - S l))))
            ++ take k (block sub_vers0 layer_offsets l);
  ii_len_maps : length (ConstructNodeFlow.layer_ver_maps s) = num_hops;
  ii_sound : ∀ l' m v i,
    ConstructNodeFlow.layer_ver_maps s !! l' = Some m → m !! v = Some i →
    l ≤ l' ∧ rank layer_offsets num_hops (S l') ≤ i
    ∧ block sub_vers0 layer_offsets l' !! (i - rank layer_offsets num_hops (S l')) = Some v
    ∧ (l' = l → i < rank layer_offsets num_hops (S l) + k);
  ii_complete : ∀ l' p v,
    l ≤ l' < num_hops → (l' = l → p < k) →
    block sub_vers0 layer_offsets l' !! p = Some v →
    ∃ m i, ConstructNodeFlow.layer_ver_maps s !! l' = Some m ∧ m !! v = Some i
}.

(** The state of the first loop between two layers: the layers [l] and above
    are done. *)
Record ids_done (layer_offsets : list nat) (sub_vers0 : list (dgl_id_t * nat))
    (num_hops l : nat) (s : ConstructNodeFlow.ids_state) : Prop := {
  id_mono : ∀ l', l ≤ l' < num_hops →
    off layer_offsets l' ≤ off layer_offsets (S l') ≤ length sub_vers0;
  id_len_sv : length (ConstructNodeFlow.sub_vers s) = length sub_vers0;
  id_frame : take (off layer_offsets l) (ConstructNodeFlow.sub_vers s)
             = take (off layer_offsets l) sub_vers0;
  id_idx : ConstructNodeFlow.out_node_idx s = rank layer_offsets num_hops l;
  id_ver : ConstructNodeFlow.ver_id s = rank layer_offsets num_hops l;
  id_len_nm : length (ConstructNodeFlow.node_map_data s) = length sub_vers0;
  id_nm : take (rank layer_offsets num_hops l) (ConstructNodeFlow.node_map_data s)
          = concat (map (block sub_vers0 layer_offsets) (rev (seq l (num_hops - l))));
  id_len_maps : length (ConstructNodeFlow.layer_ver_maps s) = num_hops;
  id_sound : ∀ l' m v i,
    ConstructNodeFlow.layer_ver_maps s !! l' = Some m → m !! v = Some i →
    l ≤ l' ∧ rank layer_offsets num_hops (S l') ≤ i
    ∧ block sub_vers0 layer_offsets l' !! (i - rank layer_offsets num_hops (S l')) = Some v;
  id_complete : ∀ l' p v,
    l ≤ l' < num_hops →
    block sub_vers0 layer_offsets l' !! p = Some v →
    ∃ m i, ConstructNodeFlow.layer_ver_maps s !! l' = Some m ∧ m !! v = Some i
}.

(** A column value [c] of row [r] is in the adjacent layer: for the layer
    [l] whose block of [node_mapping] holds [r], the block of layer [l + 1],
    one hop further from the seeds, holds [c]. *)
Definition in_adjacent (layer_offsets : list nat) (num_hops r c : nat) : Prop :=
  ∃ l, S l < num_hops
       ∧ rank layer_offsets num_hops (S l) ≤ r < rank layer_offsets num_hops l
       ∧ rank layer_offsets num_hops (S (S l)) ≤ c < rank layer_offsets num_hops (S l).

(** The state of the second loop of [ConstructNodeFlow]: the rows written so
    far are delimited by non-decreasing offsets, the last of them the number
    of edges collected, and the columns of each of them are local ids of the
    adjacent layer. *)
Record rows_inv (layer_offsets : list nat) (num_hops num_vertices num_edges : nat)
    (s : ConstructNodeFlow.rows_state) : Prop := {
  ri_len_indptr : length (ConstructNodeFlow.indptr_out s) = num_vertices + 1;
  ri_len_col : length (ConstructNodeFlow.col_list_out s) = num_edges;
  ri_len_em : length (ConstructNodeFlow.edge_map_data s) = num_edges;
  ri_len_lod : length (ConstructNodeFlow.layer_off_data s) = num_hops + 1;
  ri_top : ConstructNodeFlow.indptr_out s !! ConstructNodeFlow.row_idx s
           = Some (ConstructNodeFlow.collected_nedges s);
  ri_mono : ∀ r a b,
    r < ConstructNodeFlow.row_idx s →
    ConstructNodeFlow.indptr_out s !! r = Some a →
    ConstructNodeFlow.indptr_out s !! S r = Some b →
    a ≤ b ≤ ConstructNodeFlow.collected_nedges s;
  ri_cols : ∀ r a b e c,
    r < ConstructNodeFlow.row_idx s →
    ConstructNodeFlow.indptr_out s !! r = Some a →
    ConstructNodeFlow.indptr_out s !! S r = Some b →
    a ≤ e < b →
    ConstructNodeFlow.col_list_out s !! e = Some c →
    in_adjacent layer_offsets num_hops r c
}.

(** Between two layers of the second loop: the layers [l] and above have
    their rows and their entry of the output layer offsets. *)
Record rows_done (layer_offsets : list nat) (num_hops num_vertices num_edges l : nat)
    (s : ConstructNodeFlow.rows_state) : Prop := {
  rd_rows : rows_inv layer_offsets num_hops num_vertices num_edges s;
  rd_row_idx : ConstructNodeFlow.row_idx s = rank layer_offsets num_hops l;
  rd_out_layer_idx : ConstructNodeFlow.out_layer_idx s = num_hops - l;
  rd_lod : ∀ b, b ≤ num_hops - l →
    ConstructNodeFlow.layer_off_data s !! b = Some (rank layer_offsets num_hops (num_hops - b))
}.

(** The compact adjacency of a NodeFlow: the one view its graph holds. *)
Definition adjacency (nf : NodeFlow) : option CSR :=
  match in_csr_ (graph nf) with
  | Some csr => Some csr
  | None => out_csr_ (graph nf)
  end.

(** The hop depth of the layer that holds position [j] of [node_mapping]:
    the blocks of [node_mapping] are the layers in decreasing hop depth. *)
Definition block_of (layer_offsets : list nat) (j b : nat) : Prop :=
  ∃ lb ub, layer_offsets !! b = Some lb ∧ layer_offsets !! S b = Some ub ∧ lb ≤ j < ub.

Definition hop_depth (nf : NodeFlow) (j d : nat) : Prop :=
  ∃ b, block_of (layer_offsets nf) j b ∧ d + b + 2 = length (layer_offsets nf).

(** The rows and columns of a compact adjacency. *)
Definition has_edge (csr : CSR) (r c : nat) : Prop :=
  ∃ a b e, indptr csr !! r = Some a ∧ indptr csr !! S r = Some b ∧ a ≤ e < b
           ∧ indices csr !! e = Some c.


(** ** Sum trees *)

(** The weight the tree holds at node [j]; node 1 is the root and the
    children of [j] are [2 * j] and [2 * j + 1]. *)
Definition node_weight (heap : list Q) (j : nat) : Q := nth j heap 0%Q.

(** What [ArrayHeap] maintains: every inner node holds the sum of its two
    children and no weight is negative. *)
Record sum_tree (limit : nat) (heap : list Q) : Prop := {
  sum_tree_length : length heap = 2 * limit;
  sum_tree_sum : ∀ j, 1 ≤ j < limit →
    (node_weight heap j == node_weight heap (2 * j) + node_weight heap (2 * j + 1))%Q;
  sum_tree_nonneg : ∀ j, 1 ≤ j < 2 * limit → (0 <= node_weight heap j)%Q
}.

(** The node [t] levels above [leaf]. *)
Definition ancestor (leaf t : nat) : nat := Nat.iter t (λ i, i / 2) leaf.

(** The weights [GetNonUniformSample] gathers for a slice: the entry of
    [probability] at each neighbour's vertex id. *)
Definition slice_weights (probability : list Q) (vid_list : list dgl_id_t) (ver_len : nat)
    : list Q :=
  map (λ v, nth v probability 0%Q) (take ver_len vid_list).

(** Vertex [v] and edge [e] belong to one and the same neighbour of the
    slice. *)
Definition same_neighbor (vid_list edge_id_list : list dgl_id_t) (ver_len : nat)
    (v e : dgl_id_t) : Prop :=
  ∃ i, i < ver_len ∧ vid_list !! i = Some v ∧ edge_id_list !! i = Some e.

(** ** Drawing from a sampler *)

(** The total weight of the entries whose [used] flag is not set. *)
Fixpoint unused_weight (prob : list Q) (used : list bool) : Q :=
  match prob, used with
  | p :: prob', u :: used' => ((if u : bool then 0 else p) + unused_weight prob' used')%Q
  | _, _ => 0%Q
  end.

(** [k] calls of [Draw] in a row, on the same sampler and engine: the
    indices returned, in order. *)
Fixpoint draw_many {S : Type} (Draw : S → RandomEngine → result (nat * S * RandomEngine))
    (k : nat) (s : S) (re : RandomEngine) : result (list nat * S * RandomEngine) :=
  match k with
  | 0 => Ok ([], s, re)
  | S k' =>
      '(x, s, re) ← Draw s re;
      '(xs, s, re) ← draw_many Draw k' s re;
      mret (x :: xs, s, re)
  end.

(** What a sampler with a bitmap keeps, whatever the table it draws from:
    [accum] is the weight that was unused when the table was last built, at
    which time [base] was the bitmap, and [taken] the weight drawn since. *)
Definition bitmap_inv (prob : list Q) (used : list bool) (accum taken : Q) : Prop :=
  length used = length prob
  ∧ ∃ base, length base = length prob
      ∧ (∀ i, base !! i = Some true → used !! i = Some true)
      ∧ (accum == unused_weight prob base)%Q
      ∧ (taken == unused_weight prob base - unused_weight prob used)%Q.


(** ** Examples *)

(** The tree [ArrayHeap] builds over the weights 1, 2 and 3. *)
Definition example_heap : ArrayHeap.t :=
  {| ArrayHeap.vec_size_ := 3; ArrayHeap.bit_len_ := 2; ArrayHeap.limit_ := 4;
     ArrayHeap.heap_ := [0%Q; 6%Q; 3%Q; 3%Q; 1%Q; 2%Q; 3%Q; 0%Q] |}.

(** A tree of the same shape that holds no weight. *)
Definition empty_heap : ArrayHeap.t :=
  {| ArrayHeap.vec_size_ := 3; ArrayHeap.bit_len_ := 2; ArrayHeap.limit_ := 4;
     ArrayHeap.heap_ := replicate 8 0%Q |}.

(** ** Cumulative weights *)

(** The sum of the first [i] weights, added up from the left as the samplers
    do. *)
Definition prefix_weight (prob : list Q) (i : nat) : Q :=
  fold_left Qplus (take i prob) 0%Q.

(** [std::max(x, eps)] as [CDFSampler::Draw] computes it. *)
Definition clamp_eps (x : Q) : Q :=
  if Qle_bool x CDFSampler.eps then CDFSampler.eps else x.

(** ** The tree variant on its way back up *)

(** What holds when the nodes below level [t] of the path
    have been rewritten. *)
Definition ascended (b : nat) (w0 : list Q) (leaf t : nat) (w : list Q) : Prop :=
  length w = 2 * 2 ^ b
  ∧ (∀ j, (∀ s, s < t → j ≠ ancestor leaf s) → node_weight w j = node_weight w0 j)
  ∧ (1 ≤ t → node_weight w leaf = 0%Q)
  ∧ (∀ s, 1 ≤ s < t →
       (node_weight w (ancestor leaf s)
        == node_weight w (2 * ancestor leaf s) + node_weight w (2 * ancestor leaf s + 1))%Q)
  ∧ (∀ s, s < t → (0 <= node_weight w (ancestor leaf s))%Q).


(** ** Sampling from a well-formed graph *)

(** A computation that fails in one way only: it runs out of random values,
    and only when [R] holds. *)
Definition safe (R : Prop) {A} (P : A → Prop) (r : result A) : Prop :=
  match r with
  | Ok a => P a
  | Err e => e = OutOfRandomness ∧ R
  end.

(** A compressed adjacency over [n] vertices: [n + 1] row offsets that do
    not decrease and stay inside the two edge arrays, and columns that are
    vertices. *)
Record csr_ok (csr : CSR) (n : nat) : Prop := {
  co_length : length (indptr csr) = n + 1;
  co_mono : ∀ v, v < n → off (indptr csr) v ≤ off (indptr csr) (S v);
  co_indices : off (indptr csr) n ≤ length (indices csr);
  co_edge_ids : off (indptr csr) n ≤ length (edge_ids csr);
  co_cols : Forall (λ c, c < n) (indices csr)
}.

Definition degree (csr : CSR) (v : nat) : nat :=
  off (indptr csr) (S v) - off (indptr csr) v.

(** Slot [t] of the row of [u] holds the neighbour [v] and the edge id
    [eid]. *)
Definition csr_slot (csr : CSR) (u t v eid : nat) : Prop :=
  t < degree csr u
  ∧ indices csr !! (off (indptr csr) u + t) = Some v
  ∧ edge_ids csr !! (off (indptr csr) u + t) = Some eid.

Definition csr_edge (csr : CSR) (u v eid : nat) : Prop :=
  ∃ t, csr_slot csr u t v eid.

(** The view of the graph an edge type selects. *)
Definition view (graph : ImmutableGraph) (edge_type : string) : result CSR :=
  if String.eqb edge_type "in" then GetInCSR graph else GetOutCSR graph.

(** ** What the frontier expansion records *)

(** The number of neighbours recorded for the rows before row [i]. *)
Definition row_pos (neigh_pos : list neighbor_info.t) (i : nat) : nat :=
  sum_list_with neighbor_info.num_edges (take i neigh_pos).

(** Row [i] of the expansion belongs to the [i]-th vertex of the queue; its
    neighbours follow those of the rows before it in the shared buffers;
    they are read from [min degree k] slots of the vertex's row of the
    graph, in slot order, and each of them is in the queue one level
    deeper. *)
Definition row_sampled (csr : CSR) (k : nat) (s : SampleSubgraph.state) (i : nat)
    (np : neighbor_info.t) : Prop :=
  ∃ lvl idxs,
    SampleSubgraph.sub_vers s !! i = Some (neighbor_info.id np, lvl)
    ∧ neighbor_info.pos np = row_pos (SampleSubgraph.neigh_pos s) i
    ∧ neighbor_info.num_edges np = degree csr (neighbor_info.id np) `min` k
    ∧ length idxs = neighbor_info.num_edges np
    ∧ StronglySorted lt idxs
    ∧ ∀ j t, idxs !! j = Some t →
        ∃ w eid i',
          csr_slot csr (neighbor_info.id np) t w eid
          ∧ SampleSubgraph.neighbor_list s !! (neighbor_info.pos np + j) = Some w
          ∧ SampleSubgraph.edge_list s !! (neighbor_info.pos np + j) = Some eid
          ∧ SampleSubgraph.sub_vers s !! i' = Some (w, S lvl).

Record rows_sampled (csr : CSR) (n k : nat) (s : SampleSubgraph.state) : Prop := {
  rs_edges : SampleSubgraph.num_edges s = length (SampleSubgraph.neighbor_list s);
  rs_edge_list : length (SampleSubgraph.edge_list s) = length (SampleSubgraph.neighbor_list s);
  rs_total : length (SampleSubgraph.neighbor_list s)
             = row_pos (SampleSubgraph.neigh_pos s) (length (SampleSubgraph.neigh_pos s));
  rs_valid : ∀ i p, SampleSubgraph.sub_vers s !! i = Some p → p.1 < n;
  rs_rows : ∀ i np, SampleSubgraph.neigh_pos s !! i = Some np → row_sampled csr k s i np
}.

(** The expansion between two layers: the layers below [upto] are
    delimited, every vertex of layer [l] is queued with level [l], and the
    vertices of the layers below [upto - 1] have their rows. *)
Record expanded (csr : CSR) (n k num_hops upto : nat) (s : SampleSubgraph.state) : Prop := {
  ex_layers : layers_ok num_hops upto (SampleSubgraph.sub_vers s)
                (SampleSubgraph.layer_offsets s);
  ex_levels : ∀ l i p,
    l < upto →
    off (SampleSubgraph.layer_offsets s) l ≤ i < off (SampleSubgraph.layer_offsets s) (S l) →
    SampleSubgraph.sub_vers s !! i = Some p → p.2 = l;
  ex_rows_len : length (SampleSubgraph.neigh_pos s)
                = off (SampleSubgraph.layer_offsets s) (upto - 1);
  ex_rows : rows_sampled csr n k s
}.

(** The expansion inside layer [upto - 1], of which [j] vertices have their
    rows: the queue has grown, since the layer began with the queue [sv0],
    by the distinct vertices of the layer's set, all of level [upto]. *)
Record expanding (csr : CSR) (n k upto : nat) (sv0 : list (dgl_id_t * nat))
    (lo0 : list nat) (j : nat) (s : SampleSubgraph.state) : Prop := {
  eg_offsets : SampleSubgraph.layer_offsets s = lo0;
  eg_grown : ∃ new,
    SampleSubgraph.sub_vers s = sv0 ++ new ∧ NoDup new.*1
    ∧ SampleSubgraph.sub_ver_map s = list_to_set new.*1
    ∧ Forall (λ p, p.2 = upto) new;
  eg_rows_len : length (SampleSubgraph.neigh_pos s) = off lo0 (upto - 1) + j;
  eg_rows : rows_sampled csr n k s
}.

(** Some vertex has more neighbours than the fan-out [k]: only then does
    the uniform selection consume random values. *)
Definition needs_random (csr : CSR) (n k : nat) : Prop :=
  ∃ v, v < n ∧ k < degree csr v.

(** ** What the NodeFlow holds *)

(** Row [r] of the compact adjacency of a NodeFlow built over the graph
    [csr] with fan-out [k]: with [u] the vertex at position [r] of
    [node_mapping], the row is empty when [r] is in the first block, the
    deepest layer, and has [min degree k] columns otherwise; its columns are
    read from slots of the row of [u] in the graph, at strictly increasing
    slot positions: the column is the position in [node_mapping] of the
    slot's neighbour, and [edge_mapping] holds the slot's edge id. *)
Definition row_filled (csr : CSR) (k : nat) (nm : list dgl_id_t) (deepest : nat)
    (indptr col em : list nat) (r : nat) : Prop :=
  ∃ a u idxs,
    indptr !! r = Some a ∧ indptr !! S r = Some (a + length idxs) ∧ nm !! r = Some u
    ∧ StronglySorted lt idxs
    ∧ length idxs = (if decide (r < deepest) then 0 else degree csr u `min` k)
    ∧ ∀ j t, idxs !! j = Some t →
        ∃ c w eid, col !! (a + j) = Some c ∧ nm !! c = Some w ∧ em !! (a + j) = Some eid
                   ∧ csr_slot csr u t w eid.

(** The number of neighbours recorded for the rows from position [i] on. *)
Definition rows_from (neigh_pos : list neighbor_info.t) (i : nat) : nat :=
  sum_list_with neighbor_info.num_edges (drop i neigh_pos).

(** The second loop of [ConstructNodeFlow] when [row] rows are written and
    [coll] neighbours collected. *)
Record rows_filling (csr : CSR) (k : nat) (nm : list dgl_id_t) (deepest : nat)
    (row coll : nat) (s : ConstructNodeFlow.rows_state) : Prop := {
  rf_row : ConstructNodeFlow.row_idx s = row;
  rf_collected : ConstructNodeFlow.collected_nedges s = coll;
  rf_rows : ∀ r, r < row →
    row_filled csr k nm deepest (ConstructNodeFlow.indptr_out s)
      (ConstructNodeFlow.col_list_out s) (ConstructNodeFlow.edge_map_data s) r
}.

(** The star 0 → 1, 0 → 2, 0 → 3. *)
Definition star4_csr : CSR :=
  {| indptr := [0; 3; 3; 3; 3]; indices := [1; 2; 3]; edge_ids := [10; 11; 12] |}.

Definition star4 : ImmutableGraph :=
  {| in_csr_ := None; out_csr_ := Some star4_csr; is_multigraph_ := false |}.

(** The NodeFlow one hop from the seed 0 of [star4] with fan-out 2, when the
    random value drawn leaves out the last neighbour. *)
Definition star4_nodeflow : NodeFlow :=
  {| graph := {| in_csr_ := None;
                 out_csr_ := Some {| indptr := [0; 0; 0; 2]; indices := [0; 1];
                                     edge_ids := [0; 1] |};
                 is_multigraph_ := false |};
     node_mapping := [1; 2; 0];
     edge_mapping := [10; 11];
     layer_offsets := [0; 2; 3];
     flow_offsets := [0; 2] |}.


(** ** [ArrayHeap] over binary32 weights

    The class once more, with its weights as the source has them: [float],
    IEEE 754 binary32, every sum and difference rounded to the nearest
    number, ties to even.  The threshold
    [heap_[1] * (rand_r(seed) % 100 / 101.0)] is computed in binary64, the
    type of [101.0], and rounded to binary32 when it is stored in [xi]. *)

Module Binary32.

(** The binary32 number [m * 2 ^ e], rounded. *)
Definition of_Z (m e : Z) : spec_float := binary_normalize 24 128 m e false.

Definition zero : spec_float := S754_zero false.
Definition add : spec_float → spec_float → spec_float := SFadd 24 128.
Definition sub : spec_float → spec_float → spec_float := SFsub 24 128.

(** [a >= b] *)
Definition ge (a b : spec_float) : bool := SFleb b a.

(** Conversions between [float] and [double]. *)
Definition to_double (x : spec_float) : spec_float :=
  match x with
  | S754_finite s m e => binary_normalize 53 1024 (if s then Z.neg m else Z.pos m) e s
  | _ => x
  end.

Definition of_double (x : spec_float) : spec_float :=
  match x with
  | S754_finite s m e => binary_normalize 24 128 (if s then Z.neg m else Z.pos m) e s
  | _ => x
  end.

Definition double_of_nat (n : nat) : spec_float :=
  binary_normalize 53 1024 (Z.of_nat n) 0 false.

(** [float xi = root * (r % 100 / 101.0)] *)
Definition threshold (root : spec_float) (r : nat) : spec_float :=
  of_double (SFmul 53 1024 (to_double root)
               (SFdiv 53 1024 (double_of_nat (r mod 100)) (double_of_nat 101))).

Module ArrayHeap.

Record t := {
  vec_size_ : nat;   (* sample size *)
  bit_len_ : nat;    (* bit size *)
  limit_ : nat;
  heap_ : list spec_float
}.

Definition with_heap (h : t) (heap : list spec_float) : t :=
  {| vec_size_ := vec_size_ h; bit_len_ := bit_len_ h; limit_ := limit_ h; heap_ := heap |}.

Definition fill_leaf (prob : list spec_float) (limit : nat) (heap : list spec_float)
    (i : nat) : result (list spec_float) :=
  p ← index prob (i - limit);
  store heap i p.

Definition sum_children (heap : list spec_float) (j : nat) : result (list spec_float) :=
  l ← index heap (2 * j);
  r ← index heap (2 * j + 1);
  store heap j (add l r).

Definition sum_level (heap : list spec_float) (i : nat) : result (list spec_float) :=
  foldM sum_children (seq (2 ^ i) (2 ^ i)) heap.

Definition make (prob : list spec_float) : result t :=
  let vec_size := length prob in
  if decide (vec_size = 0) then Err Undefined else
  let bit_len := Nat.log2_up vec_size in
  let limit := 2 ^ bit_len in
  (* allocate twice the size *)
  let heap := replicate (2 * limit) zero in
  (* allocate the leaves *)
  heap ← foldM (fill_leaf prob limit) (seq limit vec_size) heap;
  (* iterate up the tree *)
  heap ← foldM sum_level (rev (seq 0 bit_len)) heap;
  mret {| vec_size_ := vec_size; bit_len_ := bit_len; limit_ := limit; heap_ := heap |}.

Definition Delete_step (w : spec_float) (st : list spec_float * nat) (j : nat)
    : result (list spec_float * nat) :=
  let '(heap, i) := st in
  v ← index heap i;
  heap ← store heap i (sub v w);
  mret (heap, i / 2).

(** Remove term from index *)
Definition Delete (h : t) (idx : nat) : result t :=
  let i := idx + limit_ h in
  w ← index (heap_ h) i;
  '(heap, _) ← foldM (Delete_step w) (rev (seq 0 (bit_len_ h + 1))) (heap_ h, i);
  mret (with_heap h heap).

Fixpoint Sample_loop (fuel : nat) (heap : list spec_float) (limit : nat)
    (xi : spec_float) (i : nat) : result nat :=
  if decide (i < limit) then
    match fuel with
    | 0 => Err Undefined
    | S fuel' =>
        let i := 2 * i in
        w ← index heap i;
        if ge xi w
        then Sample_loop fuel' heap limit (sub xi w) (i + 1)
        else Sample_loop fuel' heap limit xi i
    end
  else Ok i.

(** Sample from arrayHeap *)
Definition Sample (h : t) (seed : seed_t) : result (nat * seed_t) :=
  root ← index (heap_ h) 1;
  '(r, seed) ← rand_r seed;
  let xi := threshold root r in
  i ← Sample_loop (limit_ h) (heap_ h) (limit_ h) xi 1;
  mret (i - limit_ h, seed).

Definition SampleWithoutReplacement_step
    (st : t * list nat * seed_t) (i : nat) : result (t * list nat * seed_t) :=
  let '(h, samples, seed) := st in
  '(s, seed) ← Sample h seed;
  (if decide (i < length samples) then Ok () else Err OutOfRange);;
  let samples := <[i:=s]> samples in
  h ← Delete h s;
  mret (h, samples, seed).

(** Sample a vector by given the size n *)
Definition SampleWithoutReplacement (h : t) (n : nat) (samples : list nat) (seed : seed_t)
    : result (t * list nat * seed_t) :=
  foldM SampleWithoutReplacement_step (seq 0 n) (h, samples, seed).

End ArrayHeap.

Definition gather_prob (probability : list spec_float) (vid_list : list dgl_id_t)
    (sp_prob : list spec_float) (i : nat) : result (list spec_float) :=
  v ← index vid_list i;
  p ← index probability v;
  store sp_prob i p.

(** [GetNonUniformSample]: non-uniform sample via ArrayHeap *)
Definition GetNonUniformSample (probability : list spec_float)
    (edge_id_list vid_list : list dgl_id_t)
    (ver_len max_num_neighbor : nat) (out_ver out_edge : list dgl_id_t) (seed : seed_t)
    : result (list dgl_id_t * list dgl_id_t * seed_t) :=
  (* Copy vid_list to output *)
  if decide (ver_len ≤ max_num_neighbor) then
    vs ← read_range vid_list ver_len;
    es ← read_range edge_id_list ver_len;
    mret (out_ver ++ vs, out_edge ++ es, seed)
  else
    (* Make sample *)
    let sp_index := replicate max_num_neighbor 0 in
    let sp_prob := replicate ver_len zero in
    sp_prob ← foldM (gather_prob probability vid_list) (seq 0 ver_len) sp_prob;
    arrayHeap ← ArrayHeap.make sp_prob;
    '(_, sp_index, seed) ←
      ArrayHeap.SampleWithoutReplacement arrayHeap max_num_neighbor sp_index seed;
    let out_ver := resize out_ver max_num_neighbor 0 in
    let out_edge := resize out_edge max_num_neighbor 0 in
    '(out_ver, out_edge) ←
      foldM (write_pair vid_list edge_id_list sp_index) (seq 0 max_num_neighbor)
            (out_ver, out_edge);
    mret (sort_by id out_ver, sort_by id out_edge, seed).

End Binary32.


(** * Properties *)

(** ** Outcomes, buffers and loops *)

Lemma bind_Ok {A B} (m : result A) (k : A → result B) (r : B) :
  (m ≫= k) = Ok r ↔ ∃ a, m = Ok a ∧ k a = Ok r.
Proof.
  destruct m as [a|e]; simpl.
  - split; [eauto | intros (a' & [= <-] & Hk); done].
  - split; [intros [=] | intros (a' & [=] & _)].
Qed.

Lemma bind_Err {A B} (m : result A) (k : A → result B) (e : error) :
  (m ≫= k) = Err e ↔ m = Err e ∨ ∃ a, m = Ok a ∧ k a = Err e.
Proof.
  destruct m as [a|e']; simpl.
  - split; [eauto | intros [[=] | (a' & [= <-] & Hk)]; done].
  - split; [intros [= ->]; by left | intros [[= ->] | (a' & [=] & _)]; done].
Qed.

Lemma CHECK_Ok (b : bool) (u : unit) : CHECK b = Ok u ↔ b = true.
Proof. destruct b, u; simpl; split; congruence. Qed.

(** Decompose a hypothesis [m ≫= k = Ok r] into its steps. *)
Ltac inv_ok H :=
  repeat match type of H with
  | (_ ≫= _) = Ok _ =>
      let x := fresh "x" in let Hx := fresh "H" x in
      apply bind_Ok in H as (x & Hx & H)
  | Ok _ = Ok _ => injection H as H
  | mret _ = Ok _ => injection H as H
  | Err _ = Ok _ => discriminate H
  end.

Lemma index_Ok {A} (v : list A) (i : nat) (x : A) : index v i = Ok x ↔ v !! i = Some x.
Proof. unfold index. destruct (v !! i); split; congruence. Qed.

Lemma index_lt {A} (v : list A) (i : nat) (d : A) :
  i < length v → index v i = Ok (nth i v d).
Proof.
  intros Hi. apply index_Ok.
  destruct (lookup_lt_is_Some_2 v i Hi) as [x Hx].
  rewrite Hx. f_equal. symmetry. by apply nth_lookup_Some.
Qed.

Lemma index_Err {A} (v : list A) (i : nat) (e : error) :
  index v i = Err e → e = Undefined ∧ length v ≤ i.
Proof.
  unfold index. destruct (v !! i) eqn:E; [done|]. intros [= <-].
  split; [done|]. by apply lookup_ge_None.
Qed.

Lemma at_Ok {A} (v : list A) (i : nat) (x : A) : at_ v i = Ok x ↔ v !! i = Some x.
Proof. unfold at_. destruct (v !! i); split; congruence. Qed.

Lemma store_Ok {A} (v : list A) (i : nat) (x : A) (v' : list A) :
  store v i x = Ok v' ↔ i < length v ∧ v' = <[i:=x]> v.
Proof. unfold store. case_decide; split; try intros [? ?]; try congruence; try lia. intros [= <-]; done. Qed.

Lemma store_length {A} (v : list A) (i : nat) (x : A) (v' : list A) :
  store v i x = Ok v' → length v' = length v.
Proof. intros (_ & ->)%store_Ok. by rewrite length_insert. Qed.

(** Writing the cell just after a filled prefix. *)
Lemma store_next {A} (pre : list A) (y : A) (rest : list A) (i : nat) (x : A) :
  i = length pre →
  store (pre ++ y :: rest) i x = Ok ((pre ++ [x]) ++ rest).
Proof.
  intros ->. unfold store. rewrite decide_True.
  - f_equal. rewrite insert_app_r_alt, Nat.sub_diag by lia. simpl.
    by rewrite <- app_assoc.
  - rewrite length_app. simpl. lia.
Qed.

Ltac destruct_pairs :=
  repeat match goal with x : (_ * _)%type |- _ => destruct x as [? ?] end.

(** Turn the successful steps in the context into facts about the data. *)
Ltac simpl_res :=
  repeat match goal with
  | H : CHECK (bool_decide _) = Ok _ |- _ => apply CHECK_Ok, bool_decide_eq_true in H
  | H : CHECK (negb (bool_decide _)) = Ok _ |- _ =>
      apply CHECK_Ok, negb_true_iff, bool_decide_eq_false in H
  | H : index _ _ = Ok _ |- _ => apply index_Ok in H
  | H : at_ _ _ = Ok _ |- _ => apply at_Ok in H
  | H : store _ _ _ = Ok ?v |- _ => apply store_Ok in H as [? ?]; subst v
  end.

Lemma usub_le (a b : nat) : b ≤ a → usub a b = a - b.
Proof. intros. unfold usub. by rewrite decide_True. Qed.

Lemma foldM_app {A B} (f : A → B → result A) (l1 l2 : list B) (a : A) :
  foldM f (l1 ++ l2) a = foldM f l1 a ≫= foldM f l2.
Proof.
  revert a. induction l1 as [|b l1 IH]; intros a; simpl; [done|].
  destruct (f a b) as [a'|e]; simpl; [apply IH | done].
Qed.

(** A loop invariant that may mention the position in the iteration. *)
Lemma foldM_invariant {A B} (f : A → B → result A) (I : nat → A → Prop)
    (l : list B) (a a' : A) :
  (∀ n b s s', l !! n = Some b → I n s → f s b = Ok s' → I (S n) s') →
  I 0 a → foldM f l a = Ok a' → I (length l) a'.
Proof.
  revert I a. induction l as [|b l IH]; intros I a Hstep H0 Hf; simpl in *.
  - by injection Hf as <-.
  - inv_ok Hf.
    apply (IH (λ n, I (S n)) x); [|by apply (Hstep 0 b a x)|exact Hf].
    intros n b' s s' Hn Hs Hfs. exact (Hstep (S n) b' s s' Hn Hs Hfs).
Qed.

(** The same for a range [first, first + n). *)
Lemma foldM_seq_invariant {A} (f : A → nat → result A) (I : nat → A → Prop)
    (first n : nat) (a a' : A) :
  (∀ i s s', first ≤ i < first + n → I i s → f s i = Ok s' → I (S i) s') →
  I first a → foldM f (seq first n) a = Ok a' → I (first + n) a'.
Proof.
  intros Hstep H0 Hf.
  pose proof (foldM_invariant f (λ k, I (first + k)) (seq first n) a a') as HI.
  rewrite length_seq in HI. apply HI; [|by rewrite Nat.add_0_r|done].
  intros k b s s' Hk Hs Hfs. apply lookup_seq in Hk as [-> Hk].
  rewrite Nat.add_succ_r. apply (Hstep _ s s'); [lia|done..].
Qed.

(** Looking into a concatenation of blocks that all have length [n]. *)
Lemma lookup_concat_uniform {A} (n : nat) (bs : list (list A)) (q r : nat) :
  Forall (λ b, length b = n) bs → r < n →
  concat bs !! (q * n + r) = bs !! q ≫= (.!! r).
Proof.
  intros Hbs Hr. revert q. induction Hbs as [|b bs Hb _ IH]; intros q; simpl.
  - by rewrite !lookup_nil.
  - destruct q as [|q]; simpl.
    + rewrite lookup_app_l by lia. done.
    + rewrite lookup_app_r by lia.
      replace (n + q * n + r - length b) with (q * n + r) by lia. apply IH.
Qed.

Lemma length_concat_uniform {A} (n : nat) (bs : list (list A)) :
  Forall (λ b, length b = n) bs → length (concat bs) = length bs * n.
Proof.
  induction 1 as [|b bs Hb _ IH]; simpl; [done|].
  rewrite length_app. lia.
Qed.

Lemma forall_lt_or_exists (P : nat → Prop) `{∀ k, Decision (P k)} (n : nat) :
  (∀ k, k < n → P k) ∨ (∃ k, k < n ∧ ¬ P k).
Proof.
  induction n as [|n [IH|(k & Hk & Hbad)]].
  - left. lia.
  - destruct (decide (P n)) as [E|E].
    + left. intros k Hk. destruct (decide (k = n)) as [->|]; [done|]. apply IH. lia.
    + right. exists n. split; [lia|done].
  - right. exists k. split; [lia|done].
Qed.

Lemma list_filter_iff_in {A} (P1 P2 : A → Prop)
    `{!∀ x, Decision (P1 x), !∀ x, Decision (P2 x)} (l : list A) :
  (∀ x, x ∈ l → P1 x ↔ P2 x) → filter P1 l = filter P2 l.
Proof.
  induction l as [|a l IH]; intros Hiff; [done|].
  rewrite !filter_cons. rewrite IH by (intros x Hx; apply Hiff; by right).
  pose proof (Hiff a ltac:(by left)) as Ha.
  destruct (decide (P1 a)), (decide (P2 a)); tauto || done.
Qed.

Lemma take_take_le {A} (l : list A) (n m : nat) : n ≤ m → take n (take m l) = take n l.
Proof. intros Hle. rewrite take_take. f_equal. lia. Qed.

(** Counting down: [rev (seq 0 n)] is [n - 1, ..., 1, 0]. *)
Lemma rev_seq_S (n : nat) : rev (seq 0 (S n)) = n :: rev (seq 0 n).
Proof. rewrite seq_S, rev_app_distr. done. Qed.

Lemma rev_seq_lookup (n k l : nat) :
  rev (seq 0 n) !! k = Some l ↔ k < n ∧ l = n - 1 - k.
Proof.
  revert k. induction n as [|n IH]; intros k.
  - simpl. rewrite lookup_nil. split; [done|lia].
  - rewrite rev_seq_S. destruct k as [|k]; simpl.
    + split; [intros [= <-]; lia | intros [_ ->]; f_equal; lia].
    + rewrite IH. split; intros [? ->]; split; lia.
Qed.


(** ** Filling a buffer block by block *)

Section fill.
Context {A : Type}.
Variable f : list A → nat → result (list A).
Variable blk : nat → list A.
Variable good : nat → Prop.
Variables c sz : nat.

Hypothesis blk_length : ∀ i, length (blk i) = sz.
Hypothesis f_ok : ∀ i pre mid post,
  good i → length pre = c + i * sz → length mid = sz →
  f (pre ++ mid ++ post) i = Ok (pre ++ blk i ++ post).

Lemma foldM_fill_ok (n i0 : nat) (pre mid post : list A) :
  (∀ i, i0 ≤ i < i0 + n → good i) →
  length pre = c + i0 * sz → length mid = n * sz →
  foldM f (seq i0 n) (pre ++ mid ++ post)
  = Ok (pre ++ concat (map blk (seq i0 n)) ++ post).
Proof.
  revert i0 pre mid. induction n as [|n IH]; intros i0 pre mid Hgood Hpre Hmid.
  - destruct mid; [done | simpl in Hmid; lia].
  - simpl in *. rewrite <- (take_drop sz mid), <- (app_assoc (take sz mid)).
    rewrite f_ok; [simpl| apply Hgood; lia | done | rewrite length_take; lia].
    rewrite (app_assoc pre (blk i0)), IH.
    + by rewrite <- !app_assoc.
    + intros i Hi. apply Hgood. lia.
    + rewrite length_app, blk_length. lia.
    + rewrite length_drop. lia.
Qed.

Hypothesis f_err : ∀ i pre mid post,
  ¬ good i → length pre = c + i * sz → length mid = sz →
  f (pre ++ mid ++ post) i = Err Undefined.
Hypothesis good_dec : ∀ i, Decision (good i).

Lemma foldM_fill_err (n i0 : nat) (pre mid post : list A) :
  (∃ i, i0 ≤ i < i0 + n ∧ ¬ good i) →
  length pre = c + i0 * sz → length mid = n * sz →
  foldM f (seq i0 n) (pre ++ mid ++ post) = Err Undefined.
Proof.
  revert i0 pre mid. induction n as [|n IH]; intros i0 pre mid (i & Hi & Hbad) Hpre Hmid.
  - lia.
  - simpl in *. rewrite <- (take_drop sz mid), <- (app_assoc (take sz mid)).
    destruct (good_dec i0) as [Hg|Hg].
    + rewrite f_ok; [simpl| done | done | rewrite length_take; lia].
      rewrite (app_assoc pre (blk i0)). apply IH.
      * exists i. split; [|done]. destruct (decide (i = i0)) as [->|]; [done|lia].
      * rewrite length_app, blk_length. lia.
      * rewrite length_drop. lia.
    + rewrite f_err; [done | done | done | rewrite length_take; lia].
Qed.
End fill.

(** ** Random walks *)

Section RandomWalk_facts.
Context {G : Type} `{GraphInterface G}.
Variable rnd : nat → nat → nat → nat.
Variable gptr : G.

Local Abbreviation visited := (RandomWalker.visited rnd gptr).
Local Abbreviation trace_of := (RandomWalker.trace_of rnd gptr).
Local Abbreviation traces_of := (RandomWalker.traces_of rnd gptr).
Local Abbreviation walk_step := (RandomWalker.walk_step rnd gptr).
Local Abbreviation walk_trace := (RandomWalker.walk_trace rnd gptr).
Local Abbreviation walk_seed := (RandomWalker.walk_seed rnd gptr).
Local Abbreviation RandomWalk := (RandomWalker.RandomWalk rnd gptr).

Local Abbreviation alive := (RandomWalker.alive rnd gptr).

Lemma walk_step_ok (num_traces kmax i j k : nat) (cur y : dgl_id_t)
    (pre rest : list dgl_id_t) :
  length pre = (i * num_traces + j) * kmax + k → SuccVec gptr cur ≠ [] →
  walk_step num_traces kmax i j (pre ++ y :: rest, cur) k
  = Ok ((pre ++ [cur]) ++ rest,
        nth (rnd i j k mod length (SuccVec gptr cur)) (SuccVec gptr cur) 0).
Proof.
  intros Hpre Hsucc. unfold RandomWalker.walk_step.
  rewrite store_next by done. simpl.
  unfold umod. rewrite decide_False by (by destruct (SuccVec gptr cur)).
  simpl. rewrite (index_lt _ _ 0); [done|].
  apply Nat.mod_upper_bound. by destruct (SuccVec gptr cur).
Qed.

Lemma walk_step_dead (num_traces kmax i j k : nat) (cur y : dgl_id_t)
    (pre rest : list dgl_id_t) :
  length pre = (i * num_traces + j) * kmax + k → SuccVec gptr cur = [] →
  walk_step num_traces kmax i j (pre ++ y :: rest, cur) k = Err Undefined.
Proof.
  intros Hpre Hsucc. unfold RandomWalker.walk_step.
  rewrite store_next by done. simpl. by rewrite Hsucc.
Qed.

Lemma walk_steps_ok (num_traces kmax i j : nat) (seed_id : dgl_id_t)
    (n k : nat) (pre mid post : list dgl_id_t) :
  length pre = (i * num_traces + j) * kmax + k → length mid = n →
  (∀ m, m < n → SuccVec gptr (visited seed_id i j (k + m)) ≠ []) →
  foldM (walk_step num_traces kmax i j) (seq k n)
        (pre ++ mid ++ post, visited seed_id i j k)
  = Ok (pre ++ map (visited seed_id i j) (seq k n) ++ post, visited seed_id i j (k + n)).
Proof.
  revert k pre mid. induction n as [|n IH]; intros k pre mid Hpre Hmid Hsucc.
  - destruct mid; [|done]. simpl. by rewrite Nat.add_0_r.
  - destruct mid as [|y mid]; [done|]. simpl in Hmid.
    cbn [seq foldM]. simpl app.
    pose proof (Hsucc 0 ltac:(lia)) as H0. rewrite Nat.add_0_r in H0.
    rewrite walk_step_ok by done. simpl.
    change (nth _ _ 0) with (visited seed_id i j (S k)).
    rewrite (IH (S k) (pre ++ [visited seed_id i j k]) mid).
    + rewrite <- app_assoc. by replace (S k + n) with (k + S n) by lia.
    + rewrite length_app. simpl. lia.
    + lia.
    + intros m Hm. replace (S k + m) with (k + S m) by lia. apply Hsucc. lia.
Qed.

Lemma walk_steps_err (num_traces kmax i j : nat) (seed_id : dgl_id_t)
    (n k : nat) (pre mid post : list dgl_id_t) :
  length pre = (i * num_traces + j) * kmax + k → length mid = n →
  (∃ m, m < n ∧ SuccVec gptr (visited seed_id i j (k + m)) = []) →
  foldM (walk_step num_traces kmax i j) (seq k n)
        (pre ++ mid ++ post, visited seed_id i j k)
  = Err Undefined.
Proof.
  revert k pre mid. induction n as [|n IH]; intros k pre mid Hpre Hmid (m & Hm & Hdead).
  - lia.
  - destruct mid as [|y mid]; [done|]. simpl in Hmid.
    cbn [seq foldM]. simpl app.
    destruct (decide (SuccVec gptr (visited seed_id i j k) = [])) as [E|E].
    + by rewrite walk_step_dead.
    + rewrite walk_step_ok by done. simpl.
      change (nth _ _ 0) with (visited seed_id i j (S k)).
      apply (IH (S k) (pre ++ [visited seed_id i j k]) mid).
      * rewrite length_app. simpl. lia.
      * lia.
      * destruct m as [|m]; [by rewrite Nat.add_0_r in Hdead|].
        exists m. split; [lia|]. by replace (S k + m) with (k + S m) by lia.
Qed.

Lemma length_trace_of seed_id kmax i j : length (trace_of seed_id kmax i j) = kmax.
Proof. unfold RandomWalker.trace_of. by rewrite length_map, length_seq. Qed.

Lemma length_traces_of num_traces kmax seed_id i :
  length (traces_of num_traces kmax seed_id i) = num_traces * kmax.
Proof.
  unfold RandomWalker.traces_of.
  rewrite (length_concat_uniform kmax), length_map, length_seq; [done|].
  apply Forall_forall. intros b (j & -> & _)%list_elem_of_fmap.
  apply length_trace_of.
Qed.

Lemma not_alive (seed_id : dgl_id_t) (i j n : nat) :
  ¬ alive seed_id i j n ↔ ∃ k, k < n ∧ SuccVec gptr (visited seed_id i j k) = [].
Proof.
  split.
  - induction n as [|n IH]; intros Hdead.
    + exfalso. apply Hdead. intros k Hk. lia.
    + destruct (decide (SuccVec gptr (visited seed_id i j n) = [])) as [E|E];
        [by exists n; split; [lia|]|].
      destruct IH as (k & Hk & Hkd).
      * intros Hn. apply Hdead. intros k Hk.
        destruct (decide (k = n)) as [->|]; [done|]. apply Hn. lia.
      * exists k. split; [lia|done].
  - intros (k & Hk & Hkd) Halive. by apply (Halive k).
Qed.

Lemma walk_trace_ok (num_traces kmax i : nat) (seed_id : dgl_id_t)
    (j : nat) (pre mid post : list dgl_id_t) :
  alive seed_id i j kmax →
  length pre = i * num_traces * kmax + j * kmax → length mid = kmax →
  walk_trace num_traces kmax i seed_id (pre ++ mid ++ post) j
  = Ok (pre ++ trace_of seed_id kmax i j ++ post).
Proof.
  intros Halive Hpre Hmid. unfold RandomWalker.walk_trace.
  change seed_id with (visited seed_id i j 0) at 1.
  rewrite (walk_steps_ok num_traces kmax i j seed_id kmax 0); [done|lia|done|].
  intros m Hm. by apply Halive.
Qed.

Lemma walk_trace_err (num_traces kmax i : nat) (seed_id : dgl_id_t)
    (j : nat) (pre mid post : list dgl_id_t) :
  ¬ alive seed_id i j kmax →
  length pre = i * num_traces * kmax + j * kmax → length mid = kmax →
  walk_trace num_traces kmax i seed_id (pre ++ mid ++ post) j = Err Undefined.
Proof.
  intros Hdead Hpre Hmid. unfold RandomWalker.walk_trace.
  change seed_id with (visited seed_id i j 0) at 1.
  rewrite (walk_steps_err num_traces kmax i j seed_id kmax 0); [done|lia|done|].
  by apply not_alive.
Qed.
Local Abbreviation seed_alive := (RandomWalker.seed_alive rnd gptr).

Lemma walk_seed_ok (seeds : list dgl_id_t) (num_traces kmax i : nat)
    (pre mid post : list dgl_id_t) :
  seed_alive seeds num_traces kmax i →
  length pre = 0 + i * (num_traces * kmax) → length mid = num_traces * kmax →
  walk_seed seeds num_traces kmax (pre ++ mid ++ post) i
  = Ok (pre ++ traces_of num_traces kmax (nth i seeds 0) i ++ post).
Proof.
  intros [Hi Halive] Hpre Hmid. unfold RandomWalker.walk_seed.
  rewrite (index_lt _ _ 0) by done. simpl.
  apply (foldM_fill_ok _ _ (λ j, alive (nth i seeds 0) i j kmax) (i * num_traces * kmax) kmax).
  - intros j. apply length_trace_of.
  - intros j pre' mid' post' Hj Hpre' Hmid'. by apply walk_trace_ok.
  - intros j Hj. apply Halive. lia.
  - lia.
  - done.
Qed.

Lemma walk_seed_err (seeds : list dgl_id_t) (num_traces kmax i : nat)
    (pre mid post : list dgl_id_t) :
  ¬ seed_alive seeds num_traces kmax i →
  length pre = 0 + i * (num_traces * kmax) → length mid = num_traces * kmax →
  walk_seed seeds num_traces kmax (pre ++ mid ++ post) i = Err Undefined.
Proof.
  intros Hdead Hpre Hmid. unfold RandomWalker.walk_seed.
  destruct (decide (i < length seeds)) as [Hi|Hi].
  - rewrite (index_lt _ _ 0) by done. simpl.
    apply (foldM_fill_err _ (trace_of (nth i seeds 0) kmax i)
             (λ j, alive (nth i seeds 0) i j kmax) (i * num_traces * kmax) kmax).
    + intros j. apply length_trace_of.
    + intros j pre' mid' post' Hj Hpre' Hmid'. by apply walk_trace_ok.
    + intros j pre' mid' post' Hj Hpre' Hmid'. by apply walk_trace_err.
    + apply _.
    + destruct (forall_lt_or_exists (λ j, alive (nth i seeds 0) i j kmax) num_traces)
        as [Hall|(j & Hj & Hbad)].
      * exfalso. apply Hdead. by split.
      * exists j. split; [lia|done].
    + lia.
    + done.
  - unfold index. rewrite lookup_ge_None_2 by lia. done.
Qed.

Local Abbreviation all_traces := (RandomWalker.all_traces rnd gptr).

Lemma RandomWalk_ok (seeds : list dgl_id_t) (num_traces num_hops : nat) :
  (∀ i, i < length seeds → seed_alive seeds num_traces (num_hops + 1) i) →
  RandomWalk seeds num_traces num_hops = Ok (all_traces seeds num_traces (num_hops + 1)).
Proof.
  intros Hall. unfold RandomWalker.RandomWalk, RandomWalker.all_traces.
  pose proof (foldM_fill_ok (walk_seed seeds num_traces (num_hops + 1))
    (λ i, traces_of num_traces (num_hops + 1) (nth i seeds 0) i)
    (seed_alive seeds num_traces (num_hops + 1)) 0 (num_traces * (num_hops + 1))) as Hfill.
  specialize (Hfill (λ i, length_traces_of _ _ _ _)).
  specialize (Hfill (walk_seed_ok seeds num_traces (num_hops + 1))).
  specialize (Hfill (length seeds) 0 []
    (replicate (length seeds * num_traces * (num_hops + 1)) 0) []).
  simpl in Hfill. rewrite !app_nil_r in Hfill. apply Hfill.
  - intros i Hi. apply Hall. lia.
  - done.
  - rewrite length_replicate. lia.
Qed.

Lemma RandomWalk_err (seeds : list dgl_id_t) (num_traces num_hops : nat) :
  (∃ i, i < length seeds ∧ ¬ seed_alive seeds num_traces (num_hops + 1) i) →
  RandomWalk seeds num_traces num_hops = Err Undefined.
Proof.
  intros (i & Hi & Hbad). unfold RandomWalker.RandomWalk.
  pose proof (foldM_fill_err (walk_seed seeds num_traces (num_hops + 1))
    (λ i, traces_of num_traces (num_hops + 1) (nth i seeds 0) i)
    (seed_alive seeds num_traces (num_hops + 1)) 0 (num_traces * (num_hops + 1))) as Hfill.
  specialize (Hfill (λ i, length_traces_of _ _ _ _)).
  specialize (Hfill (walk_seed_ok seeds num_traces (num_hops + 1))).
  specialize (Hfill (walk_seed_err seeds num_traces (num_hops + 1)) _).
  specialize (Hfill (length seeds) 0 []
    (replicate (length seeds * num_traces * (num_hops + 1)) 0) []).
  simpl in Hfill. rewrite !app_nil_r in Hfill. apply Hfill.
  - exists i. split; [lia|done].
  - done.
  - rewrite length_replicate. lia.
Qed.

(** A run either fills the whole buffer with the walks, or meets a vertex
    without successors and is undefined. *)
Lemma RandomWalk_cases (seeds : list dgl_id_t) (num_traces num_hops : nat) :
  ((∀ i, i < length seeds → seed_alive seeds num_traces (num_hops + 1) i) ∧
   RandomWalk seeds num_traces num_hops = Ok (all_traces seeds num_traces (num_hops + 1)))
  ∨ ((∃ i, i < length seeds ∧ ¬ seed_alive seeds num_traces (num_hops + 1) i) ∧
     RandomWalk seeds num_traces num_hops = Err Undefined).
Proof.
  destruct (forall_lt_or_exists (seed_alive seeds num_traces (num_hops + 1)) (length seeds))
    as [Hall|Hex].
  - left. split; [done|]. by apply RandomWalk_ok.
  - right. split; [done|]. by apply RandomWalk_err.
Qed.

Lemma all_traces_lookup (seeds : list dgl_id_t) (num_traces kmax s t k : nat)
    (seed_id : dgl_id_t) :
  seeds !! s = Some seed_id → t < num_traces → k < kmax →
  all_traces seeds num_traces kmax !! ((s * num_traces + t) * kmax + k)
  = Some (visited seed_id s t k).
Proof.
  intros Hs Ht Hk. unfold RandomWalker.all_traces.
  pose proof (lookup_lt_Some _ _ _ Hs) as Hlen.
  replace ((s * num_traces + t) * kmax + k)
    with (s * (num_traces * kmax) + (t * kmax + k)) by lia.
  rewrite (lookup_concat_uniform (num_traces * kmax)).
  - rewrite list_lookup_fmap, lookup_seq_lt by done. simpl.
    unfold RandomWalker.traces_of. rewrite (lookup_concat_uniform kmax); [|..|done].
    + rewrite list_lookup_fmap, lookup_seq_lt by done. simpl.
      unfold RandomWalker.trace_of. rewrite list_lookup_fmap, lookup_seq_lt by done.
      simpl. by rewrite (nth_lookup_Some _ _ _ _ Hs).
    + apply Forall_forall. intros b (j & -> & _)%list_elem_of_fmap.
      apply length_trace_of.
  - apply Forall_forall. intros b (j & -> & _)%list_elem_of_fmap.
    apply length_traces_of.
  - nia.
Qed.

Lemma length_all_traces (seeds : list dgl_id_t) (num_traces kmax : nat) :
  length (all_traces seeds num_traces kmax) = length seeds * num_traces * kmax.
Proof.
  unfold RandomWalker.all_traces.
  rewrite (length_concat_uniform (num_traces * kmax)), length_map, length_seq; [lia|].
  apply Forall_forall. intros b (j & -> & _)%list_elem_of_fmap.
  apply length_traces_of.
Qed.

Lemma visited_succ (seed_id : dgl_id_t) (i j k : nat) :
  SuccVec gptr (visited seed_id i j k) ≠ [] →
  visited seed_id i j (S k) ∈ SuccVec gptr (visited seed_id i j k).
Proof.
  intros Hne. simpl. apply list_elem_of_In, nth_In.
  apply Nat.mod_upper_bound. by destruct (SuccVec gptr _).
Qed.

Lemma all_traces_contract (seeds : list dgl_id_t) (num_traces num_hops : nat) :
  (∀ i, i < length seeds → seed_alive seeds num_traces (num_hops + 1) i) →
  RandomWalker.walk_contract gptr seeds num_traces num_hops
    (all_traces seeds num_traces (num_hops + 1)).
Proof.
  intros Hall. split; [apply length_all_traces|].
  intros s t seed_id Hs Ht offset. subst offset.
  pose proof (lookup_lt_Some _ _ _ Hs) as Hlen.
  destruct (Hall s Hlen) as [_ Halive]. specialize (Halive t Ht).
  rewrite (nth_lookup_Some _ _ _ _ Hs) in Halive.
  split.
  - rewrite <- (Nat.add_0_r (_ * _)). by rewrite (all_traces_lookup _ _ _ _ _ _ seed_id) by (done || lia).
  - intros k Hk. exists (visited seed_id s t k), (visited seed_id s t (S k)).
    rewrite !(all_traces_lookup _ _ _ _ _ _ seed_id) by (done || lia).
    split; [done|]. split; [done|]. apply visited_succ, Halive. lia.
Qed.
End RandomWalk_facts.

Section RandomWalk_theorems.
Context {G : Type} `{GraphInterface G}.
Variable rnd : nat → nat → nat → nat.
Variable gptr : G.

Lemma RandomWalk_Ok_inv (seeds : list dgl_id_t) (num_traces num_hops : nat)
    (traces : list dgl_id_t) :
  RandomWalker.RandomWalk rnd gptr seeds num_traces num_hops = Ok traces →
  traces = RandomWalker.all_traces rnd gptr seeds num_traces (num_hops + 1) ∧
  ∀ i, i < length seeds → RandomWalker.seed_alive rnd gptr seeds num_traces (num_hops + 1) i.
Proof.
  intros Hrun.
  destruct (RandomWalk_cases rnd gptr seeds num_traces num_hops) as [[Hall Hok]|[_ Herr]].
  - rewrite Hok in Hrun. by injection Hrun as <-.
  - by rewrite Herr in Hrun.
Qed.

(** A set of vertices that holds the seeds, is closed under taking
    successors and has no vertex without successors keeps every walk alive. *)
Lemma closed_alive (inside : dgl_id_t → Prop) (seed_id : dgl_id_t) (i j n : nat) :
  inside seed_id →
  (∀ v, inside v → SuccVec gptr v ≠ [] ∧ ∀ w, w ∈ SuccVec gptr v → inside w) →
  RandomWalker.alive rnd gptr seed_id i j n.
Proof.
  intros Hseed Hclosed.
  assert (∀ k, inside (RandomWalker.visited rnd gptr seed_id i j k)) as Hin.
  { induction k as [|k IH]; [done|].
    destruct (Hclosed _ IH) as [Hne Hsucc]. by apply Hsucc, visited_succ. }
  intros k _. apply Hclosed, Hin.
Qed.

Lemma all_traces_alive (seeds : list dgl_id_t) (num_traces kmax : nat) :
  (∀ i, i < length seeds → RandomWalker.seed_alive rnd gptr seeds num_traces kmax i) →
  Forall (λ v, SuccVec gptr v ≠ []) (RandomWalker.all_traces rnd gptr seeds num_traces kmax).
Proof.
  intros Hall. unfold RandomWalker.all_traces.
  apply Forall_concat, Forall_fmap, Forall_forall. intros i [_ Hi]%elem_of_seq. simpl in *.
  destruct (Hall i Hi) as [_ Halive].
  apply Forall_concat, Forall_fmap, Forall_forall. intros j [_ Hj]%elem_of_seq. simpl in *.
  apply Forall_fmap, Forall_forall. intros k [_ Hk]%elem_of_seq. simpl in *.
  by apply Halive.
Qed.
End RandomWalk_theorems.

(** C9. [RandomWalk] fills a buffer of shape
    [(|seeds|, num_traces, num_hops + 1)]; every trace starts at its seed and
    every step goes to a successor of the vertex before it.  This holds of
    every buffer the function returns, and it returns one whenever the seeds
    lie in a successor-closed set of vertices that all have successors.  On
    the cycle 0 → 1 → 2 → 0 with seeds [0], one trace and three hops the
    buffer is [0; 1; 2; 0] whatever the random values are. *)
Theorem RandomWalk_contract {G : Type} `{GraphInterface G}
    (rnd : nat → nat → nat → nat) (gptr : G)
    (seeds : list dgl_id_t) (num_traces num_hops : nat) :
  (∀ traces, RandomWalker.RandomWalk rnd gptr seeds num_traces num_hops = Ok traces →
             RandomWalker.walk_contract gptr seeds num_traces num_hops traces)
  ∧ (∀ inside : dgl_id_t → Prop,
       (∀ v, v ∈ seeds → inside v) →
       (∀ v, inside v → SuccVec gptr v ≠ [] ∧ ∀ w, w ∈ SuccVec gptr v → inside w) →
       ∃ traces, RandomWalker.RandomWalk rnd gptr seeds num_traces num_hops = Ok traces)
  ∧ RandomWalker.RandomWalk rnd cycle3 [0] 1 3 = Ok [0; 1; 2; 0].
Proof.
  split; [|split].
  - intros traces (-> & Hall)%RandomWalk_Ok_inv. by apply all_traces_contract.
  - intros inside Hseeds Hclosed. eexists. apply RandomWalk_ok.
    intros i Hi. split; [done|]. intros j Hj.
    apply (closed_alive rnd gptr inside); [|done].
    apply Hseeds, list_elem_of_In, nth_In, Hi.
  - reflexivity.
Qed.

Lemma RandomWalk_contract_witness :
  RandomWalker.walk_contract cycle3 [0] 1 3 [0; 1; 2; 0]
  ∧ ∃ traces, RandomWalker.RandomWalk (λ _ _ _, 5) cycle3 [0; 2] 2 3 = Ok traces.
Proof.
  split.
  - apply (proj1 (RandomWalk_contract (λ _ _ _, 5) cycle3 [0] 1 3)). reflexivity.
  - apply (proj1 (proj2 (RandomWalk_contract (λ _ _ _, 5) cycle3 [0; 2] 2 3)) (λ v, v < 3)).
    + intros v Hv. apply list_elem_of_In in Hv. simpl in Hv. lia.
    + intros v Hv. destruct v as [|[|[|v]]]; [..|lia]; (split; [done|]);
        intros w Hw; apply list_elem_of_In in Hw; simpl in Hw; lia.
Defined.

(** C10. The successor lookup and the draw run at every step
    [k = 0..num_hops], also after the last vertex of a trace has been
    written: a run that returns has met no vertex without successors at any
    position of any trace, and a run in which some position of some trace,
    the last one included, holds such a vertex is undefined (a modulo by zero
    and a read outside the empty list).  On the edge 0 → 1 with seeds [0]
    and one hop, the vertex 1 is the last one of the trace and the run is
    undefined. *)
Theorem RandomWalk_empty_successors {G : Type} `{GraphInterface G}
    (rnd : nat → nat → nat → nat) (gptr : G)
    (seeds : list dgl_id_t) (num_traces num_hops : nat) :
  (∀ traces, RandomWalker.RandomWalk rnd gptr seeds num_traces num_hops = Ok traces →
             Forall (λ v, SuccVec gptr v ≠ []) traces)
  ∧ (∀ s t k seed_id,
       seeds !! s = Some seed_id → t < num_traces → k ≤ num_hops →
       SuccVec gptr (RandomWalker.visited rnd gptr seed_id s t k) = [] →
       RandomWalker.RandomWalk rnd gptr seeds num_traces num_hops = Err Undefined)
  ∧ (RandomWalker.visited rnd dead_end 0 0 0 1 = 1
     ∧ RandomWalker.RandomWalk rnd dead_end [0] 1 1 = Err Undefined).
Proof.
  split; [|split].
  - intros traces (-> & Hall)%RandomWalk_Ok_inv. by apply all_traces_alive.
  - intros s t k seed_id Hs Ht Hk Hdead. apply RandomWalk_err.
    exists s. split; [by eapply lookup_lt_Some|].
    intros [_ Halive]. rewrite (nth_lookup_Some _ _ _ _ Hs) in Halive.
    apply (Halive t Ht k); [lia|done].
  - split; reflexivity.
Qed.

Lemma RandomWalk_empty_successors_witness :
  Forall (λ v, SuccVec cycle3 v ≠ []) [0; 1; 2; 0]
  ∧ RandomWalker.RandomWalk (λ _ _ _, 5) dead_end [0] 1 1 = Err Undefined.
Proof.
  split.
  - apply (proj1 (RandomWalk_empty_successors (λ _ _ _, 5) cycle3 [0] 1 3)). reflexivity.
  - apply (proj1 (proj2 (RandomWalk_empty_successors (λ _ _ _, 5) dead_end [0] 1 1))
             0 0 1 0); [reflexivity | lia | lia | reflexivity].
Defined.


(** ** Sorting by a key *)

Global Instance key_le_total {A} (key : A → nat) : Total (key_le key).
Proof. intros a b. unfold key_le. lia. Qed.

Global Instance key_le_trans {A} (key : A → nat) : Transitive (key_le key).
Proof. intros a b c. unfold key_le. lia. Qed.

Lemma sort_by_sorted {A} (key : A → nat) (l : list A) :
  StronglySorted (key_le key) (sort_by key l).
Proof. apply StronglySorted_merge_sort; apply _. Qed.

Lemma sort_by_perm {A} (key : A → nat) (l : list A) : sort_by key l ≡ₚ l.
Proof. apply merge_sort_Permutation. Qed.

Lemma sort_by_length {A} (key : A → nat) (l : list A) : length (sort_by key l) = length l.
Proof. apply Permutation_length, sort_by_perm. Qed.

Lemma sorted_le_NoDup_lt (l : list nat) :
  StronglySorted (key_le id) l → NoDup l → StronglySorted lt l.
Proof.
  induction 1 as [|x l Hl IH Hx]; intros Hnd; [constructor|].
  apply NoDup_cons in Hnd as [Hx' Hnd]. constructor; [by apply IH|].
  apply Forall_forall. intros y Hy.
  rewrite Forall_forall in Hx. specialize (Hx y Hy). unfold key_le in Hx. simpl in Hx.
  assert (x ≠ y) by (intros ->; done). lia.
Qed.

Lemma sort_ids_sorted (l : list nat) : NoDup l → StronglySorted lt (sort_by id l).
Proof.
  intros Hnd. apply sorted_le_NoDup_lt; [apply sort_by_sorted|].
  by rewrite sort_by_perm.
Qed.

Lemma StronglySorted_lt_NoDup (l : list nat) : StronglySorted lt l → NoDup l.
Proof.
  induction 1 as [|x l Hl IH Hx]; [constructor|].
  apply NoDup_cons. split; [|done].
  intros Hin. rewrite Forall_forall in Hx. specialize (Hx x Hin). lia.
Qed.

Lemma StronglySorted_lt_seq (i n : nat) : StronglySorted lt (seq i n).
Proof.
  revert i. induction n as [|n IH]; intros i; simpl; constructor; [apply IH|].
  apply Forall_forall. intros x [Hx _]%elem_of_seq. lia.
Qed.

Lemma StronglySorted_filter {A} (R : relation A) (P : A → Prop) `{∀ x, Decision (P x)}
    (l : list A) :
  StronglySorted R l → StronglySorted R (filter P l).
Proof.
  induction 1 as [|x l Hl IH Hx]; [constructor|].
  rewrite filter_cons. case_decide; [|done].
  constructor; [done|]. apply Forall_forall. intros y [_ Hy]%list_elem_of_filter.
  rewrite Forall_forall in Hx. by apply Hx.
Qed.

(** ** [RandomSample] *)

Lemma RandomSample_loop_Ok (set_size num : nat) (seed : seed_t)
    (sampled sampled' : gset nat) (seed' : seed_t) :
  RandomSample_loop set_size num sampled seed = Ok (sampled', seed') →
  sampled ⊆ sampled'
  ∧ (∀ x, x ∈ sampled' → x ∈ sampled ∨ x < set_size)
  ∧ (size sampled ≤ num → size sampled' = num)
  ∧ (∃ used, seed = used ++ seed').
Proof.
  revert sampled. induction seed as [|r seed IH]; intros sampled; simpl.
  - case_decide as Hsz; [done|]. intros [= <- <-].
    split; [done|]. split; [auto|]. split; [lia|]. by exists [].
  - case_decide as Hsz.
    + unfold umod. case_decide as Hn; [done|]. intros Hrec.
      apply IH in Hrec as (Hsub & Hin & Hsize & used & ->).
      split; [set_solver|]. split; [|split].
      * intros x Hx. destruct (Hin x Hx) as [Hx'|Hx']; [|by right].
        apply elem_of_union in Hx' as [->%elem_of_singleton|Hx']; [|by left].
        right. apply Nat.mod_upper_bound. done.
      * intros _. apply Hsize.
        rewrite size_union_alt, size_singleton.
        assert (size (sampled ∖ {[r `mod` set_size]}) ≤ size sampled)
          by (apply subseteq_size; set_solver).
        lia.
      * by exists (r :: used).
    + intros [= <- <-]. split; [done|]. split; [auto|]. split; [lia|]. by exists [].
Qed.

Lemma RandomSample_loop_Err (set_size num : nat) (seed : seed_t)
    (sampled : gset nat) (e : error) :
  RandomSample_loop set_size num sampled seed = Err e →
  e = OutOfRandomness ∨ (e = Undefined ∧ set_size = 0).
Proof.
  revert sampled. induction seed as [|r seed IH]; intros sampled; simpl.
  - case_decide; [|done]. intros [= <-]. by left.
  - case_decide; [|done]. unfold umod. case_decide as Hn.
    + intros [= <-]. by right.
    + apply IH.
Qed.

Lemma RandomSample_Ok (set_size num : nat) (seed : seed_t) (l : list nat) (seed' : seed_t) :
  RandomSample set_size num seed = Ok (l, seed') →
  NoDup l ∧ length l = num ∧ Forall (λ x, x < set_size) l ∧ ∃ used, seed = used ++ seed'.
Proof.
  unfold RandomSample. intros Hrun. inv_ok Hrun. destruct x as [s sd].
  injection Hrun as <- <-.
  apply RandomSample_loop_Ok in Hx as (_ & Hin & Hsize & Hused).
  split; [apply NoDup_elements|]. split; [|split; [|done]].
  - rewrite size_empty in Hsize. apply Hsize. lia.
  - apply Forall_forall. intros x Hx%elem_of_elements.
    destruct (Hin x Hx) as [Hx'|Hx']; [set_solver|done].
Qed.

Lemma RandomSample_Err (set_size num : nat) (seed : seed_t) (e : error) :
  RandomSample set_size num seed = Err e →
  e = OutOfRandomness ∨ (e = Undefined ∧ set_size = 0).
Proof.
  unfold RandomSample. intros [Hrun|((s & sd) & _ & [=])]%bind_Err.
  by apply RandomSample_loop_Err in Hrun.
Qed.

Lemma RandomSample_loop_residues (set_size num : nat) (seed : seed_t)
    (sampled sampled' : gset nat) (seed' : seed_t) :
  RandomSample_loop set_size num sampled seed = Ok (sampled', seed') →
  ∃ used, seed = used ++ seed'
          ∧ ∀ x, x ∈ sampled' ↔ x ∈ sampled ∨ ∃ r, r ∈ used ∧ x = r mod set_size.
Proof.
  revert sampled. induction seed as [|r seed IH]; intros sampled; simpl.
  - case_decide; [done|]. intros [= <- <-]. exists []. split; [done|].
    intros x. split; [by left|]. intros [?|(r & Hr & _)]; [done|].
    by apply elem_of_nil in Hr.
  - case_decide.
    + unfold umod. case_decide; [done|]. intros Hrun.
      apply IH in Hrun as (used & -> & Hiff). exists (r :: used). split; [done|].
      intros x. rewrite Hiff. rewrite elem_of_union, elem_of_singleton. split.
      * intros [[->|Hx]|(r' & Hr' & ->)].
        -- right. exists r. split; [apply list_elem_of_here|done].
        -- by left.
        -- right. exists r'. split; [by apply list_elem_of_further|done].
      * intros [Hx|(r' & [->|Hr']%elem_of_cons & ->)]; [by left; right|by left; left|].
        right. by exists r'.
    + intros [= <- <-]. exists []. split; [done|].
      intros x. split; [by left|]. intros [?|(r' & Hr' & _)]; [done|].
      by apply elem_of_nil in Hr'.
Qed.

(** A loop that hands back the random values it was given has read none:
    the sample was complete. *)
Lemma RandomSample_loop_stay (set_size num : nat) (seed : seed_t)
    (sampled sampled' : gset nat) :
  RandomSample_loop set_size num sampled seed = Ok (sampled', seed) →
  ¬ size sampled < num.
Proof.
  intros Hrun Hsz. destruct seed as [|r seed]; simpl in Hrun.
  - by rewrite decide_True in Hrun by done.
  - rewrite decide_True in Hrun by done. unfold umod in Hrun.
    case_decide; [done|].
    apply RandomSample_loop_Ok in Hrun as (_ & _ & _ & used & Heq).
    apply (f_equal length) in Heq. rewrite length_app in Heq. simpl in Heq. lia.
Qed.

(** The loop stops as soon as the sample is complete: the last value it
    has read brought a residue that no earlier value had. *)
Lemma RandomSample_loop_last_fresh (set_size num : nat) (seed : seed_t)
    (sampled sampled' : gset nat) (seed' used0 : seed_t) (r : nat) :
  RandomSample_loop set_size num sampled seed = Ok (sampled', seed') →
  seed = (used0 ++ [r]) ++ seed' →
  r mod set_size ∉ sampled ∧ ∀ r', r' ∈ used0 → r' mod set_size ≠ r mod set_size.
Proof.
  revert sampled used0. induction seed as [|r0 seed IH]; intros sampled used0; simpl.
  - intros _ Heq. by destruct used0.
  - case_decide as Hsz.
    + unfold umod. case_decide; [done|]. intros Hrun Heq.
      destruct used0 as [|r1 used0]; simpl in Heq.
      * injection Heq as -> ->.
        split; [|intros r' Hr'; by apply elem_of_nil in Hr'].
        apply RandomSample_loop_stay in Hrun. intros Hin. apply Hrun.
        by rewrite (subseteq_union_1_L {[r `mod` set_size]} sampled) by set_solver.
      * injection Heq as -> ->.
        destruct (IH _ _ Hrun eq_refl) as [Hfresh Hold]. split; [set_solver|].
        intros r' [->|Hr']%elem_of_cons; [set_solver|by apply Hold].
    + intros [= <- Heq'] Heq. exfalso. rewrite <- Heq' in Heq.
      apply (f_equal length) in Heq. rewrite !length_app in Heq. simpl in Heq. lia.
Qed.

(** The loop runs out of random values only when the residues of all of
    them, together with the sample so far, are fewer than [num]. *)
Lemma RandomSample_loop_starved (set_size num : nat) (seed : seed_t) (sampled : gset nat) :
  RandomSample_loop set_size num sampled seed = Err OutOfRandomness →
  size (sampled ∪ list_to_set (map (λ r, r mod set_size) seed)) < num.
Proof.
  revert sampled. induction seed as [|r seed IH]; intros sampled; simpl.
  - case_decide; [|done]. intros _. by rewrite (right_id_L ∅ (∪)).
  - case_decide; [|done]. unfold umod. case_decide; [done|]. intros Hrun%IH.
    by rewrite (assoc_L (∪)), (comm_L (∪) sampled).
Qed.

Lemma RandomSample_starved (set_size num : nat) (seed : seed_t) :
  RandomSample set_size num seed = Err OutOfRandomness →
  size (list_to_set (map (λ r, r mod set_size) seed) : gset nat) < num.
Proof.
  unfold RandomSample. intros [Hrun|((s & sd) & _ & [=])]%bind_Err.
  apply RandomSample_loop_starved in Hrun. by rewrite (left_id_L ∅ (∪)) in Hrun.
Qed.

(** What [RandomSample] returns, in terms of the random values it reads:
    it reads a prefix [used] of them, returns the residues of that prefix,
    and stops at the first value that completes the sample. *)
Lemma RandomSample_used (set_size num : nat) (seed seed' : seed_t) (l : list nat) :
  RandomSample set_size num seed = Ok (l, seed') →
  ∃ used, seed = used ++ seed' ∧ num ≤ length used
          ∧ (∀ x, x ∈ l ↔ ∃ r, r ∈ used ∧ x = r mod set_size)
          ∧ (∀ used0 r, used = used0 ++ [r] →
                        ∀ r', r' ∈ used0 → r' mod set_size ≠ r mod set_size).
Proof.
  intros Hrun. pose proof (RandomSample_Ok _ _ _ _ _ Hrun) as (Hnd & Hlen & _ & _).
  unfold RandomSample in Hrun. inv_ok Hrun. destruct x as [sampled sd].
  injection Hrun as <- <-.
  destruct (RandomSample_loop_residues _ _ _ _ _ _ Hx) as (used & -> & Hiff).
  exists used. split; [done|].
  assert (∀ x, x ∈ elements sampled ↔ ∃ r, r ∈ used ∧ x = r mod set_size) as Hl.
  { intros x. rewrite elem_of_elements, Hiff. split; [|by right].
    intros [Hx'|?]; [|done]. by apply elem_of_empty in Hx'. }
  split; [|split; [done|]].
  - assert (elements sampled ⊆+ map (λ r, r mod set_size) used) as Hsub.
    { apply NoDup_submseteq; [done|]. intros x (r & Hr & ->)%Hl.
      apply list_elem_of_fmap. by exists r. }
    apply submseteq_length in Hsub. rewrite length_map in Hsub. lia.
  - intros used0 r ->.
    by destruct (RandomSample_loop_last_fresh _ _ _ _ _ _ _ _ Hx eq_refl).
Qed.

(** The values [a, a + 1, ..., num - 1] complete a sample that holds
    [0, ..., a - 1]. *)
Lemma RandomSample_loop_seq (set_size num : nat) (m a : nat) (sampled : gset nat) :
  size sampled = a → (∀ x, x ∈ sampled → x < a) → a + m = num → num ≤ set_size →
  ∃ sampled', RandomSample_loop set_size num sampled (seq a m) = Ok (sampled', []).
Proof.
  revert a sampled. induction m as [|m IH]; intros a sampled Hsz Hin Ham Hle; simpl.
  - rewrite decide_False by lia. eauto.
  - rewrite decide_True by lia. unfold umod. rewrite decide_False by lia.
    rewrite Nat.mod_small by lia. apply IH; [|set_solver by lia|lia|lia].
    rewrite size_union, size_singleton; [lia|].
    apply disjoint_singleton_l. intros Ha%Hin. lia.
Qed.

Lemma RandomSample_exists (set_size num : nat) :
  num ≤ set_size → ∃ l, RandomSample set_size num (seq 0 num) = Ok (l, []).
Proof.
  intros Hle. unfold RandomSample.
  destruct (RandomSample_loop_seq set_size num num 0 ∅) as [s Hs];
    [apply size_empty|set_solver|lia|done|].
  rewrite Hs. simpl. eauto.
Qed.

(** ** [NegateArray] *)

Lemma NegateArray_loop_spec (it : list nat) (i n : nat) (out : list nat) :
  StronglySorted lt it → Forall (λ x, i ≤ x) it →
  NegateArray_loop it i n out = out ++ filter (λ x, x ∉ it) (seq i n).
Proof.
  revert it i out. induction n as [|n IH]; intros it i out Hsorted Hge; simpl.
  - by rewrite app_nil_r.
  - destruct it as [|x it].
    + rewrite IH by constructor. rewrite filter_cons_True by set_solver.
      by rewrite <- app_assoc.
    + apply StronglySorted_inv in Hsorted as [Hsorted Hx].
      apply Forall_cons in Hge as [Hxi Hge].
      case_decide as Hxeq.
      * subst x. rewrite IH; [|done|by eapply Forall_impl; [exact Hx|]; simpl; lia].
        rewrite filter_cons_False by set_solver. f_equal.
        apply list_filter_iff_in. intros y [Hy _]%elem_of_seq.
        split; [|set_solver]. intros Hyit [->|?]%elem_of_cons; [lia|done].
      * rewrite IH; [|by constructor|].
        -- rewrite filter_cons_True; [by rewrite <- app_assoc|].
           intros [->|Hi]%elem_of_cons; [done|].
           rewrite Forall_forall in Hx. specialize (Hx i Hi). lia.
        -- constructor; [lia|]. eapply Forall_impl; [exact Hx|]. simpl. lia.
Qed.

Lemma length_filter_complement (nz : list nat) (n : nat) :
  NoDup nz → Forall (λ x, x < n) nz →
  length (filter (λ x, x ∉ nz) (seq 0 n)) = n - length nz.
Proof.
  intros Hnd Hlt.
  pose proof (filter_app_complement (λ x, x ∈ nz) (seq 0 n)) as Hperm.
  apply Permutation_length in Hperm. rewrite length_app, length_seq in Hperm.
  assert (filter (λ x, x ∈ nz) (seq 0 n) ≡ₚ nz) as Hnz.
  { apply NoDup_Permutation; [apply NoDup_filter, NoDup_seq|done|].
    intros x. rewrite list_elem_of_filter, elem_of_seq.
    rewrite Forall_forall in Hlt. split; [tauto|]. intros Hx. specialize (Hlt x Hx). split; [done|lia]. }
  apply Permutation_length in Hnz. lia.
Qed.

Lemma NegateArray_Ok (nz_idxs : list nat) (arr_size : nat) :
  nz_idxs ≠ [] → StronglySorted lt nz_idxs → Forall (λ x, x < arr_size) nz_idxs →
  NegateArray nz_idxs arr_size [] = Ok (filter (λ x, x ∉ nz_idxs) (seq 0 arr_size)).
Proof.
  intros Hne Hsorted Hlt. unfold NegateArray.
  destruct (last nz_idxs) as [b|] eqn:Hlast; [|by apply last_None in Hlast].
  simpl. rewrite bool_decide_eq_true_2; simpl.
  - rewrite NegateArray_loop_spec; [done|done|].
    apply Forall_forall. intros; lia.
  - rewrite Forall_forall in Hlt. apply Hlt.
    rewrite last_lookup in Hlast. by eapply list_elem_of_lookup_2.
Qed.

(** ** [GetUniformSample] *)

Lemma StronglySorted_lookup_lt (l : list nat) (i j a b : nat) :
  StronglySorted lt l → l !! i = Some a → l !! j = Some b → i < j → a < b.
Proof.
  intros Hsorted. revert i j. induction Hsorted as [|x l Hl IH Hx]; intros i j Hi Hj Hij.
  - by rewrite lookup_nil in Hi.
  - destruct j as [|j]; [lia|]. simpl in Hj. destruct i as [|i]; simpl in Hi.
    + injection Hi as ->. rewrite Forall_forall in Hx.
      apply Hx. by eapply list_elem_of_lookup_2.
    + apply (IH i j); [done..|lia].
Qed.

Lemma foldM_unit_ok {B} (f : unit → B → result unit) (l : list B) :
  (∀ b, b ∈ l → f () b = Ok ()) → foldM f l () = Ok ().
Proof.
  induction l as [|b l IH]; intros Hf; simpl; [done|].
  rewrite Hf by (by left). simpl. apply IH. intros b' Hb'. apply Hf. by right.
Qed.

Lemma sorted_check_ok (sorted_idxs : list nat) :
  StronglySorted lt sorted_idxs →
  foldM (sorted_check sorted_idxs) (seq 1 (length sorted_idxs - 1)) () = Ok ().
Proof.
  intros Hsorted. apply foldM_unit_ok. intros i [Hi1 Hi2]%elem_of_seq.
  unfold sorted_check.
  destruct (lookup_lt_is_Some_2 sorted_idxs i ltac:(lia)) as [a Ha].
  destruct (lookup_lt_is_Some_2 sorted_idxs (i - 1) ltac:(lia)) as [b Hb].
  rewrite (proj2 (index_Ok _ _ _) Ha), (proj2 (index_Ok _ _ _) Hb). simpl.
  rewrite bool_decide_eq_true_2; [done|].
  apply (StronglySorted_lookup_lt sorted_idxs (i - 1) i); [done..|lia].
Qed.

Lemma push_pairs_ok (vid_list edge_id_list : list dgl_id_t) (idxs : list nat)
    (out_ver out_edge : list dgl_id_t) :
  Forall (λ i, i < length vid_list) idxs → Forall (λ i, i < length edge_id_list) idxs →
  foldM (push_pair vid_list edge_id_list) idxs (out_ver, out_edge)
  = Ok (out_ver ++ picked vid_list idxs, out_edge ++ picked edge_id_list idxs).
Proof.
  revert out_ver out_edge. induction idxs as [|i idxs IH]; intros out_ver out_edge Hv He; simpl.
  - by rewrite !app_nil_r.
  - apply Forall_cons in Hv as [Hiv Hv]. apply Forall_cons in He as [Hie He].
    rewrite (index_lt _ _ 0) by done. simpl. rewrite (index_lt _ _ 0) by done. simpl.
    rewrite IH by done. by rewrite <- !app_assoc.
Qed.

Lemma selected_positions_Ok (ver_len max_num_neighbor : nat) (seed seed' : seed_t)
    (idxs : list nat) :
  max_num_neighbor < ver_len →
  selected_positions ver_len max_num_neighbor seed = Ok (idxs, seed') →
  length idxs = max_num_neighbor ∧ StronglySorted lt idxs ∧ Forall (λ i, i < ver_len) idxs.
Proof.
  intros Hlt. unfold selected_positions. case_decide as Hbig; intros Hrun.
  - inv_ok Hrun. destruct x as [l sd]. injection Hrun as <- <-.
    apply RandomSample_Ok in Hx as (Hnd & Hlen & Hrange & _).
    split; [by rewrite sort_by_length|]. split; [by apply sort_ids_sorted|].
    by rewrite sort_by_perm.
  - inv_ok Hrun. destruct x as [l sd]. injection Hrun as <- <-.
    apply RandomSample_Ok in Hx as (Hnd & Hlen & Hrange & _).
    split; [|split].
    + rewrite length_filter_complement; [rewrite sort_by_length; lia|..].
      * by rewrite sort_by_perm.
      * by rewrite sort_by_perm.
    + apply StronglySorted_filter, StronglySorted_lt_seq.
    + apply Forall_forall. intros x [_ [_ Hx]%elem_of_seq]%list_elem_of_filter. lia.
Qed.

Lemma GetUniformSample_copy (edge_id_list vid_list : list dgl_id_t)
    (ver_len max_num_neighbor : nat) (out_ver out_edge : list dgl_id_t) (seed : seed_t) :
  ver_len ≤ length vid_list → ver_len ≤ length edge_id_list →
  ver_len ≤ max_num_neighbor →
  GetUniformSample edge_id_list vid_list ver_len max_num_neighbor out_ver out_edge seed
  = Ok (out_ver ++ take ver_len vid_list, out_edge ++ take ver_len edge_id_list, seed).
Proof.
  intros Hv He Hle. unfold GetUniformSample, read_range.
  by rewrite !decide_True by done.
Qed.

Lemma GetUniformSample_sample (edge_id_list vid_list : list dgl_id_t)
    (ver_len max_num_neighbor : nat) (out_ver out_edge : list dgl_id_t) (seed : seed_t) :
  ver_len ≤ length vid_list → ver_len ≤ length edge_id_list →
  max_num_neighbor < ver_len →
  GetUniformSample edge_id_list vid_list ver_len max_num_neighbor out_ver out_edge seed
  = '(idxs, seed) ← selected_positions ver_len max_num_neighbor seed;
    mret (out_ver ++ picked vid_list idxs, out_edge ++ picked edge_id_list idxs, seed).
Proof.
  intros Hv He Hlt.
  destruct (selected_positions ver_len max_num_neighbor seed) as [[idxs sd]|e] eqn:Hsel.
  - pose proof (selected_positions_Ok _ _ _ _ _ Hlt Hsel) as (Hlen & Hsorted & Hrange).
    unfold GetUniformSample. rewrite decide_False by lia.
    unfold selected_positions in Hsel. case_decide as Hbig.
    + inv_ok Hsel. destruct x as [l sd']. injection Hsel as <- <-.
      rewrite Hx. simpl. rewrite bool_decide_eq_true_2 by done. simpl.
      rewrite sorted_check_ok by done. simpl.
      rewrite push_pairs_ok; [done|..]; (eapply Forall_impl; [exact Hrange|]); simpl; lia.
    + inv_ok Hsel. destruct x as [l sd']. injection Hsel as <- <-.
      rewrite Hx. simpl.
      apply RandomSample_Ok in Hx as (Hnd & Hl & Hlrange & _).
      rewrite NegateArray_Ok.
      * simpl. rewrite bool_decide_eq_true_2 by done. simpl.
        rewrite sorted_check_ok by done. simpl.
        rewrite push_pairs_ok; [done|..]; (eapply Forall_impl; [exact Hrange|]); simpl; lia.
      * intros Hnil. apply (f_equal length) in Hnil. rewrite sort_by_length in Hnil.
        simpl in Hnil. lia.
      * by apply sort_ids_sorted.
      * by rewrite sort_by_perm.
  - unfold GetUniformSample. rewrite decide_False by lia.
    unfold selected_positions in Hsel. case_decide as Hbig.
    + apply bind_Err in Hsel as [Hsel|((l & sd) & _ & [=])]. by rewrite Hsel.
    + apply bind_Err in Hsel as [Hsel|((l & sd) & _ & [=])]. by rewrite Hsel.
Qed.

(** C7. Uniform neighbour selection over a slice of length [ver_len] with
    fan-out [max_num_neighbor]: a slice no longer than the fan-out is copied
    verbatim, in slice order, and no random value is read.  A longer slice
    yields exactly [max_num_neighbor] (vertex id, edge id) pairs, read at
    strictly increasing slice positions.  The positions come from the random
    values: the call reads a prefix [used] of them, stopping at the first
    value whose residue modulo [ver_len] completes the sample.  When
    [ver_len > 2 * max_num_neighbor] the positions are the residues of the
    values read, [max_num_neighbor] distinct ones; otherwise the residues
    are the [ver_len - max_num_neighbor] excluded positions and the output
    positions are all the others.  The call fails only by running out of
    random values, which happens when all of them together have too few
    distinct residues; some random values make it return. *)
Theorem GetUniformSample_selection (edge_id_list vid_list : list dgl_id_t)
    (ver_len max_num_neighbor : nat) (out_ver out_edge : list dgl_id_t) (seed : seed_t) :
  ver_len ≤ length vid_list → ver_len ≤ length edge_id_list →
  (ver_len ≤ max_num_neighbor →
   GetUniformSample edge_id_list vid_list ver_len max_num_neighbor out_ver out_edge seed
   = Ok (out_ver ++ take ver_len vid_list, out_edge ++ take ver_len edge_id_list, seed))
  ∧ (max_num_neighbor < ver_len →
     (∃ seed0 r, GetUniformSample edge_id_list vid_list ver_len max_num_neighbor
                                  out_ver out_edge seed0 = Ok r)
     ∧ match GetUniformSample edge_id_list vid_list ver_len max_num_neighbor
                              out_ver out_edge seed with
       | Ok (out_ver', out_edge', seed') =>
           ∃ idxs used,
             seed = used ++ seed'
             ∧ length idxs = max_num_neighbor ∧ StronglySorted lt idxs
             ∧ Forall (λ i, i < ver_len) idxs
             ∧ out_ver' = out_ver ++ picked vid_list idxs
             ∧ out_edge' = out_edge ++ picked edge_id_list idxs
             ∧ (∀ used0 r, used = used0 ++ [r] →
                           ∀ r', r' ∈ used0 → r' mod ver_len ≠ r mod ver_len)
             ∧ (max_num_neighbor * 2 < ver_len →
                max_num_neighbor ≤ length used
                ∧ (∀ i, i ∈ idxs ↔ ∃ r, r ∈ used ∧ i = r mod ver_len)
                ∧ ∃ l, RandomSample ver_len max_num_neighbor seed = Ok (l, seed')
                       ∧ idxs = sort_by id l)
             ∧ (ver_len ≤ max_num_neighbor * 2 →
                ver_len - max_num_neighbor ≤ length used
                ∧ (∀ i, i ∈ idxs ↔ i < ver_len ∧ ¬ ∃ r, r ∈ used ∧ i = r mod ver_len)
                ∧ ∃ negate,
                    RandomSample ver_len (ver_len - max_num_neighbor) seed
                    = Ok (negate, seed')
                    ∧ length negate = ver_len - max_num_neighbor
                    ∧ ∀ i, i ∈ idxs ↔ i < ver_len ∧ i ∉ negate)
       | Err e =>
           e = OutOfRandomness
           ∧ size (list_to_set (map (λ r, r mod ver_len) seed) : gset nat)
             < (if decide (max_num_neighbor * 2 < ver_len)
                then max_num_neighbor else ver_len - max_num_neighbor)
       end).
Proof.
  intros Hv He. split; [by apply GetUniformSample_copy|]. intros Hlt. split.
  - assert (∃ l, selected_positions ver_len max_num_neighbor
                   (seq 0 (if decide (max_num_neighbor * 2 < ver_len)
                           then max_num_neighbor else ver_len - max_num_neighbor))
                 = Ok (l, [])) as [l Hl].
    { unfold selected_positions. case_decide.
      - destruct (RandomSample_exists ver_len max_num_neighbor) as [l ->]; [lia|].
        simpl. eauto.
      - destruct (RandomSample_exists ver_len (ver_len - max_num_neighbor)) as [l ->]; [lia|].
        simpl. eauto. }
    eexists _, _. rewrite GetUniformSample_sample by done. by rewrite Hl.
  - rewrite GetUniformSample_sample by done.
    destruct (selected_positions ver_len max_num_neighbor seed) as [[idxs sd]|e] eqn:Hsel;
      simpl.
    + pose proof (selected_positions_Ok _ _ _ _ _ Hlt Hsel) as (Hlen & Hsorted & Hrange).
      exists idxs.
      unfold selected_positions in Hsel. case_decide as Hbig.
      * inv_ok Hsel. destruct x as [l sd']. injection Hsel as <- <-.
        destruct (RandomSample_used _ _ _ _ _ Hx) as (used & Hused & Hn & Hres & Hlast).
        exists used. do 6 (split; [done|]). split; [done|]. split; [|lia].
        intros _. split; [done|]. split; [|eauto].
        intros i. by rewrite sort_by_perm.
      * inv_ok Hsel. destruct x as [l sd']. injection Hsel as <- <-.
        destruct (RandomSample_used _ _ _ _ _ Hx) as (used & Hused & Hn & Hres & Hlast).
        exists used. do 6 (split; [done|]). split; [done|]. split; [lia|].
        intros _. split; [done|].
        pose proof (RandomSample_Ok _ _ _ _ _ Hx) as (Hnd & Hl & Hlrange & _).
        assert (∀ i, i ∈ filter (λ x, x ∉ sort_by id l) (seq 0 ver_len)
                     ↔ i < ver_len ∧ i ∉ l) as Hcompl.
        { intros i. rewrite list_elem_of_filter, elem_of_seq, sort_by_perm.
          split; intros [? ?]; split; done || lia. }
        split; [|by exists l].
        intros i. by rewrite Hcompl, Hres.
    + unfold selected_positions in Hsel. case_decide as Hbig.
      * apply bind_Err in Hsel as [Hsel|((l & sd) & _ & [=])].
        pose proof (RandomSample_Err _ _ _ _ Hsel) as [->|[_ ?]]; [|lia].
        split; [done|]. by apply RandomSample_starved.
      * apply bind_Err in Hsel as [Hsel|((l & sd) & _ & [=])].
        pose proof (RandomSample_Err _ _ _ _ Hsel) as [->|[_ ?]]; [|lia].
        split; [done|]. by apply RandomSample_starved.
Qed.

Lemma GetUniformSample_selection_witness :
  GetUniformSample [10; 11; 12] [5; 6; 7] 3 4 [] [] [9] = Ok ([5; 6; 7], [10; 11; 12], [9])
  ∧ (GetUniformSample [10; 11; 12; 13; 14] [5; 6; 7; 8; 9] 5 2 [] [] [7; 12; 9; 4]
     = Ok ([7; 9], [12; 14], [4])
     ∧ ∃ idxs used,
         [7; 12; 9; 4] = used ++ [4]
         ∧ [7; 9] = picked [5; 6; 7; 8; 9] idxs
         ∧ ∀ i, i ∈ idxs ↔ ∃ r, r ∈ used ∧ i = r mod 5)
  ∧ (GetUniformSample [10; 11; 12] [5; 6; 7] 3 2 [] [] [7; 8] = Ok ([5; 7], [10; 12], [8])
     ∧ ∃ idxs used,
         [7; 8] = used ++ [8]
         ∧ [5; 7] = picked [5; 6; 7] idxs
         ∧ ∀ i, i ∈ idxs ↔ i < 3 ∧ ¬ ∃ r, r ∈ used ∧ i = r mod 3)
  ∧ GetUniformSample [10; 11; 12] [5; 6; 7] 3 2 [] [] [] = Err OutOfRandomness.
Proof.
  pose proof (GetUniformSample_selection [10; 11; 12] [5; 6; 7] 3 4 [] [] [9]
                ltac:(simpl; lia) ltac:(simpl; lia)) as [Hcopy _].
  pose proof (GetUniformSample_selection [10; 11; 12; 13; 14] [5; 6; 7; 8; 9] 5 2 [] []
                [7; 12; 9; 4] ltac:(simpl; lia) ltac:(simpl; lia)) as [_ Hdirect].
  pose proof (GetUniformSample_selection [10; 11; 12] [5; 6; 7] 3 2 [] [] [7; 8]
                ltac:(simpl; lia) ltac:(simpl; lia)) as [_ Hcompl].
  split; [apply Hcopy; lia|]. split; [|split; [|reflexivity]].
  - split; [reflexivity|]. destruct (Hdirect ltac:(lia)) as [_ H].
    change (GetUniformSample [10; 11; 12; 13; 14] [5; 6; 7; 8; 9] 5 2 [] [] [7; 12; 9; 4])
      with (Ok ([7; 9], [12; 14], [4]) : result _) in H.
    destruct H as (idxs & used & Hused & _ & _ & _ & Hver & _ & _ & Hres & _).
    exists idxs, used. split; [done|]. split; [done|]. apply Hres. lia.
  - split; [reflexivity|]. destruct (Hcompl ltac:(lia)) as [_ H].
    change (GetUniformSample [10; 11; 12] [5; 6; 7] 3 2 [] [] [7; 8])
      with (Ok ([5; 7], [10; 12], [8]) : result _) in H.
    destruct H as (idxs & used & Hused & _ & _ & _ & Hver & _ & _ & _ & Hres).
    exists idxs, used. split; [done|]. split; [done|]. apply Hres. lia.
Defined.


(** ** Frontier expansion *)

Lemma layer_grown_init (sv0 : list (dgl_id_t * nat)) : layer_grown sv0 (∅, sv0).
Proof. exists []. simpl. rewrite app_nil_r. split; [done|]. split; [constructor|done]. Qed.

Lemma layer_grown_push (sv0 : list (dgl_id_t * nat)) (m : gset dgl_id_t)
    (sv : list (dgl_id_t * nat)) (v : dgl_id_t) (lvl : nat) :
  layer_grown sv0 (m, sv) → v ∉ m → layer_grown sv0 ({[ v ]} ∪ m, sv ++ [(v, lvl)]).
Proof.
  intros (new & Hsv & Hnd & Hm) Hv. simpl in *. subst sv m.
  exists (new ++ [(v, lvl)]). simpl. split; [by rewrite app_assoc|].
  rewrite fmap_app. simpl. split.
  - apply NoDup_app. split; [done|]. split; [|apply NoDup_singleton].
    intros x Hx ->%list_elem_of_singleton. apply Hv. by apply elem_of_list_to_set.
  - rewrite list_to_set_app_L. simpl. set_solver.
Qed.

Lemma enqueue_grown (sv0 : list (dgl_id_t * nat)) (lvl : nat)
    (st : gset dgl_id_t * list (dgl_id_t * nat)) (v : dgl_id_t) :
  layer_grown sv0 st → layer_grown sv0 (SampleSubgraph.enqueue lvl st v).
Proof.
  destruct st as [m sv]. intros Hst. unfold SampleSubgraph.enqueue.
  case_decide; [done|]. by apply layer_grown_push.
Qed.

Lemma foldl_enqueue_grown (sv0 : list (dgl_id_t * nat)) (lvl : nat) (src : list dgl_id_t)
    (st : gset dgl_id_t * list (dgl_id_t * nat)) :
  layer_grown sv0 st → layer_grown sv0 (foldl (SampleSubgraph.enqueue lvl) st src).
Proof.
  revert st. induction src as [|v src IH]; intros st Hst; simpl; [done|].
  by apply IH, enqueue_grown.
Qed.

Lemma add_seed_grown (seed : list dgl_id_t) (st st' : gset dgl_id_t * list (dgl_id_t * nat))
    (i : nat) :
  layer_grown [] st → SampleSubgraph.add_seed seed st i = Ok st' → layer_grown [] st'.
Proof.
  destruct st as [m sv]. intros Hst. unfold SampleSubgraph.add_seed. intros Hrun.
  inv_ok Hrun. case_decide; injection Hrun as <-; [done|]. by apply layer_grown_push.
Qed.

Lemma layer_grown_size (sv0 : list (dgl_id_t * nat))
    (st : gset dgl_id_t * list (dgl_id_t * nat)) :
  layer_grown sv0 st → length st.2 = length sv0 + size st.1.
Proof.
  intros (new & -> & Hnd & ->). rewrite length_app, size_list_to_set by done.
  by rewrite length_fmap.
Qed.

Lemma layer_slice_app {A} (v new : list A) (first last : nat) :
  last ≤ length v → layer_slice (v ++ new) first last = layer_slice v first last.
Proof.
  intros Hlast. unfold layer_slice.
  destruct (decide (first ≤ length v)) as [Hf|Hf].
  - rewrite drop_app_le by done. rewrite take_app_le; [done|]. rewrite length_drop. lia.
  - replace (last - first) with 0 by lia. by rewrite !take_0.
Qed.

Lemma layer_slice_top {A} (v new : list A) :
  layer_slice (v ++ new) (length v) (length v + length new) = new.
Proof.
  unfold layer_slice. rewrite drop_app_length.
  replace (length v + length new - length v) with (length new) by lia.
  apply firstn_all.
Qed.

Section expand.
Variable orig_csr : CSR.
Variable probability : option (list Q).
Variables num_hops num_neighbor : nat.

Lemma expand_vertex_grown (sv0 : list (dgl_id_t * nat)) (s s' : SampleSubgraph.state)
    (idx : nat) :
  SampleSubgraph.expand_vertex orig_csr probability num_neighbor s idx = Ok s' →
  layer_grown sv0 (SampleSubgraph.sub_ver_map s, SampleSubgraph.sub_vers s) →
  layer_grown sv0 (SampleSubgraph.sub_ver_map s', SampleSubgraph.sub_vers s')
  ∧ SampleSubgraph.layer_offsets s' = SampleSubgraph.layer_offsets s.
Proof.
  unfold SampleSubgraph.expand_vertex. intros Hrun Hgrown. inv_ok Hrun.
  destruct x2 as [[src edge] sd]. inv_ok Hrun.
  destruct (foldl _ _ src) as [m sv] eqn:Hfold. injection Hrun as <-. simpl.
  split; [|done].
  pose proof (foldl_enqueue_grown sv0 (x.2) src _ Hgrown) as Hg.
  by rewrite Hfold in Hg.
Qed.

Lemma expand_layer_ok (s s' : SampleSubgraph.state) (layer_id : nat) :
  1 ≤ layer_id →
  SampleSubgraph.expand_layer orig_csr probability num_neighbor s layer_id = Ok s' →
  layers_ok num_hops layer_id (SampleSubgraph.sub_vers s) (SampleSubgraph.layer_offsets s) →
  layers_ok num_hops (S layer_id) (SampleSubgraph.sub_vers s')
            (SampleSubgraph.layer_offsets s').
Proof.
  intros Hl Hrun [Hlen Hzero Htop Hlayers]. unfold SampleSubgraph.expand_layer in Hrun.
  inv_ok Hrun. simpl in *.
  set (sv0 := SampleSubgraph.sub_vers s) in *.
  assert (layer_grown sv0 (SampleSubgraph.sub_ver_map x1, SampleSubgraph.sub_vers x1)
          ∧ SampleSubgraph.layer_offsets x1 = SampleSubgraph.layer_offsets s)
    as [Hgrown Hlo].
  { revert Hx1. apply (foldM_invariant _ (λ _ st,
      layer_grown sv0 (SampleSubgraph.sub_ver_map st, SampleSubgraph.sub_vers st)
      ∧ SampleSubgraph.layer_offsets st = SampleSubgraph.layer_offsets s)).
    - intros n idx st st' _ [Hg Hloeq] Hstep.
      apply (expand_vertex_grown sv0) in Hstep as [Hg' Hlo']; [|done].
      split; [done|congruence].
    - split; [apply layer_grown_init|done]. }
  simpl_res. rewrite Hlo in *.
  match goal with H : _ !! layer_id = Some x2 |- _ =>
    rewrite Htop in H; injection H as <- end.
  match goal with H : <[_:=_]> _ !! _ = Some _ |- _ =>
    rewrite list_lookup_insert_eq in H by done; injection H as <- end.
  match goal with H : _ + _ = length _ |- _ => rename H into Hsize end.
  subst s'. simpl.
  destruct Hgrown as (new & Hsv & Hnd & Hmap). simpl in *.
  constructor.
  - by rewrite length_insert.
  - rewrite list_lookup_insert_ne by lia. done.
  - replace (layer_id + 1) with (S layer_id) by lia.
    rewrite list_lookup_insert_eq by lia. by rewrite Hsize.
  - intros l Hlt'. destruct (decide (l = layer_id)) as [->|Hne].
    + exists (length sv0), (length sv0 + size (SampleSubgraph.sub_ver_map x1)).
      rewrite list_lookup_insert_ne by lia.
      replace (layer_id + 1) with (S layer_id) by lia.
      rewrite list_lookup_insert_eq by lia.
      split; [done|]. split; [done|]. split; [lia|].
      rewrite Hsv, Hmap, size_list_to_set, length_fmap by done.
      by rewrite layer_slice_top.
    + destruct (Hlayers l ltac:(lia)) as (first & last & Hf & Hla & Hle & Hnodup).
      exists first, last. rewrite !list_lookup_insert_ne by lia.
      split; [done|]. split; [done|]. rewrite Hsv, length_app.
      split; [lia|]. rewrite layer_slice_app by lia. done.
Qed.
End expand.

Lemma expand_layers_ok (graph : ImmutableGraph) (seed_arr : list dgl_id_t)
    (probability : option (list Q)) (edge_type : string)
    (num_hops num_neighbor : nat) (time_seed : seed_t) (s : SampleSubgraph.state) :
  SampleSubgraph.expand graph seed_arr probability edge_type num_hops num_neighbor time_seed
    = Ok s →
  1 ≤ num_hops ∧
  layers_ok num_hops num_hops (SampleSubgraph.sub_vers s) (SampleSubgraph.layer_offsets s).
Proof.
  unfold SampleSubgraph.expand. intros Hrun. inv_ok Hrun.
  destruct x0 as [m sv]. inv_ok Hrun.
  assert (layer_grown [] (m, sv)) as Hseeds.
  { revert Hx0. apply (foldM_invariant _ (λ _ st, layer_grown [] st)).
    - intros n i st st' _ Hst Hstep. by eapply add_seed_grown.
    - apply layer_grown_init. }
  simpl_res.
  match goal with H : 1 < length _ |- _ =>
    rewrite length_insert, length_replicate in H; rename H into Hlt1 end.
  split; [lia|].
  replace num_hops with (1 + (num_hops - 1)) at 2 by lia.
  revert Hrun.
  apply (foldM_seq_invariant _ (λ l st,
    layers_ok num_hops l (SampleSubgraph.sub_vers st) (SampleSubgraph.layer_offsets st))).
  - intros l st st' Hl Hst Hstep. by eapply expand_layer_ok; [lia|..].
  - simpl. destruct Hseeds as (new & Hsv & Hnd & Hm). simpl in *. subst sv.
    constructor.
    + by rewrite !length_insert, length_replicate.
    + rewrite list_lookup_insert_ne by lia. rewrite list_lookup_insert_eq; [done|].
      rewrite length_replicate. lia.
    + rewrite list_lookup_insert_eq; [done|]. rewrite length_insert, length_replicate. lia.
    + intros l Hl. assert (l = 0) as -> by lia. exists 0, (length new).
      rewrite list_lookup_insert_ne by lia.
      rewrite list_lookup_insert_eq by (rewrite length_replicate; lia).
      rewrite list_lookup_insert_eq by (rewrite length_insert, length_replicate; lia).
      split; [done|]. split; [done|]. split; [lia|].
      unfold layer_slice. rewrite drop_0, Nat.sub_0_r, firstn_all. done.
Qed.

Lemma layer_vertices_NoDup (graph : ImmutableGraph) (seed_arr : list nat)
    (probability : option (list Q)) (edge_type : string)
    (num_hops num_neighbor : nat) (time_seed : seed_t) (s : SampleSubgraph.state) (l : nat) :
  SampleSubgraph.expand graph seed_arr probability edge_type num_hops num_neighbor time_seed
    = Ok s →
  NoDup (layer_vertices (SampleSubgraph.sub_vers s) (SampleSubgraph.layer_offsets s) l).
Proof.
  intros [Hhops Hok]%expand_layers_ok. unfold layer_vertices.
  destruct (SampleSubgraph.layer_offsets s !! l) as [first|] eqn:Hf; [|constructor].
  destruct (SampleSubgraph.layer_offsets s !! S l) as [last|] eqn:Hl; [|constructor].
  destruct Hok as [Hlen _ _ Hlayers].
  pose proof (lookup_lt_Some _ _ _ Hl) as Hl2. rewrite Hlen in Hl2.
  destruct (Hlayers l ltac:(lia)) as (first' & last' & Hf' & Hl' & _ & Hnd).
  rewrite Hf in Hf'. rewrite Hl in Hl'. by injection Hf' as <-; injection Hl' as <-.
Qed.





(** ** The first loop of [ConstructNodeFlow]: local ids *)

Lemma off_lookup (lo : list nat) (l x : nat) : lo !! l = Some x → off lo l = x.
Proof. unfold off. by intros ->. Qed.

Lemma layer_slice_alt {A} (v : list A) (first last : nat) :
  first ≤ last → layer_slice v first last = drop first (take last v).
Proof.
  intros Hle. unfold layer_slice. rewrite take_drop_commute. do 2 f_equal. lia.
Qed.

Lemma layer_slice_length {A} (v : list A) (first last : nat) :
  first ≤ last ≤ length v → length (layer_slice v first last) = last - first.
Proof. intros Hle. unfold layer_slice. rewrite length_take, length_drop. lia. Qed.

Lemma layer_slice_lookup {A} (v : list A) (first last k : nat) :
  k < last - first → layer_slice v first last !! k = v !! (first + k).
Proof. intros Hk. unfold layer_slice. by rewrite lookup_take_lt, lookup_drop. Qed.

Lemma sort_range_Ok {A} (key : A → nat) (v v' : list A) (first last : nat) :
  sort_range key v first last = Ok v' →
  first ≤ last ≤ length v ∧ length v' = length v
  ∧ take first v' = take first v
  ∧ layer_slice v' first last = sort_by key (layer_slice v first last)
  ∧ drop last v' = drop last v.
Proof.
  unfold sort_range. case_decide as Hle; [|done]. intros [= <-].
  assert (length (take first v) = first) as Hlt by (rewrite length_take; lia).
  assert (length (sort_by key (take (last - first) (drop first v))) = last - first) as Hls.
  { rewrite sort_by_length, length_take, length_drop. lia. }
  split; [done|]. split; [|split; [|split]].
  - rewrite !length_app, Hlt, Hls, length_drop. lia.
  - rewrite take_app_le by lia. rewrite take_ge by lia. done.
  - unfold layer_slice at 1. rewrite drop_app_ge by lia. rewrite Hlt, Nat.sub_diag, drop_0.
    rewrite take_app_le by lia. rewrite take_ge by lia. done.
  - rewrite drop_app_ge by lia. rewrite Hlt. rewrite drop_app_ge by lia.
    rewrite Hls. replace (last - first - (last - first)) with 0 by lia. by rewrite drop_0.
Qed.

Section ids.
Variable lo : list nat.
Variable sv0 : list (dgl_id_t * nat).
Variable nh : nat.

Local Abbreviation rk := (rank lo nh).
Local Abbreviation blk := (block sv0 lo).

Lemma off_chain (l : nat) :
  (∀ l', l ≤ l' < nh → off lo l' ≤ off lo (S l') ≤ length sv0) →
  ∀ l', l ≤ l' ≤ nh → off lo l ≤ off lo l' ∧ off lo l' ≤ off lo nh.
Proof.
  intros Hmono l' [Hl1 Hl2]. split.
  - induction l' as [|l' IH]; [by replace l with 0 by lia|].
    destruct (decide (l = S l')) as [->|]; [done|].
    specialize (IH ltac:(lia) ltac:(lia)). specialize (Hmono l' ltac:(lia)). lia.
  - remember (nh - l') as d eqn:Hd. revert l' Hl1 Hl2 Hd.
    induction d as [|d IH]; intros l' Hl1 Hl2 Hd.
    + by replace l' with nh by lia.
    + specialize (IH (S l') ltac:(lia) ltac:(lia) ltac:(lia)).
      specialize (Hmono l' ltac:(lia)). lia.
Qed.

Lemma rank_step (l : nat) :
  (∀ l', l ≤ l' < nh → off lo l' ≤ off lo (S l') ≤ length sv0) → l < nh →
  rk l = rk (S l) + (off lo (S l) - off lo l).
Proof.
  intros Hmono Hl. unfold rank.
  pose proof (off_chain l Hmono (S l) ltac:(lia)) as [? ?].
  lia.
Qed.

Lemma length_block (l : nat) :
  off lo l ≤ off lo (S l) ≤ length sv0 → length (blk l) = off lo (S l) - off lo l.
Proof.
  intros Hle. unfold block, sorted_layer.
  by rewrite length_fmap, sort_by_length, layer_slice_length.
Qed.

(** Saving one vertex. *)
Lemma save_vertex_inv (l k : nat) (s s' : ConstructNodeFlow.ids_state) :
  l < nh → k < off lo (S l) - off lo l →
  ids_inv lo sv0 nh l k s →
  ConstructNodeFlow.save_vertex l s (off lo l + k) = Ok s' →
  ids_inv lo sv0 nh l (S k) s'.
Proof.
  intros Hl Hk [Hmono Hlen Hframe Hslice Hidx Hver Hlnm Hnm Hlmaps Hsound Hcomplete] Hrun.
  unfold ConstructNodeFlow.save_vertex in Hrun. inv_ok Hrun. simpl_res.
  destruct x as [v tag]. simpl in *. subst s'. simpl.
  match goal with H : ConstructNodeFlow.layer_ver_maps s !! l = Some _ |- _ =>
    rename H into H3 end.
  match goal with H : ConstructNodeFlow.sub_vers s !! _ = Some _ |- _ =>
    rename H into Hat end.
  assert (sorted_layer sv0 lo l !! k = Some (v, tag)) as Hvk.
  { rewrite <- Hslice. by rewrite layer_slice_lookup. }
  assert (blk l !! k = Some v) as Hbk.
  { unfold block. by rewrite list_lookup_fmap, Hvk. }
  constructor; simpl; try done.
  - lia.
  - lia.
  - by rewrite length_insert.
  - rewrite Hidx in *.
    replace (rk (S l) + S k) with (S (rk (S l) + k)) by lia.
    rewrite (take_S_r _ _ v) by (by rewrite list_lookup_insert_eq).
    rewrite take_insert_ge by lia. rewrite Hnm.
    rewrite <- app_assoc. f_equal. by rewrite (take_S_r _ _ v).
  - by rewrite length_insert.
  - intros l' m v' i Hm Hv'. destruct (decide (l' = l)) as [->|Hne].
    + rewrite list_lookup_insert_eq in Hm by (by eapply lookup_lt_Some).
      injection Hm as <-. unfold map_insert_new in Hv'.
      destruct (x1 !! v) as [i0|] eqn:Hx1v.
      * destruct (Hsound l x1 v' i H3 Hv') as (? & ? & ? & Hlt).
        split; [done|]. split; [done|]. split; [done|]. intros _. specialize (Hlt eq_refl). lia.
      * destruct (decide (v' = v)) as [->|Hvne].
        -- rewrite lookup_insert_eq in Hv'. injection Hv' as <-. rewrite Hver.
           split; [done|]. split; [lia|]. split; [|lia].
           by replace (rk (S l) + k - rk (S l)) with k by lia.
        -- rewrite lookup_insert_ne in Hv' by done.
           destruct (Hsound l x1 v' i H3 Hv') as (? & ? & ? & Hlt).
           split; [done|]. split; [done|]. split; [done|]. intros _.
           specialize (Hlt eq_refl). lia.
    + rewrite list_lookup_insert_ne in Hm by done.
      destruct (Hsound l' m v' i Hm Hv') as (? & ? & ? & Hlt). done.
  - intros l' p v' Hl' Hp Hb. destruct (decide (l' = l)) as [->|Hne].
    + rewrite list_lookup_insert_eq by (by eapply lookup_lt_Some).
      unfold map_insert_new. specialize (Hp eq_refl).
      destruct (x1 !! v) as [i0|] eqn:Hx1v.
      * destruct (decide (p = k)) as [->|Hpk].
        -- rewrite Hbk in Hb. injection Hb as <-. by exists x1, i0.
        -- destruct (Hcomplete l p v' Hl' ltac:(lia) Hb) as (m & i & Hm & Hi).
           rewrite H3 in Hm. injection Hm as <-. by exists x1, i.
      * destruct (decide (v' = v)) as [->|Hvne].
        -- eexists _, (ConstructNodeFlow.ver_id s). split; [done|]. apply lookup_insert_eq.
        -- assert (p ≠ k) as Hpk by (intros ->; congruence).
           destruct (Hcomplete l p v' Hl' ltac:(lia) Hb) as (m & i & Hm & Hi).
           rewrite H3 in Hm. injection Hm as <-.
           eexists _, i. split; [done|]. by rewrite lookup_insert_ne.
    + rewrite list_lookup_insert_ne by done.
      apply (Hcomplete l' p v'); [done| |done]. intros. done.
Qed.

Lemma ids_done_sorted (l : nat) (s : ConstructNodeFlow.ids_state)
    (sv' : list (nat * nat)) :
  l < nh →
  ids_done lo sv0 nh (S l) s →
  sort_range fst (ConstructNodeFlow.sub_vers s) (off lo l) (off lo (S l)) = Ok sv' →
  ids_inv lo sv0 nh l 0
    {| ConstructNodeFlow.sub_vers := sv';
       ConstructNodeFlow.node_map_data := ConstructNodeFlow.node_map_data s;
       ConstructNodeFlow.layer_ver_maps := ConstructNodeFlow.layer_ver_maps s;
       ConstructNodeFlow.ver_id := ConstructNodeFlow.ver_id s;
       ConstructNodeFlow.out_node_idx := ConstructNodeFlow.out_node_idx s |}.
Proof.
  intros Hl [Hmono Hlen Hframe Hidx Hver Hlnm Hnm Hlmaps Hsound Hcomplete] Hsort.
  apply sort_range_Ok in Hsort as (Hle & Hlen' & Htake & Hslice & _).
  rewrite Hlen in Hle.
  assert (take (off lo l) (ConstructNodeFlow.sub_vers s) = take (off lo l) sv0) as Hfr.
  { rewrite <- (take_take_le (ConstructNodeFlow.sub_vers s) (off lo l) (off lo (S l)))
      by lia.
    rewrite Hframe. by rewrite take_take_le by lia. }
  constructor; simpl; try done.
  - intros l' Hl'. destruct (decide (l' = l)) as [->|]; [done|]. apply Hmono. lia.
  - congruence.
  - congruence.
  - rewrite Hslice. unfold sorted_layer. f_equal.
    rewrite !layer_slice_alt by lia. by rewrite Hframe.
  - lia.
  - lia.
  - rewrite Nat.add_0_r, take_0, app_nil_r. done.
  - intros l' m v i Hm Hv. destruct (Hsound l' m v i Hm Hv) as (? & ? & ?).
    split; [lia|]. split; [done|]. split; [done|]. lia.
  - intros l' p v Hl' Hp Hb. destruct (decide (l' = l)) as [->|]; [specialize (Hp eq_refl); lia|].
    apply (Hcomplete l' p v); [lia|done].
Qed.

Lemma ids_inv_done (l : nat) (s : ConstructNodeFlow.ids_state) :
  l < nh →
  ids_inv lo sv0 nh l (off lo (S l) - off lo l) s → ids_done lo sv0 nh l s.
Proof.
  intros Hl [Hmono Hlen Hframe Hslice Hidx Hver Hlnm Hnm Hlmaps Hsound Hcomplete].
  pose proof (rank_step l Hmono Hl) as Hrank.
  pose proof (length_block l (Hmono l ltac:(lia))) as Hlb.
  constructor; try done.
  - lia.
  - lia.
  - rewrite Hrank, Hnm. rewrite take_ge by lia.
    replace (nh - l) with (S (nh - S l)) by lia. cbn [seq rev].
    rewrite map_app, concat_app. simpl. by rewrite app_nil_r.
  - intros l' m v i Hm Hv. destruct (Hsound l' m v i Hm Hv) as (? & ? & ? & _). done.
  - intros l' p v Hl' Hb. apply (Hcomplete l' p v); [done| |done].
    intros ->. apply lookup_lt_Some in Hb. lia.
Qed.

Lemma save_layer_done (l : nat) (s s' : ConstructNodeFlow.ids_state) :
  l < nh →
  ids_done lo sv0 nh (S l) s →
  ConstructNodeFlow.save_layer lo s l = Ok s' →
  ids_done lo sv0 nh l s'.
Proof.
  intros Hl Hdone Hrun. unfold ConstructNodeFlow.save_layer in Hrun.
  inv_ok Hrun. simpl_res.
  replace (l + 1) with (S l) in * by lia.
  repeat match goal with H : lo !! _ = Some _ |- _ => apply off_lookup in H; subst end.
  match goal with H : sort_range _ _ _ _ = Ok _ |- _ =>
    pose proof (ids_done_sorted l s _ Hl Hdone H) as Hinv;
    apply sort_range_Ok in H as (Hle & _) end.
  apply ids_inv_done; [done|].
  replace (off lo (S l) - off lo l) with (off lo l + (off lo (S l) - off lo l) - off lo l)
    by lia.
  revert Hrun.
  apply (foldM_seq_invariant _ (λ i st, ids_inv lo sv0 nh l (i - off lo l) st)).
  - intros i st st' Hi Hst Hstep.
    replace (S i - off lo l) with (S (i - off lo l)) by lia.
    apply (save_vertex_inv l (i - off lo l) st st'); [done|lia|done|].
    by replace (off lo l + (i - off lo l)) with i by lia.
  - by rewrite Nat.sub_diag.
Qed.

Lemma save_vertices_done (s : ConstructNodeFlow.ids_state) :
  ConstructNodeFlow.save_vertices lo sv0 nh = Ok s → ids_done lo sv0 nh 0 s.
Proof.
  unfold ConstructNodeFlow.save_vertices. intros Hrun.
  cut (ids_done lo sv0 nh (nh - length (rev (seq 0 nh))) s).
  { by rewrite length_rev, length_seq, Nat.sub_diag. }
  revert Hrun. apply (foldM_invariant _ (λ n st, ids_done lo sv0 nh (nh - n) st)).
  - intros n l st st' Hn Hst Hstep.
    apply rev_seq_lookup in Hn as [Hn ->].
    replace (nh - S n) with (nh - 1 - n) by lia.
    apply (save_layer_done _ st st'); [lia| |done].
    by replace (S (nh - 1 - n)) with (nh - n) by lia.
  - rewrite Nat.sub_0_r. constructor; simpl.
    + intros l' Hl'. lia.
    + done.
    + done.
    + unfold rank. lia.
    + unfold rank. lia.
    + by rewrite length_replicate.
    + unfold rank. by rewrite !Nat.sub_diag.
    + by rewrite length_replicate.
    + intros l' m v i [-> _]%lookup_replicate Hv. by rewrite lookup_empty in Hv.
    + intros l' p v Hl'. lia.
Qed.
End ids.


(** ** The second loop of [ConstructNodeFlow]: rows of the compact adjacency *)

Section rows.
Variable lo : list nat.
Variable sv0 : list (nat * nat).
Variables nh ne : nat.
Variables neighbor_list edge_list : list nat.

Local Abbreviation rk := (rank lo nh).
Local Abbreviation nv := (length sv0).

Hypothesis lo_mono : ∀ l', l' < nh → off lo l' ≤ off lo (S l') ≤ length sv0.

Lemma lo_mono_from (l : nat) :
  ∀ l', l ≤ l' < nh → off lo l' ≤ off lo (S l') ≤ length sv0.
Proof. intros l' Hl'. apply lo_mono. lia. Qed.

Lemma rank_S (l : nat) : l < nh → rk l = rk (S l) + (off lo (S l) - off lo l).
Proof. intros Hl. apply (rank_step lo sv0 nh l); [apply lo_mono_from|done]. Qed.

Lemma rank_antitone (l l' : nat) : l ≤ l' ≤ nh → rk l' ≤ rk l.
Proof.
  intros Hl. unfold rank.
  pose proof (off_chain lo sv0 nh l (lo_mono_from l) l' Hl) as [? ?]. lia.
Qed.

(** Mapping the neighbours of one row. *)
Lemma map_neighbors_inv (m : gmap nat nat) (pos c0 n : nat) (col col' : list nat) :
  foldM (ConstructNodeFlow.map_neighbor neighbor_list m pos c0) (seq 0 n) col = Ok col' →
  length col' = length col
  ∧ (∀ e, e < c0 → col' !! e = col !! e)
  ∧ (∀ e c, c0 ≤ e < c0 + n → col' !! e = Some c → ∃ neigh, m !! neigh = Some c).
Proof.
  intros Hrun.
  cut (length col' = length col
       ∧ (∀ e, e < c0 → col' !! e = col !! e)
       ∧ (∀ e c, c0 ≤ e < c0 + (0 + n) → col' !! e = Some c → ∃ neigh, m !! neigh = Some c)).
  { done. }
  revert Hrun.
  apply (foldM_seq_invariant _ (λ j st,
    length st = length col
    ∧ (∀ e, e < c0 → st !! e = col !! e)
    ∧ (∀ e c, c0 ≤ e < c0 + j → st !! e = Some c → ∃ neigh, m !! neigh = Some c))).
  - intros j st st' Hj (Hlen & Hframe & Hgood) Hstep.
    unfold ConstructNodeFlow.map_neighbor in Hstep. inv_ok Hstep.
    destruct (m !! x) as [local|] eqn:Hm; [|done]. simpl_res.
    split; [by rewrite length_insert|]. split.
    + intros e He. rewrite list_lookup_insert_ne by lia. by apply Hframe.
    + intros e c He Hc. destruct (decide (e = c0 + j)) as [->|Hne].
      * rewrite list_lookup_insert_eq in Hc by done. injection Hc as <-. eauto.
      * rewrite list_lookup_insert_ne in Hc by done. apply (Hgood e c); [lia|done].
  - split; [done|]. split; [done|]. intros e c He. lia.
Qed.

Lemma copy_n_length {A} (src : list A) (pos n : nat) (dst dst' : list A) (at_pos : nat) :
  ConstructNodeFlow.copy_n src pos n dst at_pos = Ok dst' → length dst' = length dst.
Proof.
  unfold ConstructNodeFlow.copy_n.
  apply (foldM_invariant _ (λ _ st, length st = length dst)); [|done].
  intros j i st st' _ Hlen Hstep. inv_ok Hstep. simpl_res. by rewrite length_insert.
Qed.

Variable maps : list (gmap nat nat).
Hypothesis maps_sound : ∀ l' m v i,
  maps !! l' = Some m → m !! v = Some i →
  rk (S l') ≤ i ∧ block sv0 lo l' !! (i - rk (S l')) = Some v.

Lemma maps_range (l' : nat) (m : gmap nat nat) (v i : nat) :
  l' < nh → maps !! l' = Some m → m !! v = Some i → rk (S l') ≤ i < rk l'.
Proof.
  intros Hl' Hm Hv. destruct (maps_sound l' m v i Hm Hv) as [Hge Hb].
  apply lookup_lt_Some in Hb.
  rewrite (length_block lo sv0 l' (lo_mono l' Hl')) in Hb.
  rewrite (rank_S l' Hl'). lia.
Qed.

Lemma copy_row_inv (sub_vers : list (nat * nat)) (l i : nat)
    (s s' : ConstructNodeFlow.rows_state) :
  S l < nh →
  rk (S l) ≤ ConstructNodeFlow.row_idx s < rk l →
  rows_inv lo nh nv ne s →
  ConstructNodeFlow.copy_row neighbor_list edge_list sub_vers maps l s i = Ok s' →
  rows_inv lo nh nv ne s'
  ∧ ConstructNodeFlow.row_idx s' = S (ConstructNodeFlow.row_idx s)
  ∧ ConstructNodeFlow.layer_off_data s' = ConstructNodeFlow.layer_off_data s
  ∧ ConstructNodeFlow.out_layer_idx s' = ConstructNodeFlow.out_layer_idx s.
Proof.
  intros Hl Hrow [Hlip Hlcol Hlem Hllod Htop Hmono Hcols] Hrun.
  unfold ConstructNodeFlow.copy_row in Hrun. inv_ok Hrun. simpl_res.
  match goal with H : foldM (ConstructNodeFlow.map_neighbor _ _ _ _) _ _ = Ok _ |- _ =>
    apply map_neighbors_inv in H as (Hlen' & Hframe & Hgood) end.
  match goal with H : ConstructNodeFlow.copy_n _ _ _ _ _ = Ok _ |- _ =>
    apply copy_n_length in H as Hlem' end.
  match goal with H : ConstructNodeFlow.indptr_out s !! ConstructNodeFlow.row_idx s = Some _
    |- _ => rewrite Htop in H; injection H as <- end.
  subst s'. simpl. split; [|done].
  set (r0 := ConstructNodeFlow.row_idx s) in *.
  set (c0 := ConstructNodeFlow.collected_nedges s) in *.
  set (n := neighbor_info.num_edges x0) in *.
  assert (r0 + 1 < length (ConstructNodeFlow.indptr_out s)) as Hr0 by done.
  constructor; simpl.
  - by rewrite length_insert.
  - congruence.
  - congruence.
  - done.
  - replace (S r0) with (r0 + 1) by lia. by rewrite list_lookup_insert_eq.
  - intros r a b Hr Ha Hb. destruct (decide (r = r0)) as [->|Hne].
    + rewrite list_lookup_insert_ne in Ha by lia.
      replace (S r0) with (r0 + 1) in Hb by lia.
      rewrite list_lookup_insert_eq in Hb by done.
      rewrite Htop in Ha. injection Ha as <-. injection Hb as <-. lia.
    + rewrite !list_lookup_insert_ne in Ha, Hb by lia.
      specialize (Hmono r a b ltac:(lia) Ha Hb). lia.
  - intros r a b e c Hr Ha Hb He Hc. destruct (decide (r = r0)) as [->|Hne].
    + rewrite list_lookup_insert_ne in Ha by lia.
      replace (S r0) with (r0 + 1) in Hb by lia.
      rewrite list_lookup_insert_eq in Hb by done.
      rewrite Htop in Ha. injection Ha as <-. injection Hb as <-.
      destruct (Hgood e c He Hc) as [neigh Hneigh].
      exists l. split; [done|]. split; [done|].
      match goal with H : (if decide ?P then _ else _) = Ok _ |- _ =>
        destruct (decide P) as [Hn|Hn]; [lia|]; simpl_res;
        replace (l + 1) with (S l) in H by lia; rename H into Hmaps end.
      by eapply maps_range.
    + rewrite !list_lookup_insert_ne in Ha, Hb by lia.
      pose proof (Hmono r a b ltac:(lia) Ha Hb) as Hab.
      apply (Hcols r a b e c); [lia|done|done|done|].
      rewrite <- Hframe by lia. done.
Qed.

Lemma copy_layer_done (sub_vers : list (nat * nat)) (l : nat)
    (s s' : ConstructNodeFlow.rows_state) :
  S l < nh →
  rows_done lo nh nv ne (S l) s →
  ConstructNodeFlow.copy_layer neighbor_list edge_list lo sub_vers maps s l = Ok s' →
  rows_done lo nh nv ne l s'.
Proof.
  intros Hl [Hrows Hrow Holi Hlod] Hrun.
  unfold ConstructNodeFlow.copy_layer in Hrun. inv_ok Hrun. simpl_res.
  replace (l + 1) with (S l) in * by lia.
  repeat match goal with H : lo !! _ = Some _ |- _ => apply off_lookup in H; subst end.
  pose proof (lo_mono l ltac:(lia)) as Hle.
  pose proof (rank_S l ltac:(lia)) as Hrk.
  match goal with H : foldM _ _ _ = Ok ?st |- _ =>
    assert (rows_inv lo nh nv ne st
            ∧ ConstructNodeFlow.row_idx st
              = rk (S l) + (off lo l + (off lo (S l) - off lo l) - off lo l)
            ∧ ConstructNodeFlow.layer_off_data st = ConstructNodeFlow.layer_off_data s
            ∧ ConstructNodeFlow.out_layer_idx st = ConstructNodeFlow.out_layer_idx s)
      as (Hrows' & Hrow' & Hlod' & Holi');
    [revert H;
     apply (foldM_seq_invariant _ (λ i st,
       rows_inv lo nh nv ne st
       ∧ ConstructNodeFlow.row_idx st = rk (S l) + (i - off lo l)
       ∧ ConstructNodeFlow.layer_off_data st = ConstructNodeFlow.layer_off_data s
       ∧ ConstructNodeFlow.out_layer_idx st = ConstructNodeFlow.out_layer_idx s))|]
  end.
  { intros i st st' Hi (Hst & Hri & Hlodi & Holii) Hstep.
    apply copy_row_inv in Hstep as (Hst' & Hri' & Hlodi' & Holii'); [|done|lia|done].
    split; [done|]. split; [lia|]. split; congruence. }
  { simpl. destruct Hrows. split; [by constructor|]. split; [lia|]. done. }
  rewrite Hlod', Holi', Holi in *.
  match goal with H : ConstructNodeFlow.layer_off_data s !! (nh - S l) = Some _ |- _ =>
    rewrite (Hlod (nh - S l)) in H by lia; injection H as <- end.
  replace (nh - (nh - S l)) with (S l) in * by lia.
  rewrite usub_le in * by lia.
  destruct Hrows' as [Hlip Hlcol Hlem Hllod Htop Hmono Hcols].
  constructor; simpl.
  - constructor; simpl; try done. rewrite length_insert. congruence.
  - lia.
  - lia.
  - intros b Hb. destruct (decide (b = nh - S l + 1)) as [->|Hne].
    + rewrite list_lookup_insert_eq by done. f_equal.
      replace (nh - (nh - S l + 1)) with l by lia. lia.
    + rewrite list_lookup_insert_ne by done. apply Hlod. lia.
Qed.
End rows.

(** ** [ConstructNodeFlow] as a whole *)

Lemma zero_rows_Ok (n first cnt : nat) (indptr' : list nat) (row : nat) :
  foldM ConstructNodeFlow.zero_row (seq first cnt) (replicate n 0, 0) = Ok (indptr', row) →
  indptr' = replicate n 0 ∧ row = cnt.
Proof.
  intros Hrun.
  cut ((indptr', row).1 = replicate n 0 ∧ (indptr', row).2 = first + cnt - first).
  { simpl. intros [-> ->]. split; [done|lia]. }
  revert Hrun.
  apply (foldM_seq_invariant _ (λ i st, st.1 = replicate n 0 ∧ st.2 = i - first)).
  - intros i [ip r] st' Hi [Hip Hr] Hstep. simpl in *. subst ip.
    unfold ConstructNodeFlow.zero_row in Hstep. inv_ok Hstep. simpl_res. subst st'. simpl.
    split; [|lia]. apply list_insert_id, lookup_replicate_2.
    by rewrite length_replicate in *.
  - simpl. split; [done|lia].
Qed.

Lemma flow_steps_Ok (subg_csr : CSR) (lod fod fod' : list nat) (n out : nat) :
  fod !! 0 = Some 0 →
  foldM (ConstructNodeFlow.flow_step subg_csr lod) (seq 0 n) (fod, 0) = Ok (fod', out) →
  fod' !! 0 = Some 0 ∧ length fod' = length fod ∧ out = n.
Proof.
  intros H0 Hrun.
  cut ((fod', out).1 !! 0 = Some 0 ∧ length (fod', out).1 = length fod
       ∧ (fod', out).2 = 0 + n).
  { done. }
  revert Hrun.
  apply (foldM_seq_invariant _ (λ i st,
    st.1 !! 0 = Some 0 ∧ length st.1 = length fod ∧ st.2 = i)).
  - intros i [f o] st' Hi (Hf0 & Hlen & Ho) Hstep. simpl in *.
    unfold ConstructNodeFlow.flow_step in Hstep. inv_ok Hstep. simpl_res. subst st'. simpl.
    split; [|split; [by rewrite length_insert|lia]].
    by rewrite list_lookup_insert_ne by lia.
  - done.
Qed.


Lemma ConstructNodeFlow_run_Ok (neighbor_list edge_list : list nat) (lo : list nat)
    (sv0 : list (nat * nat)) (np0 : list neighbor_info.t) (edge_type : string)
    (ne nh : nat) (is_multigraph : bool) (nf : NodeFlow) :
  ConstructNodeFlow.run neighbor_list edge_list lo sv0 np0 edge_type ne nh is_multigraph
    = Ok nf →
  ∃ s1 csr,
    1 ≤ nh
    ∧ (∀ l', l' < nh → off lo l' ≤ off lo (S l') ≤ length sv0)
    ∧ off lo 0 = 0 ∧ off lo nh = length sv0
    ∧ ConstructNodeFlow.save_vertices lo sv0 nh = Ok s1
    ∧ ids_done lo sv0 nh 0 s1
    ∧ node_mapping nf = ConstructNodeFlow.node_map_data s1
    ∧ length (node_mapping nf) = length sv0
    ∧ length (edge_mapping nf) = ne
    ∧ length (layer_offsets nf) = nh + 1
    ∧ length (flow_offsets nf) = nh
    ∧ (∀ b, b ≤ nh → layer_offsets nf !! b = Some (rank lo nh (nh - b)))
    ∧ flow_offsets nf !! 0 = Some 0
    ∧ flow_offsets nf !! (nh - 1) = Some ne
    ∧ adjacency nf = Some csr
    ∧ length (indptr csr) = length sv0 + 1
    ∧ length (indices csr) = ne
    ∧ indptr csr !! length sv0 = Some ne
    ∧ (∀ r a b e c,
         r < length sv0 → indptr csr !! r = Some a → indptr csr !! S r = Some b →
         a ≤ e < b → indices csr !! e = Some c → in_adjacent lo nh r c).
Proof.
  intros Hrun. unfold ConstructNodeFlow.run in Hrun. inv_ok Hrun.
  destruct x4 as [indptr0 row0]. inv_ok Hrun. destruct x14 as [fod out_flow_idx].
  inv_ok Hrun.
  pose proof (save_vertices_done lo sv0 nh x Hx) as Hdone.
  destruct (decide (nh = 0)) as [|Hnh]; [done|]. clear Hx1.
  apply CHECK_Ok, bool_decide_eq_true in Hx0, Hx8, Hx10, Hx11, Hx13, Hx16, Hx18.
  apply index_Ok in Hx2, Hx3, Hx9, Hx12, Hx17.
  apply off_lookup in Hx2 as Hoff1, Hx3 as Hoff2.
  assert (∀ l', l' < nh → off lo l' ≤ off lo (S l') ≤ length sv0) as Hmono.
  { intros l' Hl'. apply (id_mono _ _ _ _ _ Hdone). lia. }
  assert (off lo 0 = 0 ∧ off lo nh = length sv0) as [Hoff0 Hoffn].
  { pose proof (id_idx _ _ _ _ _ Hdone) as Hidx. rewrite Hx0 in Hidx. unfold rank in Hidx.
    pose proof (Hmono (nh - 1) ltac:(lia)) as Hlast.
    replace (S (nh - 1)) with nh in Hlast by lia.
    pose proof (off_chain lo sv0 nh 0 (λ l' Hl', Hmono l' (proj2 Hl')) nh ltac:(lia))
      as [Hchain _].
    lia. }
  apply zero_rows_Ok in Hx4 as [-> ->].
  apply store_Ok in Hx5 as [_ ->]. apply store_Ok in Hx6 as [Hlt1 ->].
  rewrite length_insert, length_replicate in Hlt1.
  pose proof (Hmono (nh - 1) ltac:(lia)) as Hlast.
  replace (S (nh - 1)) with nh in Hlast by lia.
  rewrite usub_le in Hx7 by lia.
  assert (rows_done lo nh (length sv0) ne 0 x6) as [Hrows Hrow Holi Hlod].
  { replace 0 with (nh - 1 - length (rev (seq 0 (nh - 1))))
      by (rewrite length_rev, length_seq; lia).
    revert Hx7.
    apply (foldM_invariant _ (λ n st, rows_done lo nh (length sv0) ne (nh - 1 - n) st)).
    - intros n l st st' Hn Hst Hstep. apply rev_seq_lookup in Hn as [Hn ->].
      replace (nh - 1 - S n) with (nh - 1 - 1 - n) by lia.
      eapply (copy_layer_done lo sv0 nh ne); [done| |lia| |exact Hstep].
      + intros l' m v i Hm Hv. by destruct (id_sound _ _ _ _ _ Hdone l' m v i Hm Hv) as (_ & ? & ?).
      + by replace (S (nh - 1 - 1 - n)) with (nh - 1 - n) by lia.
    - rewrite Nat.sub_0_r. constructor; simpl.
      + constructor; simpl.
        * by rewrite length_replicate.
        * by rewrite length_replicate.
        * by rewrite length_replicate.
        * by rewrite !length_insert, length_replicate.
        * apply lookup_replicate_2. lia.
        * intros r a b _ [-> _]%lookup_replicate [-> _]%lookup_replicate. lia.
        * intros r a b e c _ [-> _]%lookup_replicate [-> _]%lookup_replicate. lia.
      + unfold rank. lia.
      + lia.
      + intros b Hb. destruct b as [|[|b]]; [| |lia].
        * rewrite list_lookup_insert_ne by lia.
          rewrite list_lookup_insert_eq by (rewrite length_replicate; lia).
          unfold rank. rewrite Nat.sub_0_r. f_equal. lia.
        * rewrite list_lookup_insert_eq by (rewrite length_insert, length_replicate; lia).
          unfold rank. by rewrite Hoff1, Hoff2. }
  destruct Hrows as [Hlip Hlcol Hlem Hllod Htop Hmono' Hcols].
  apply store_Ok in Hx14 as [Hlt0 ->]. rewrite length_replicate in Hlt0.
  apply flow_steps_Ok in Hx15 as (Hf0 & Hflen & ->);
    [|by rewrite list_lookup_insert_eq by (rewrite length_replicate; lia)].
  rewrite length_insert, length_replicate in Hflen.
  exists x, {| indptr := ConstructNodeFlow.indptr_out x6;
              indices := ConstructNodeFlow.col_list_out x6;
              edge_ids := seq 0 ne |}.
  subst nf. simpl.
  split; [lia|]. split; [done|]. split; [done|]. split; [done|]. split; [done|].
  split; [done|]. split; [done|]. split; [apply (id_len_nm _ _ _ _ _ Hdone)|].
  split; [done|]. split; [done|]. split; [done|].
  split; [intros b Hb; apply Hlod; lia|]. split; [done|].
  split; [by rewrite Hx17, Hx18|].
  split; [unfold adjacency; by destruct (String.eqb edge_type "in")|].
  split; [done|]. split; [done|]. split; [by rewrite <- Hx8, Hx9, Hx10|].
  intros r a b e c Hr. apply Hcols. rewrite Hx8. done.
Qed.


(** ** The NodeFlow a sampling call returns *)

Lemma SampleSubgraph_run_Ok (graph : ImmutableGraph) (seed_arr : list nat)
    (probability : option (list Q)) (edge_type : string)
    (num_hops num_neighbor : nat) (time_seed : seed_t) (nf : NodeFlow) :
  SampleSubgraph.run graph seed_arr probability edge_type num_hops num_neighbor time_seed
    = Ok nf →
  ∃ s, SampleSubgraph.expand graph seed_arr probability edge_type num_hops num_neighbor
         time_seed = Ok s
       ∧ ConstructNodeFlow.run (SampleSubgraph.neighbor_list s) (SampleSubgraph.edge_list s)
           (SampleSubgraph.layer_offsets s) (SampleSubgraph.sub_vers s)
           (SampleSubgraph.neigh_pos s) edge_type (SampleSubgraph.num_edges s) num_hops
           (is_multigraph_ graph) = Ok nf.
Proof. unfold SampleSubgraph.run. intros Hrun. inv_ok Hrun. eauto. Qed.

(** The block of [node_mapping] a row belongs to determines its layer. *)
Lemma rank_block_unique (lo : list nat) (sv0 : list (nat * nat)) (nh l l0 r : nat) :
  (∀ l', l' < nh → off lo l' ≤ off lo (S l') ≤ length sv0) →
  l < nh → l0 < nh →
  rank lo nh (S l) ≤ r < rank lo nh l →
  rank lo nh (S l0) ≤ r < rank lo nh l0 →
  l = l0.
Proof.
  intros Hmono Hl Hl0 Hr Hr0.
  destruct (decide (l = l0)) as [|Hne]; [done|]. exfalso.
  destruct (decide (l < l0)).
  - pose proof (rank_antitone lo sv0 nh Hmono (S l) l0 ltac:(lia)). lia.
  - pose proof (rank_antitone lo sv0 nh Hmono (S l0) l ltac:(lia)). lia.
Qed.

(** C5 as the code has it. The entry point passes [num_hops + 1] to
    [SampleSubgraph] as the number of layers, so the NodeFlow a call with
    hop count [num_hops] returns has [num_hops + 2] layer offsets and
    [num_hops + 1] flow offsets. *)
Theorem NeighborUniformSample_offsets_length (graph : ImmutableGraph) (seeds : list nat)
    (edge_type : string) (num_hops expand_factor : nat) (time_seed : seed_t)
    (nf : NodeFlow) :
  NeighborUniformSample graph seeds edge_type num_hops expand_factor time_seed = Ok nf →
  length (layer_offsets nf) = num_hops + 2 ∧ length (flow_offsets nf) = num_hops + 1.
Proof.
  unfold NeighborUniformSample. intros (s & _ & Hrun)%SampleSubgraph_run_Ok.
  apply ConstructNodeFlow_run_Ok in Hrun
    as (s1 & csr & _ & _ & _ & _ & _ & _ & _ & _ & _ & Hlo & Hfo & _).
  lia.
Qed.

Lemma NeighborUniformSample_offsets_length_witness :
  NeighborUniformSample path4 [0] "out" 2 10 [] = Ok path4_nodeflow
  ∧ length (layer_offsets path4_nodeflow) = 2 + 2
  ∧ length (flow_offsets path4_nodeflow) = 2 + 1.
Proof.
  split; [reflexivity|].
  apply (NeighborUniformSample_offsets_length path4 [0] "out" 2 10 []). reflexivity.
Defined.

(** The statement of C5 with [num_hops + 1] and [num_hops] entries fails on
    the path 0 → 1 → 2 → 3 sampled two hops from the seed 0. *)
Lemma NeighborUniformSample_offsets_length_counterexample :
  ¬ (∀ nf, NeighborUniformSample path4 [0] "out" 2 10 [] = Ok nf →
           length (layer_offsets nf) = 2 + 1 ∧ length (flow_offsets nf) = 2).
Proof.
  intros Hclaim. specialize (Hclaim path4_nodeflow eq_refl) as [Hlo _]. discriminate Hlo.
Qed.

(** Every sampled neighbour is counted: the expansion keeps [num_edges]
    equal to the length of both shared buffers. *)
Lemma expand_edges (graph : ImmutableGraph) (seed_arr : list nat)
    (probability : option (list Q)) (edge_type : string)
    (num_hops num_neighbor : nat) (time_seed : seed_t) (s : SampleSubgraph.state) :
  SampleSubgraph.expand graph seed_arr probability edge_type num_hops num_neighbor time_seed
    = Ok s →
  SampleSubgraph.num_edges s = length (SampleSubgraph.neighbor_list s)
  ∧ SampleSubgraph.num_edges s = length (SampleSubgraph.edge_list s).
Proof.
  unfold SampleSubgraph.expand. intros Hrun. inv_ok Hrun.
  destruct x0 as [m sv]. inv_ok Hrun.
  revert Hrun.
  apply (foldM_invariant _ (λ _ st,
    SampleSubgraph.num_edges st = length (SampleSubgraph.neighbor_list st)
    ∧ SampleSubgraph.num_edges st = length (SampleSubgraph.edge_list st))); [|done].
  intros n l st st' _ Hst Hstep. unfold SampleSubgraph.expand_layer in Hstep.
  inv_ok Hstep. subst st'. simpl.
  match goal with H : foldM _ _ _ = Ok _ |- _ => revert H end.
  apply (foldM_invariant _ (λ _ st,
    SampleSubgraph.num_edges st = length (SampleSubgraph.neighbor_list st)
    ∧ SampleSubgraph.num_edges st = length (SampleSubgraph.edge_list st))); [|done].
  intros k idx st1 st2 _ [Hn He] Hv. unfold SampleSubgraph.expand_vertex in Hv.
  inv_ok Hv. destruct_pairs. inv_ok Hv. simpl_res.
  destruct (foldl _ _ _) as [m' sv']. injection Hv as <-. simpl.
  rewrite !length_app. lia.
Qed.

(** C3 as the code has it. For every NodeFlow a sampling call returns:
    [layer_offsets] starts at 0 and ends at the length of [node_mapping];
    [flow_offsets] starts at 0 and ends at the length of [edge_mapping]; the
    compact adjacency has one column for every sampled neighbour; and every
    column of a row is a local id of the adjacent layer one hop deeper (one
    hop further from the seeds, the block just before the row's block in
    [node_mapping]), a position of [node_mapping].  A neighbour that is not in
    the table of that layer ends the construction with a failed check: on a
    queue whose only neighbour record names the unknown vertex 7 the
    construction fails. *)
Theorem nodeflow_invariants (graph : ImmutableGraph) (seed_arr : list nat)
    (probability : option (list Q)) (edge_type : string)
    (num_hops num_neighbor : nat) (time_seed : seed_t) :
  (∀ nf,
     SampleSubgraph.run graph seed_arr probability edge_type num_hops num_neighbor time_seed
       = Ok nf →
     layer_offsets nf !! 0 = Some 0
     ∧ last (layer_offsets nf) = Some (length (node_mapping nf))
     ∧ flow_offsets nf !! 0 = Some 0
     ∧ last (flow_offsets nf) = Some (length (edge_mapping nf))
     ∧ ∃ s csr,
         SampleSubgraph.expand graph seed_arr probability edge_type num_hops num_neighbor
           time_seed = Ok s
         ∧ adjacency nf = Some csr
         ∧ length (indices csr) = length (SampleSubgraph.neighbor_list s)
         ∧ indptr csr !! length (node_mapping nf)
           = Some (length (SampleSubgraph.neighbor_list s))
         ∧ ∀ r c d, has_edge csr r c → hop_depth nf r d →
                    hop_depth nf c (S d) ∧ is_Some (node_mapping nf !! c))
  ∧ (∀ neighbor_list m pos collected_nedges col_list_out i neigh,
       neighbor_list !! (pos + i) = Some neigh → m !! neigh = None →
       ConstructNodeFlow.map_neighbor neighbor_list m pos collected_nedges col_list_out i
       = Err CheckFailed)
  ∧ ConstructNodeFlow.run [7] [0] [0; 1; 2] [(0, 0); (1, 1)]
      [ {| neighbor_info.id := 0; neighbor_info.pos := 0; neighbor_info.num_edges := 1 |} ]
      edge_type 1 2 false = Err CheckFailed.
Proof.
  split; [|split].
  - intros nf (s & Hexp & Hrun)%SampleSubgraph_run_Ok.
    apply expand_edges in Hexp as Hedges. destruct Hedges as [Hne _].
    apply ConstructNodeFlow_run_Ok in Hrun
      as (s1 & csr & Hnh & Hmono & Hoff0 & Hoffn & _ & _ & _ & Hlnm & Hlem & Hllo & Hlfo
          & Hlod & Hf0 & Hfl & Hadj & Hlip & Hlcol & Htot & Hcols).
    set (lo := SampleSubgraph.layer_offsets s) in *.
    set (sv0 := SampleSubgraph.sub_vers s) in *.
    assert (rank lo num_hops 0 = length sv0) as Hr0 by (unfold rank; lia).
    split; [|split; [|split; [|split]]].
    + rewrite (Hlod 0) by lia. unfold rank. rewrite Nat.sub_0_r. f_equal. lia.
    + rewrite last_lookup, Hllo. replace (Init.Nat.pred (num_hops + 1)) with num_hops by lia.
      rewrite (Hlod num_hops) by lia. rewrite Nat.sub_diag. congruence.
    + done.
    + rewrite last_lookup, Hlfo. replace (Init.Nat.pred num_hops) with (num_hops - 1) by lia.
      congruence.
    + exists s, csr. split; [done|]. split; [done|]. split; [congruence|].
      split; [rewrite Hlnm; congruence|].
      intros r c d (a & b & e & Ha & Hb & He & Hc) (blk & (lb & ub & Hlb & Hub & Hr) & Hd).
      rewrite Hllo in Hd.
      pose proof (lookup_lt_Some _ _ _ Hub) as Hblk. rewrite Hllo in Hblk.
      rewrite (Hlod blk) in Hlb by lia. rewrite (Hlod (S blk)) in Hub by lia.
      injection Hlb as <-. injection Hub as <-.
      assert (r < length sv0) as Hrlt.
      { pose proof (rank_antitone lo sv0 num_hops Hmono 0 (num_hops - S blk) ltac:(lia)). lia. }
      destruct (Hcols r a b e c Hrlt Ha Hb He Hc) as (l & Hl & Hrl & Hcl).
      assert (l = num_hops - S blk) as ->.
      { apply (rank_block_unique lo sv0 num_hops _ _ r Hmono); [lia|lia|done|].
        by replace (S (num_hops - S blk)) with (num_hops - blk) by lia. }
      split.
      * exists (blk - 1). split; [|lia].
        exists (rank lo num_hops (S (S (num_hops - S blk)))),
               (rank lo num_hops (S (num_hops - S blk))).
        rewrite (Hlod (blk - 1)) by lia. replace (S (blk - 1)) with blk by lia.
        rewrite (Hlod blk) by lia.
        split; [do 2 f_equal; lia|]. split; [do 2 f_equal; lia|]. done.
      * apply lookup_lt_is_Some. rewrite Hlnm, <- Hr0.
        pose proof (rank_antitone lo sv0 num_hops Hmono 0 (S (num_hops - S blk)) ltac:(lia)).
        lia.
  - intros neighbor_list m pos c0 col i neigh Hn Hm.
    unfold ConstructNodeFlow.map_neighbor.
    rewrite (proj2 (index_Ok _ _ _) Hn). simpl. by rewrite Hm.
  - unfold ConstructNodeFlow.run. by destruct (String.eqb edge_type "in").
Qed.

Lemma nodeflow_invariants_witness :
  SampleSubgraph.run path4 [0] None "out" 3 10 [] = Ok path4_nodeflow
  ∧ layer_offsets path4_nodeflow !! 0 = Some 0
  ∧ last (layer_offsets path4_nodeflow) = Some (length (node_mapping path4_nodeflow))
  ∧ flow_offsets path4_nodeflow !! 0 = Some 0
  ∧ last (flow_offsets path4_nodeflow) = Some (length (edge_mapping path4_nodeflow)).
Proof.
  split; [reflexivity|].
  destruct (proj1 (nodeflow_invariants path4 [0] None "out" 3 10 []) path4_nodeflow eq_refl)
    as (H1 & H2 & H3 & H4 & _).
  done.
Defined.

(** The statement of C3 with the adjacent layer one hop shallower fails on
    the path 0 → 1 → 2 → 3 sampled from the seed 0: the row of the seed
    (local id 2, hop depth 0) has the column 1, and no layer is shallower
    than the seed layer. *)
Lemma nodeflow_invariants_counterexample :
  ¬ (∀ nf csr,
       SampleSubgraph.run path4 [0] None "out" 3 10 [] = Ok nf →
       adjacency nf = Some csr →
       ∀ r c d, has_edge csr r c → hop_depth nf r d → ∃ d', d = S d' ∧ hop_depth nf c d').
Proof.
  intros Hclaim.
  destruct (Hclaim path4_nodeflow _ eq_refl eq_refl 2 1 0) as (d' & Hd & _).
  - exists 1, 2, 1. simpl. repeat split; reflexivity || lia.
  - exists 2. split; [|done]. exists 2, 3. simpl. repeat split; reflexivity || lia.
  - discriminate Hd.
Qed.


(** ** The order of [node_mapping] *)

Global Instance key_le_id_antisymm : AntiSymm (=) (key_le (@id nat)).
Proof. intros a b. unfold key_le. simpl. lia. Qed.

Lemma fst_sort_by (l : list (nat * nat)) : (sort_by fst l).*1 = sort_by id l.*1.
Proof.
  apply (StronglySorted_unique (key_le id)).
  - apply (StronglySorted_fmap fst (key_le fst)); [done|apply sort_by_sorted].
  - apply sort_by_sorted.
  - by rewrite !sort_by_perm.
Qed.

Section mapping.
Variable lo : list nat.
Variable sv0 : list (nat * nat).
Variable nh : nat.
Hypothesis lo_mono : ∀ l', l' < nh → off lo l' ≤ off lo (S l') ≤ length sv0.

Local Abbreviation rk := (rank lo nh).
Local Abbreviation blk := (block sv0 lo).

Lemma concat_blocks_length (l : nat) :
  l ≤ nh → length (concat (map blk (rev (seq l (nh - l))))) = rk l.
Proof.
  remember (nh - l) as d eqn:Hd. revert l Hd. induction d as [|d IH]; intros l Hd Hl.
  - simpl. unfold rank. replace l with nh by lia. lia.
  - cbn [seq rev]. rewrite map_app, concat_app, length_app. simpl.
    rewrite app_nil_r, (IH (S l)) by lia.
    rewrite (length_block lo sv0 l (lo_mono l ltac:(lia))).
    rewrite (rank_S lo sv0 nh lo_mono l) by lia. done.
Qed.

Lemma block_lookup (l p : nat) :
  l < nh → p < length (blk l) →
  concat (map blk (rev (seq 0 nh))) !! (rk (S l) + p) = blk l !! p.
Proof.
  intros Hl Hp.
  assert (seq 0 nh = seq 0 l ++ l :: seq (S l) (nh - S l)) as ->.
  { replace nh with (l + S (nh - S l)) at 1 by lia. by rewrite seq_app. }
  rewrite rev_app_distr. cbn [rev]. rewrite <- app_assoc.
  rewrite !map_app, !concat_app. simpl. rewrite app_nil_r.
  pose proof (concat_blocks_length (S l) ltac:(lia)) as Hlen.
  rewrite lookup_app_r by lia. rewrite Hlen.
  replace (rk (S l) + p - rk (S l)) with p by lia.
  by rewrite lookup_app_l.
Qed.

Lemma rank_find (j l : nat) :
  l ≤ nh → j < rk l → ∃ l', l ≤ l' < nh ∧ rk (S l') ≤ j < rk l'.
Proof.
  remember (nh - l) as d eqn:Hd. revert l Hd. induction d as [|d IH]; intros l Hd Hl Hj.
  - unfold rank in Hj. replace l with nh in Hj by lia. lia.
  - destruct (decide (rk (S l) ≤ j)) as [Hge|Hlt].
    + exists l. split; lia.
    + destruct (IH (S l) ltac:(lia) ltac:(lia) ltac:(lia)) as (l' & Hl' & Hjl').
      exists l'. split; [lia|done].
Qed.
End mapping.

(** C4. [node_mapping] lists the layers in reversed hop order, the deepest
    hop first and the seed layer last; inside a layer the original vertex ids
    are strictly increasing; and the local id the counter [ver_id] gives to
    the vertex at position [j] of [node_mapping] is [j], recorded in the
    table of the vertex's hop depth: the ids run 0, 1, 2, ... in the order
    of the traversal. *)
Theorem node_mapping_layout (graph : ImmutableGraph) (seed_arr : list nat)
    (probability : option (list Q)) (edge_type : string)
    (num_hops num_neighbor : nat) (time_seed : seed_t) (nf : NodeFlow) :
  SampleSubgraph.run graph seed_arr probability edge_type num_hops num_neighbor time_seed
    = Ok nf →
  ∃ s s1,
    SampleSubgraph.expand graph seed_arr probability edge_type num_hops num_neighbor
      time_seed = Ok s
    ∧ ConstructNodeFlow.save_vertices (SampleSubgraph.layer_offsets s)
        (SampleSubgraph.sub_vers s) num_hops = Ok s1
    ∧ node_mapping nf
      = concat (map (λ l, sort_by id (layer_vertices (SampleSubgraph.sub_vers s)
                                        (SampleSubgraph.layer_offsets s) l))
                    (rev (seq 0 num_hops)))
    ∧ (∀ l, StronglySorted lt
              (sort_by id (layer_vertices (SampleSubgraph.sub_vers s)
                             (SampleSubgraph.layer_offsets s) l)))
    ∧ ConstructNodeFlow.ver_id s1 = length (node_mapping nf)
    ∧ ∀ j v, node_mapping nf !! j = Some v →
             ∃ d m, hop_depth nf j d
                    ∧ ConstructNodeFlow.layer_ver_maps s1 !! d = Some m
                    ∧ m !! v = Some j.
Proof.
  intros (s & Hexp & Hrun)%SampleSubgraph_run_Ok.
  pose proof (expand_layers_ok _ _ _ _ _ _ _ _ Hexp) as [_ [Hlolen _ _ _]].
  apply ConstructNodeFlow_run_Ok in Hrun
    as (s1 & csr & Hnh & Hmono & Hoff0 & Hoffn & Hsave & Hdone & Hnm & Hlnm & _ & Hllo & _
        & Hlod & _).
  set (lo := SampleSubgraph.layer_offsets s) in *.
  set (sv0 := SampleSubgraph.sub_vers s) in *.
  assert (rank lo num_hops 0 = length sv0) as Hr0 by (unfold rank; lia).
  assert (∀ l, l < num_hops → block sv0 lo l = sort_by id (layer_vertices sv0 lo l)) as Hblk.
  { intros l Hl. unfold block, sorted_layer, layer_vertices. rewrite fst_sort_by.
    destruct (lookup_lt_is_Some_2 lo l ltac:(lia)) as [a Ha].
    destruct (lookup_lt_is_Some_2 lo (S l) ltac:(lia)) as [b Hb].
    rewrite Ha, Hb. by rewrite (off_lookup _ _ _ Ha), (off_lookup _ _ _ Hb). }
  assert (node_mapping nf = concat (map (block sv0 lo) (rev (seq 0 num_hops)))) as Hnm'.
  { rewrite Hnm. pose proof (id_nm _ _ _ _ _ Hdone) as Hfill.
    rewrite Nat.sub_0_r in Hfill. rewrite <- Hfill.
    rewrite take_ge; [done|]. rewrite (id_len_nm _ _ _ _ _ Hdone). lia. }
  assert (∀ l, NoDup (layer_vertices sv0 lo l)) as Hnd.
  { intros l. by eapply layer_vertices_NoDup. }
  exists s, s1. split; [done|]. split; [done|]. split; [|split; [|split]].
  - rewrite Hnm'. f_equal. apply map_ext_in. intros l Hl%in_rev%in_seq. apply Hblk. lia.
  - intros l. by apply sort_ids_sorted.
  - rewrite (id_ver _ _ _ _ _ Hdone). lia.
  - intros j v Hj.
    pose proof (lookup_lt_Some _ _ _ Hj) as Hjlt. rewrite Hlnm, <- Hr0 in Hjlt.
    destruct (rank_find lo num_hops j 0 ltac:(lia) Hjlt) as (l & Hl & Hjl).
    pose proof (length_block lo sv0 l (Hmono l ltac:(lia))) as Hlb.
    pose proof (rank_S lo sv0 num_hops Hmono l ltac:(lia)) as HrS.
    assert (block sv0 lo l !! (j - rank lo num_hops (S l)) = Some v) as Hbv.
    { rewrite <- (block_lookup lo sv0 num_hops Hmono) by lia.
      rewrite <- Hnm'. by replace (rank lo num_hops (S l) + (j - rank lo num_hops (S l)))
        with j by lia. }
    destruct (id_complete _ _ _ _ _ Hdone l _ v ltac:(lia) Hbv) as (m & i & Hm & Hi).
    destruct (id_sound _ _ _ _ _ Hdone l m v i Hm Hi) as (_ & Hge & Hbi).
    assert (i - rank lo num_hops (S l) = j - rank lo num_hops (S l)) as Heq.
    { eapply NoDup_lookup; [|exact Hbi|exact Hbv]. rewrite Hblk by lia.
      rewrite sort_by_perm. apply Hnd. }
    exists l, m. split; [|split; [done|]].
    + exists (num_hops - 1 - l). split; [|lia].
      exists (rank lo num_hops (S l)), (rank lo num_hops l).
      rewrite (Hlod (num_hops - 1 - l)) by lia.
      replace (S (num_hops - 1 - l)) with (num_hops - l) by lia.
      rewrite (Hlod (num_hops - l)) by lia.
      split; [do 2 f_equal; lia|]. split; [do 2 f_equal; lia|]. done.
    + rewrite Hi. f_equal. lia.
Qed.

Lemma node_mapping_layout_witness :
  SampleSubgraph.run path4 [0] None "out" 3 10 [] = Ok path4_nodeflow
  ∧ ∃ s s1,
      SampleSubgraph.expand path4 [0] None "out" 3 10 [] = Ok s
      ∧ ConstructNodeFlow.save_vertices (SampleSubgraph.layer_offsets s)
          (SampleSubgraph.sub_vers s) 3 = Ok s1
      ∧ node_mapping path4_nodeflow
        = concat (map (λ l, sort_by id (layer_vertices (SampleSubgraph.sub_vers s)
                                          (SampleSubgraph.layer_offsets s) l))
                      (rev (seq 0 3))).
Proof.
  split; [reflexivity|].
  destruct (node_mapping_layout path4 [0] None "out" 3 10 [] path4_nodeflow eq_refl)
    as (s & s1 & H1 & H2 & H3 & _).
  by exists s, s1.
Defined.


(** ** [GetNonUniformSample] *)

Lemma resize_nil {A} (n : nat) (d : A) : resize [] n d = replicate n d.
Proof. unfold resize. rewrite take_nil. simpl. by rewrite Nat.sub_0_r. Qed.

Lemma SampleWithoutReplacement_length (h h' : ArrayHeap.t) (n : nat)
    (samples samples' : list nat) (seed seed' : seed_t) :
  ArrayHeap.SampleWithoutReplacement h n samples seed = Ok (h', samples', seed') →
  length samples' = length samples.
Proof.
  unfold ArrayHeap.SampleWithoutReplacement. intros Hrun.
  cut (length (h', samples', seed').1.2 = length samples); [done|].
  revert Hrun. apply (foldM_invariant _ (λ _ st, length st.1.2 = length samples)); [|done].
  intros j i [[h0 s0] sd0] [[h1 s1] sd1] _ Hlen Hstep. simpl in *.
  unfold ArrayHeap.SampleWithoutReplacement_step in Hstep. inv_ok Hstep. destruct_pairs.
  inv_ok Hstep. subst. by rewrite length_insert.
Qed.

Lemma write_pairs_Ok (vid_list edge_id_list : list nat) (sp_index : list nat) (n : nat)
    (out_ver out_edge : list nat) :
  length sp_index = n →
  foldM (write_pair vid_list edge_id_list sp_index) (seq 0 n)
        (replicate n 0, replicate n 0) = Ok (out_ver, out_edge) →
  out_ver = picked vid_list sp_index ∧ out_edge = picked edge_id_list sp_index
  ∧ Forall (λ idx, idx < length vid_list ∧ idx < length edge_id_list) sp_index.
Proof.
  intros Hlen Hrun.
  assert (length out_ver = n ∧ length out_edge = n
          ∧ ∀ i, i < 0 + n → ∃ idx v e, sp_index !! i = Some idx
              ∧ vid_list !! idx = Some v ∧ edge_id_list !! idx = Some e
              ∧ out_ver !! i = Some v ∧ out_edge !! i = Some e) as (Hlv & Hle & Hcells).
  { change out_ver with (out_ver, out_edge).1. change out_edge with (out_ver, out_edge).2.
    revert Hrun.
    apply (foldM_seq_invariant _ (λ j st,
      length st.1 = n ∧ length st.2 = n
      ∧ ∀ i, i < j → ∃ idx v e, sp_index !! i = Some idx
          ∧ vid_list !! idx = Some v ∧ edge_id_list !! idx = Some e
          ∧ st.1 !! i = Some v ∧ st.2 !! i = Some e)).
    - intros j [ov oe] [ov' oe'] Hj (Hlv & Hle & Hcells) Hstep. simpl in *.
      unfold write_pair in Hstep. inv_ok Hstep. simpl_res. subst.
      split; [by rewrite length_insert|]. split; [by rewrite length_insert|].
      intros i Hi. destruct (decide (i = j)) as [->|Hne].
      + eexists _, _, _. split; [done|]. split; [done|]. split; [done|].
        rewrite !list_lookup_insert_eq by lia. done.
      + rewrite !list_lookup_insert_ne by done. apply Hcells. lia.
    - simpl. rewrite !length_replicate. split; [done|]. split; [done|]. intros i Hi. lia. }
  simpl in *. split; [|split].
  - apply list_eq_same_length with n; [by unfold picked; rewrite length_map|done|].
    intros i x y Hi Hx Hy. destruct (Hcells i Hi) as (idx & v & e & Hidx & Hv & He & Hov & Hoe).
    unfold picked in Hy. rewrite list_lookup_fmap, Hidx in Hy. simpl in Hy.
    rewrite (nth_lookup_Some _ _ _ _ Hv) in Hy. congruence.
  - apply list_eq_same_length with n; [by unfold picked; rewrite length_map|done|].
    intros i x y Hi Hx Hy. destruct (Hcells i Hi) as (idx & v & e & Hidx & Hv & He & Hov & Hoe).
    unfold picked in Hy. rewrite list_lookup_fmap, Hidx in Hy. simpl in Hy.
    rewrite (nth_lookup_Some _ _ _ _ He) in Hy. congruence.
  - apply Forall_lookup. intros i idx Hidx.
    pose proof (lookup_lt_Some _ _ _ Hidx) as Hi. rewrite Hlen in Hi.
    destruct (Hcells i Hi) as (idx' & v & e & Hidx' & Hv & He & _).
    rewrite Hidx in Hidx'. injection Hidx' as <-.
    split; by eapply lookup_lt_Some.
Qed.

Lemma gather_probs_Ok (probability : list Q) (vid_list : list nat) (ver_len : nat)
    (sp_prob : list Q) :
  foldM (gather_prob probability vid_list) (seq 0 ver_len) (replicate ver_len 0%Q)
    = Ok sp_prob →
  length sp_prob = ver_len
  ∧ ∀ i, i < ver_len → ∃ v p, vid_list !! i = Some v ∧ probability !! v = Some p
                              ∧ sp_prob !! i = Some p.
Proof.
  intros Hrun.
  cut (length sp_prob = ver_len
       ∧ ∀ i, i < 0 + ver_len → ∃ v p, vid_list !! i = Some v ∧ probability !! v = Some p
                                       ∧ sp_prob !! i = Some p); [done|].
  revert Hrun.
  apply (foldM_seq_invariant _ (λ j st,
    length st = ver_len
    ∧ ∀ i, i < j → ∃ v p, vid_list !! i = Some v ∧ probability !! v = Some p
                          ∧ st !! i = Some p)).
  - intros j st st' Hj [Hlen Hcells] Hstep.
    unfold gather_prob in Hstep. inv_ok Hstep. simpl_res.
    split; [by rewrite length_insert|]. intros i Hi.
    destruct (decide (i = j)) as [->|Hne].
    + eexists _, _. split; [done|]. split; [done|]. by rewrite list_lookup_insert_eq.
    + rewrite list_lookup_insert_ne by done. apply Hcells. lia.
  - split; [by rewrite length_replicate|]. intros i Hi. lia.
Qed.

(** *** The path from a leaf to the root *)

Lemma ancestor_S (leaf t : nat) : ancestor leaf (S t) = ancestor leaf t / 2.
Proof. done. Qed.

Lemma ancestor_mono (leaf s t : nat) : s ≤ t → ancestor leaf t ≤ ancestor leaf s.
Proof.
  induction 1 as [|t _ IH]; [done|]. rewrite ancestor_S.
  etrans; [|exact IH]. apply Nat.Div0.div_le_upper_bound. lia.
Qed.

Lemma ancestor_level (b leaf t : nat) :
  2 ^ b ≤ leaf < 2 * 2 ^ b → t ≤ b →
  2 ^ (b - t) ≤ ancestor leaf t < 2 * 2 ^ (b - t).
Proof.
  intros Hleaf. induction t as [|t IH]; intros Ht.
  - by rewrite Nat.sub_0_r.
  - rewrite ancestor_S. destruct IH as [IH1 IH2]; [lia|].
    replace (b - t) with (S (b - S t)) in IH1, IH2 by lia.
    rewrite Nat.pow_succ_r' in IH1, IH2. split.
    + apply Nat.div_le_lower_bound; lia.
    + apply Nat.Div0.div_lt_upper_bound. lia.
Qed.

Lemma ancestor_root (b leaf : nat) : 2 ^ b ≤ leaf < 2 * 2 ^ b → ancestor leaf b = 1.
Proof.
  intros Hleaf. pose proof (ancestor_level b leaf b Hleaf (le_n _)) as H.
  rewrite Nat.sub_diag in H. simpl in H. lia.
Qed.

Lemma ancestor_pos (b leaf t : nat) :
  2 ^ b ≤ leaf < 2 * 2 ^ b → t ≤ b → 1 ≤ ancestor leaf t.
Proof.
  intros Hleaf Ht. pose proof (ancestor_level b leaf t Hleaf Ht) as [H _].
  pose proof (Nat.pow_nonzero 2 (b - t)). lia.
Qed.

Lemma ancestor_inner (b leaf t : nat) :
  2 ^ b ≤ leaf < 2 * 2 ^ b → 1 ≤ t ≤ b → ancestor leaf t < 2 ^ b.
Proof.
  intros Hleaf Ht. pose proof (ancestor_level b leaf t Hleaf (proj2 Ht)) as [_ H].
  pose proof (Nat.pow_le_mono_r 2 (S (b - t)) b) as Hle.
  rewrite Nat.pow_succ_r' in Hle. lia.
Qed.

Lemma ancestor_lt (b leaf s t : nat) :
  2 ^ b ≤ leaf < 2 * 2 ^ b → s < t → s ≤ b → ancestor leaf t < ancestor leaf s.
Proof.
  intros Hleaf Hst Hs.
  pose proof (ancestor_mono leaf (S s) t Hst) as Hle. rewrite ancestor_S in Hle.
  pose proof (ancestor_pos b leaf s Hleaf Hs) as Hpos.
  pose proof (Nat.div_lt (ancestor leaf s) 2). lia.
Qed.

(** Whether [j] lies on the path from [leaf] to the root. *)
Lemma on_path_dec (leaf b j : nat) :
  (∃ t, t ≤ b ∧ j = ancestor leaf t) ∨ (∀ t, t ≤ b → j ≠ ancestor leaf t).
Proof.
  destruct (forall_lt_or_exists (λ t, j ≠ ancestor leaf t) (S b)) as [Hall|(t & Ht & Hj)].
  - right. intros t Ht. apply Hall. lia.
  - left. exists t. split; [lia|]. by destruct (decide (j = ancestor leaf t)).
Qed.

Lemma on_path_parent (b leaf c t : nat) :
  2 ^ b ≤ leaf < 2 * 2 ^ b → t ≤ b → c = ancestor leaf t → 1 ≤ c / 2 →
  S t ≤ b ∧ c / 2 = ancestor leaf (S t).
Proof.
  intros Hleaf Ht -> Hpos. rewrite ancestor_S. split; [|done].
  destruct (decide (t = b)) as [->|]; [|lia].
  rewrite (ancestor_root b leaf Hleaf) in Hpos. simpl in Hpos. lia.
Qed.

Lemma on_path_child (b leaf j t : nat) :
  2 ^ b ≤ leaf < 2 * 2 ^ b → t ≤ b → j = ancestor leaf t → j < 2 ^ b →
  ∃ t', S t' = t ∧ (ancestor leaf t' = 2 * j ∨ ancestor leaf t' = 2 * j + 1).
Proof.
  intros Hleaf Ht -> Hj. destruct t as [|t]; [simpl in Hj; lia|].
  exists t. split; [done|]. rewrite ancestor_S.
  pose proof (Nat.div_mod_eq (ancestor leaf t) 2).
  pose proof (Nat.mod_upper_bound (ancestor leaf t) 2). lia.
Qed.

Lemma on_path_one_child (b leaf j s t : nat) :
  2 ^ b ≤ leaf < 2 * 2 ^ b → 1 ≤ j → s ≤ b → t ≤ b →
  ancestor leaf s = 2 * j → ancestor leaf t = 2 * j + 1 → False.
Proof.
  intros Hleaf Hj Hs Ht Es Et.
  destruct (Nat.lt_trichotomy s t) as [Hlt|[->|Hlt]]; [| lia |].
  - pose proof (ancestor_mono leaf (S s) t Hlt) as Hle.
    rewrite ancestor_S, Es, Et in Hle.
    rewrite Nat.mul_comm, Nat.div_mul in Hle by done. lia.
  - pose proof (ancestor_mono leaf (S t) s Hlt) as Hle.
    rewrite ancestor_S, Es, Et in Hle.
    replace (2 * j + 1) with (1 + j * 2) in Hle by lia.
    rewrite Nat.div_add in Hle by done. simpl in Hle. lia.
Qed.

Lemma leaf_off_path (b leaf j : nat) :
  2 ^ b ≤ leaf < 2 * 2 ^ b → 2 ^ b ≤ j → j ≠ leaf →
  ∀ s, s ≤ b → j ≠ ancestor leaf s.
Proof.
  intros Hleaf Hj Hne s Hs E. destruct s as [|s]; [by simpl in E|].
  pose proof (ancestor_inner b leaf (S s) Hleaf). lia.
Qed.

(** *** Cells of the heap *)


Lemma index_node_weight (heap : list Q) (j : nat) :
  j < length heap → index heap j = Ok (node_weight heap j).
Proof. apply index_lt. Qed.

Lemma node_weight_insert_eq (heap : list Q) (j : nat) (x : Q) :
  j < length heap → node_weight (<[j:=x]> heap) j = x.
Proof. intros Hj. unfold node_weight. by rewrite nth_lookup, list_lookup_insert_eq. Qed.

Lemma node_weight_insert_ne (heap : list Q) (i j : nat) (x : Q) :
  i ≠ j → node_weight (<[i:=x]> heap) j = node_weight heap j.
Proof. intros Hj. unfold node_weight. by rewrite !nth_lookup, list_lookup_insert_ne. Qed.

Lemma Sample_loop_S (fuel : nat) (heap : list Q) (limit : nat) (xi : Q) (i : nat) :
  ArrayHeap.Sample_loop (S fuel) heap limit xi i
  = if decide (i < limit) then
      w ← index heap (2 * i);
      if Qle_bool w xi
      then ArrayHeap.Sample_loop fuel heap limit (xi - w)%Q (2 * i + 1)
      else ArrayHeap.Sample_loop fuel heap limit xi (2 * i)
    else Ok i.
Proof. done. Qed.


(** A loop that cannot fail while its invariant holds. *)
Lemma foldM_total {A B} (f : A → B → result A) (I : nat → A → Prop) (l : list B) (a : A) :
  (∀ n b s, l !! n = Some b → I n s → ∃ s', f s b = Ok s' ∧ I (S n) s') →
  I 0 a → ∃ a', foldM f l a = Ok a' ∧ I (length l) a'.
Proof.
  revert I a. induction l as [|b l IH]; intros I a Hstep H0; simpl.
  - eauto.
  - destruct (Hstep 0 b a eq_refl H0) as (s' & -> & Hs'). simpl.
    apply (IH (λ n, I (S n))); [|done].
    intros n b' s Hn Hs. exact (Hstep (S n) b' s Hn Hs).
Qed.

Lemma foldM_seq_total {A} (f : A → nat → result A) (I : nat → A → Prop)
    (first n : nat) (a : A) :
  (∀ i s, first ≤ i < first + n → I i s → ∃ s', f s i = Ok s' ∧ I (S i) s') →
  I first a → ∃ a', foldM f (seq first n) a = Ok a' ∧ I (first + n) a'.
Proof.
  intros Hstep H0.
  destruct (foldM_total f (λ k, I (first + k)) (seq first n) a) as (a' & Ha' & HI).
  - intros k b s Hk Hs. apply lookup_seq in Hk as [-> Hk].
    rewrite Nat.add_succ_r. apply Hstep; [lia|done].
  - by rewrite Nat.add_0_r.
  - rewrite length_seq in HI. eauto.
Qed.


(** *** The walks of [Delete] and [Add] *)

(** Both [Delete] and [Add] walk from a leaf to the root and change every
    node on the way by the same function. *)
Section path_update.
Variable f : Q → Q.
Variable step : list Q * nat → nat → result (list Q * nat).
Hypothesis step_eq : ∀ heap i j,
  step (heap, i) j = v ← index heap i; heap ← store heap i (f v); mret (heap, i / 2).

Lemma path_update (b : nat) (heap : list Q) (leaf : nat) :
  length heap = 2 * 2 ^ b → 2 ^ b ≤ leaf < 2 * 2 ^ b →
  ∃ heap' i,
    foldM step (rev (seq 0 (b + 1))) (heap, leaf) = Ok (heap', i)
    ∧ length heap' = 2 * 2 ^ b
    ∧ (∀ s, s ≤ b → node_weight heap' (ancestor leaf s)
                    = f (node_weight heap (ancestor leaf s)))
    ∧ (∀ j, (∀ s, s ≤ b → j ≠ ancestor leaf s) → node_weight heap' j = node_weight heap j).
Proof.
  intros Hlen Hleaf.
  destruct (foldM_total step (λ t st,
      st.2 = ancestor leaf t ∧ length st.1 = 2 * 2 ^ b
      ∧ (∀ s, s < t → node_weight st.1 (ancestor leaf s)
                      = f (node_weight heap (ancestor leaf s)))
      ∧ (∀ j, (∀ s, s < t → j ≠ ancestor leaf s)
              → node_weight st.1 j = node_weight heap j))
    (rev (seq 0 (b + 1))) (heap, leaf)) as ([heap' i] & Hrun & HI).
  - intros t j [hp i] Ht (Hi & Hl & Hon & Hoff). simpl in *. subst i.
    apply lookup_lt_Some in Ht. rewrite length_rev, length_seq in Ht.
    assert (ancestor leaf t < 2 * 2 ^ b) as Hrange.
    { pose proof (ancestor_mono leaf 0 t). simpl in *. lia. }
    rewrite step_eq, index_node_weight by lia. simpl.
    unfold store. rewrite decide_True by lia. simpl.
    eexists. split; [done|]. simpl. split; [done|]. split; [by rewrite length_insert|].
    assert (node_weight hp (ancestor leaf t) = node_weight heap (ancestor leaf t)) as Hcur.
    { apply Hoff. intros s Hs. pose proof (ancestor_lt b leaf s t Hleaf). lia. }
    split.
    + intros s Hs. destruct (decide (s = t)) as [->|Hne].
      * rewrite node_weight_insert_eq by lia. by rewrite Hcur.
      * rewrite node_weight_insert_ne; [apply Hon; lia|].
        pose proof (ancestor_lt b leaf s t Hleaf). lia.
    + intros j' Hj'.
      rewrite node_weight_insert_ne; [apply Hoff; intros s Hs; apply Hj'; lia|].
      intros E. by apply (Hj' t); [lia|].
  - simpl. split; [done|]. split; [done|]. split; [intros s Hs; lia|done].
  - rewrite length_rev, length_seq in HI. simpl in HI.
    destruct HI as (_ & Hl & Hon & Hoff).
    exists heap', i. split; [done|]. split; [done|]. split.
    + intros s Hs. apply Hon. lia.
    + intros j Hj. apply Hoff. intros s Hs. apply Hj. lia.
Qed.
End path_update.

(** [Delete] changes the nodes on the path from the leaf to the root and no
    other; the leaf is left with its weight less itself. *)
Lemma Delete_frame (h : ArrayHeap.t) (idx : nat) :
  ArrayHeap.limit_ h = 2 ^ ArrayHeap.bit_len_ h →
  length (ArrayHeap.heap_ h) = 2 * ArrayHeap.limit_ h → idx < ArrayHeap.limit_ h →
  ∃ heap',
    ArrayHeap.Delete h idx = Ok (ArrayHeap.with_heap h heap')
    ∧ length heap' = 2 * ArrayHeap.limit_ h
    ∧ (node_weight heap' (idx + ArrayHeap.limit_ h) == 0)%Q
    ∧ (∀ j, (∀ s, s ≤ ArrayHeap.bit_len_ h → j ≠ ancestor (idx + ArrayHeap.limit_ h) s) →
         node_weight heap' j = node_weight (ArrayHeap.heap_ h) j)
    ∧ (∀ i, i ≠ idx →
         node_weight heap' (i + ArrayHeap.limit_ h)
         = node_weight (ArrayHeap.heap_ h) (i + ArrayHeap.limit_ h)).
Proof.
  destruct h as [vs b limit heap]. simpl. intros -> Hlen Hidx.
  set (w := node_weight heap (idx + 2 ^ b)).
  destruct (path_update (λ v, v - w)%Q (ArrayHeap.Delete_step w)
              ltac:(by intros) b heap (idx + 2 ^ b) Hlen)
    as (heap' & i & Hrun & Hl & Hon & Hoff); [lia|].
  exists heap'. split; [|split; [done|split; [|split; [done|]]]].
  - unfold ArrayHeap.Delete. simpl.
    rewrite index_node_weight by lia. simpl. fold w. by rewrite Hrun.
  - change (idx + 2 ^ b) with (ancestor (idx + 2 ^ b) 0) at 1.
    rewrite (Hon 0) by lia. simpl. unfold w. lra.
  - intros i' Hne. apply Hoff. apply (leaf_off_path b); lia.
Qed.

Lemma Add_frame (h : ArrayHeap.t) (idx : nat) (w : Q) :
  ArrayHeap.limit_ h = 2 ^ ArrayHeap.bit_len_ h →
  length (ArrayHeap.heap_ h) = 2 * ArrayHeap.limit_ h → idx < ArrayHeap.limit_ h →
  ∃ heap',
    ArrayHeap.Add h idx w = Ok (ArrayHeap.with_heap h heap')
    ∧ length heap' = 2 * ArrayHeap.limit_ h
    ∧ node_weight heap' (idx + ArrayHeap.limit_ h)
      = (node_weight (ArrayHeap.heap_ h) (idx + ArrayHeap.limit_ h) + w)%Q
    ∧ (∀ j, (∀ s, s ≤ ArrayHeap.bit_len_ h → j ≠ ancestor (idx + ArrayHeap.limit_ h) s) →
         node_weight heap' j = node_weight (ArrayHeap.heap_ h) j)
    ∧ (∀ i, i ≠ idx →
         node_weight heap' (i + ArrayHeap.limit_ h)
         = node_weight (ArrayHeap.heap_ h) (i + ArrayHeap.limit_ h)).
Proof.
  destruct h as [vs b limit heap]. simpl. intros -> Hlen Hidx.
  destruct (path_update (λ v, v + w)%Q (ArrayHeap.Add_step w)
              ltac:(by intros) b heap (idx + 2 ^ b) Hlen)
    as (heap' & i & Hrun & Hl & Hon & Hoff); [lia|].
  exists heap'. split; [|split; [done|split; [|split; [done|]]]].
  - unfold ArrayHeap.Add. simpl. by rewrite Hrun.
  - change (idx + 2 ^ b) with (ancestor (idx + 2 ^ b) 0) at 1.
    by rewrite (Hon 0) by lia.
  - intros i' Hne. apply Hoff. apply (leaf_off_path b); lia.
Qed.

(** *** The constructor *)

Lemma log2_up_bound (n : nat) : 1 ≤ n → n ≤ 2 ^ Nat.log2_up n.
Proof.
  intros Hn. destruct (decide (n = 1)) as [->|Hne]; [done|].
  apply Nat.log2_up_spec. lia.
Qed.

Lemma fill_leaves_Ok (prob : list Q) (limit : nat) :
  length prob ≤ limit →
  ∃ heap, foldM (ArrayHeap.fill_leaf prob limit) (seq limit (length prob))
                (replicate (2 * limit) 0%Q) = Ok heap
          ∧ length heap = 2 * limit
          ∧ ∀ c, node_weight heap c
                 = if decide (limit ≤ c) then nth (c - limit) prob 0%Q else 0%Q.
Proof.
  intros Hle.
  destruct (foldM_seq_total (ArrayHeap.fill_leaf prob limit) (λ j hp,
      length hp = 2 * limit
      ∧ ∀ c, node_weight hp c
             = if decide (limit ≤ c < j) then nth (c - limit) prob 0%Q else 0%Q)
    limit (length prob) (replicate (2 * limit) 0%Q)) as (heap & Hrun & Hlen & Hw).
  - intros j hp Hj [Hlen Hw]. unfold ArrayHeap.fill_leaf.
    rewrite (index_lt _ _ 0%Q) by lia. simpl.
    unfold store. rewrite decide_True by lia.
    eexists. split; [done|]. split; [by rewrite length_insert|].
    intros c. destruct (decide (c = j)) as [->|Hne].
    + rewrite node_weight_insert_eq by lia. by rewrite decide_True by lia.
    + rewrite node_weight_insert_ne by done. rewrite Hw.
      repeat case_decide; done || lia.
  - split; [by rewrite length_replicate|]. intros c.
    rewrite decide_False by lia. unfold node_weight.
    rewrite nth_lookup. destruct (replicate _ _ !! c) eqn:E; [|done].
    by apply lookup_replicate in E as [-> _].
  - exists heap. split; [done|]. split; [done|]. intros c. rewrite Hw.
    repeat case_decide; try done; try lia.
    symmetry. apply nth_overflow. lia.
Qed.

(** Summing one level writes the nodes of that level and no other. *)
Lemma sum_level_frame (limit : nat) (heap : list Q) (i : nat) :
  length heap = 2 * limit → 2 * 2 ^ i ≤ limit →
  ∃ heap', ArrayHeap.sum_level heap i = Ok heap'
    ∧ length heap' = 2 * limit
    ∧ (∀ c, ¬ 2 ^ i ≤ c < 2 * 2 ^ i → node_weight heap' c = node_weight heap c).
Proof.
  intros Hlen Hi. unfold ArrayHeap.sum_level.
  destruct (foldM_seq_total ArrayHeap.sum_children (λ j hp,
      length hp = 2 * limit
      ∧ (∀ c, ¬ 2 ^ i ≤ c < 2 * 2 ^ i → node_weight hp c = node_weight heap c))
    (2 ^ i) (2 ^ i) heap) as (heap' & Hrun & Hl & Hkeep).
  - intros j hp Hj (Hl & Hkeep). unfold ArrayHeap.sum_children.
    rewrite !index_node_weight by lia. simpl.
    unfold store. rewrite decide_True by lia.
    eexists. split; [done|]. split; [by rewrite length_insert|].
    intros c Hc. rewrite node_weight_insert_ne by lia. by apply Hkeep.
  - done.
  - by exists heap'.
Qed.

Lemma sum_levels_frame (b : nat) (heap : list Q) :
  length heap = 2 * 2 ^ b →
  ∃ heap', foldM ArrayHeap.sum_level (rev (seq 0 b)) heap = Ok heap'
    ∧ length heap' = 2 * 2 ^ b
    ∧ ∀ c, ¬ 1 ≤ c < 2 ^ b → node_weight heap' c = node_weight heap c.
Proof.
  intros Hlen.
  destruct (foldM_total ArrayHeap.sum_level (λ n hp,
      length hp = 2 * 2 ^ b
      ∧ (∀ c, ¬ 1 ≤ c < 2 ^ b → node_weight hp c = node_weight heap c))
    (rev (seq 0 b)) heap) as (heap' & Hrun & HI).
  - intros n i hp Hn (Hl & Hkeep).
    apply rev_seq_lookup in Hn as [Hn ->].
    assert (2 * 2 ^ (b - 1 - n) ≤ 2 ^ b) as Hle.
    { rewrite <- Nat.pow_succ_r'. apply Nat.pow_le_mono_r; lia. }
    destruct (sum_level_frame (2 ^ b) hp (b - 1 - n) Hl Hle) as (hp' & Hs & Hl' & Hkeep').
    exists hp'. split; [done|]. split; [done|].
    intros c Hc. rewrite Hkeep'; [by apply Hkeep|].
    pose proof (Nat.pow_nonzero 2 (b - 1 - n)). lia.
  - done.
  - destruct HI as [Hl Hkeep]. by exists heap'.
Qed.

(** The constructor returns for every non-empty list of weights; the tree
    has [2 ^ ceil(log2 n)] leaves, which hold the weights in order and zero
    after them. *)
Lemma make_layout (prob : list Q) :
  prob ≠ [] →
  ∃ heap,
    ArrayHeap.make prob
    = Ok {| ArrayHeap.vec_size_ := length prob;
            ArrayHeap.bit_len_ := Nat.log2_up (length prob);
            ArrayHeap.limit_ := 2 ^ Nat.log2_up (length prob);
            ArrayHeap.heap_ := heap |}
    ∧ length prob ≤ 2 ^ Nat.log2_up (length prob)
    ∧ length heap = 2 * 2 ^ Nat.log2_up (length prob)
    ∧ node_weight heap 0 = 0%Q
    ∧ ∀ i, node_weight heap (i + 2 ^ Nat.log2_up (length prob)) = nth i prob 0%Q.
Proof.
  intros Hne. unfold ArrayHeap.make.
  assert (1 ≤ length prob) as Hlen by (destruct prob; [done|simpl; lia]).
  rewrite decide_False by lia.
  set (b := Nat.log2_up (length prob)).
  pose proof (log2_up_bound (length prob) Hlen) as Hb. fold b in Hb.
  destruct (fill_leaves_Ok prob (2 ^ b) Hb) as (heap & -> & Hl & Hw). simpl.
  destruct (sum_levels_frame b heap Hl) as (heap' & -> & Hl' & Hkeep).
  simpl. exists heap'. split; [done|]. split; [done|]. split; [done|]. split.
  - rewrite Hkeep, Hw by lia. rewrite decide_False; [done|].
    pose proof (Nat.pow_nonzero 2 b). lia.
  - intros i. rewrite Hkeep, Hw by lia. rewrite decide_True by lia. f_equal. lia.
Qed.

(** Over weights that are not negative every inner node holds the sum of
    its two children. *)
Lemma sum_level_Ok (limit : nat) (heap : list Q) (i : nat) :
  length heap = 2 * limit → 2 * 2 ^ i ≤ limit →
  ∃ heap', ArrayHeap.sum_level heap i = Ok heap'
    ∧ length heap' = 2 * limit
    ∧ (∀ c, 2 * 2 ^ i ≤ c → node_weight heap' c = node_weight heap c)
    ∧ (∀ c, 2 ^ i ≤ c < 2 * 2 ^ i →
         node_weight heap' c
         = (node_weight heap (2 * c) + node_weight heap (2 * c + 1))%Q).
Proof.
  intros Hlen Hi. unfold ArrayHeap.sum_level.
  destruct (foldM_seq_total ArrayHeap.sum_children (λ j hp,
      length hp = 2 * limit
      ∧ (∀ c, 2 * 2 ^ i ≤ c → node_weight hp c = node_weight heap c)
      ∧ (∀ c, 2 ^ i ≤ c < j →
           node_weight hp c
           = (node_weight heap (2 * c) + node_weight heap (2 * c + 1))%Q))
    (2 ^ i) (2 ^ i) heap) as (heap' & Hrun & Hl & Hkeep & Hsum).
  - intros j hp Hj (Hl & Hkeep & Hsum). unfold ArrayHeap.sum_children.
    rewrite !index_node_weight by lia. simpl.
    unfold store. rewrite decide_True by lia.
    eexists. split; [done|]. split; [by rewrite length_insert|]. split.
    + intros c Hc. rewrite node_weight_insert_ne by lia. by apply Hkeep.
    + intros c Hc. destruct (decide (c = j)) as [->|Hne].
      * rewrite node_weight_insert_eq by lia. rewrite !Hkeep by lia. done.
      * rewrite node_weight_insert_ne by done. apply Hsum. lia.
  - split; [done|]. split; [done|]. intros c Hc. lia.
  - exists heap'. split; [done|]. split; [done|]. split; [done|].
    intros c Hc. apply Hsum. lia.
Qed.

Lemma sum_levels_Ok (b : nat) (heap : list Q) :
  length heap = 2 * 2 ^ b →
  (∀ c, 2 ^ b ≤ c < 2 * 2 ^ b → (0 <= node_weight heap c)%Q) →
  ∃ heap', foldM ArrayHeap.sum_level (rev (seq 0 b)) heap = Ok heap'
    ∧ sum_tree (2 ^ b) heap'
    ∧ ∀ c, 2 ^ b ≤ c → node_weight heap' c = node_weight heap c.
Proof.
  intros Hlen Hleaves.
  destruct (foldM_total ArrayHeap.sum_level (λ n hp,
      length hp = 2 * 2 ^ b
      ∧ (∀ c, 2 ^ b ≤ c → node_weight hp c = node_weight heap c)
      ∧ (∀ j, 2 ^ (b - n) ≤ j < 2 ^ b →
           (node_weight hp j == node_weight hp (2 * j) + node_weight hp (2 * j + 1))%Q)
      ∧ (∀ j, 2 ^ (b - n) ≤ j < 2 * 2 ^ b → (0 <= node_weight hp j)%Q))
    (rev (seq 0 b)) heap) as (heap' & Hrun & HI).
  - intros n i hp Hn (Hl & Hkeep & Hsum & Hnn).
    apply rev_seq_lookup in Hn as [Hn ->].
    assert (2 ^ (b - n) = 2 * 2 ^ (b - 1 - n)) as Hpow.
    { rewrite <- Nat.pow_succ_r'. f_equal. lia. }
    assert (2 * 2 ^ (b - 1 - n) ≤ 2 ^ b) as Hle.
    { rewrite <- Hpow. apply Nat.pow_le_mono_r; lia. }
    destruct (sum_level_Ok (2 ^ b) hp (b - 1 - n) Hl Hle) as (hp' & Hs & Hl' & Hkeep' & Hsum').
    exists hp'. split; [done|]. split; [done|].
    replace (b - S n) with (b - 1 - n) by lia. rewrite Hpow in Hsum, Hnn.
    split; [|split].
    + intros c Hc. rewrite Hkeep' by lia. by apply Hkeep.
    + intros j Hj. destruct (decide (2 * 2 ^ (b - 1 - n) ≤ j)) as [Hhi|Hlo].
      * rewrite !Hkeep' by lia. apply Hsum. lia.
      * rewrite Hsum' by lia. rewrite !Hkeep' by lia. reflexivity.
    + intros j Hj. destruct (decide (2 * 2 ^ (b - 1 - n) ≤ j)) as [Hhi|Hlo].
      * rewrite Hkeep' by lia. apply Hnn. lia.
      * rewrite Hsum' by lia.
        assert (0 <= node_weight hp (2 * j))%Q by (apply Hnn; lia).
        assert (0 <= node_weight hp (2 * j + 1))%Q by (apply Hnn; lia).
        lra.
  - rewrite Nat.sub_0_r. split; [done|]. split; [done|]. split; [intros j Hj; lia|done].
  - rewrite length_rev, length_seq, Nat.sub_diag in HI. simpl in HI.
    destruct HI as (Hl & Hkeep & Hsum & Hnn).
    exists heap'. split; [done|]. split; [|done]. split; [done| |].
    + intros j Hj. apply Hsum. lia.
    + intros j Hj. apply Hnn. lia.
Qed.

Lemma make_Ok (prob : list Q) :
  prob ≠ [] → Forall (λ p, 0 <= p)%Q prob →
  ∃ h, ArrayHeap.make prob = Ok h
    ∧ ArrayHeap.limit_ h = 2 ^ ArrayHeap.bit_len_ h
    ∧ length prob ≤ ArrayHeap.limit_ h
    ∧ sum_tree (ArrayHeap.limit_ h) (ArrayHeap.heap_ h)
    ∧ ∀ i, node_weight (ArrayHeap.heap_ h) (i + ArrayHeap.limit_ h) = nth i prob 0%Q.
Proof.
  intros Hne Hpos. unfold ArrayHeap.make.
  assert (1 ≤ length prob) as Hlen by (destruct prob; [done|simpl; lia]).
  rewrite decide_False by lia.
  set (b := Nat.log2_up (length prob)).
  pose proof (log2_up_bound (length prob) Hlen) as Hb. fold b in Hb.
  destruct (fill_leaves_Ok prob (2 ^ b) Hb) as (heap & -> & Hl & Hw). simpl.
  destruct (sum_levels_Ok b heap Hl) as (heap' & -> & Htree & Hkeep).
  { intros c Hc. rewrite Hw, decide_True by lia.
    destruct (decide (c - 2 ^ b < length prob)) as [Hin|Hout].
    - destruct (lookup_lt_is_Some_2 prob (c - 2 ^ b) Hin) as [p Hp].
      rewrite (nth_lookup_Some _ _ _ _ Hp).
      by eapply (Forall_lookup_1 _ _ _ _ Hpos).
    - rewrite nth_overflow by lia. lra. }
  simpl. eexists. split; [done|]. simpl. split; [done|]. split; [done|]. split; [done|].
  intros i. rewrite Hkeep, Hw by lia. rewrite decide_True by lia. f_equal. lia.
Qed.

(** *** [Sample] and [SampleWithoutReplacement] *)

(** The walk ends in a leaf, whatever the tree holds. *)
Lemma Sample_loop_leaf (limit : nat) (heap : list Q) :
  length heap = 2 * limit →
  ∀ fuel xi i, 1 ≤ i < 2 * limit → limit ≤ i + fuel →
    ∃ leaf, ArrayHeap.Sample_loop fuel heap limit xi i = Ok leaf
            ∧ limit ≤ leaf < 2 * limit.
Proof.
  intros Hlen. induction fuel as [|fuel IH]; intros xi i Hi Hfuel.
  - simpl. rewrite decide_False by lia. exists i. split; [done|lia].
  - rewrite Sample_loop_S. case_decide as Hlt.
    + rewrite index_node_weight by lia.
      change (Ok ?a ≫= ?k) with (k a). cbv beta.
      destruct (Qle_bool (node_weight heap (2 * i)) xi); apply IH; lia.
    + exists i. split; [done|lia].
Qed.

(** [Sample] reads one random value and returns the position of a leaf. *)
Lemma Sample_leaf (h : ArrayHeap.t) (r : nat) (seed : seed_t) :
  1 ≤ ArrayHeap.limit_ h → length (ArrayHeap.heap_ h) = 2 * ArrayHeap.limit_ h →
  ∃ s, ArrayHeap.Sample h (r :: seed) = Ok (s, seed) ∧ s < ArrayHeap.limit_ h.
Proof.
  intros Hlimit Hlen. unfold ArrayHeap.Sample, rand_r.
  rewrite index_node_weight by lia.
  change (Ok ?a ≫= ?k) with (k a). cbv beta.
  change (Ok ?a ≫= ?k) with (k a). cbv beta iota.
  destruct (Sample_loop_leaf _ _ Hlen (ArrayHeap.limit_ h)
              (node_weight (ArrayHeap.heap_ h) 1
               * (inject_Z (Z.of_nat (r mod 100)) / 101))%Q 1)
    as (leaf & -> & Hleaf); [lia..|].
  simpl. exists (leaf - ArrayHeap.limit_ h). split; [done|lia].
Qed.

(** [n] samples read [n] random values and are [n] positions of leaves;
    the leaves sampled are left empty and the others keep their weight. *)
Lemma SampleWithoutReplacement_leaves (h : ArrayHeap.t) (n : nat) (seed : seed_t) :
  ArrayHeap.limit_ h = 2 ^ ArrayHeap.bit_len_ h →
  length (ArrayHeap.heap_ h) = 2 * ArrayHeap.limit_ h → n ≤ length seed →
  ∃ heap' samples,
    ArrayHeap.SampleWithoutReplacement h n (replicate n 0) seed
    = Ok (ArrayHeap.with_heap h heap', samples, drop n seed)
    ∧ length heap' = 2 * ArrayHeap.limit_ h
    ∧ length samples = n ∧ Forall (λ s, s < ArrayHeap.limit_ h) samples
    ∧ Forall (λ s, node_weight heap' (s + ArrayHeap.limit_ h) == 0)%Q samples
    ∧ (∀ i, i ∉ samples →
         node_weight heap' (i + ArrayHeap.limit_ h)
         = node_weight (ArrayHeap.heap_ h) (i + ArrayHeap.limit_ h)).
Proof.
  intros Hlimit Hlen Hseed. unfold ArrayHeap.SampleWithoutReplacement.
  assert (1 ≤ ArrayHeap.limit_ h) as Hpos.
  { rewrite Hlimit. pose proof (Nat.pow_nonzero 2 (ArrayHeap.bit_len_ h)). lia. }
  destruct (foldM_seq_total ArrayHeap.SampleWithoutReplacement_step (λ i st,
      (∃ heap', st.1.1 = ArrayHeap.with_heap h heap'
                ∧ length heap' = 2 * ArrayHeap.limit_ h
                ∧ Forall (λ s, node_weight heap' (s + ArrayHeap.limit_ h) == 0)%Q
                         (take i st.1.2)
                ∧ (∀ l, l ∉ take i st.1.2 →
                     node_weight heap' (l + ArrayHeap.limit_ h)
                     = node_weight (ArrayHeap.heap_ h) (l + ArrayHeap.limit_ h)))
      ∧ length st.1.2 = n
      ∧ st.2 = drop i seed
      ∧ Forall (λ s, s < ArrayHeap.limit_ h) (take i st.1.2))
    0 n (h, replicate n 0, seed)) as ([[h' samples] sd] & Hrun & HI).
  - intros i [[h0 s0] sd0] Hi ((heap0 & Hh0 & Hl0 & Hzero & Hkeep) & Hs0 & Hsd0 & Hin).
    simpl in *. subst h0 sd0.
    destruct (drop i seed) as [|r rest] eqn:Hdrop.
    { apply (f_equal length) in Hdrop. rewrite length_drop in Hdrop. simpl in Hdrop. lia. }
    unfold ArrayHeap.SampleWithoutReplacement_step.
    destruct (Sample_leaf (ArrayHeap.with_heap h heap0) r rest) as (s & -> & Hs); [done..|].
    simpl in Hs. simpl. rewrite decide_True by lia. simpl.
    destruct (Delete_frame (ArrayHeap.with_heap h heap0) s)
      as (heap1 & -> & Hl1 & Hleaf & _ & Hothers); [done..|].
    simpl in Hleaf, Hothers.
    assert (take (S i) (<[i:=s]> s0) = take i s0 ++ [s]) as Htake.
    { rewrite (take_S_r _ _ s) by (apply list_lookup_insert_eq; lia).
      by rewrite take_insert_ge by lia. }
    simpl. eexists. split; [done|]. simpl. rewrite Htake.
    split; [|split; [by rewrite length_insert|split]].
    + exists heap1. split; [done|]. split; [done|]. split.
      * apply Forall_app. split; [|by apply Forall_singleton].
        eapply Forall_impl; [exact Hzero|]. intros s' Hs'. simpl in *.
        destruct (decide (s' = s)) as [->|Hne]; [done|]. by rewrite Hothers.
      * intros l Hl. rewrite Hothers by set_solver. apply Hkeep. set_solver.
    + assert (seed !! i = Some r) as Hr.
      { pose proof (lookup_drop seed i 0) as Hl. rewrite Hdrop, Nat.add_0_r in Hl.
        exact (eq_sym Hl). }
      apply drop_S in Hr. rewrite Hdrop in Hr. by injection Hr as ->.
    + apply Forall_app. split; [done|]. by apply Forall_singleton.
  - simpl. split; [|split; [by rewrite length_replicate|split; [done|by rewrite take_0]]].
    exists (ArrayHeap.heap_ h). split; [by destruct h|]. split; [done|].
    rewrite take_0. split; [done|]. done.
  - simpl in HI. destruct HI as ((heap' & Hh' & Hl' & Hzero & Hkeep) & Hs & Hsd & Hin).
    subst h' sd. rewrite <- Hs, firstn_all in Hin, Hzero, Hkeep. by exists heap', samples.
Qed.

(** *** The selection *)

Lemma gather_probs_total (probability : list Q) (vid_list : list nat) (ver_len : nat) :
  ver_len ≤ length vid_list →
  Forall (λ v, v < length probability) (take ver_len vid_list) →
  foldM (gather_prob probability vid_list) (seq 0 ver_len) (replicate ver_len 0%Q)
  = Ok (slice_weights probability vid_list ver_len).
Proof.
  intros Hlen Hids.
  destruct (foldM_seq_total (gather_prob probability vid_list)
              (λ _ st, length st = ver_len) 0 ver_len (replicate ver_len 0%Q))
    as (sp_prob & Hrun & _).
  - intros i st Hi Hst. unfold gather_prob.
    destruct (lookup_lt_is_Some_2 vid_list i) as [v Hv]; [lia|].
    assert (v < length probability) as Hvlt.
    { apply (Forall_lookup_1 _ _ i v Hids). rewrite lookup_take_lt by lia. done. }
    rewrite (proj2 (index_Ok _ _ _) Hv). simpl.
    rewrite (index_lt _ _ 0%Q) by done. simpl.
    unfold store. rewrite decide_True by lia.
    eexists. split; [done|]. by rewrite length_insert.
  - by rewrite length_replicate.
  - rewrite Hrun. f_equal.
    destruct (gather_probs_Ok _ _ _ _ Hrun) as [Hl Hcells].
    apply list_eq_same_length with ver_len.
    + unfold slice_weights. rewrite length_map, length_take. lia.
    + done.
    + intros i x y Hi Hx Hy.
      destruct (Hcells i Hi) as (v & p & Hv & Hp & Hsp).
      unfold slice_weights in Hy.
      rewrite list_lookup_fmap, lookup_take_lt, Hv in Hy by lia. simpl in Hy.
      rewrite (nth_lookup_Some _ _ _ _ Hp) in Hy. congruence.
Qed.

Lemma write_pairs_total (vid_list edge_id_list : list nat) (sp_index : list nat) :
  Forall (λ idx, idx < length vid_list ∧ idx < length edge_id_list) sp_index →
  foldM (write_pair vid_list edge_id_list sp_index) (seq 0 (length sp_index))
        (replicate (length sp_index) 0, replicate (length sp_index) 0)
  = Ok (picked vid_list sp_index, picked edge_id_list sp_index).
Proof.
  intros Hidx.
  destruct (foldM_seq_total (write_pair vid_list edge_id_list sp_index)
              (λ _ st, length st.1 = length sp_index ∧ length st.2 = length sp_index)
              0 (length sp_index)
              (replicate (length sp_index) 0, replicate (length sp_index) 0))
    as ([out_ver out_edge] & Hrun & _).
  - intros i [ov oe] Hi [Hov Hoe]. simpl in *. unfold write_pair.
    destruct (lookup_lt_is_Some_2 sp_index i) as [idx Hi']; [lia|].
    destruct (Forall_lookup_1 _ _ _ _ Hidx Hi') as [Hv He].
    rewrite (proj2 (index_Ok _ _ _) Hi'). simpl.
    rewrite (index_lt _ _ 0) by done. simpl.
    rewrite decide_True by lia. simpl.
    rewrite (index_lt _ _ 0) by done. simpl.
    rewrite decide_True by lia. simpl.
    eexists. split; [done|]. simpl. by rewrite !length_insert.
  - simpl. by rewrite !length_replicate.
  - rewrite Hrun. by destruct (write_pairs_Ok _ _ _ _ _ _ eq_refl Hrun) as (-> & -> & _).
Qed.

Lemma slice_weights_length (probability : list Q) (vid_list : list nat) (ver_len : nat) :
  ver_len ≤ length vid_list → length (slice_weights probability vid_list ver_len) = ver_len.
Proof. intros. unfold slice_weights. rewrite length_map, length_take. lia. Qed.

(** Whatever the weights are, the lists a selection over a longer slice
    returns are the two independently sorted columns of one list of
    [max_num_neighbor] positions. *)
Lemma GetNonUniformSample_Ok (probability : list Q) (edge_id_list vid_list : list dgl_id_t)
    (ver_len max_num_neighbor : nat) (seed seed' : seed_t)
    (out_ver out_edge : list dgl_id_t) :
  max_num_neighbor < ver_len →
  GetNonUniformSample probability edge_id_list vid_list ver_len max_num_neighbor [] [] seed
  = Ok (out_ver, out_edge, seed') →
  ∃ sp_index,
    length sp_index = max_num_neighbor
    ∧ Forall (λ idx, idx < length vid_list ∧ idx < length edge_id_list) sp_index
    ∧ out_ver = sort_by id (picked vid_list sp_index)
    ∧ out_edge = sort_by id (picked edge_id_list sp_index).
Proof.
  intros Hk Hrun. unfold GetNonUniformSample in Hrun.
  rewrite decide_False in Hrun by lia. rewrite !resize_nil in Hrun.
  apply bind_Ok in Hrun as (sp_prob & _ & Hrun).
  apply bind_Ok in Hrun as (h & _ & Hrun).
  apply bind_Ok in Hrun as ([[h' sp_index] sd] & Hsample & Hrun).
  apply bind_Ok in Hrun as ([ov oe] & Hwrite & Hrun).
  injection Hrun as <- <- <-.
  apply SampleWithoutReplacement_length in Hsample. rewrite length_replicate in Hsample.
  apply write_pairs_Ok in Hwrite as (-> & -> & Hin); [|done].
  by exists sp_index.
Qed.

(** The value [Sample] walks down with lies between zero and the weight of
    the root, the root excluded unless it is zero. *)
Lemma Sample_xi_range (root : Q) (r : nat) :
  (0 <= root)%Q →
  (0 <= root * (inject_Z (Z.of_nat (r mod 100)) / 101))%Q
  ∧ ((0 < root)%Q → (root * (inject_Z (Z.of_nat (r mod 100)) / 101) < root)%Q).
Proof.
  intros Hroot.
  assert (0 <= inject_Z (Z.of_nat (r mod 100)) / 101)%Q as H0.
  { apply Qle_shift_div_l; [reflexivity|]. rewrite Qmult_0_l.
    change 0%Q with (inject_Z 0). rewrite <- Zle_Qle. lia. }
  assert (inject_Z (Z.of_nat (r mod 100)) / 101 < 1)%Q as H1.
  { apply Qlt_shift_div_r; [reflexivity|]. rewrite Qmult_1_l.
    change 101%Q with (inject_Z 101). rewrite <- Zlt_Qlt.
    pose proof (Nat.mod_upper_bound r 100). lia. }
  split; [nra|]. intros Hpos. nra.
Qed.

(** Two walks through a tree of four leaves: to the last leaf when the left
    child is empty at both nodes of the way, and to the first leaf when the
    left child holds the weight of the root at both. *)
Lemma Sample_4_last (h : ArrayHeap.t) (r : nat) (seed : seed_t) :
  ArrayHeap.limit_ h = 4 → length (ArrayHeap.heap_ h) = 8 →
  (0 <= node_weight (ArrayHeap.heap_ h) 1)%Q →
  (node_weight (ArrayHeap.heap_ h) 2 == 0)%Q → (node_weight (ArrayHeap.heap_ h) 6 == 0)%Q →
  ArrayHeap.Sample h (r :: seed) = Ok (3, seed).
Proof.
  destruct h as [vs b limit heap]. simpl. intros -> Hlen Hroot H2 H6.
  unfold ArrayHeap.Sample, rand_r. simpl ArrayHeap.heap_. simpl ArrayHeap.limit_.
  rewrite index_node_weight by lia.
  change (Ok ?a ≫= ?k) with (k a). cbv beta.
  change (Ok ?a ≫= ?k) with (k a). cbv beta iota.
  destruct (Sample_xi_range (node_weight heap 1) r Hroot) as [Hxi _].
  set (xi := (node_weight heap 1 * _)%Q) in *.
  rewrite Sample_loop_S, decide_True by lia. rewrite index_node_weight by (simpl; lia).
  change (Ok ?a ≫= ?k) with (k a). cbv beta.
  assert (Qle_bool (node_weight heap (2 * 1)) xi = true) as ->.
  { apply Qle_bool_iff. simpl. lra. }
  rewrite Sample_loop_S, decide_True by (simpl; lia).
  rewrite index_node_weight by (simpl; lia).
  change (Ok ?a ≫= ?k) with (k a). cbv beta.
  assert (Qle_bool (node_weight heap (2 * (2 * 1 + 1))) (xi - node_weight heap (2 * 1)) = true)
    as ->.
  { apply Qle_bool_iff. simpl. lra. }
  rewrite Sample_loop_S, decide_False by (simpl; lia). done.
Qed.

Lemma Sample_4_first (h : ArrayHeap.t) (r : nat) (seed : seed_t) :
  ArrayHeap.limit_ h = 4 → length (ArrayHeap.heap_ h) = 8 →
  (0 < node_weight (ArrayHeap.heap_ h) 1)%Q →
  (node_weight (ArrayHeap.heap_ h) 1 <= node_weight (ArrayHeap.heap_ h) 2)%Q →
  (node_weight (ArrayHeap.heap_ h) 1 <= node_weight (ArrayHeap.heap_ h) 4)%Q →
  ArrayHeap.Sample h (r :: seed) = Ok (0, seed).
Proof.
  destruct h as [vs b limit heap]. simpl. intros -> Hlen Hroot H2 H4.
  unfold ArrayHeap.Sample, rand_r. simpl ArrayHeap.heap_. simpl ArrayHeap.limit_.
  rewrite index_node_weight by lia.
  change (Ok ?a ≫= ?k) with (k a). cbv beta.
  change (Ok ?a ≫= ?k) with (k a). cbv beta iota.
  destruct (Sample_xi_range (node_weight heap 1) r) as [_ Hxi]; [lra|].
  specialize (Hxi Hroot).
  set (xi := (node_weight heap 1 * _)%Q) in *.
  rewrite Sample_loop_S, decide_True by lia. rewrite index_node_weight by (simpl; lia).
  change (Ok ?a ≫= ?k) with (k a). cbv beta.
  assert (Qle_bool (node_weight heap (2 * 1)) xi = false) as ->.
  { apply not_true_is_false. intros Hle%Qle_bool_iff. simpl in Hle. lra. }
  rewrite Sample_loop_S, decide_True by (simpl; lia).
  rewrite index_node_weight by (simpl; lia).
  change (Ok ?a ≫= ?k) with (k a). cbv beta.
  assert (Qle_bool (node_weight heap (2 * (2 * 1))) xi = false) as ->.
  { apply not_true_is_false. intros Hle%Qle_bool_iff. simpl in Hle. lra. }
  rewrite Sample_loop_S, decide_False by (simpl; lia). done.
Qed.

Lemma SampleWithoutReplacement_two (h : ArrayHeap.t) (samples : list nat) (seed : seed_t) :
  ArrayHeap.SampleWithoutReplacement h 2 samples seed
  = ArrayHeap.SampleWithoutReplacement_step (h, samples, seed) 0
    ≫= λ st, ArrayHeap.SampleWithoutReplacement_step st 1.
Proof.
  unfold ArrayHeap.SampleWithoutReplacement. change (seq 0 2) with [0; 1]. cbn [foldM].
  destruct (ArrayHeap.SampleWithoutReplacement_step (h, samples, seed) 0) as [st|e];
    [|done].
  change (Ok ?a ≫= ?k) with (k a). cbv beta.
  by destruct (ArrayHeap.SampleWithoutReplacement_step st 1).
Qed.

Lemma SampleWithoutReplacement_step_Ok (h h' : ArrayHeap.t) (samples : list nat)
    (seed seed' : seed_t) (i s : nat) :
  ArrayHeap.Sample h seed = Ok (s, seed') → i < length samples →
  ArrayHeap.Delete h s = Ok h' →
  ArrayHeap.SampleWithoutReplacement_step (h, samples, seed) i
  = Ok (h', <[i:=s]> samples, seed').
Proof.
  intros Hs Hi Hd. unfold ArrayHeap.SampleWithoutReplacement_step.
  rewrite Hs. simpl. rewrite decide_True by done. simpl. by rewrite Hd.
Qed.

(** Over the weights 0, 0, 0 and 1 both draws give position 3, whatever the
    random values. *)
Lemma SampleWithoutReplacement_0001 (r1 r2 : nat) (seed : seed_t) :
  ArrayHeap.make [0%Q; 0%Q; 0%Q; 1%Q] ≫= (λ h,
    ArrayHeap.SampleWithoutReplacement h 2 [0; 0] (r1 :: r2 :: seed))
  = Ok ({| ArrayHeap.vec_size_ := 4; ArrayHeap.bit_len_ := 2; ArrayHeap.limit_ := 4;
           ArrayHeap.heap_ := replicate 8 0%Q |}, [3; 3], seed).
Proof.
  change (ArrayHeap.make [0%Q; 0%Q; 0%Q; 1%Q])
    with (Ok {| ArrayHeap.vec_size_ := 4; ArrayHeap.bit_len_ := 2; ArrayHeap.limit_ := 4;
                ArrayHeap.heap_ := [0%Q; 1%Q; 0%Q; 1%Q; 0%Q; 0%Q; 0%Q; 1%Q] |}).
  change (Ok ?a ≫= ?k) with (k a). cbv beta.
  rewrite SampleWithoutReplacement_two.
  erewrite SampleWithoutReplacement_step_Ok;
    [|by apply Sample_4_last|simpl; lia|reflexivity].
  change (Ok ?a ≫= ?k) with (k a). cbv beta.
  erewrite SampleWithoutReplacement_step_Ok;
    [|by apply Sample_4_last|simpl; lia|reflexivity].
  reflexivity.
Qed.

(** Over the weights 1, 0 and 0 the first draw gives position 0 and the
    second position 3, whatever the random values. *)
Lemma SampleWithoutReplacement_100 (r1 r2 : nat) (seed : seed_t) :
  ArrayHeap.make [1%Q; 0%Q; 0%Q] ≫= (λ h,
    ArrayHeap.SampleWithoutReplacement h 2 [0; 0] (r1 :: r2 :: seed))
  = Ok ({| ArrayHeap.vec_size_ := 3; ArrayHeap.bit_len_ := 2; ArrayHeap.limit_ := 4;
           ArrayHeap.heap_ := replicate 8 0%Q |}, [0; 3], seed).
Proof.
  change (ArrayHeap.make [1%Q; 0%Q; 0%Q])
    with (Ok {| ArrayHeap.vec_size_ := 3; ArrayHeap.bit_len_ := 2; ArrayHeap.limit_ := 4;
                ArrayHeap.heap_ := [0%Q; 1%Q; 1%Q; 0%Q; 1%Q; 0%Q; 0%Q; 0%Q] |}).
  change (Ok ?a ≫= ?k) with (k a). cbv beta.
  rewrite SampleWithoutReplacement_two.
  erewrite SampleWithoutReplacement_step_Ok;
    [|by apply Sample_4_first|simpl; lia|reflexivity].
  change (Ok ?a ≫= ?k) with (k a). cbv beta.
  erewrite SampleWithoutReplacement_step_Ok;
    [|by apply Sample_4_last|simpl; lia|reflexivity].
  reflexivity.
Qed.

(** C8. Weighted neighbour selection over a slice of length
    [ver_len > max_num_neighbor] draws [max_num_neighbor] positions from a
    sum tree over the weights of the slice, one random value each, taking
    the weight of each drawn leaf out of the tree, and returns the vertex
    ids at these positions sorted ascending and the edge ids at these
    positions sorted ascending on their own; for some input the vertex id
    and the edge id at one output position belong to different neighbours.
    The positions are those of leaves of the tree, which has
    [2 ^ ceil(log2 ver_len)] of them: they are not always distinct and not
    always inside the slice.  Over the weights 0, 0, 0 and 1 two draws give
    position 3 twice, whatever the random values, and the neighbour at
    position 3 is output twice.  Over the three weights 1, 0 and 0 the
    second draw gives position 3, whatever the random values: the vertex and
    the edge output are read past the end of the slice, and outside the
    arrays when these end with the slice. *)
Theorem GetNonUniformSample_draws_neighbor_twice :
  (∀ (r1 r2 : nat) (seed : seed_t),
     GetNonUniformSample [0%Q; 0%Q; 0%Q; 1%Q] [10; 11; 12; 13] [0; 1; 2; 3] 4 2 [] []
       (r1 :: r2 :: seed)
     = Ok ([3; 3], [13; 13], seed))
  ∧ (∀ (r1 r2 : nat) (seed : seed_t),
       GetNonUniformSample [1%Q; 0%Q; 0%Q; 1%Q] [10; 11; 12; 13] [0; 1; 2; 3] 3 2 [] []
         (r1 :: r2 :: seed)
       = Ok ([0; 3], [10; 13], seed)
       ∧ GetNonUniformSample [1%Q; 0%Q; 0%Q] [10; 11; 12] [0; 1; 2] 3 2 [] []
           (r1 :: r2 :: seed)
         = Err Undefined)
  ∧ (∀ (probability : list Q) (edge_id_list vid_list : list dgl_id_t)
       (ver_len max_num_neighbor : nat) (seed : seed_t),
       max_num_neighbor < ver_len → max_num_neighbor ≤ length seed →
       2 ^ Nat.log2_up ver_len ≤ length vid_list →
       2 ^ Nat.log2_up ver_len ≤ length edge_id_list →
       Forall (λ v, v < length probability) (take ver_len vid_list) →
       ∃ arrayHeap arrayHeap' sp_index,
         ArrayHeap.make (slice_weights probability vid_list ver_len) = Ok arrayHeap
         ∧ ArrayHeap.SampleWithoutReplacement arrayHeap max_num_neighbor
             (replicate max_num_neighbor 0) seed
           = Ok (arrayHeap', sp_index, drop max_num_neighbor seed)
         ∧ length sp_index = max_num_neighbor
         ∧ Forall (λ idx, idx < 2 ^ Nat.log2_up ver_len) sp_index
         ∧ GetNonUniformSample probability edge_id_list vid_list ver_len max_num_neighbor
             [] [] seed
           = Ok (sort_by id (picked vid_list sp_index),
                 sort_by id (picked edge_id_list sp_index),
                 drop max_num_neighbor seed)
         ∧ StronglySorted le (sort_by id (picked vid_list sp_index))
         ∧ StronglySorted le (sort_by id (picked edge_id_list sp_index)))
  ∧ (∀ (probability : list Q) (edge_id_list vid_list : list dgl_id_t)
       (ver_len max_num_neighbor : nat) (seed seed' : seed_t)
       (out_ver out_edge : list dgl_id_t),
       max_num_neighbor < ver_len →
       GetNonUniformSample probability edge_id_list vid_list ver_len max_num_neighbor
         [] [] seed
       = Ok (out_ver, out_edge, seed') →
       ∃ sp_index,
         length sp_index = max_num_neighbor
         ∧ Forall (λ idx, idx < length vid_list ∧ idx < length edge_id_list) sp_index
         ∧ out_ver = sort_by id (picked vid_list sp_index)
         ∧ out_edge = sort_by id (picked edge_id_list sp_index))
  ∧ (∃ (probability : list Q) (edge_id_list vid_list : list dgl_id_t)
       (ver_len max_num_neighbor : nat) (seed seed' : seed_t)
       (out_ver out_edge : list dgl_id_t) (pos : nat) (v e : dgl_id_t),
       max_num_neighbor < ver_len
       ∧ GetNonUniformSample probability edge_id_list vid_list ver_len max_num_neighbor
           [] [] seed
         = Ok (out_ver, out_edge, seed')
       ∧ out_ver !! pos = Some v ∧ out_edge !! pos = Some e
       ∧ ¬ same_neighbor vid_list edge_id_list ver_len v e).
Proof.
  split; [|split; [|split; [|split; [exact GetNonUniformSample_Ok|]]]].
  - intros r1 r2 seed.
    pose proof (SampleWithoutReplacement_0001 r1 r2 seed) as Hdraws.
    unfold GetNonUniformSample. rewrite decide_False by lia.
    cbv zeta. change (replicate 2 0) with [0; 0].
    rewrite gather_probs_total; [|simpl; lia|repeat constructor; simpl; lia].
    change (Ok ?a ≫= ?k) with (k a). cbv beta.
    change (slice_weights _ _ _) with [0%Q; 0%Q; 0%Q; 1%Q].
    destruct (ArrayHeap.make [0%Q; 0%Q; 0%Q; 1%Q]) as [h|e]; [|done].
    change (Ok ?a ≫= ?k) with (k a) in Hdraws |- *. cbv beta in Hdraws |- *.
    rewrite Hdraws. reflexivity.
  - intros r1 r2 seed.
    pose proof (SampleWithoutReplacement_100 r1 r2 seed) as Hdraws.
    unfold GetNonUniformSample. rewrite !decide_False by lia.
    cbv zeta. change (replicate 2 0) with [0; 0].
    rewrite !gather_probs_total; [|simpl; lia|repeat constructor; simpl; lia..].
    change (Ok ?a ≫= ?k) with (k a). cbv beta.
    change (slice_weights _ _ _) with [1%Q; 0%Q; 0%Q].
    destruct (ArrayHeap.make [1%Q; 0%Q; 0%Q]) as [h|e]; [|done].
    change (Ok ?a ≫= ?k) with (k a) in Hdraws |- *. cbv beta in Hdraws |- *.
    rewrite Hdraws. split; reflexivity.
  - intros probability edge_id_list vid_list ver_len k seed Hk Hseed Hv He Hids.
    assert (ver_len ≤ length vid_list) as Hv'.
    { pose proof (log2_up_bound ver_len). lia. }
    pose proof (slice_weights_length probability vid_list ver_len Hv') as Hwl.
    destruct (make_layout (slice_weights probability vid_list ver_len))
      as (heap & Hmake & _ & Hlen & _).
    { intros E. rewrite E in Hwl. simpl in Hwl. lia. }
    rewrite Hwl in Hmake, Hlen.
    set (h := {| ArrayHeap.vec_size_ := ver_len; ArrayHeap.bit_len_ := Nat.log2_up ver_len;
                 ArrayHeap.limit_ := 2 ^ Nat.log2_up ver_len;
                 ArrayHeap.heap_ := heap |}) in *.
    destruct (SampleWithoutReplacement_leaves h k seed)
      as (heap' & sp_index & Hsample & _ & Hl & Hin & _); [done..|].
    exists h, (ArrayHeap.with_heap h heap'), sp_index.
    split; [done|]. split; [done|]. split; [done|]. split; [done|]. split.
    + unfold GetNonUniformSample. rewrite decide_False by lia.
      rewrite gather_probs_total by done. simpl. rewrite Hmake. simpl.
      rewrite Hsample. simpl. rewrite !resize_nil. rewrite <- Hl.
      rewrite write_pairs_total; [done|].
      eapply Forall_impl; [exact Hin|]. intros idx Hidx. simpl in *. lia.
    + split; exact (sort_by_sorted id _).
  - exists [1%Q; 1%Q; 1%Q; 1%Q], [30; 20; 10], [1; 2; 3], 3, 2, [0; 0], [],
           [1; 2], [20; 30], 0, 1, 20.
    split; [lia|]. split; [by vm_compute|]. split; [done|]. split; [done|].
    intros (i & Hi & Hvi & Hei).
    destruct i as [|[|[|i]]]; simpl in *; try discriminate; lia.
Qed.

Lemma GetNonUniformSample_draws_neighbor_twice_witness :
  ∃ sp_index,
    length sp_index = 2 ∧ Forall (λ idx, idx < 4) sp_index
    ∧ GetNonUniformSample [1%Q; 1%Q; 1%Q; 1%Q] [30; 20; 10; 40] [1; 2; 3; 0] 3 2 [] []
        [7; 5]
      = Ok (sort_by id (picked [1; 2; 3; 0] sp_index),
            sort_by id (picked [30; 20; 10; 40] sp_index), []).
Proof.
  destruct (proj1 (proj2 (proj2 GetNonUniformSample_draws_neighbor_twice))
              [1%Q; 1%Q; 1%Q; 1%Q] [30; 20; 10; 40] [1; 2; 3; 0] 3 2 [7; 5])
    as (h & h' & sp_index & _ & _ & Hlen & Hin & Hrun & _).
  - lia.
  - simpl. lia.
  - vm_compute. lia.
  - vm_compute. lia.
  - simpl. repeat constructor.
  - exists sp_index. split; [done|]. split; [done|]. exact Hrun.
Defined.


(** ** The weighted samplers *)

(** The tree variant has no check at all: whatever the state of the tree, a
    draw does not end in the fatal condition. *)
Lemma TreeSampler_descend_unchecked (fuel : nat) (weight : list Q) (num_leafs : nat)
    (p accum : Q) (cur : nat) (e : error) :
  TreeSampler.descend fuel weight num_leafs p accum cur = Err e → e = Undefined.
Proof.
  revert p accum cur. induction fuel as [|fuel IH]; intros p accum cur; simpl.
  - case_decide; congruence.
  - case_decide; [|congruence].
    destruct (index weight (cur * 2)) as [w_l|e1] eqn:El; simpl;
      [|intros [= <-]; by apply index_Err in El as [-> _]].
    destruct (index weight (cur * 2 + 1)) as [w_r|e1] eqn:Er; simpl;
      [|intros [= <-]; by apply index_Err in Er as [-> _]].
    destruct (_ && _); apply IH.
Qed.

Lemma store_Err {A} (v : list A) (i : nat) (x : A) (e : error) :
  store v i x = Err e → e = Undefined.
Proof. unfold store. case_decide; congruence. Qed.

Lemma TreeSampler_sum_children_unchecked (weight : list Q) (i : nat) (e : error) :
  TreeSampler.sum_children weight i = Err e → e = Undefined.
Proof.
  unfold TreeSampler.sum_children.
  destruct (index weight (i * 2)) as [l|e1] eqn:El; simpl;
    [|intros [= <-]; by apply index_Err in El as [-> _]].
  destruct (index weight (i * 2 + 1)) as [r|e1] eqn:Er; simpl;
    [|intros [= <-]; by apply index_Err in Er as [-> _]].
  apply store_Err.
Qed.

Lemma TreeSampler_ascend_unchecked (fuel : nat) (weight : list Q) (num_leafs cur : nat)
    (e : error) :
  TreeSampler.ascend fuel weight num_leafs cur = Err e → e = Undefined.
Proof.
  revert weight cur. induction fuel as [|fuel IH]; intros weight cur; simpl.
  - case_decide; congruence.
  - case_decide; [|congruence].
    case_decide.
    + destruct (store weight cur 0%Q) as [w|e1] eqn:Es; simpl; [apply IH|].
      intros [= <-]. by apply store_Err in Es.
    + destruct (TreeSampler.sum_children weight cur) as [w|e1] eqn:Es; simpl; [apply IH|].
      intros [= <-]. by apply TreeSampler_sum_children_unchecked in Es.
Qed.

Lemma TreeSampler_Draw_unchecked (replace : bool) (s : TreeSampler.t) (re : RandomEngine)
    (e : error) :
  TreeSampler.Draw replace s re = Err e → e ≠ CheckFailed.
Proof.
  unfold TreeSampler.Draw.
  destruct (index (TreeSampler.weight s) 1) as [root|e1] eqn:Er; simpl;
    [|intros [= <-]; by apply index_Err in Er as [-> _]].
  destruct re as [|u re]; simpl; [by intros [= <-]|].
  destruct (TreeSampler.descend _ _ _ _ _ _) as [cur|e1] eqn:Ed; simpl;
    [|intros [= <-]; by apply TreeSampler_descend_unchecked in Ed as ->].
  destruct replace; simpl; [done|].
  destruct (TreeSampler.ascend _ _ _ _) as [w|e1] eqn:Ea; simpl; [done|].
  intros [= <-]. by apply TreeSampler_ascend_unchecked in Ea as ->.
Qed.

(** C1. The tree variant, built without replacement over the two positive
    weights 1 and 1, returns index 0 twice when the engine's variates are 0
    and 0, both in [0, 1): the second draw compares [p > pivot] with
    [p = pivot = 0] and walks into the left leaf, whose weight the first
    draw has set to zero.  The same happens when only the second variate is
    0. *)
Theorem TreeSampler_draws_index_twice :
  Forall (λ p, 0 < p)%Q [1%Q; 1%Q]
  ∧ unit_variates [0%Q; 0%Q] ∧ unit_variates [1 # 4; 0%Q]
  ∧ (s ← TreeSampler.make [1%Q; 1%Q];
     '(a, s, re) ← TreeSampler.Draw false s [0%Q; 0%Q];
     '(b, _, _) ← TreeSampler.Draw false s re;
     mret (a, b)) = Ok (0, 0)
  ∧ (s ← TreeSampler.make [1%Q; 1%Q];
     '(a, s, re) ← TreeSampler.Draw false s [1 # 4; 0%Q];
     '(b, _, _) ← TreeSampler.Draw false s re;
     mret (a, b)) = Ok (0, 0).
Proof.
  split; [repeat constructor|].
  split; [repeat constructor; done|].
  split; [repeat constructor; done|].
  split; reflexivity.
Qed.

(** C2. The tree variant, built without replacement over a population of one
    weight, returns index 0 at the first draw and index 0 again at the
    second: it does not fail, whatever the variates are.  No draw of the tree
    variant ever ends in the fatal condition. *)
Theorem TreeSampler_draws_from_exhausted_population :
  (∀ (u1 u2 : Q) (re : RandomEngine),
     ∃ s1 s2,
       TreeSampler.make [1%Q] ≫= (λ s, TreeSampler.Draw false s (u1 :: u2 :: re))
       = Ok (0, s1, u2 :: re)
       ∧ TreeSampler.Draw false s1 (u2 :: re) = Ok (0, s2, re))
  ∧ (∀ (s : TreeSampler.t) (re : RandomEngine),
       TreeSampler.Draw false s re ≠ Err CheckFailed).
Proof.
  split.
  - intros u1 u2 re. eexists _, _. split; reflexivity.
  - intros s re E. by apply TreeSampler_Draw_unchecked in E.
Qed.

(** ** The variants that keep a [used] bitmap *)

Lemma unused_weight_nonneg (prob : list Q) (used : list bool) :
  Forall (λ p, 0 <= p)%Q prob → (0 <= unused_weight prob used)%Q.
Proof.
  intros Hpos. revert used. induction Hpos as [|p prob Hp _ IH]; intros used; simpl.
  - lra.
  - destruct used as [|u used]; [lra|]. specialize (IH used). destruct u; lra.
Qed.

Lemma unused_weight_all_used (prob : list Q) (used : list bool) :
  (∀ i, i < length prob → used !! i = Some true) → (unused_weight prob used == 0)%Q.
Proof.
  revert used. induction prob as [|p prob IH]; intros used Hall; simpl; [reflexivity|].
  destruct used as [|u used]; [reflexivity|].
  pose proof (Hall 0 ltac:(simpl; lia)) as [= ->].
  rewrite IH; [lra|]. intros i Hi. apply (Hall (S i)). simpl. lia.
Qed.

Lemma unused_weight_insert (prob : list Q) (used : list bool) (rst : nat) (cap : Q) :
  used !! rst = Some false → prob !! rst = Some cap →
  (unused_weight prob (<[rst:=true]> used) == unused_weight prob used - cap)%Q.
Proof.
  revert used rst. induction prob as [|p prob IH]; intros used rst Hu Hp; [done|].
  destruct used as [|u used]; [done|]. destruct rst as [|rst]; simpl in *.
  - injection Hu as ->. injection Hp as ->. lra.
  - rewrite (IH used rst Hu Hp). lra.
Qed.

Lemma unused_weight_snoc (prob : list Q) (used : list bool) (i : nat) (p : Q) (u : bool) :
  prob !! i = Some p → used !! i = Some u →
  (unused_weight (take (S i) prob) (take (S i) used)
   == unused_weight (take i prob) (take i used) + (if u then 0 else p))%Q.
Proof.
  revert used i. induction prob as [|p0 prob IH]; intros used i Hp Hu; [done|].
  destruct used as [|u0 used]; [done|]. destruct i as [|i]; simpl in *.
  - injection Hu as ->. injection Hp as ->. destruct prob, used; simpl; lra.
  - rewrite (IH used i Hp Hu). lra.
Qed.

(** A loop whose steps all leave the state as it is. *)
Lemma foldM_idle {A B} (f : A → B → result A) (l : list B) (a : A) :
  (∀ b, b ∈ l → f a b = Ok a) → foldM f l a = Ok a.
Proof.
  induction l as [|b l IH]; intros Hidle; simpl; [done|].
  rewrite (Hidle b) by apply list_elem_of_here. simpl.
  apply IH. intros b' Hb'. apply Hidle. by apply list_elem_of_further.
Qed.

(** All of [0, n) has been drawn once [n] distinct indices below [n] have. *)
Lemma all_drawn (xs : list nat) (n : nat) :
  NoDup xs → Forall (λ x, x < n) xs → length xs = n → ∀ i, i < n → i ∈ xs.
Proof.
  intros Hnd Hlt Hlen i Hi.
  assert (xs ⊆+ seq 0 n) as Hsub.
  { apply NoDup_submseteq; [done|]. intros x Hx. apply elem_of_seq.
    apply (Forall_forall (λ x, x < n)) with (x := x) in Hlt; [lia|done]. }
  apply submseteq_length_Permutation in Hsub; [|by rewrite length_seq, Hlen].
  rewrite Hsub. apply elem_of_seq. lia.
Qed.

Lemma bitmap_inv_rebuilt (prob : list Q) (used : list bool) (accum : Q) :
  length used = length prob → (accum == unused_weight prob used)%Q →
  bitmap_inv prob used accum 0.
Proof.
  intros Hlen Hacc. split; [done|].
  exists used. split; [done|]. split; [done|]. split; [done|]. lra.
Qed.

Lemma bitmap_inv_drawn (prob : list Q) (used : list bool) (accum taken : Q)
    (rst : nat) (cap : Q) :
  bitmap_inv prob used accum taken →
  used !! rst = Some false → prob !! rst = Some cap →
  bitmap_inv prob (<[rst:=true]> used) accum (taken + cap).
Proof.
  intros (Hlen & base & Hbl & Hsub & Hacc & Htk) Hu Hp.
  split; [by rewrite length_insert|].
  exists base. split; [done|]. split; [|split; [done|]].
  - intros i Hi. destruct (decide (i = rst)) as [->|Hne].
    + apply list_lookup_insert_eq. by eapply lookup_lt_Some.
    + rewrite list_lookup_insert_ne by done. by apply Hsub.
  - rewrite (unused_weight_insert _ _ _ _ Hu Hp). lra.
Qed.

Lemma bitmap_inv_exhausted (prob : list Q) (used : list bool) (accum taken : Q) :
  Forall (λ p, 0 <= p)%Q prob →
  bitmap_inv prob used accum taken →
  (∀ i, i < length prob → used !! i = Some true) →
  Qge_bool (2 * taken) accum = true.
Proof.
  intros Hpos (Hlen & base & Hbl & Hsub & Hacc & Htk) Hall.
  apply Qle_bool_iff.
  pose proof (unused_weight_all_used prob used Hall).
  pose proof (unused_weight_nonneg prob base Hpos). lra.
Qed.

(** *** The CDF variant *)

Lemma CDFSampler_count_accum (prob : list Q) (used : list bool) (n : nat)
    (st0 st : nat * Q * list nat * list Q) :
  n ≤ length prob →
  foldM (CDFSampler.count_unused false prob used) (seq 0 n) st0 = Ok st →
  (st0.1.1.2 == 0)%Q →
  (st.1.1.2 == unused_weight (take n prob) (take n used))%Q.
Proof.
  intros Hn Hrun H0.
  cut (st.1.1.2 == unused_weight (take (0 + n) prob) (take (0 + n) used))%Q; [done|].
  revert Hrun.
  apply (foldM_seq_invariant _ (λ i st,
    (st.1.1.2 == unused_weight (take i prob) (take i used))%Q)); [|done].
  intros i [[[N accum] idm] cdf] [[[N' accum'] idm'] cdf'] Hi Hacc Hstep. simpl in *.
  destruct (lookup_lt_is_Some_2 prob i) as [p Hp]; [lia|].
  unfold CDFSampler.count_unused in Hstep.
  destruct (index used i) as [u|] eqn:Hu; [|done]. simpl in Hstep.
  apply index_Ok in Hu. rewrite (unused_weight_snoc _ _ _ _ _ Hp Hu).
  destruct u; simpl in Hstep.
  - injection Hstep as _ <- _ _. lra.
  - rewrite (proj2 (index_Ok _ _ _) Hp) in Hstep. simpl in Hstep.
    injection Hstep as _ <- _ _. lra.
Qed.

Lemma CDFSampler_Reconstruct_Ok (s s' : CDFSampler.t) :
  length (CDFSampler.used s) = length (CDFSampler._prob s) →
  CDFSampler.Reconstruct false s (CDFSampler._prob s) = Ok s' →
  CDFSampler._prob s' = CDFSampler._prob s
  ∧ CDFSampler.used s' = CDFSampler.used s
  ∧ bitmap_inv (CDFSampler._prob s) (CDFSampler.used s')
      (CDFSampler.accum s') (CDFSampler.taken s').
Proof.
  intros Hlen Hrun. unfold CDFSampler.Reconstruct in Hrun.
  inv_ok Hrun. destruct x as [[[N accum] idm] cdf]. inv_ok Hrun. subst s'. simpl.
  split; [done|]. split; [done|]. apply bitmap_inv_rebuilt; [done|].
  apply CDFSampler_count_accum in Hx; [|done|done]. simpl in Hx.
  rewrite Hx. rewrite <- Hlen at 2. by rewrite !firstn_all.
Qed.

Lemma CDFSampler_Reconstruct_exhausted (s : CDFSampler.t) :
  (∀ i, i < length (CDFSampler._prob s) → CDFSampler.used s !! i = Some true) →
  CDFSampler.Reconstruct false s (CDFSampler._prob s) = Err CheckFailed.
Proof.
  intros Hall. unfold CDFSampler.Reconstruct.
  rewrite foldM_idle; [done|].
  intros i Hi%elem_of_seq. unfold CDFSampler.count_unused.
  by rewrite (proj2 (index_Ok _ _ _) (Hall i ltac:(lia))).
Qed.

Lemma CDFSampler_Draw_retry_Ok (fuel : nat) (s s' : CDFSampler.t) (re re' : RandomEngine)
    (rst : nat) :
  CDFSampler.Draw_retry false fuel s re = Ok (rst, s', re') →
  CDFSampler.used s !! rst = Some false
  ∧ ∃ cap, CDFSampler._prob s !! rst = Some cap
      ∧ CDFSampler._prob s' = CDFSampler._prob s
      ∧ CDFSampler.used s' = <[rst:=true]> (CDFSampler.used s)
      ∧ CDFSampler.accum s' = CDFSampler.accum s
      ∧ CDFSampler.taken s' = (CDFSampler.taken s + cap)%Q.
Proof.
  revert re. induction fuel as [|fuel IH]; intros re Hrun; [done|].
  simpl in Hrun. inv_ok Hrun. destruct x as [r re1]. inv_ok Hrun. simpl_res.
  destruct x0; [by apply IH in Hrun|].
  injection Hrun as -> <- <-. simpl. eauto 10.
Qed.

Lemma CDFSampler_Draw_Ok (prob : list Q) (s s' : CDFSampler.t) (re re' : RandomEngine)
    (rst : nat) :
  CDFSampler._prob s = prob →
  bitmap_inv prob (CDFSampler.used s) (CDFSampler.accum s) (CDFSampler.taken s) →
  CDFSampler.Draw false s re = Ok (rst, s', re') →
  CDFSampler._prob s' = prob
  ∧ bitmap_inv prob (CDFSampler.used s') (CDFSampler.accum s') (CDFSampler.taken s')
  ∧ CDFSampler.used s !! rst = Some false
  ∧ CDFSampler.used s' = <[rst:=true]> (CDFSampler.used s).
Proof.
  intros Hprob Hinv Hrun. unfold CDFSampler.Draw in Hrun. inv_ok Hrun.
  assert (CDFSampler._prob x = prob ∧ CDFSampler.used x = CDFSampler.used s
          ∧ bitmap_inv prob (CDFSampler.used x) (CDFSampler.accum x) (CDFSampler.taken x))
    as (Hprob1 & Hused1 & Hinv1).
  { destruct (Qge_bool _ _).
    - apply CDFSampler_Reconstruct_Ok in Hx as (? & ? & ?); [|rewrite Hprob; apply Hinv].
      rewrite Hprob in *. done.
    - by injection Hx as <-. }
  apply CDFSampler_Draw_retry_Ok in Hrun as (Hu & cap & Hcap & Hp' & Hu' & Ha' & Ht').
  rewrite Hprob1 in Hcap, Hp'. rewrite Hused1 in Hu, Hu'.
  split; [done|]. split; [|done].
  rewrite Hu', Ha', Ht'. rewrite <- Hused1. apply bitmap_inv_drawn; [done| |done].
  by rewrite Hused1.
Qed.

(** *** Draws in a row *)

Section bitmap_draws.
Context {S : Type}.
Variable Draw : S → RandomEngine → result (nat * S * RandomEngine).
Variable inv : S → Prop.
Variable used : S → list bool.

Hypothesis Draw_Ok : ∀ s s' re re' rst,
  inv s → Draw s re = Ok (rst, s', re') →
  inv s' ∧ used s !! rst = Some false ∧ used s' = <[rst:=true]> (used s).

Lemma draw_many_Ok (k : nat) (s s' : S) (re re' : RandomEngine) (xs : list nat) :
  inv s → draw_many Draw k s re = Ok (xs, s', re') →
  inv s' ∧ length xs = k ∧ NoDup xs
  ∧ Forall (λ x, used s !! x = Some false) xs
  ∧ length (used s') = length (used s)
  ∧ (∀ i, used s !! i = Some true → used s' !! i = Some true)
  ∧ (∀ i, i ∈ xs → used s' !! i = Some true).
Proof.
  revert s re xs. induction k as [|k IH]; intros s re xs Hinv Hrun; simpl in Hrun.
  - injection Hrun as <- <- <-.
    split; [done|]. split; [done|]. split; [apply NoDup_nil_2|]. split; [done|].
    split; [done|]. split; [done|]. intros i Hi. by apply elem_of_nil in Hi.
  - inv_ok Hrun. destruct x as [[x s1] re1]. inv_ok Hrun.
    destruct x0 as [[xs' s2] re2]. injection Hrun as <- <- <-.
    apply Draw_Ok in Hx as (Hinv1 & Hfresh & Hused1); [|done].
    apply IH in Hx0 as (Hinv2 & Hlen & Hnd & Hun & Hl & Hmono & Hdrawn); [|done].
    pose proof (lookup_lt_Some _ _ _ Hfresh) as Hxlt.
    assert (used s1 !! x = Some true) as Hx1
      by (rewrite Hused1; by apply list_lookup_insert_eq).
    split; [done|]. split; [simpl; lia|]. split; [|split; [|split; [|split]]].
    + apply NoDup_cons. split; [|done]. intros Hin.
      apply (Forall_forall (λ y, used s1 !! y = Some false)) with (x := x) in Hun; [|done].
      congruence.
    + apply Forall_cons. split; [done|].
      apply Forall_forall. intros y Hy.
      apply (Forall_forall (λ y, used s1 !! y = Some false)) with (x := y) in Hun; [|done].
      rewrite Hused1 in Hun. destruct (decide (y = x)) as [->|Hne].
      * rewrite list_lookup_insert_eq in Hun by done. done.
      * by rewrite list_lookup_insert_ne in Hun.
    + rewrite Hl, Hused1. apply length_insert.
    + intros i Hi. apply Hmono. rewrite Hused1.
      destruct (decide (i = x)) as [->|Hne]; [by apply list_lookup_insert_eq|].
      by rewrite list_lookup_insert_ne.
    + intros i [->|Hi]%elem_of_cons; [by apply Hmono|by apply Hdrawn].
Qed.

(** Every index is marked once as many indices as there are have been
    drawn. *)
Lemma draw_many_exhausts (s s' : S) (re re' : RandomEngine) (xs : list nat) :
  inv s → draw_many Draw (length (used s)) s re = Ok (xs, s', re') →
  ∀ i, i < length (used s) → used s' !! i = Some true.
Proof.
  intros Hinv Hrun i Hi.
  apply draw_many_Ok in Hrun as (_ & Hlen & Hnd & Hun & _ & _ & Hdrawn); [|done].
  apply Hdrawn. apply (all_drawn xs (length (used s))); [done| |done|done].
  eapply Forall_impl; [exact Hun|]. intros x Hx. simpl in Hx. by eapply lookup_lt_Some.
Qed.
End bitmap_draws.

(** The CDF variant keeps its promise: the indices it returns without
    replacement are pairwise distinct positions of the weights, and once
    every index has been returned a further draw ends in the fatal
    condition. *)
Lemma CDFSampler_without_replacement (prob : list Q) (s0 s : CDFSampler.t) (k : nat)
    (re re' : RandomEngine) (xs : list nat) :
  Forall (λ p, 0 <= p)%Q prob →
  CDFSampler.make false prob = Ok s0 →
  draw_many (CDFSampler.Draw false) k s0 re = Ok (xs, s, re') →
  length xs = k ∧ NoDup xs ∧ Forall (λ x, x < length prob) xs
  ∧ (k = length prob → ∀ re'', CDFSampler.Draw false s re'' = Err CheckFailed).
Proof.
  intros Hpos Hmake Hrun.
  set (inv := λ s, CDFSampler._prob s = prob
                   ∧ bitmap_inv prob (CDFSampler.used s) (CDFSampler.accum s)
                       (CDFSampler.taken s)).
  assert (inv s0 ∧ CDFSampler.used s0 = replicate (length prob) false) as [Hinv0 Hused0].
  { unfold CDFSampler.make, CDFSampler.ResetState in Hmake. simpl in Hmake.
    destruct (CDFSampler_Reconstruct_Ok
                {| CDFSampler.N := 0; CDFSampler.accum := 0; CDFSampler.taken := 0;
                   CDFSampler._prob := prob; CDFSampler.cdf := [];
                   CDFSampler.used := replicate (length prob) false;
                   CDFSampler.id_mapping := [] |} s0) as (Hp & Hu & Hb);
      [simpl; by rewrite length_replicate | exact Hmake |].
    simpl in *. split; [split; [exact Hp|exact Hb]|exact Hu]. }
  assert (∀ s s' re re' rst, inv s → CDFSampler.Draw false s re = Ok (rst, s', re') →
            inv s' ∧ CDFSampler.used s !! rst = Some false
            ∧ CDFSampler.used s' = <[rst:=true]> (CDFSampler.used s)) as HDraw.
  { intros s1 s2 re1 re2 rst [Hp Hb] Hd.
    by apply (CDFSampler_Draw_Ok prob) in Hd as (? & ? & ? & ?). }
  pose proof (draw_many_Ok _ inv CDFSampler.used HDraw k s0 s re re' xs Hinv0 Hrun)
    as (Hinv & Hlen & Hnd & Hun & Hl & _ & Hdrawn).
  split; [done|]. split; [done|]. split.
  - eapply Forall_impl; [exact Hun|]. intros x Hx. simpl in Hx.
    apply lookup_lt_Some in Hx. by rewrite Hused0, length_replicate in Hx.
  - intros -> re''.
    assert (∀ i, i < length prob → CDFSampler.used s !! i = Some true) as Hall.
    { intros i Hi.
      apply (draw_many_exhausts _ inv CDFSampler.used HDraw s0 s re re' xs Hinv0).
      - by rewrite Hused0, length_replicate.
      - by rewrite Hused0, length_replicate. }
    destruct Hinv as [Hp Hb]. unfold CDFSampler.Draw.
    rewrite (bitmap_inv_exhausted prob _ _ _ Hpos Hb Hall).
    rewrite CDFSampler_Reconstruct_exhausted; [done|]. by rewrite Hp.
Qed.

(** *** The alias variant *)

Lemma AliasSampler_count_accum (prob : list Q) (used : list bool) (n : nat)
    (st0 st : nat * Q * list nat) :
  n ≤ length prob →
  foldM (AliasSampler.count_unused false prob used) (seq 0 n) st0 = Ok st →
  (st0.1.2 == 0)%Q →
  (st.1.2 == unused_weight (take n prob) (take n used))%Q.
Proof.
  intros Hn Hrun H0.
  cut (st.1.2 == unused_weight (take (0 + n) prob) (take (0 + n) used))%Q; [done|].
  revert Hrun.
  apply (foldM_seq_invariant _ (λ i st,
    (st.1.2 == unused_weight (take i prob) (take i used))%Q)); [|done].
  intros i [[N accum] idm] [[N' accum'] idm'] Hi Hacc Hstep. simpl in *.
  destruct (lookup_lt_is_Some_2 prob i) as [p Hp]; [lia|].
  unfold AliasSampler.count_unused in Hstep.
  destruct (index used i) as [u|] eqn:Hu; [|done]. simpl in Hstep.
  apply index_Ok in Hu. rewrite (unused_weight_snoc _ _ _ _ _ Hp Hu).
  destruct u; simpl in Hstep.
  - injection Hstep as _ <- _. lra.
  - rewrite (proj2 (index_Ok _ _ _) Hp) in Hstep. simpl in Hstep.
    injection Hstep as _ <- _. lra.
Qed.

Lemma AliasSampler_Reconstruct_Ok (s s' : AliasSampler.t) :
  length (AliasSampler.used s) = length (AliasSampler._prob s) →
  AliasSampler.Reconstruct false s (AliasSampler._prob s) = Ok s' →
  AliasSampler._prob s' = AliasSampler._prob s
  ∧ AliasSampler.used s' = AliasSampler.used s
  ∧ bitmap_inv (AliasSampler._prob s) (AliasSampler.used s')
      (AliasSampler.accum s') (AliasSampler.taken s').
Proof.
  intros Hlen Hrun. unfold AliasSampler.Reconstruct in Hrun.
  apply bind_Ok in Hrun as ([[N accum] idm] & Hcount & Hrun).
  do 3 (inv_ok Hrun; destruct_pairs; simpl in Hrun). subst s'. simpl.
  split; [done|]. split; [done|]. apply bitmap_inv_rebuilt; [done|].
  apply AliasSampler_count_accum in Hcount; [|done|done]. simpl in Hcount.
  rewrite Hcount. rewrite <- Hlen at 2. by rewrite !firstn_all.
Qed.

Lemma AliasSampler_Reconstruct_exhausted (s : AliasSampler.t) :
  (∀ i, i < length (AliasSampler._prob s) → AliasSampler.used s !! i = Some true) →
  AliasSampler.Reconstruct false s (AliasSampler._prob s) = Err CheckFailed.
Proof.
  intros Hall. unfold AliasSampler.Reconstruct.
  rewrite foldM_idle; [done|].
  intros i Hi%elem_of_seq. unfold AliasSampler.count_unused.
  by rewrite (proj2 (index_Ok _ _ _) (Hall i ltac:(lia))).
Qed.

Lemma AliasSampler_Draw_retry_Ok (fuel : nat) (s s' : AliasSampler.t) (avg : Q)
    (re re' : RandomEngine) (rst : nat) :
  AliasSampler.Draw_retry false fuel s avg re = Ok (rst, s', re') →
  AliasSampler.used s !! rst = Some false
  ∧ ∃ cap, AliasSampler._prob s !! rst = Some cap
      ∧ AliasSampler._prob s' = AliasSampler._prob s
      ∧ AliasSampler.used s' = <[rst:=true]> (AliasSampler.used s)
      ∧ AliasSampler.accum s' = AliasSampler.accum s
      ∧ AliasSampler.taken s' = (AliasSampler.taken s + cap)%Q.
Proof.
  revert re. induction fuel as [|fuel IH]; intros re Hrun; [done|].
  simpl in Hrun. inv_ok Hrun. destruct x as [r re1]. inv_ok Hrun. simpl_res.
  destruct x0; [by apply IH in Hrun|].
  injection Hrun as -> <- <-. simpl. eauto 10.
Qed.

Lemma AliasSampler_Draw_Ok (prob : list Q) (s s' : AliasSampler.t) (re re' : RandomEngine)
    (rst : nat) :
  AliasSampler._prob s = prob →
  bitmap_inv prob (AliasSampler.used s) (AliasSampler.accum s) (AliasSampler.taken s) →
  AliasSampler.Draw false s re = Ok (rst, s', re') →
  AliasSampler._prob s' = prob
  ∧ bitmap_inv prob (AliasSampler.used s') (AliasSampler.accum s') (AliasSampler.taken s')
  ∧ AliasSampler.used s !! rst = Some false
  ∧ AliasSampler.used s' = <[rst:=true]> (AliasSampler.used s).
Proof.
  intros Hprob Hinv Hrun. unfold AliasSampler.Draw in Hrun. inv_ok Hrun.
  assert (AliasSampler._prob x = prob ∧ AliasSampler.used x = AliasSampler.used s
          ∧ bitmap_inv prob (AliasSampler.used x) (AliasSampler.accum x)
              (AliasSampler.taken x))
    as (Hprob1 & Hused1 & Hinv1).
  { destruct (Qge_bool _ _).
    - apply AliasSampler_Reconstruct_Ok in Hx as (? & ? & ?); [|rewrite Hprob; apply Hinv].
      rewrite Hprob in *. done.
    - by injection Hx as <-. }
  apply AliasSampler_Draw_retry_Ok in Hrun as (Hu & cap & Hcap & Hp' & Hu' & Ha' & Ht').
  rewrite Hprob1 in Hcap, Hp'. rewrite Hused1 in Hu, Hu'.
  split; [done|]. split; [|done].
  rewrite Hu', Ha', Ht'. rewrite <- Hused1. apply bitmap_inv_drawn; [done| |done].
  by rewrite Hused1.
Qed.

(** Whenever the alias variant returns, it keeps its promise as well: the
    indices are pairwise distinct positions of the weights, and once every
    index has been returned a further draw ends in the fatal condition. *)
Lemma AliasSampler_without_replacement (prob : list Q) (s0 s : AliasSampler.t) (k : nat)
    (re re' : RandomEngine) (xs : list nat) :
  Forall (λ p, 0 <= p)%Q prob →
  AliasSampler.make false prob = Ok s0 →
  draw_many (AliasSampler.Draw false) k s0 re = Ok (xs, s, re') →
  length xs = k ∧ NoDup xs ∧ Forall (λ x, x < length prob) xs
  ∧ (k = length prob → ∀ re'', AliasSampler.Draw false s re'' = Err CheckFailed).
Proof.
  intros Hpos Hmake Hrun.
  set (inv := λ s, AliasSampler._prob s = prob
                   ∧ bitmap_inv prob (AliasSampler.used s) (AliasSampler.accum s)
                       (AliasSampler.taken s)).
  assert (inv s0 ∧ AliasSampler.used s0 = replicate (length prob) false) as [Hinv0 Hused0].
  { unfold AliasSampler.make, AliasSampler.ResetState in Hmake. simpl in Hmake.
    destruct (AliasSampler_Reconstruct_Ok
                {| AliasSampler.N := 0; AliasSampler.accum := 0; AliasSampler.taken := 0;
                   AliasSampler.K := []; AliasSampler.U := [];
                   AliasSampler._prob := prob;
                   AliasSampler.used := replicate (length prob) false;
                   AliasSampler.id_mapping := [] |} s0) as (Hp & Hu & Hb);
      [simpl; by rewrite length_replicate | exact Hmake |].
    simpl in *. split; [split; [exact Hp|exact Hb]|exact Hu]. }
  assert (∀ s s' re re' rst, inv s → AliasSampler.Draw false s re = Ok (rst, s', re') →
            inv s' ∧ AliasSampler.used s !! rst = Some false
            ∧ AliasSampler.used s' = <[rst:=true]> (AliasSampler.used s)) as HDraw.
  { intros s1 s2 re1 re2 rst [Hp Hb] Hd.
    by apply (AliasSampler_Draw_Ok prob) in Hd as (? & ? & ? & ?). }
  pose proof (draw_many_Ok _ inv AliasSampler.used HDraw k s0 s re re' xs Hinv0 Hrun)
    as (Hinv & Hlen & Hnd & Hun & Hl & _ & Hdrawn).
  split; [done|]. split; [done|]. split.
  - eapply Forall_impl; [exact Hun|]. intros x Hx. simpl in Hx.
    apply lookup_lt_Some in Hx. by rewrite Hused0, length_replicate in Hx.
  - intros -> re''.
    assert (∀ i, i < length prob → AliasSampler.used s !! i = Some true) as Hall.
    { intros i Hi.
      apply (draw_many_exhausts _ inv AliasSampler.used HDraw s0 s re re' xs Hinv0).
      - by rewrite Hused0, length_replicate.
      - by rewrite Hused0, length_replicate. }
    destruct Hinv as [Hp Hb]. unfold AliasSampler.Draw.
    rewrite (bitmap_inv_exhausted prob _ _ _ Hpos Hb Hall).
    rewrite AliasSampler_Reconstruct_exhausted; [done|]. by rewrite Hp.
Qed.

(** After [Reconstruct] the table [U] has one entry for each unused index,
    and [Draw] reads it at [Map(i)], the index itself: over the weights 1 and
    1, once index 0 is drawn, the next draw reads [U[1]] of a table of one
    entry. *)
Lemma AliasSampler_reads_outside_table :
  ∃ s1, (AliasSampler.make false [1%Q; 1%Q] ≫= λ s, AliasSampler.Draw false s [1 # 4; 1 # 2])
        = Ok (0, s1, [1 # 2])
        ∧ (AliasSampler.Reconstruct false s1 (AliasSampler._prob s1)
             ≫= λ s, mret (AliasSampler.id_mapping s, AliasSampler.U s))
          = Ok ([1], [1%Q])
        ∧ AliasSampler.Draw false s1 [1 # 2] = Err Undefined.
Proof. eexists. split; [reflexivity|]. split; reflexivity. Qed.

(** Both variants with a bitmap refuse to draw from a population of one
    weight a second time. *)
Lemma AliasSampler_refuses_exhausted :
  ∃ s1, (AliasSampler.make false [1%Q] ≫= λ s, AliasSampler.Draw false s [1 # 2; 1 # 2])
        = Ok (0, s1, [1 # 2])
        ∧ AliasSampler.Draw false s1 [1 # 2] = Err CheckFailed.
Proof. eexists. split; reflexivity. Qed.

Lemma CDFSampler_refuses_exhausted :
  ∃ s1, (CDFSampler.make false [1%Q] ≫= λ s, CDFSampler.Draw false s [1 # 2; 1 # 2])
        = Ok (0, s1, [1 # 2])
        ∧ CDFSampler.Draw false s1 [1 # 2] = Err CheckFailed.
Proof. eexists. split; reflexivity. Qed.

(** ** More on [ArrayHeap] *)

(** The constructor returns for every non-empty list of weights.  The tree
    has [2 ^ ceil(log2 n)] leaves, the least power of two that holds the [n]
    weights; its cells are twice as many; the leaves hold the weights in
    order, the leaves after them hold zero, and so does cell 0, which is no
    node of the tree.  Over weights that are not negative no inner node is
    negative or less than one of its children, and an inner node is empty
    exactly when both its children are. *)
Theorem ArrayHeap_make_layout (prob : list Q) :
  prob ≠ [] →
  ∃ h, ArrayHeap.make prob = Ok h
    ∧ ArrayHeap.vec_size_ h = length prob
    ∧ ArrayHeap.bit_len_ h = Nat.log2_up (length prob)
    ∧ ArrayHeap.limit_ h = 2 ^ ArrayHeap.bit_len_ h
    ∧ length prob ≤ ArrayHeap.limit_ h < 2 * length prob
    ∧ length (ArrayHeap.heap_ h) = 2 * ArrayHeap.limit_ h
    ∧ ArrayHeap.heap_ h !! 0 = Some 0%Q
    ∧ (∀ i p, prob !! i = Some p →
         ArrayHeap.heap_ h !! (ArrayHeap.limit_ h + i) = Some p)
    ∧ (∀ i, length prob ≤ i < ArrayHeap.limit_ h →
         ArrayHeap.heap_ h !! (ArrayHeap.limit_ h + i) = Some 0%Q)
    ∧ (Forall (λ p, 0 <= p)%Q prob →
       ∀ j, 1 ≤ j < ArrayHeap.limit_ h →
         (0 <= node_weight (ArrayHeap.heap_ h) j)%Q
         ∧ (node_weight (ArrayHeap.heap_ h) (2 * j) <= node_weight (ArrayHeap.heap_ h) j)%Q
         ∧ (node_weight (ArrayHeap.heap_ h) (2 * j + 1)
            <= node_weight (ArrayHeap.heap_ h) j)%Q
         ∧ ((node_weight (ArrayHeap.heap_ h) j == 0)%Q
            ↔ (node_weight (ArrayHeap.heap_ h) (2 * j) == 0)%Q
              ∧ (node_weight (ArrayHeap.heap_ h) (2 * j + 1) == 0)%Q)).
Proof.
  intros Hne.
  destruct (make_layout prob Hne) as (heap & Hmake & Hfit & Hlen & Hzero & Hleaves).
  eexists. split; [exact Hmake|]. simpl.
  set (n := length prob) in *. set (limit := 2 ^ Nat.log2_up n) in *.
  assert (1 ≤ n) as Hn by (unfold n; destruct prob; [done|simpl; lia]).
  split; [done|]. split; [done|]. split; [done|]. split; [|split; [done|]].
  { split; [done|]. destruct (decide (n = 1)) as [E|E].
    - unfold limit. rewrite E. simpl. lia.
    - assert (1 < n) as Hn1 by lia.
      pose proof (Nat.log2_up_spec n Hn1) as [Hlow Hhigh].
      assert (Nat.log2_up n ≠ 0) as Hb.
      { intros E0. rewrite E0 in Hhigh. simpl in Hhigh. lia. }
      unfold limit. replace (Nat.log2_up n) with (S (pred (Nat.log2_up n))) by lia.
      rewrite Nat.pow_succ_r'. lia. }
  assert (∀ c, c < 2 * limit → heap !! c = Some (node_weight heap c)) as Hcell.
  { intros c Hc. destruct (lookup_lt_is_Some_2 heap c) as [x Hx]; [lia|].
    unfold node_weight. by rewrite (nth_lookup_Some _ _ _ _ Hx). }
  split; [|split; [|split]].
  - rewrite Hcell, Hzero; [done|]. pose proof (Nat.pow_nonzero 2 (Nat.log2_up n)).
    fold limit in H. lia.
  - intros i p Hp. pose proof (lookup_lt_Some _ _ _ Hp) as Hi. fold n in Hi.
    rewrite Hcell by lia. rewrite (Nat.add_comm limit i), Hleaves.
    by rewrite (nth_lookup_Some _ _ _ _ Hp).
  - intros i Hi. rewrite Hcell by lia. rewrite (Nat.add_comm limit i), Hleaves.
    by rewrite nth_overflow by (fold n; lia).
  - intros Hpos j Hj. change (j + (j + 0)) with (2 * j).
    destruct (make_Ok prob Hne Hpos) as (h' & Hmake' & _ & _ & Htree & _).
    rewrite Hmake in Hmake'. injection Hmake' as <-.
    change (sum_tree limit heap) in Htree.
    pose proof (sum_tree_sum _ _ Htree j Hj) as Hsum.
    assert (0 <= node_weight heap (2 * j))%Q as Hl
      by (apply (sum_tree_nonneg _ _ Htree); lia).
    assert (0 <= node_weight heap (2 * j + 1))%Q as Hr
      by (apply (sum_tree_nonneg _ _ Htree); lia).
    split; [lra|]. split; [lra|]. split; [lra|]. split.
    + intros Hz. split; lra.
    + intros [Hzl Hzr]. lra.
Qed.

Lemma ArrayHeap_make_layout_witness :
  ∃ h, ArrayHeap.make [1%Q; 2%Q; 3%Q] = Ok h
    ∧ ArrayHeap.limit_ h = 4 ∧ length (ArrayHeap.heap_ h) = 8
    ∧ ArrayHeap.heap_ h !! 5 = Some 2%Q ∧ ArrayHeap.heap_ h !! 7 = Some 0%Q
    ∧ (node_weight (ArrayHeap.heap_ h) 2 <= node_weight (ArrayHeap.heap_ h) 1)%Q.
Proof.
  destruct (ArrayHeap_make_layout [1%Q; 2%Q; 3%Q])
    as (h & Hmake & _ & Hbits & Hlimit & _ & Hlen & _ & Hleaves & Hpad & Hinner); [done|].
  rewrite Hbits in Hlimit. change (ArrayHeap.limit_ h = 4) in Hlimit.
  rewrite Hlimit in Hlen, Hleaves, Hpad, Hinner.
  exists h. split; [done|]. split; [done|]. split; [done|]. split; [|split].
  - by apply (Hleaves 1).
  - apply (Hpad 3). simpl. lia.
  - assert (Forall (λ p, 0 <= p)%Q [1%Q; 2%Q; 3%Q]) as Hpos by (repeat constructor; done).
    destruct (Hinner Hpos 1) as (_ & Hle & _); [lia|exact Hle].
Defined.

(** [Delete] returns for every position of a leaf.  It changes the nodes on
    the path from that leaf to the root and no other cell: every other leaf
    keeps its weight.  The leaf itself is left with its weight less itself,
    which is zero. *)
Theorem ArrayHeap_Delete_empties_leaf (h : ArrayHeap.t) (idx : nat) :
  ArrayHeap.limit_ h = 2 ^ ArrayHeap.bit_len_ h →
  length (ArrayHeap.heap_ h) = 2 * ArrayHeap.limit_ h → idx < ArrayHeap.limit_ h →
  ∃ heap',
    ArrayHeap.Delete h idx = Ok (ArrayHeap.with_heap h heap')
    ∧ length heap' = length (ArrayHeap.heap_ h)
    ∧ (node_weight heap' (idx + ArrayHeap.limit_ h) == 0)%Q
    ∧ (∀ i, i < ArrayHeap.limit_ h → i ≠ idx →
         heap' !! (i + ArrayHeap.limit_ h) = ArrayHeap.heap_ h !! (i + ArrayHeap.limit_ h))
    ∧ (∀ j, (∀ s, s ≤ ArrayHeap.bit_len_ h → j ≠ ancestor (idx + ArrayHeap.limit_ h) s) →
         heap' !! j = ArrayHeap.heap_ h !! j).
Proof.
  intros Hlimit Hlen Hidx.
  destruct (Delete_frame h idx Hlimit Hlen Hidx) as (heap' & Hdel & Hl & Hleaf & Hoff & _).
  exists heap'. split; [done|]. split; [lia|]. split; [done|].
  assert (∀ j, (∀ s, s ≤ ArrayHeap.bit_len_ h → j ≠ ancestor (idx + ArrayHeap.limit_ h) s) →
               heap' !! j = ArrayHeap.heap_ h !! j) as Hcells.
  { intros j Hj. destruct (decide (j < 2 * ArrayHeap.limit_ h)) as [Hin|Hout].
    - destruct (lookup_lt_is_Some_2 heap' j) as [x Hx]; [lia|].
      destruct (lookup_lt_is_Some_2 (ArrayHeap.heap_ h) j) as [y Hy]; [lia|].
      specialize (Hoff j Hj). unfold node_weight in Hoff.
      rewrite (nth_lookup_Some _ _ _ _ Hx), (nth_lookup_Some _ _ _ _ Hy) in Hoff.
      by rewrite Hx, Hy, Hoff.
    - rewrite !lookup_ge_None_2 by lia. done. }
  split; [|done].
  intros i Hi Hne. apply Hcells.
  apply (leaf_off_path (ArrayHeap.bit_len_ h)); rewrite <- ?Hlimit; lia.
Qed.

Lemma ArrayHeap_Delete_empties_leaf_witness :
  ∃ heap',
    ArrayHeap.Delete example_heap 1 = Ok (ArrayHeap.with_heap example_heap heap')
    ∧ (node_weight heap' 5 == 0)%Q ∧ heap' !! 4 = Some 1%Q ∧ heap' !! 6 = Some 3%Q.
Proof.
  destruct (ArrayHeap_Delete_empties_leaf example_heap 1)
    as (heap' & Hdel & _ & Hleaf & Hothers & _).
  - reflexivity.
  - reflexivity.
  - simpl. lia.
  - exists heap'. split; [done|]. split; [done|]. split.
    + apply (Hothers 0); simpl; lia.
    + apply (Hothers 2); simpl; lia.
Defined.

(** [Add] returns for every position of a leaf.  It changes the nodes on
    the path from that leaf to the root and no other cell: every other leaf
    keeps its weight.  A leaf that was empty holds the weight added. *)
Theorem ArrayHeap_Add_fills_leaf (h : ArrayHeap.t) (idx : nat) (w : Q) :
  ArrayHeap.limit_ h = 2 ^ ArrayHeap.bit_len_ h →
  length (ArrayHeap.heap_ h) = 2 * ArrayHeap.limit_ h → idx < ArrayHeap.limit_ h →
  ∃ heap',
    ArrayHeap.Add h idx w = Ok (ArrayHeap.with_heap h heap')
    ∧ length heap' = length (ArrayHeap.heap_ h)
    ∧ ((node_weight (ArrayHeap.heap_ h) (idx + ArrayHeap.limit_ h) == 0)%Q →
       (node_weight heap' (idx + ArrayHeap.limit_ h) == w)%Q)
    ∧ (∀ i, i < ArrayHeap.limit_ h → i ≠ idx →
         heap' !! (i + ArrayHeap.limit_ h) = ArrayHeap.heap_ h !! (i + ArrayHeap.limit_ h))
    ∧ (∀ j, (∀ s, s ≤ ArrayHeap.bit_len_ h → j ≠ ancestor (idx + ArrayHeap.limit_ h) s) →
         heap' !! j = ArrayHeap.heap_ h !! j).
Proof.
  intros Hlimit Hlen Hidx.
  destruct (Add_frame h idx w Hlimit Hlen Hidx) as (heap' & Hadd & Hl & Hleaf & Hoff & _).
  exists heap'. split; [done|]. split; [lia|]. split.
  { intros Hempty. rewrite Hleaf, Hempty. lra. }
  assert (∀ j, (∀ s, s ≤ ArrayHeap.bit_len_ h → j ≠ ancestor (idx + ArrayHeap.limit_ h) s) →
               heap' !! j = ArrayHeap.heap_ h !! j) as Hcells.
  { intros j Hj. destruct (decide (j < 2 * ArrayHeap.limit_ h)) as [Hin|Hout].
    - destruct (lookup_lt_is_Some_2 heap' j) as [x Hx]; [lia|].
      destruct (lookup_lt_is_Some_2 (ArrayHeap.heap_ h) j) as [y Hy]; [lia|].
      specialize (Hoff j Hj). unfold node_weight in Hoff.
      rewrite (nth_lookup_Some _ _ _ _ Hx), (nth_lookup_Some _ _ _ _ Hy) in Hoff.
      by rewrite Hx, Hy, Hoff.
    - rewrite !lookup_ge_None_2 by lia. done. }
  split; [|done].
  intros i Hi Hne. apply Hcells.
  apply (leaf_off_path (ArrayHeap.bit_len_ h)); rewrite <- ?Hlimit; lia.
Qed.

Lemma ArrayHeap_Add_fills_leaf_witness :
  ∃ heap',
    ArrayHeap.Add example_heap 3 (5 # 2) = Ok (ArrayHeap.with_heap example_heap heap')
    ∧ (node_weight heap' 7 == 5 # 2)%Q ∧ heap' !! 5 = Some 2%Q.
Proof.
  destruct (ArrayHeap_Add_fills_leaf example_heap 3 (5 # 2))
    as (heap' & Hadd & _ & Hleaf & Hothers & _).
  - reflexivity.
  - reflexivity.
  - simpl. lia.
  - exists heap'. split; [done|]. split.
    + apply Hleaf. reflexivity.
    + apply (Hothers 1); simpl; lia.
Defined.

(** Putting the weight [Delete] took from a leaf back with [Add] restores
    the leaves: the leaf holds its weight again and no other leaf has
    changed. *)
Theorem ArrayHeap_Delete_Add_restores_leaves (h : ArrayHeap.t) (idx : nat) :
  ArrayHeap.limit_ h = 2 ^ ArrayHeap.bit_len_ h →
  length (ArrayHeap.heap_ h) = 2 * ArrayHeap.limit_ h → idx < ArrayHeap.limit_ h →
  ∃ heap1 heap2,
    ArrayHeap.Delete h idx = Ok (ArrayHeap.with_heap h heap1)
    ∧ ArrayHeap.Add (ArrayHeap.with_heap h heap1) idx
        (node_weight (ArrayHeap.heap_ h) (idx + ArrayHeap.limit_ h))
      = Ok (ArrayHeap.with_heap h heap2)
    ∧ length heap2 = length (ArrayHeap.heap_ h)
    ∧ ∀ i, i < ArrayHeap.limit_ h →
        (node_weight heap2 (i + ArrayHeap.limit_ h)
         == node_weight (ArrayHeap.heap_ h) (i + ArrayHeap.limit_ h))%Q.
Proof.
  intros Hlimit Hlen Hidx.
  destruct (Delete_frame h idx Hlimit Hlen Hidx)
    as (heap1 & Hdel & Hl1 & Hleaf1 & _ & Hothers1).
  destruct (Add_frame (ArrayHeap.with_heap h heap1) idx
              (node_weight (ArrayHeap.heap_ h) (idx + ArrayHeap.limit_ h)))
    as (heap2 & Hadd & Hl2 & Hleaf2 & _ & Hothers2); [done..|].
  simpl in *. exists heap1, heap2. split; [done|]. split; [done|].
  split; [lia|]. intros i Hi.
  destruct (decide (i = idx)) as [->|Hne].
  - rewrite Hleaf2, Hleaf1. lra.
  - rewrite Hothers2, Hothers1 by done. reflexivity.
Qed.

Lemma ArrayHeap_Delete_Add_restores_leaves_witness :
  ∃ heap1 heap2,
    ArrayHeap.Delete example_heap 2 = Ok (ArrayHeap.with_heap example_heap heap1)
    ∧ ArrayHeap.Add (ArrayHeap.with_heap example_heap heap1) 2 3
      = Ok (ArrayHeap.with_heap example_heap heap2)
    ∧ (node_weight heap2 6 == 3)%Q ∧ (node_weight heap2 5 == 2)%Q.
Proof.
  destruct (ArrayHeap_Delete_Add_restores_leaves example_heap 2)
    as (heap1 & heap2 & Hdel & Hadd & _ & Hsame).
  - reflexivity.
  - reflexivity.
  - simpl. lia.
  - exists heap1, heap2. split; [done|]. split; [done|]. split.
    + apply (Hsame 2). simpl. lia.
    + apply (Hsame 1). simpl. lia.
Defined.

(** [Sample] reads one random value, leaves the tree as it is and returns
    the position of a leaf, a number below [limit_], whatever the tree
    holds; without a random value left it does not return. *)
Theorem ArrayHeap_Sample_returns_leaf (h : ArrayHeap.t) (seed : seed_t) :
  1 ≤ ArrayHeap.limit_ h → length (ArrayHeap.heap_ h) = 2 * ArrayHeap.limit_ h →
  match seed with
  | [] => ArrayHeap.Sample h seed = Err OutOfRandomness
  | r :: seed' =>
      ∃ s, ArrayHeap.Sample h seed = Ok (s, seed') ∧ s < ArrayHeap.limit_ h
  end.
Proof.
  intros Hlimit Hlen. destruct seed as [|r seed'].
  - unfold ArrayHeap.Sample. rewrite index_node_weight by lia. done.
  - unfold ArrayHeap.Sample, rand_r.
    rewrite index_node_weight by lia.
    change (Ok ?a ≫= ?k) with (k a). cbv beta.
    change (Ok ?a ≫= ?k) with (k a). cbv beta iota.
    destruct (Sample_loop_leaf _ _ Hlen (ArrayHeap.limit_ h)
                (node_weight (ArrayHeap.heap_ h) 1
                 * (inject_Z (Z.of_nat (r mod 100)) / 101))%Q 1)
      as (leaf & -> & Hleaf); [lia..|].
    simpl. exists (leaf - ArrayHeap.limit_ h). split; [done|lia].
Qed.

Lemma ArrayHeap_Sample_returns_leaf_witness :
  ∃ s, ArrayHeap.Sample example_heap [57] = Ok (s, []) ∧ s < 4.
Proof.
  apply (ArrayHeap_Sample_returns_leaf example_heap [57]).
  - simpl. lia.
  - reflexivity.
Defined.

(** On a tree that holds no weight the walk goes right at every node. *)
Lemma Sample_loop_rightmost (b : nat) (heap : list Q) :
  length heap = 2 * 2 ^ b →
  (∀ j, j < 2 * 2 ^ b → (node_weight heap j == 0)%Q) →
  ∀ d t fuel xi, t + d = b → d ≤ fuel → (xi == 0)%Q →
    ArrayHeap.Sample_loop fuel heap (2 ^ b) xi (2 ^ (t + 1) - 1) = Ok (2 ^ (b + 1) - 1).
Proof.
  intros Hlen Hzero. induction d as [|d IH]; intros t fuel xi Ht Hfuel Hxi.
  - replace t with b by lia.
    assert (¬ 2 ^ (b + 1) - 1 < 2 ^ b).
    { rewrite Nat.add_1_r, Nat.pow_succ_r'. pose proof (Nat.pow_nonzero 2 b). lia. }
    destruct fuel; simpl; by rewrite decide_False.
  - destruct fuel as [|fuel]; [lia|]. rewrite Sample_loop_S.
    assert (2 ^ (t + 1) ≤ 2 ^ b) as Hlevel by (apply Nat.pow_le_mono_r; lia).
    assert (2 ^ (t + 1) ≠ 0) as Hpos by (by apply Nat.pow_nonzero).
    rewrite decide_True by lia.
    rewrite index_node_weight by lia.
    change (Ok ?a ≫= ?k) with (k a). cbv beta.
    assert (node_weight heap (2 * (2 ^ (t + 1) - 1)) == 0)%Q as Hw by (apply Hzero; lia).
    assert (Qle_bool (node_weight heap (2 * (2 ^ (t + 1) - 1))) xi = true) as ->.
    { apply Qle_bool_iff. lra. }
    replace (2 * (2 ^ (t + 1) - 1) + 1) with (2 ^ (S t + 1) - 1).
    + apply IH; [lia | lia | lra].
    + replace (S t + 1) with (S (t + 1)) by lia. rewrite Nat.pow_succ_r'. lia.
Qed.

(** On a tree that holds no weight [Sample] returns the last leaf, whatever
    the random value: position [limit_ - 1], which is no position of the
    weights unless their number is a power of two. *)
Theorem ArrayHeap_Sample_exhausted (h : ArrayHeap.t) (r : nat) (seed : seed_t) :
  ArrayHeap.limit_ h = 2 ^ ArrayHeap.bit_len_ h →
  length (ArrayHeap.heap_ h) = 2 * ArrayHeap.limit_ h →
  (∀ j, j < 2 * ArrayHeap.limit_ h → (node_weight (ArrayHeap.heap_ h) j == 0)%Q) →
  ArrayHeap.Sample h (r :: seed) = Ok (ArrayHeap.limit_ h - 1, seed).
Proof.
  destruct h as [vs b limit heap]. simpl. intros -> Hlen Hzero.
  assert (2 ^ b ≠ 0) as Hpos by (by apply Nat.pow_nonzero).
  unfold ArrayHeap.Sample, rand_r. simpl ArrayHeap.heap_. simpl ArrayHeap.limit_.
  rewrite index_node_weight by lia.
  change (Ok ?a ≫= ?k) with (k a). cbv beta.
  change (Ok ?a ≫= ?k) with (k a). cbv beta iota.
  change 1 with (2 ^ (0 + 1) - 1) at 3.
  rewrite (Sample_loop_rightmost b heap Hlen Hzero b 0); [| lia | | ].
  - simpl. do 2 f_equal. rewrite Nat.add_1_r, Nat.pow_succ_r'. lia.
  - pose proof (Nat.pow_gt_lin_r 2 b). lia.
  - rewrite (Hzero 1) by lia. apply Qmult_0_l.
Qed.

Lemma ArrayHeap_Sample_exhausted_witness :
  ArrayHeap.Sample empty_heap [57; 8] = Ok (3, [8]).
Proof.
  apply (ArrayHeap_Sample_exhausted empty_heap 57 [8]).
  - reflexivity.
  - reflexivity.
  - intros j Hj. simpl in Hj.
    destruct j as [|[|[|[|[|[|[|[|j]]]]]]]]; try lia; reflexivity.
Defined.

(** [SampleWithoutReplacement] over any non-empty list of weights, given
    [n] random values: it returns [n] samples, one random value each.  Every
    sample is the position of a leaf, a number below [limit_]; the leaves
    sampled are left without weight and every other leaf keeps its
    weight. *)
Theorem ArrayHeap_SampleWithoutReplacement_leaves (weights : list Q) (n : nat)
    (seed : seed_t) :
  weights ≠ [] → n ≤ length seed →
  ∃ h h' samples,
    ArrayHeap.make weights = Ok h
    ∧ ArrayHeap.SampleWithoutReplacement h n (replicate n 0) seed
      = Ok (h', samples, drop n seed)
    ∧ length samples = n
    ∧ Forall (λ s, s < 2 ^ Nat.log2_up (length weights)) samples
    ∧ ArrayHeap.limit_ h' = 2 ^ Nat.log2_up (length weights)
    ∧ Forall (λ s, node_weight (ArrayHeap.heap_ h') (s + ArrayHeap.limit_ h') == 0)%Q
             samples
    ∧ (∀ i, i ∉ samples →
         node_weight (ArrayHeap.heap_ h') (i + ArrayHeap.limit_ h') = nth i weights 0%Q).
Proof.
  intros Hne Hseed.
  destruct (make_layout weights Hne) as (heap & Hmake & _ & Hlen & _ & Hleaves).
  set (h := {| ArrayHeap.vec_size_ := length weights;
               ArrayHeap.bit_len_ := Nat.log2_up (length weights);
               ArrayHeap.limit_ := 2 ^ Nat.log2_up (length weights);
               ArrayHeap.heap_ := heap |}) in *.
  destruct (SampleWithoutReplacement_leaves h n seed)
    as (heap' & samples & Hrun & _ & Hl & Hin & Hzero & Hkeep); [done..|].
  exists h, (ArrayHeap.with_heap h heap'), samples.
  split; [done|]. split; [done|]. split; [done|]. split; [done|].
  split; [done|]. split; [done|].
  intros i Hi. simpl. rewrite <- Hleaves. by apply Hkeep.
Qed.

Lemma ArrayHeap_SampleWithoutReplacement_leaves_witness :
  ∃ h h' samples,
    ArrayHeap.make [1%Q; 2%Q; 3%Q] = Ok h
    ∧ ArrayHeap.SampleWithoutReplacement h 3 [0; 0; 0] [57; 8; 99; 4] = Ok (h', samples, [4])
    ∧ length samples = 3 ∧ Forall (λ s, s < 4) samples.
Proof.
  destruct (ArrayHeap_SampleWithoutReplacement_leaves [1%Q; 2%Q; 3%Q] 3 [57; 8; 99; 4])
    as (h & h' & samples & Hmake & Hrun & Hlen & Hin & _).
  - done.
  - simpl. lia.
  - by exists h, h', samples.
Defined.

(** *** A random value that is a multiple of 100 *)







(** ** More on the uniform selection *)

(** [RandomSample] returns [num] pairwise distinct values below [set_size]:
    the residues of the random values it has used, no more and no less. *)
Theorem RandomSample_residues (set_size num : nat) (seed seed' : seed_t) (l : list nat) :
  RandomSample set_size num seed = Ok (l, seed') →
  NoDup l ∧ length l = num ∧ Forall (λ x, x < set_size) l
  ∧ ∃ used, seed = used ++ seed' ∧ num ≤ length used
            ∧ ∀ x, x ∈ l ↔ ∃ r, r ∈ used ∧ x = r mod set_size.
Proof.
  intros Hrun. pose proof (RandomSample_Ok _ _ _ _ _ Hrun) as (Hnd & Hlen & Hlt & _).
  split; [done|]. split; [done|]. split; [done|].
  unfold RandomSample in Hrun. inv_ok Hrun. destruct x as [sampled sd].
  injection Hrun as <- <-.
  apply RandomSample_loop_residues in Hx as (used & -> & Hiff).
  exists used. split; [done|].
  assert (∀ x, x ∈ elements sampled ↔ ∃ r, r ∈ used ∧ x = r mod set_size) as Hl.
  { intros x. rewrite elem_of_elements, Hiff. split; [|by right].
    intros [Hx|?]; [|done]. by apply elem_of_empty in Hx. }
  split; [|done].
  (* no more distinct residues than values *)
  assert (elements sampled ⊆+ map (λ r, r mod set_size) used) as Hsub.
  { apply NoDup_submseteq; [done|]. intros x (r & Hr & ->)%Hl.
    apply list_elem_of_fmap. by exists r. }
  apply submseteq_length in Hsub. rewrite length_map in Hsub. lia.
Qed.

Lemma RandomSample_residues_witness :
  ∃ l, RandomSample 5 2 [7; 12; 9; 4] = Ok (l, [4]) ∧ NoDup l ∧ length l = 2.
Proof.
  eexists. split; [reflexivity|].
  destruct (RandomSample_residues 5 2 [7; 12; 9; 4] [4] _ eq_refl) as (Hnd & Hlen & _).
  by split.
Defined.

(** [RandomSample] cannot return more values than there are below
    [set_size]: it asks for random values until none is left, and with
    [set_size] zero it divides by zero. *)
Theorem RandomSample_too_many (set_size num : nat) (seed : seed_t) :
  set_size < num →
  ∃ e, RandomSample set_size num seed = Err e
       ∧ (e = OutOfRandomness ∨ e = Undefined ∧ set_size = 0).
Proof.
  intros Hlt. destruct (RandomSample set_size num seed) as [[l seed']|e] eqn:Hrun.
  - apply RandomSample_Ok in Hrun as (Hnd & Hlen & Hrange & _).
    assert (l ⊆+ seq 0 set_size) as Hsub.
    { apply NoDup_submseteq; [done|]. intros x Hx. apply elem_of_seq.
      apply (Forall_forall (λ x, x < set_size)) with (x := x) in Hrange; [lia|done]. }
    apply submseteq_length in Hsub. rewrite length_seq in Hsub. lia.
  - exists e. split; [done|]. by apply RandomSample_Err in Hrun.
Qed.

Lemma RandomSample_too_many_witness :
  ∃ e, RandomSample 2 3 [0; 1; 2; 3; 4] = Err e
       ∧ (e = OutOfRandomness ∨ e = Undefined ∧ 2 = 0).
Proof. apply (RandomSample_too_many 2 3 [0; 1; 2; 3; 4]). lia. Defined.

(** [NegateArray] appends the positions of [0, arr_size) that a sorted list
    does not hold, in increasing order; the check fails when the last entry
    of the list is no position of the array. *)
Theorem NegateArray_complement (nz_idxs : list nat) (arr_size : nat) (out : list nat) :
  nz_idxs ≠ [] → StronglySorted lt nz_idxs →
  match last nz_idxs with
  | Some back =>
      if decide (back < arr_size) then
        NegateArray nz_idxs arr_size out
        = Ok (out ++ filter (λ x, x ∉ nz_idxs) (seq 0 arr_size))
        ∧ length (filter (λ x, x ∉ nz_idxs) (seq 0 arr_size)) = arr_size - length nz_idxs
        ∧ StronglySorted lt (filter (λ x, x ∉ nz_idxs) (seq 0 arr_size))
      else NegateArray nz_idxs arr_size out = Err CheckFailed
  | None => False
  end.
Proof.
  intros Hne Hsorted.
  destruct (last nz_idxs) as [back|] eqn:Hlast; [|by apply last_None in Hlast].
  case_decide as Hback.
  - assert (Forall (λ x, x < arr_size) nz_idxs) as Hlt.
    { apply Forall_forall. intros x Hx.
      apply list_elem_of_lookup in Hx as [i Hi].
      rewrite last_lookup in Hlast.
      destruct (decide (i = Init.Nat.pred (length nz_idxs))) as [->|Hne'].
      - rewrite Hi in Hlast. injection Hlast as ->. done.
      - pose proof (lookup_lt_Some _ _ _ Hi).
        pose proof (StronglySorted_lookup_lt nz_idxs i (Init.Nat.pred (length nz_idxs))
                      x back Hsorted Hi Hlast). lia. }
    split; [|split].
    + unfold NegateArray. rewrite Hlast. simpl. rewrite bool_decide_eq_true_2 by done. simpl.
      rewrite NegateArray_loop_spec; [done|done|].
      apply Forall_forall. intros; lia.
    + apply length_filter_complement; [by apply StronglySorted_lt_NoDup|done].
    + apply StronglySorted_filter, StronglySorted_lt_seq.
  - unfold NegateArray. rewrite Hlast. simpl. by rewrite bool_decide_eq_false_2.
Qed.

Lemma NegateArray_complement_witness :
  NegateArray [1; 3] 5 [9] = Ok ([9; 0; 2; 4]) ∧ NegateArray [1; 5] 5 [9] = Err CheckFailed.
Proof.
  pose proof (NegateArray_complement [1; 3] 5 [9]) as H1.
  pose proof (NegateArray_complement [1; 5] 5 [9]) as H2.
  simpl in H1, H2. split.
  - apply H1; [done|]. repeat constructor.
  - apply H2; [done|]. repeat constructor.
Defined.

Global Instance lt_antisymm : AntiSymm (=) lt.
Proof. intros x y ? ?. lia. Qed.

(** Negating twice gives the list back. *)
Theorem NegateArray_involutive (nz_idxs : list nat) (arr_size : nat) :
  nz_idxs ≠ [] → StronglySorted lt nz_idxs → Forall (λ x, x < arr_size) nz_idxs →
  length nz_idxs < arr_size →
  ∃ negated, NegateArray nz_idxs arr_size [] = Ok negated
             ∧ NegateArray negated arr_size [] = Ok nz_idxs.
Proof.
  intros Hne Hsorted Hlt Hlen.
  set (negated := filter (λ x, x ∉ nz_idxs) (seq 0 arr_size)).
  exists negated. split; [by apply NegateArray_Ok|].
  assert (StronglySorted lt negated) as Hs'
    by apply StronglySorted_filter, StronglySorted_lt_seq.
  assert (Forall (λ x, x < arr_size) negated) as Hlt'.
  { apply Forall_forall. intros x [_ [_ Hx]%elem_of_seq]%list_elem_of_filter. lia. }
  rewrite NegateArray_Ok; [|..|done|done].
  - f_equal. apply (StronglySorted_unique lt);
      [apply StronglySorted_filter, StronglySorted_lt_seq|done|].
    apply NoDup_Permutation;
      [apply NoDup_filter, NoDup_seq|by apply StronglySorted_lt_NoDup|].
    intros x. rewrite list_elem_of_filter. unfold negated.
    rewrite list_elem_of_filter, elem_of_seq. split.
    + intros [Hx [_ Hr]]. destruct (decide (x ∈ nz_idxs)); [done|].
      exfalso. apply Hx. split; [done|lia].
    + intros Hx. split; [tauto|]. split; [lia|].
      apply (Forall_forall (λ x, x < arr_size)) with (x := x) in Hlt; [lia|done].
  - intros Hnil.
    pose proof (length_filter_complement nz_idxs arr_size) as Hl.
    fold negated in Hl. rewrite Hnil in Hl. simpl in Hl.
    specialize (Hl (StronglySorted_lt_NoDup _ Hsorted) Hlt). lia.
Qed.

Lemma NegateArray_involutive_witness :
  ∃ negated, NegateArray [1; 3] 5 [] = Ok negated ∧ NegateArray negated 5 [] = Ok [1; 3].
Proof.
  apply (NegateArray_involutive [1; 3] 5).
  - done.
  - repeat constructor.
  - repeat constructor.
  - simpl. lia.
Defined.

(** In uniform mode the two output lists stay paired: the vertex id and the
    edge id at one output position belong to one neighbour of the slice, and
    there are as many of them as the slice and the fan-out allow. *)
Theorem GetUniformSample_keeps_pairs (edge_id_list vid_list : list dgl_id_t)
    (ver_len max_num_neighbor : nat) (seed seed' : seed_t)
    (out_ver out_edge : list dgl_id_t) :
  ver_len ≤ length vid_list → ver_len ≤ length edge_id_list →
  GetUniformSample edge_id_list vid_list ver_len max_num_neighbor [] [] seed
  = Ok (out_ver, out_edge, seed') →
  length out_ver = ver_len `min` max_num_neighbor
  ∧ length out_edge = ver_len `min` max_num_neighbor
  ∧ ∀ p v e, out_ver !! p = Some v → out_edge !! p = Some e →
             same_neighbor vid_list edge_id_list ver_len v e.
Proof.
  intros Hv He Hrun. destruct (decide (ver_len ≤ max_num_neighbor)) as [Hle|Hgt].
  - rewrite GetUniformSample_copy in Hrun by done. injection Hrun as <- <- <-. simpl.
    rewrite !length_take. split; [lia|]. split; [lia|].
    intros p v e Hpv Hpe. exists p.
    apply lookup_take_Some in Hpv as [Hpv Hp]. apply lookup_take_Some in Hpe as [Hpe _].
    done.
  - rewrite GetUniformSample_sample in Hrun by (done || lia).
    inv_ok Hrun. destruct x as [idxs sd]. injection Hrun as <- <- <-. simpl.
    apply selected_positions_Ok in Hx as (Hlen & _ & Hrange); [|lia].
    unfold picked. rewrite !length_map. split; [lia|]. split; [lia|].
    intros p v e Hpv Hpe. rewrite list_lookup_fmap in Hpv, Hpe.
    destruct (idxs !! p) as [i|] eqn:Hi; [|done]. simpl in Hpv, Hpe.
    injection Hpv as <-. injection Hpe as <-.
    apply (Forall_lookup_1 _ _ _ _ Hrange) in Hi. exists i. split; [done|].
    split; apply index_Ok, index_lt; lia.
Qed.

Lemma GetUniformSample_keeps_pairs_witness :
  ∃ out_ver out_edge,
    GetUniformSample [10; 11; 12; 13; 14] [5; 6; 7; 8; 9] 5 2 [] [] [7; 12; 9; 4]
    = Ok (out_ver, out_edge, [4])
    ∧ length out_ver = 2
    ∧ ∀ p v e, out_ver !! p = Some v → out_edge !! p = Some e →
               same_neighbor [5; 6; 7; 8; 9] [10; 11; 12; 13; 14] 5 v e.
Proof.
  eexists _, _. split; [reflexivity|].
  destruct (GetUniformSample_keeps_pairs [10; 11; 12; 13; 14] [5; 6; 7; 8; 9] 5 2
              [7; 12; 9; 4] [4] _ _ ltac:(simpl; lia) ltac:(simpl; lia) eq_refl)
    as (Hlen & _ & Hpairs).
  by split.
Defined.

(** ** More on the weighted samplers *)

(** Run the step that has just been rewritten to its result. *)
Ltac run_Ok := change (Ok ?a ≫= ?k) with (k a); cbv beta iota.

(** *** The CDF variant with replacement *)

Lemma prefix_weight_S (prob : list Q) (i : nat) (p : Q) :
  prob !! i = Some p → prefix_weight prob (S i) = (prefix_weight prob i + p)%Q.
Proof.
  intros Hp. unfold prefix_weight. rewrite (take_S_r _ _ _ Hp).
  by rewrite fold_left_app.
Qed.

Lemma prefix_weight_mono (prob : list Q) (i : nat) :
  Forall (λ p, 0 <= p)%Q prob → (prefix_weight prob i <= prefix_weight prob (S i))%Q.
Proof.
  intros Hpos. destruct (prob !! i) as [p|] eqn:Hp.
  - rewrite (prefix_weight_S _ _ _ Hp).
    pose proof (Forall_lookup_1 _ _ _ _ Hpos Hp) as Hp0. simpl in Hp0. lra.
  - unfold prefix_weight. apply lookup_ge_None in Hp.
    rewrite !take_ge by lia. lra.
Qed.

Lemma lower_bound_spec (cdf : list Q) (p : Q) :
  CDFSampler.lower_bound cdf p ≤ length cdf
  ∧ (∀ j c, j < CDFSampler.lower_bound cdf p → cdf !! j = Some c → (c < p)%Q)
  ∧ (∀ c, cdf !! CDFSampler.lower_bound cdf p = Some c → (p <= c)%Q).
Proof.
  induction cdf as [|c0 cdf (IHle & IHlt & IHge)]; simpl.
  - split; [lia|]. split; [intros; lia|]. done.
  - destruct (Qle_bool p c0) eqn:Hcmp.
    + split; [lia|]. split; [intros; lia|]. intros c [= <-]. by apply Qle_bool_iff.
    + split; [lia|]. split.
      * intros [|j] c Hj; simpl; [|apply IHlt; lia].
        intros [= <-]. apply Qnot_le_lt. intros Hle. apply Qle_bool_iff in Hle. congruence.
      * done.
Qed.

(** The table [Reconstruct] builds when nothing is used: the number of
    weights, their sum, and the cumulative weights from 0 up to the sum. *)
Lemma CDFSampler_count_all (replace : bool) (prob : list Q) (idm : list nat) :
  ∃ idm',
    foldM (CDFSampler.count_unused replace prob (replicate (length prob) false))
          (seq 0 (length prob)) (0, 0%Q, idm, [0%Q])
    = Ok (length prob, prefix_weight prob (length prob), idm',
          map (prefix_weight prob) (seq 0 (S (length prob))))
    ∧ (replace = true → idm' = idm).
Proof.
  destruct (foldM_seq_total (CDFSampler.count_unused replace prob (replicate (length prob) false))
    (λ i st, st.1.1.1 = i ∧ st.1.1.2 = prefix_weight prob i
             ∧ st.2 = map (prefix_weight prob) (seq 0 (S i))
             ∧ (replace = true → st.1.2 = idm))
    0 (length prob) (0, 0%Q, idm, [0%Q])) as ([[[N accum] idm'] cdf] & Hrun & HI).
  - intros i [[[N accum] idm'] cdf] Hi (HN & Hacc & Hcdf & Hidm). cbn [fst snd] in *.
    unfold CDFSampler.count_unused.
    assert (replicate (length prob) false !! i = Some false) as Hu
      by (apply lookup_replicate_2; lia).
    rewrite (proj2 (index_Ok _ _ _) Hu). run_Ok.
    destruct (lookup_lt_is_Some_2 prob i) as [p Hp]; [lia|].
    rewrite (proj2 (index_Ok _ _ _) Hp). run_Ok.
    eexists. split; [done|]. cbn [fst snd]. split; [lia|].
    rewrite (prefix_weight_S _ _ _ Hp). split; [by rewrite Hacc|]. split.
    + rewrite Hcdf, (seq_S (S i)), map_app. cbn [map]. rewrite Nat.add_0_l.
      by rewrite (prefix_weight_S _ _ _ Hp), Hacc.
    + intros ->. by apply Hidm.
  - simpl. done.
  - simpl in HI. destruct HI as (-> & -> & -> & Hidm). by exists idm'.
Qed.

Lemma CDFSampler_make_with_replacement (prob : list Q) :
  prob ≠ [] →
  ∃ s, CDFSampler.make true prob = Ok s
       ∧ CDFSampler.N s = length prob
       ∧ CDFSampler.accum s = prefix_weight prob (length prob)
       ∧ CDFSampler.cdf s = map (prefix_weight prob) (seq 0 (S (length prob))).
Proof.
  intros Hne. unfold CDFSampler.make, CDFSampler.ResetState, CDFSampler.Reconstruct.
  simpl CDFSampler.used. simpl CDFSampler.id_mapping.
  destruct (CDFSampler_count_all true prob []) as (idm' & -> & _).
  change (Ok ?a ≫= ?k) with (k a). cbv beta iota.
  rewrite bool_decide_eq_false_2 by (by destruct prob).
  eexists. split; [done|]. done.
Qed.

(** With replacement the CDF variant searches the table it has built.  The
    constructor lays out one cumulative weight per entry after a leading
    zero, in ascending order, the last one being the total [accum].  [Draw]
    reads one variate, leaves the sampler as it was, and for a total that is
    no less than [eps] returns the index whose stretch of the table, above
    its lower entry and up to its upper entry, holds the value drawn, raised
    to [eps] when below it. *)
Theorem CDFSampler_Draw_searches_cdf (prob : list Q) :
  prob ≠ [] → Forall (λ p, 0 <= p)%Q prob →
  ∃ s,
    CDFSampler.make true prob = Ok s
    ∧ CDFSampler.N s = length prob
    ∧ length (CDFSampler.cdf s) = S (length prob)
    ∧ CDFSampler.cdf s !! 0 = Some 0%Q
    ∧ CDFSampler.cdf s !! length prob = Some (CDFSampler.accum s)
    ∧ (∀ i lo hi, CDFSampler.cdf s !! i = Some lo → CDFSampler.cdf s !! S i = Some hi →
                  (lo <= hi)%Q)
    ∧ ∀ (re re' : RandomEngine) (x : Q),
        Uniform re 0 (CDFSampler.accum s) = Ok (x, re') →
        (x <= CDFSampler.accum s)%Q → (CDFSampler.eps <= CDFSampler.accum s)%Q →
        ∃ i lo hi,
          CDFSampler.Draw true s re = Ok (i, s, re')
          ∧ i < length prob
          ∧ CDFSampler.cdf s !! i = Some lo ∧ CDFSampler.cdf s !! S i = Some hi
          ∧ (lo < clamp_eps x)%Q ∧ (clamp_eps x <= hi)%Q.
Proof.
  intros Hne Hpos.
  destruct (CDFSampler_make_with_replacement prob Hne) as (s & Hmake & HN & Hacc & Hcdf).
  assert (∀ i, i ≤ length prob → CDFSampler.cdf s !! i = Some (prefix_weight prob i))
    as Hentry.
  { intros i Hi. by rewrite Hcdf, list_lookup_fmap, lookup_seq_lt by lia. }
  exists s. split; [done|]. split; [done|].
  split; [by rewrite Hcdf, length_map, length_seq|].
  split; [by rewrite Hentry by lia|]. split; [by rewrite Hentry, Hacc by lia|]. split.
  { intros i lo hi Hlo Hhi.
    assert (S i ≤ length prob) as Hi.
    { apply lookup_lt_Some in Hhi. rewrite Hcdf, length_map, length_seq in Hhi. lia. }
    rewrite Hentry in Hlo, Hhi by lia. injection Hlo as <-. injection Hhi as <-.
    by apply prefix_weight_mono. }
  intros re re' x Hx Hxle Heps.
  set (p := clamp_eps x).
  assert (0 < CDFSampler.eps)%Q as Heps0 by reflexivity.
  assert (CDFSampler.eps <= p ∧ p <= CDFSampler.accum s)%Q as [Hp0 Hp1].
  { unfold p, clamp_eps. destruct (Qle_bool _ _) eqn:Hcmp; [lra|].
    assert (CDFSampler.eps < x)%Q.
    { apply Qnot_le_lt. intros Hle. apply Qle_bool_iff in Hle. congruence. }
    lra. }
  destruct (lower_bound_spec (CDFSampler.cdf s) p) as (Hle & Hlt & Hge).
  set (j := CDFSampler.lower_bound (CDFSampler.cdf s) p) in *.
  rewrite Hcdf, length_map, length_seq in Hle.
  assert (1 ≤ j) as Hj1.
  { destruct (decide (j = 0)) as [Hj0|]; [|lia].
    specialize (Hge 0%Q). rewrite Hj0, Hentry in Hge by lia.
    specialize (Hge eq_refl). lra. }
  assert (j ≤ length prob) as Hjn.
  { destruct (decide (j = S (length prob))) as [Hjtop|]; [|lia].
    specialize (Hlt (length prob) (CDFSampler.accum s)).
    rewrite Hentry, Hacc in Hlt by lia.
    specialize (Hlt ltac:(lia) eq_refl). rewrite <- Hacc in Hlt. lra. }
  exists (j - 1), (prefix_weight prob (j - 1)), (prefix_weight prob j).
  replace (S (j - 1)) with j by lia.
  split; [|split; [lia|split; [by apply Hentry; lia|split; [by apply Hentry|split]]]].
  - unfold CDFSampler.Draw, CDFSampler.throw. rewrite Hx.
    change (Ok ?a ≫= ?k) with (k a). cbv beta iota.
    fold (clamp_eps x). fold p. fold j.
    rewrite decide_False by lia. done.
  - apply (Hlt (j - 1)); [lia|]. apply Hentry. lia.
  - apply Hge. by apply Hentry.
Qed.

Lemma CDFSampler_Draw_searches_cdf_witness :
  ∃ s i,
    CDFSampler.make true [1%Q; 2%Q; 1%Q] = Ok s
    ∧ CDFSampler.Draw true s [1 # 2] = Ok (i, s, [])
    ∧ i < 3.
Proof.
  destruct (CDFSampler_Draw_searches_cdf [1%Q; 2%Q; 1%Q])
    as (s & Hmake & _ & _ & _ & _ & _ & Hdraw).
  - done.
  - repeat constructor; done.
  - injection Hmake as <-.
    destruct (Hdraw [1 # 2] [] _ eq_refl) as (i & lo & hi & Hrun & Hi & _).
    + by vm_compute.
    + by vm_compute.
    + eexists _, i. split; [reflexivity|]. split; [exact Hrun|exact Hi].
Defined.

(** *** The tree variant *)

Lemma grow_power (size : nat) :
  ∀ fuel t, size ≤ 2 ^ t * 2 ^ fuel →
    ∃ b, TreeSampler.grow fuel (2 ^ t) size = 2 ^ b ∧ size ≤ 2 ^ b ∧ t ≤ b
         ∧ (t < b → 2 ^ (b - 1) < size).
Proof.
  induction fuel as [|fuel IH]; intros t Hsize; simpl.
  - simpl in Hsize. exists t. case_decide; [lia|]. split; [done|]. lia.
  - case_decide as Hlt.
    + destruct (IH (S t)) as (b & Hb & Hle & Htb & Hmin).
      { rewrite Nat.pow_succ_r' in *. lia. }
      exists b. rewrite Nat.pow_succ_r', (Nat.mul_comm 2) in Hb.
      split; [done|]. split; [done|]. split; [lia|]. intros _.
      destruct (decide (S t = b)) as [<-|]; [|apply Hmin; lia].
      by replace (S t - 1) with t by lia.
    + exists t. split; [done|]. lia.
Qed.

Lemma rev_seq_1_lookup (m k l : nat) :
  rev (seq 1 m) !! k = Some l ↔ k < m ∧ l = m - k.
Proof.
  revert k. induction m as [|m IH]; intros k.
  - simpl. rewrite lookup_nil. split; [done|lia].
  - rewrite seq_S, rev_app_distr. destruct k as [|k]; simpl.
    + split; [intros [= <-]; lia | intros [_ ->]; f_equal; lia].
    + rewrite IH. split; intros [? ?]; split; lia.
Qed.

Lemma TreeSampler_ResetState_Ok (s : TreeSampler.t) (b : nat) (prob : list Q) :
  TreeSampler.num_leafs s = 2 ^ b → length (TreeSampler.weight s) = 2 * 2 ^ b →
  length prob ≤ 2 ^ b → Forall (λ p, 0 <= p)%Q prob →
  ∃ weight',
    TreeSampler.ResetState s prob
    = Ok {| TreeSampler.weight := weight'; TreeSampler.N := TreeSampler.N s;
            TreeSampler.num_leafs := TreeSampler.num_leafs s |}
    ∧ sum_tree (2 ^ b) weight'
    ∧ ∀ i, node_weight weight' (i + 2 ^ b) = nth i prob 0%Q.
Proof.
  intros Hnl Hlen Hfit Hpos. unfold TreeSampler.ResetState. rewrite Hnl, Hlen.
  assert (2 ^ b ≠ 0) as Hpow by (by apply Nat.pow_nonzero).
  (* the leaves *)
  destruct (foldM_seq_total (TreeSampler.set_leaf prob (2 ^ b)) (λ i w,
      length w = 2 * 2 ^ b
      ∧ ∀ c, node_weight w c
             = if decide (2 ^ b ≤ c < 2 ^ b + i) then nth (c - 2 ^ b) prob 0%Q else 0%Q)
    0 (length prob) (replicate (2 * 2 ^ b) 0%Q)) as (w1 & -> & Hl1 & Hw1).
  { intros i w Hi [Hl Hw]. unfold TreeSampler.set_leaf.
    rewrite (index_lt _ _ 0%Q) by lia. run_Ok.
    unfold store. rewrite decide_True by lia.
    eexists. split; [done|]. split; [by rewrite length_insert|].
    intros c. destruct (decide (c = 2 ^ b + i)) as [->|Hne].
    - rewrite node_weight_insert_eq by lia. rewrite decide_True by lia.
      f_equal. lia.
    - rewrite node_weight_insert_ne by done. rewrite Hw.
      repeat case_decide; done || lia. }
  { split; [by rewrite length_replicate|]. intros c.
    rewrite decide_False by lia. unfold node_weight.
    rewrite nth_lookup. destruct (replicate _ _ !! c) eqn:E; [|done].
    by apply lookup_replicate in E as [-> _]. }
  run_Ok.
  (* the sums, from the last inner node down to the root *)
  destruct (foldM_total TreeSampler.sum_children (λ n w,
      length w = 2 * 2 ^ b
      ∧ (∀ c, 2 ^ b ≤ c → node_weight w c = node_weight w1 c)
      ∧ (∀ j, 2 ^ b - n ≤ j < 2 ^ b →
           (node_weight w j == node_weight w (2 * j) + node_weight w (2 * j + 1))%Q)
      ∧ (∀ j, 2 ^ b - n ≤ j < 2 * 2 ^ b → (0 <= node_weight w j)%Q))
    (rev (seq 1 (2 ^ b - 1))) w1) as (w2 & -> & HI).
  { intros n i w Hn (Hl & Hkeep & Hsum & Hnn).
    apply rev_seq_1_lookup in Hn as [Hn ->].
    unfold TreeSampler.sum_children.
    rewrite index_node_weight by lia. run_Ok.
    rewrite index_node_weight by lia. run_Ok.
    unfold store. rewrite decide_True by lia.
    eexists. split; [done|]. split; [by rewrite length_insert|]. split; [|split].
    - intros c Hc. rewrite node_weight_insert_ne by lia. by apply Hkeep.
    - intros j Hj. destruct (decide (j = 2 ^ b - 1 - n)) as [->|Hne].
      + rewrite node_weight_insert_eq by lia.
        rewrite !node_weight_insert_ne by lia.
        rewrite !(Nat.mul_comm _ 2). reflexivity.
      + rewrite !node_weight_insert_ne by lia. apply Hsum. lia.
    - intros j Hj. destruct (decide (j = 2 ^ b - 1 - n)) as [->|Hne].
      + rewrite node_weight_insert_eq by lia.
        assert (0 <= node_weight w ((2 ^ b - 1 - n) * 2))%Q by (apply Hnn; lia).
        assert (0 <= node_weight w ((2 ^ b - 1 - n) * 2 + 1))%Q by (apply Hnn; lia).
        lra.
      + rewrite node_weight_insert_ne by lia. apply Hnn. lia. }
  { split; [done|]. split; [done|]. split; [intros j Hj; lia|].
    intros j Hj. rewrite Hw1. case_decide; [|lra].
    destruct (decide (j - 2 ^ b < length prob)) as [Hin|Hout].
    - destruct (lookup_lt_is_Some_2 prob (j - 2 ^ b) Hin) as [p Hp].
      rewrite (nth_lookup_Some _ _ _ _ Hp).
      by eapply (Forall_lookup_1 _ _ _ _ Hpos).
    - rewrite nth_overflow by lia. lra. }
  rewrite length_rev, length_seq in HI. destruct HI as (Hl2 & Hkeep & Hsum & Hnn).
  run_Ok. eexists. split; [done|]. split.
  - split; [done| |].
    + intros j Hj. apply Hsum. lia.
    + intros j Hj. apply Hnn. lia.
  - intros i. rewrite Hkeep, Hw1 by lia.
    destruct (decide (i < length prob)).
    + rewrite decide_True by lia. f_equal. lia.
    + rewrite decide_False by lia. by rewrite nth_overflow by lia.
Qed.

Lemma TreeSampler_make_Ok (prob : list Q) :
  Forall (λ p, 0 <= p)%Q prob →
  ∃ s b,
    TreeSampler.make prob = Ok s
    ∧ TreeSampler.num_leafs s = 2 ^ b
    ∧ length prob ≤ 2 ^ b
    ∧ sum_tree (2 ^ b) (TreeSampler.weight s)
    ∧ ∀ i, node_weight (TreeSampler.weight s) (i + 2 ^ b) = nth i prob 0%Q.
Proof.
  intros Hpos. unfold TreeSampler.make.
  destruct (grow_power (length prob) (length prob) 0) as (b & Hb & Hle & _).
  { simpl. pose proof (Nat.pow_gt_lin_r 2 (length prob)). lia. }
  change (2 ^ 0) with 1 in Hb. rewrite Hb.
  destruct (TreeSampler_ResetState_Ok
              {| TreeSampler.weight := replicate (2 ^ b * 2) 0%Q;
                 TreeSampler.N := 2 ^ b * 2; TreeSampler.num_leafs := 2 ^ b |}
              b prob) as (w & Hrun & Htree & Hleaves); simpl; [done| |done|done|].
  - rewrite length_replicate. lia.
  - rewrite Hrun. eexists _, b. split; [done|]. simpl. done.
Qed.

(** The cells of the tree the constructor builds. *)
Lemma TreeSampler_make_cells (prob : list Q) :
  ∃ s b,
    TreeSampler.make prob = Ok s
    ∧ TreeSampler.num_leafs s = 2 ^ b ∧ TreeSampler.N s = 2 * 2 ^ b
    ∧ length (TreeSampler.weight s) = TreeSampler.N s
    ∧ length prob ≤ 2 ^ b ∧ (0 < b → 2 ^ (b - 1) < length prob)
    ∧ TreeSampler.weight s !! 0 = Some 0%Q
    ∧ (∀ i p, prob !! i = Some p → TreeSampler.weight s !! (2 ^ b + i) = Some p)
    ∧ (∀ i, length prob ≤ i < 2 ^ b → TreeSampler.weight s !! (2 ^ b + i) = Some 0%Q).
Proof.
  unfold TreeSampler.make.
  destruct (grow_power (length prob) (length prob) 0) as (b & Hb & Hle & _ & Hmin).
  { simpl. pose proof (Nat.pow_gt_lin_r 2 (length prob)). lia. }
  change (2 ^ 0) with 1 in Hb. rewrite Hb.
  assert (2 ^ b ≠ 0) as Hpow by (by apply Nat.pow_nonzero).
  unfold TreeSampler.ResetState. simpl TreeSampler.weight. simpl TreeSampler.num_leafs.
  simpl TreeSampler.N. rewrite length_replicate.
  (* the leaves *)
  destruct (foldM_seq_total (TreeSampler.set_leaf prob (2 ^ b)) (λ i w,
      length w = 2 ^ b * 2
      ∧ ∀ c, node_weight w c
             = if decide (2 ^ b ≤ c < 2 ^ b + i) then nth (c - 2 ^ b) prob 0%Q else 0%Q)
    0 (length prob) (replicate (2 ^ b * 2) 0%Q)) as (w1 & -> & Hl1 & Hw1).
  { intros i w Hi [Hl Hw]. unfold TreeSampler.set_leaf.
    rewrite (index_lt _ _ 0%Q) by lia. run_Ok.
    unfold store. rewrite decide_True by lia.
    eexists. split; [done|]. split; [by rewrite length_insert|].
    intros c. destruct (decide (c = 2 ^ b + i)) as [->|Hne].
    - rewrite node_weight_insert_eq by lia. rewrite decide_True by lia.
      f_equal. lia.
    - rewrite node_weight_insert_ne by done. rewrite Hw.
      repeat case_decide; done || lia. }
  { split; [by rewrite length_replicate|]. intros c.
    rewrite decide_False by lia. unfold node_weight.
    rewrite nth_lookup. destruct (replicate _ _ !! c) eqn:E; [|done].
    by apply lookup_replicate in E as [-> _]. }
  run_Ok.
  (* the sums leave the leaves and cell 0 as they are *)
  destruct (foldM_total TreeSampler.sum_children (λ n w,
      length w = 2 ^ b * 2
      ∧ ∀ c, ¬ 1 ≤ c < 2 ^ b → node_weight w c = node_weight w1 c)
    (rev (seq 1 (2 ^ b - 1))) w1) as (w2 & -> & Hl2 & Hkeep).
  { intros n i w Hn (Hl & Hkeep).
    apply rev_seq_1_lookup in Hn as [Hn ->].
    unfold TreeSampler.sum_children.
    rewrite index_node_weight by lia. run_Ok.
    rewrite index_node_weight by lia. run_Ok.
    unfold store. rewrite decide_True by lia.
    eexists. split; [done|]. split; [by rewrite length_insert|].
    intros c Hc. rewrite node_weight_insert_ne by lia. by apply Hkeep. }
  { done. }
  run_Ok. eexists _, b. split; [done|]. simpl.
  assert (∀ c, c < 2 ^ b * 2 → w2 !! c = Some (node_weight w2 c)) as Hcell.
  { intros c Hc. destruct (lookup_lt_is_Some_2 w2 c) as [x Hx]; [lia|].
    unfold node_weight. by rewrite (nth_lookup_Some _ _ _ _ Hx). }
  split; [done|]. split; [lia|]. split; [lia|]. split; [done|]. split; [done|].
  split; [|split].
  - rewrite Hcell, Hkeep, Hw1 by lia. by rewrite decide_False by lia.
  - intros i p Hp. pose proof (lookup_lt_Some _ _ _ Hp) as Hi.
    rewrite Hcell, Hkeep, Hw1 by lia. rewrite decide_True by lia.
    replace (2 ^ b + i - 2 ^ b) with i by lia.
    by rewrite (nth_lookup_Some _ _ _ _ Hp).
  - intros i Hi. rewrite Hcell, Hkeep, Hw1 by lia. case_decide; [|done].
    by rewrite nth_overflow by lia.
Qed.

(** The constructor of the tree variant returns for every list of weights.
    The tree has the least power of two of leaves that holds the weights,
    and twice as many cells; the leaves hold the weights in order, the
    leaves after them hold zero, and so does cell 0, which is no node of the
    tree.  Over weights that are not negative no inner node is negative or
    less than one of its children, and an inner node is empty exactly when
    both its children are. *)
Theorem TreeSampler_make_layout (prob : list Q) :
  ∃ s b,
    TreeSampler.make prob = Ok s
    ∧ TreeSampler.num_leafs s = 2 ^ b ∧ TreeSampler.N s = 2 * 2 ^ b
    ∧ length (TreeSampler.weight s) = TreeSampler.N s
    ∧ length prob ≤ 2 ^ b ∧ (0 < b → 2 ^ (b - 1) < length prob)
    ∧ TreeSampler.weight s !! 0 = Some 0%Q
    ∧ (∀ i p, prob !! i = Some p → TreeSampler.weight s !! (2 ^ b + i) = Some p)
    ∧ (∀ i, length prob ≤ i < 2 ^ b → TreeSampler.weight s !! (2 ^ b + i) = Some 0%Q)
    ∧ (Forall (λ p, 0 <= p)%Q prob →
       ∀ j, 1 ≤ j < 2 ^ b →
         (0 <= node_weight (TreeSampler.weight s) j)%Q
         ∧ (node_weight (TreeSampler.weight s) (2 * j)
            <= node_weight (TreeSampler.weight s) j)%Q
         ∧ (node_weight (TreeSampler.weight s) (2 * j + 1)
            <= node_weight (TreeSampler.weight s) j)%Q
         ∧ ((node_weight (TreeSampler.weight s) j == 0)%Q
            ↔ (node_weight (TreeSampler.weight s) (2 * j) == 0)%Q
              ∧ (node_weight (TreeSampler.weight s) (2 * j + 1) == 0)%Q)).
Proof.
  destruct (TreeSampler_make_cells prob)
    as (s & b & Hmake & Hnl & HN & Hlen & Hfit & Hmin & Hzero & Hleaves & Hpad).
  exists s, b. do 9 (split; [done|]).
  intros Hpos j Hj.
  destruct (TreeSampler_make_Ok prob Hpos) as (s' & b' & Hmake' & Hnl' & _ & Htree & _).
  rewrite Hmake in Hmake'. injection Hmake' as <-.
  rewrite <- Hnl', Hnl in Htree.
  pose proof (sum_tree_sum _ _ Htree j Hj) as Hsum.
  assert (0 <= node_weight (TreeSampler.weight s) (2 * j))%Q as Hl
    by (apply (sum_tree_nonneg _ _ Htree); lia).
  assert (0 <= node_weight (TreeSampler.weight s) (2 * j + 1))%Q as Hr
    by (apply (sum_tree_nonneg _ _ Htree); lia).
  split; [lra|]. split; [lra|]. split; [lra|]. split.
  - intros Hz. split; lra.
  - intros [Hzl Hzr]. lra.
Qed.

Lemma TreeSampler_make_layout_witness :
  ∃ s, TreeSampler.make [1%Q; 2%Q; 3%Q] = Ok s
    ∧ length (TreeSampler.weight s) = TreeSampler.N s
    ∧ TreeSampler.weight s !! 0 = Some 0%Q
    ∧ (node_weight (TreeSampler.weight s) 2 <= node_weight (TreeSampler.weight s) 1)%Q.
Proof.
  destruct (TreeSampler_make_layout [1%Q; 2%Q; 3%Q])
    as (s & b & Hmake & _ & _ & Hlen & Hfit & _ & Hzero & _ & _ & Hinner).
  exists s. split; [done|]. split; [done|]. split; [done|].
  assert (Forall (λ p, 0 <= p)%Q [1%Q; 2%Q; 3%Q]) as Hpos by (repeat constructor; done).
  simpl in Hfit. destruct (Hinner Hpos 1) as (_ & Hle & _); [lia|exact Hle].
Defined.

Lemma TreeSampler_descend_S (fuel : nat) (weight : list Q) (num_leafs : nat) (p accum : Q)
    (cur : nat) :
  TreeSampler.descend (S fuel) weight num_leafs p accum cur
  = if decide (cur < num_leafs) then
      w_l ← index weight (cur * 2);
      w_r ← index weight (cur * 2 + 1);
      if Qgt_bool p (accum + w_l) && Qgt_bool w_r 0
      then TreeSampler.descend fuel weight num_leafs p (accum + w_l)%Q (cur * 2 + 1)
      else TreeSampler.descend fuel weight num_leafs p accum (cur * 2)
    else Ok cur.
Proof. done. Qed.

Lemma Qgt_bool_true (a b : Q) : Qgt_bool a b = true ↔ (b < a)%Q.
Proof.
  unfold Qgt_bool. rewrite negb_true_iff. split.
  - intros Hcmp. apply Qnot_le_lt. intros Hle. apply Qle_bool_iff in Hle. congruence.
  - intros Hlt. destruct (Qle_bool a b) eqn:Hcmp; [|done].
    apply Qle_bool_iff in Hcmp. lra.
Qed.

Lemma TreeSampler_ascend_S (fuel : nat) (weight : list Q) (num_leafs cur : nat) :
  TreeSampler.ascend (S fuel) weight num_leafs cur
  = if decide (1 ≤ cur) then
      weight ← (if decide (num_leafs ≤ cur) then store weight cur 0%Q
                else TreeSampler.sum_children weight cur);
      TreeSampler.ascend fuel weight num_leafs (cur / 2)
    else Ok weight.
Proof. done. Qed.

Lemma TreeSampler_ascend_path (b : nat) (w0 : list Q) (leaf : nat) :
  sum_tree (2 ^ b) w0 → 2 ^ b ≤ leaf < 2 * 2 ^ b →
  ∀ d t fuel w, t + d = b + 1 → d ≤ fuel → ascended b w0 leaf t w →
    ∃ w', TreeSampler.ascend fuel w (2 ^ b) (ancestor leaf t) = Ok w'
          ∧ ascended b w0 leaf (b + 1) w'.
Proof.
  intros Htree Hleaf. induction d as [|d IH]; intros t fuel w Ht Hfuel Hw.
  - assert (t = b + 1) as -> by lia. exists w. split; [|done].
    rewrite Nat.add_1_r, ancestor_S, (ancestor_root b leaf Hleaf).
    by destruct fuel.
  - destruct fuel as [|fuel]; [lia|]. rewrite TreeSampler_ascend_S.
    pose proof (ancestor_pos b leaf t Hleaf ltac:(lia)) as Hpos.
    rewrite decide_True by done.
    destruct Hw as (Hlen & Hoff & Hzero & Hsum & Hnn).
    assert (ancestor leaf t < 2 * 2 ^ b) as Hrange.
    { pose proof (ancestor_mono leaf 0 t). simpl in *. lia. }
    destruct (decide (t = 0)) as [->|Ht0].
    + (* the leaf *)
      change (ancestor leaf 0) with leaf in *. rewrite decide_True by lia.
      unfold store. rewrite decide_True by lia. run_Ok.
      change (leaf / 2) with (ancestor leaf 1). apply IH; [lia | lia |].
      split; [by rewrite length_insert|]. split; [|split; [|split]].
      * intros j Hj. rewrite node_weight_insert_ne; [apply Hoff; intros s Hs; lia|].
        intros ->. by apply (Hj 0); [lia|].
      * intros _. by rewrite node_weight_insert_eq by lia.
      * intros s Hs. lia.
      * intros s Hs. assert (s = 0) as -> by lia. simpl.
        rewrite node_weight_insert_eq by lia. lra.
    + (* an inner node *)
      pose proof (ancestor_inner b leaf t Hleaf ltac:(lia)) as Hinner.
      rewrite decide_False by lia. unfold TreeSampler.sum_children.
      rewrite index_node_weight by lia. run_Ok.
      rewrite index_node_weight by lia. run_Ok.
      unfold store. rewrite decide_True by lia. run_Ok.
      rewrite <- ancestor_S. apply IH; [lia | lia |].
      set (cur := ancestor leaf t) in *.
      assert (∀ s, s < t → cur < ancestor leaf s) as Hbelow.
      { intros s Hs. apply (ancestor_lt b); [done | done | lia]. }
      split; [by rewrite length_insert|]. split; [|split; [|split]].
      * intros j Hj. rewrite node_weight_insert_ne; [apply Hoff; intros s Hs; apply Hj; lia|].
        intros E. by apply (Hj t); [lia|].
      * intros _. rewrite node_weight_insert_ne; [apply Hzero; lia|].
        specialize (Hbelow 0 ltac:(lia)). simpl in Hbelow. lia.
      * intros s Hs. destruct (decide (s = t)) as [->|Hne].
        -- fold cur. rewrite node_weight_insert_eq by lia.
           rewrite !node_weight_insert_ne by lia.
           rewrite !(Nat.mul_comm cur 2). reflexivity.
        -- specialize (Hbelow s ltac:(lia)).
           rewrite !node_weight_insert_ne by lia. apply Hsum. lia.
      * intros s Hs. destruct (decide (s = t)) as [->|Hne].
        -- fold cur. rewrite node_weight_insert_eq by lia.
           destruct (on_path_child b leaf cur t Hleaf ltac:(lia) eq_refl Hinner)
             as (t' & Et & [Ec|Ec]); subst t.
           ++ assert (0 <= node_weight w (cur * 2))%Q.
              { rewrite (Nat.mul_comm cur 2), <- Ec. apply Hnn. lia. }
              assert (0 <= node_weight w (cur * 2 + 1))%Q.
              { rewrite Hoff; [apply (sum_tree_nonneg _ _ Htree); lia|].
                intros s Hs' E. rewrite (Nat.mul_comm cur 2) in E.
                eapply (on_path_one_child b leaf cur t' s); done || lia. }
              lra.
           ++ assert (0 <= node_weight w (cur * 2 + 1))%Q.
              { rewrite (Nat.mul_comm cur 2), <- Ec. apply Hnn. lia. }
              assert (0 <= node_weight w (cur * 2))%Q.
              { rewrite Hoff; [apply (sum_tree_nonneg _ _ Htree); lia|].
                intros s Hs' E. rewrite (Nat.mul_comm cur 2) in E.
                eapply (on_path_one_child b leaf cur s t'); done || lia. }
              lra.
        -- specialize (Hbelow s ltac:(lia)).
           rewrite node_weight_insert_ne by lia. apply Hnn. lia.
Qed.

Lemma ascended_sum_tree (b : nat) (w0 w : list Q) (leaf : nat) :
  sum_tree (2 ^ b) w0 → 2 ^ b ≤ leaf < 2 * 2 ^ b →
  ascended b w0 leaf (b + 1) w →
  sum_tree (2 ^ b) w
  ∧ node_weight w leaf = 0%Q
  ∧ ∀ j, 2 ^ b ≤ j → j ≠ leaf → node_weight w j = node_weight w0 j.
Proof.
  intros Htree Hleaf (Hlen & Hoff & Hzero & Hsum & Hnn).
  assert (∀ j, (∀ s, s ≤ b → j ≠ ancestor leaf s) → node_weight w j = node_weight w0 j)
    as Hoff'.
  { intros j Hj. apply Hoff. intros s Hs. apply Hj. lia. }
  split; [|split].
  - split; [done| |].
    + intros j Hj. destruct (on_path_dec leaf b j) as [(t & Ht & ->)|Hnot].
      * apply Hsum. split; [|lia]. destruct t; [simpl in Hj; lia|lia].
      * rewrite (Hoff' j Hnot), (Hoff' (2 * j)), (Hoff' (2 * j + 1)).
        -- by apply (sum_tree_sum _ _ Htree).
        -- intros s Hs E.
           destruct (on_path_parent b leaf (2 * j + 1) s Hleaf Hs E) as [Hs' E'].
           { replace (2 * j + 1) with (1 + j * 2) by lia.
             rewrite Nat.div_add by done. simpl. lia. }
           apply (Hnot (S s) Hs'). rewrite <- E'.
           replace (2 * j + 1) with (1 + j * 2) by lia.
           rewrite Nat.div_add by done. done.
        -- intros s Hs E.
           destruct (on_path_parent b leaf (2 * j) s Hleaf Hs E) as [Hs' E'].
           { rewrite Nat.mul_comm, Nat.div_mul by done. lia. }
           apply (Hnot (S s) Hs'). rewrite <- E'.
           by rewrite Nat.mul_comm, Nat.div_mul.
    + intros j Hj. destruct (on_path_dec leaf b j) as [(t & Ht & ->)|Hnot].
      * apply Hnn. lia.
      * rewrite (Hoff' j Hnot). by apply (sum_tree_nonneg _ _ Htree).
  - apply Hzero. lia.
  - intros j Hj Hne. apply Hoff'. by apply (leaf_off_path b).
Qed.

(** A node that has weight has, below it, a leaf that has weight: the
    left-most leaf below it is one of the weights the tree was built over. *)
Lemma sum_tree_leftmost (b n : nat) (weight : list Q) :
  sum_tree (2 ^ b) weight →
  (∀ i, n ≤ i → node_weight weight (i + 2 ^ b) == 0)%Q →
  ∀ d t j, t + d = b → 2 ^ t ≤ j < 2 * 2 ^ t → (0 < node_weight weight j)%Q →
    j * 2 ^ d < 2 ^ b + n.
Proof.
  intros Htree Hpad. induction d as [|d IH]; intros t j Ht Hj Hw.
  - replace t with b in Hj by lia. simpl.
    destruct (decide (j - 2 ^ b < n)); [lia|].
    specialize (Hpad (j - 2 ^ b) ltac:(lia)).
    replace (j - 2 ^ b + 2 ^ b) with j in Hpad by lia. lra.
  - assert (2 ^ S t ≤ 2 ^ b) as Hlevel by (apply Nat.pow_le_mono_r; lia).
    rewrite Nat.pow_succ_r' in Hlevel.
    assert (2 ^ t ≠ 0) as Hpos by (by apply Nat.pow_nonzero).
    pose proof (sum_tree_sum _ _ Htree j ltac:(lia)) as Hsum.
    assert (0 <= node_weight weight (2 * j))%Q as Hl
      by (apply (sum_tree_nonneg _ _ Htree); lia).
    assert (0 <= node_weight weight (2 * j + 1))%Q as Hr
      by (apply (sum_tree_nonneg _ _ Htree); lia).
    rewrite Nat.pow_succ_r'.
    destruct (Qlt_le_dec 0 (node_weight weight (2 * j))) as [Hleft|Hleft].
    + pose proof (IH (S t) (2 * j) ltac:(lia)
                     ltac:(rewrite Nat.pow_succ_r'; lia) Hleft). lia.
    + assert (0 < node_weight weight (2 * j + 1))%Q as Hright by lra.
      pose proof (IH (S t) (2 * j + 1) ltac:(lia)
                     ltac:(rewrite Nat.pow_succ_r'; lia) Hright). nia.
Qed.

(** The walk down goes right only where the right child has weight, so it
    ends in one of the weights the tree was built over. *)
Lemma TreeSampler_descend_in_range (b n : nat) (weight : list Q) (p : Q) :
  sum_tree (2 ^ b) weight →
  (∀ i, n ≤ i → node_weight weight (i + 2 ^ b) == 0)%Q →
  ∀ d t fuel accum cur, t + d = b → d ≤ fuel → 2 ^ t ≤ cur < 2 * 2 ^ t →
    cur * 2 ^ d < 2 ^ b + n →
    ∃ leaf, TreeSampler.descend fuel weight (2 ^ b) p accum cur = Ok leaf
            ∧ 2 ^ b ≤ leaf < 2 ^ b + n.
Proof.
  intros Htree Hpad. pose proof (sum_tree_length _ _ Htree) as Hlen.
  induction d as [|d IH]; intros t fuel accum cur Ht Hfuel Hcur Hleft.
  - replace t with b in Hcur by lia. simpl in Hleft.
    exists cur. split; [|lia]. destruct fuel; simpl; by rewrite decide_False by lia.
  - destruct fuel as [|fuel]; [lia|].
    assert (2 ^ S t ≤ 2 ^ b) as Hlevel by (apply Nat.pow_le_mono_r; lia).
    rewrite Nat.pow_succ_r' in Hlevel, Hleft.
    assert (2 ^ t ≠ 0) as Hpos by (by apply Nat.pow_nonzero).
    rewrite TreeSampler_descend_S, decide_True by lia.
    rewrite index_node_weight by lia. run_Ok.
    rewrite index_node_weight by lia. run_Ok.
    destruct (Qgt_bool p (accum + node_weight weight (cur * 2))) eqn:Hp;
      destruct (Qgt_bool (node_weight weight (cur * 2 + 1)) 0) eqn:Hw; simpl.
    + apply Qgt_bool_true in Hw.
      apply (IH (S t)); [lia | lia | rewrite Nat.pow_succ_r'; lia |].
      apply (sum_tree_leftmost b n weight Htree Hpad d (S t)); [lia| |done].
      rewrite Nat.pow_succ_r'. lia.
    + apply (IH (S t)); [lia | lia | rewrite Nat.pow_succ_r'; lia | lia].
    + apply (IH (S t)); [lia | lia | rewrite Nat.pow_succ_r'; lia | lia].
    + apply (IH (S t)); [lia | lia | rewrite Nat.pow_succ_r'; lia | lia].
Qed.

(** One draw of the tree variant, with or without replacement: the index
    is one of the weights, and the tree is left as a sum tree whose leaves
    past the weights are empty. *)
Lemma TreeSampler_Draw_in_range (replace : bool) (s : TreeSampler.t) (b n : nat) (u : Q)
    (re : RandomEngine) :
  TreeSampler.num_leafs s = 2 ^ b → sum_tree (2 ^ b) (TreeSampler.weight s) →
  (∀ i, n ≤ i → node_weight (TreeSampler.weight s) (i + 2 ^ b) == 0)%Q → 1 ≤ n ≤ 2 ^ b →
  ∃ rst w',
    TreeSampler.Draw replace s (u :: re)
    = Ok (rst, {| TreeSampler.weight := w'; TreeSampler.N := TreeSampler.N s;
                  TreeSampler.num_leafs := TreeSampler.num_leafs s |}, re)
    ∧ rst < n
    ∧ sum_tree (2 ^ b) w'
    ∧ (∀ i, n ≤ i → node_weight w' (i + 2 ^ b) == 0)%Q
    ∧ (replace = true → w' = TreeSampler.weight s)
    ∧ (replace = false →
       node_weight w' (rst + 2 ^ b) = 0%Q
       ∧ ∀ i, i ≠ rst →
           node_weight w' (i + 2 ^ b) = node_weight (TreeSampler.weight s) (i + 2 ^ b)).
Proof.
  destruct s as [w N nl]. simpl. intros -> Htree Hpad Hn.
  assert (2 ^ b ≠ 0) as Hpow by (by apply Nat.pow_nonzero).
  pose proof (sum_tree_length _ _ Htree) as Hlen.
  unfold TreeSampler.Draw, Uniform. simpl TreeSampler.weight. simpl TreeSampler.num_leafs.
  simpl TreeSampler.N.
  rewrite index_node_weight by lia. run_Ok. run_Ok.
  set (root := node_weight w 1) in *.
  destruct (TreeSampler_descend_in_range b n w
              (0 + u * (root - 0))%Q Htree Hpad b 0 (2 ^ b) 0%Q 1)
    as (leaf & -> & Hleaf); [lia | | simpl; lia | lia |].
  { pose proof (Nat.pow_gt_lin_r 2 b). lia. }
  run_Ok. destruct replace.
  - exists (leaf - 2 ^ b), w.
    split; [done|]. split; [lia|]. split; [done|]. split; [done|].
    split; [done|]. done.
  - destruct (TreeSampler_ascend_path b w leaf Htree ltac:(lia)
                (b + 1) 0 leaf w) as (w' & Hasc & Hdone).
    { lia. }
    { pose proof (Nat.pow_gt_lin_r 2 b). lia. }
    { split; [done|]. split; [done|]. split; [lia|]. split; intros; lia. }
    change (ancestor leaf 0) with leaf in Hasc. rewrite Hasc. run_Ok.
    apply ascended_sum_tree in Hdone as (Htree' & Hzero & Hkeep); [|done|lia].
    exists (leaf - 2 ^ b), w'. split; [done|].
    replace (leaf - 2 ^ b + 2 ^ b) with leaf by lia.
    split; [lia|]. split; [done|]. split; [|split; [done|]].
    + intros i Hi. rewrite Hkeep by lia. by apply Hpad.
    + intros _. split; [done|]. intros i Hi. apply Hkeep; lia.
Qed.

(** However often it is asked, and whatever the variates, the tree variant
    returns indices of the weights it was built over, non-negative ones, one
    variate each; it checks nothing and never fails while variates are
    left. *)
Theorem TreeSampler_draws_in_range (replace : bool) (prob : list Q) (k : nat)
    (re : RandomEngine) :
  prob ≠ [] → Forall (λ p, 0 <= p)%Q prob → k ≤ length re →
  ∃ s xs s',
    TreeSampler.make prob = Ok s
    ∧ draw_many (TreeSampler.Draw replace) k s re = Ok (xs, s', drop k re)
    ∧ length xs = k ∧ Forall (λ x, x < length prob) xs
    ∧ (replace = true → s' = s).
Proof.
  intros Hne Hpos Hk.
  destruct (TreeSampler_make_Ok prob Hpos) as (s & b & Hmake & Hnl & Hfit & Htree & Hleaves).
  assert (1 ≤ length prob) as Hn by (destruct prob; [done|simpl; lia]).
  exists s.
  cut (∃ xs s',
         draw_many (TreeSampler.Draw replace) k s re = Ok (xs, s', drop k re)
         ∧ length xs = k ∧ Forall (λ x, x < length prob) xs
         ∧ (replace = true → s' = s)).
  { intros (xs & s' & H). by exists xs, s'. }
  assert (∀ i, length prob ≤ i → node_weight (TreeSampler.weight s) (i + 2 ^ b) == 0)%Q
    as Hpad.
  { intros i Hi. rewrite Hleaves, nth_overflow by done. reflexivity. }
  clear Hmake Hleaves. revert s re Hk Hnl Htree Hpad.
  induction k as [|k IH]; intros s re Hk Hnl Htree Hpad.
  - exists [], s. simpl. by rewrite drop_0.
  - destruct re as [|u re]; [simpl in Hk; lia|]. simpl in Hk.
    destruct (TreeSampler_Draw_in_range replace s b (length prob) u re Hnl Htree Hpad
                (conj Hn Hfit))
      as (rst & w' & Hdraw & Hrst & Htree' & Hpad' & Hsame & _).
    destruct (IH {| TreeSampler.weight := w'; TreeSampler.N := TreeSampler.N s;
                    TreeSampler.num_leafs := TreeSampler.num_leafs s |} re)
      as (xs & s' & Hrun & Hlen & Hin & Hsame'); [lia|done..|].
    exists (rst :: xs), s'. simpl. rewrite Hdraw. run_Ok. rewrite Hrun. run_Ok.
    split; [done|]. split; [simpl; lia|]. split; [by apply Forall_cons|].
    intros Hr. rewrite (Hsame' Hr), (Hsame Hr). by destruct s.
Qed.

Lemma TreeSampler_draws_in_range_witness :
  ∃ s xs s',
    TreeSampler.make [1%Q; 2%Q; 3%Q] = Ok s
    ∧ draw_many (TreeSampler.Draw false) 4 s [1 # 4; 0%Q; 1 # 2; 3 # 4; 0%Q]
      = Ok (xs, s', [0%Q])
    ∧ length xs = 4 ∧ Forall (λ x, x < 3) xs.
Proof.
  destruct (TreeSampler_draws_in_range false [1%Q; 2%Q; 3%Q] 4
              [1 # 4; 0%Q; 1 # 2; 3 # 4; 0%Q])
    as (s & xs & s' & Hmake & Hrun & Hlen & Hin & _).
  - done.
  - repeat constructor; done.
  - simpl. lia.
  - by exists s, xs, s'.
Defined.

Lemma CDFSampler_without_replacement_witness :
  ∃ s0 xs s re',
    CDFSampler.make false [1%Q; 2%Q; 1%Q] = Ok s0
    ∧ draw_many (CDFSampler.Draw false) 3 s0 [1 # 2; 1 # 2; 1 # 2; 1 # 2; 1 # 2]
      = Ok (xs, s, re')
    ∧ NoDup xs
    ∧ CDFSampler.Draw false s [1 # 2] = Err CheckFailed.
Proof.
  eexists _, _, _, _.
  split; [reflexivity|]. split; [reflexivity|].
  eassert (_ ∧ NoDup _ ∧ _ ∧ _) as (_ & Hnd & _ & Hend).
  { eapply (CDFSampler_without_replacement [1%Q; 2%Q; 1%Q] _ _ 3
             [1 # 2; 1 # 2; 1 # 2; 1 # 2; 1 # 2]).
    - repeat constructor; done.
    - reflexivity.
    - reflexivity. }
  split; [exact Hnd|]. by apply Hend.
Defined.

Lemma AliasSampler_without_replacement_witness :
  ∃ s0 xs s re',
    AliasSampler.make false [1%Q; 3%Q] = Ok s0
    ∧ draw_many (AliasSampler.Draw false) 2 s0 [1 # 10; 1 # 2; 9 # 10] = Ok (xs, s, re')
    ∧ NoDup xs
    ∧ AliasSampler.Draw false s [1 # 2] = Err CheckFailed.
Proof.
  eexists _, _, _, _.
  split; [reflexivity|]. split; [reflexivity|].
  eassert (_ ∧ NoDup _ ∧ _ ∧ _) as (_ & Hnd & _ & Hend).
  { eapply (AliasSampler_without_replacement [1%Q; 3%Q] _ _ 2 [1 # 10; 1 # 2; 9 # 10]).
    - repeat constructor; done.
    - reflexivity.
    - reflexivity. }
  split; [exact Hnd|]. by apply Hend.
Defined.


(** ** The frontier expansion on a well-formed graph *)

Lemma safe_bind {A B} (R : Prop) (Q : A → Prop) (P : B → Prop) (m : result A)
    (f : A → result B) :
  safe R Q m → (∀ a, Q a → safe R P (f a)) → safe R P (m ≫= f).
Proof. destruct m as [a|e]; simpl; [intros Ha Hf; by apply Hf|done]. Qed.

Lemma safe_mono {A} (R R' : Prop) (P P' : A → Prop) (r : result A) :
  (R → R') → (∀ a, P a → P' a) → safe R P r → safe R' P' r.
Proof. intros HR HP. destruct r as [a|e]; simpl; [apply HP|]. intros [-> ?]; auto. Qed.

Lemma safe_total {A} (R : Prop) (P : A → Prop) (r : result A) :
  (∃ a, r = Ok a ∧ P a) → safe R P r.
Proof. by intros (a & -> & Ha). Qed.

Lemma foldM_safe {A B} (R : Prop) (f : A → B → result A) (I : nat → A → Prop)
    (l : list B) (a : A) :
  (∀ n b s, l !! n = Some b → I n s → safe R (I (S n)) (f s b)) →
  I 0 a → safe R (I (length l)) (foldM f l a).
Proof.
  revert I a. induction l as [|b l IH]; intros I a Hstep H0; simpl; [done|].
  eapply safe_bind; [exact (Hstep 0 b a eq_refl H0)|].
  intros a' Ha'. apply (IH (λ n, I (S n))); [|done].
  intros n b' s Hn Hs. exact (Hstep (S n) b' s Hn Hs).
Qed.

Lemma foldM_seq_safe {A} (R : Prop) (f : A → nat → result A) (I : nat → A → Prop)
    (first n : nat) (a : A) :
  (∀ i s, first ≤ i < first + n → I i s → safe R (I (S i)) (f s i)) →
  I first a → safe R (I (first + n)) (foldM f (seq first n) a).
Proof.
  intros Hstep H0.
  pose proof (foldM_safe R f (λ k, I (first + k)) (seq first n) a) as Hs.
  rewrite length_seq in Hs. apply Hs.
  - intros k b s Hk HI. apply lookup_seq in Hk as [-> Hk].
    rewrite Nat.add_succ_r. apply Hstep; [lia|done].
  - by rewrite Nat.add_0_r.
Qed.

(** *** Rows of a well-formed adjacency *)

Lemma csr_off_lookup (csr : CSR) (n v : nat) :
  csr_ok csr n → v ≤ n → indptr csr !! v = Some (off (indptr csr) v).
Proof.
  intros Hok Hv. unfold off.
  destruct (lookup_lt_is_Some_2 (indptr csr) v) as [x ->]; [|done].
  rewrite (co_length _ _ Hok). lia.
Qed.

Lemma csr_off_le (csr : CSR) (n : nat) :
  csr_ok csr n → ∀ v w, v ≤ w ≤ n → off (indptr csr) v ≤ off (indptr csr) w.
Proof.
  intros Hok v w [Hvw Hw]. induction w as [|w IH]; [by replace v with 0 by lia|].
  destruct (decide (v = S w)) as [->|]; [done|].
  pose proof (co_mono _ _ Hok w ltac:(lia)). specialize (IH ltac:(lia) ltac:(lia)). lia.
Qed.

Lemma csr_slot_lt (csr : CSR) (n u t v eid : nat) :
  csr_ok csr n → csr_slot csr u t v eid → v < n.
Proof.
  intros Hok (_ & Hv & _). pose proof (co_cols _ _ Hok) as Hcols.
  rewrite Forall_forall in Hcols. apply Hcols. by eapply list_elem_of_lookup_2.
Qed.

(** *** Uniform selection never fails a check *)

Lemma picked_seq (l : list nat) (n : nat) :
  n ≤ length l → picked l (seq 0 n) = take n l.
Proof.
  intros Hn. unfold picked. apply list_eq. intros i.
  rewrite list_lookup_fmap. destruct (decide (i < n)) as [Hi|Hi].
  - rewrite lookup_seq_lt by done. simpl. rewrite lookup_take_lt by done.
    destruct (lookup_lt_is_Some_2 l i ltac:(lia)) as [x Hx].
    by rewrite Hx, (nth_lookup_Some _ _ _ _ Hx).
  - rewrite lookup_seq_ge by lia. simpl. symmetry. apply lookup_ge_None.
    rewrite length_take. lia.
Qed.

Lemma picked_lookup (l : list nat) (idxs : list nat) (j t : nat) :
  idxs !! j = Some t → t < length l →
  ∃ x, picked l idxs !! j = Some x ∧ l !! t = Some x.
Proof.
  intros Hj Ht. unfold picked. rewrite list_lookup_fmap, Hj. simpl.
  destruct (lookup_lt_is_Some_2 l t Ht) as [x Hx].
  exists x. by rewrite (nth_lookup_Some _ _ _ _ Hx).
Qed.

Lemma selected_positions_Err (ver_len max_num_neighbor : nat) (seed : seed_t) (e : error) :
  max_num_neighbor < ver_len →
  selected_positions ver_len max_num_neighbor seed = Err e → e = OutOfRandomness.
Proof.
  intros Hlt. unfold selected_positions. case_decide.
  - intros [Hrun|((l & sd) & _ & [=])]%bind_Err.
    apply RandomSample_Err in Hrun as [->|[_ ?]]; [done|lia].
  - intros [Hrun|((l & sd) & _ & [=])]%bind_Err.
    apply RandomSample_Err in Hrun as [->|[_ ?]]; [done|lia].
Qed.

Lemma GetUniformSample_safe (edge_id_list vid_list : list dgl_id_t)
    (ver_len max_num_neighbor : nat) (seed : seed_t) :
  ver_len ≤ length vid_list → ver_len ≤ length edge_id_list →
  safe (max_num_neighbor < ver_len)
    (λ r, ∃ idxs,
       length idxs = ver_len `min` max_num_neighbor
       ∧ StronglySorted lt idxs ∧ Forall (λ t, t < ver_len) idxs
       ∧ r.1.1 = picked vid_list idxs ∧ r.1.2 = picked edge_id_list idxs)
    (GetUniformSample edge_id_list vid_list ver_len max_num_neighbor [] [] seed).
Proof.
  intros Hv He. destruct (decide (ver_len ≤ max_num_neighbor)) as [Hle|Hlt].
  - rewrite GetUniformSample_copy by done. simpl.
    exists (seq 0 ver_len). rewrite length_seq, !picked_seq by done.
    split; [lia|]. split; [apply StronglySorted_lt_seq|]. split; [|done].
    apply Forall_forall. intros t [_ Ht]%elem_of_seq. lia.
  - rewrite GetUniformSample_sample by (done || lia).
    destruct (selected_positions ver_len max_num_neighbor seed) as [[idxs sd]|e] eqn:Hsel.
    + apply selected_positions_Ok in Hsel as (Hlen & Hsorted & Hrange); [|lia].
      simpl. exists idxs. split; [lia|]. done.
    + apply selected_positions_Err in Hsel as ->; [|lia]. simpl. split; [done|lia].
Qed.

(** *** One vertex *)

Lemma foldl_enqueue_spec (lvl : nat) (src : list dgl_id_t) (m : gset dgl_id_t)
    (sv : list (dgl_id_t * nat)) :
  ∃ add,
    foldl (SampleSubgraph.enqueue lvl) (m, sv) src = (m ∪ list_to_set add.*1, sv ++ add)
    ∧ NoDup add.*1
    ∧ (∀ w, w ∈ add.*1 → w ∉ m ∧ w ∈ src)
    ∧ Forall (λ p, p.2 = lvl + 1) add
    ∧ (∀ w, w ∈ src → w ∈ m ∪ list_to_set add.*1).
Proof.
  revert m sv. induction src as [|v src IH]; intros m sv.
  - exists []. simpl. rewrite app_nil_r, union_empty_r_L.
    split; [done|]. split; [constructor|]. split; [intros w Hw; by apply elem_of_nil in Hw|].
    split; [done|]. intros w Hw. by apply elem_of_nil in Hw.
  - assert (SampleSubgraph.enqueue lvl (m, sv) v
            = if decide (v ∈ m) then (m, sv) else ({[v]} ∪ m, sv ++ [(v, lvl + 1)])) as Heq
      by done.
    cbn [foldl]. rewrite Heq. clear Heq. case_decide as Hin.
    + destruct (IH m sv) as (add & -> & Hnd & Hfresh & Hlvl & Hall).
      exists add. split; [done|]. split; [done|]. split; [|split; [done|]].
      * intros w Hw. destruct (Hfresh w Hw). split; [done|]. by right.
      * intros w [->|Hw]%elem_of_cons; [set_solver|by apply Hall].
    + destruct (IH ({[v]} ∪ m) (sv ++ [(v, lvl + 1)])) as (add & -> & Hnd & Hfresh & Hlvl & Hall).
      exists ((v, lvl + 1) :: add). simpl. split; [|split; [|split; [|split]]].
      * f_equal; [set_solver|by rewrite <- app_assoc].
      * apply NoDup_cons. split; [|done]. intros Hv. apply Hfresh in Hv as [Hv _]. set_solver.
      * intros w [->|Hw]%elem_of_cons; [split; [done|by left]|].
        destruct (Hfresh w Hw) as [Hwm Hws]. split; [set_solver|by right].
      * by apply Forall_cons.
      * intros w [->|Hw]%elem_of_cons; [set_solver|]. apply Hall in Hw. set_solver.
Qed.

Section expand_safe.
Variable csr : CSR.
Variables n k : nat.
Hypothesis csr_wf : csr_ok csr n.

Lemma expand_vertex_safe (s : SampleSubgraph.state) (idx v lvl : nat) :
  SampleSubgraph.sub_vers s !! idx = Some (v, lvl) → v < n →
  safe (k < degree csr v)
    (λ s', ∃ src edges seed' idxs m' sv',
       foldl (SampleSubgraph.enqueue lvl)
             (SampleSubgraph.sub_ver_map s, SampleSubgraph.sub_vers s) src = (m', sv')
       ∧ s' = {| SampleSubgraph.sub_ver_map := m';
                 SampleSubgraph.sub_vers := sv';
                 SampleSubgraph.neigh_pos := SampleSubgraph.neigh_pos s ++
                   [ {| neighbor_info.id := v;
                        neighbor_info.pos := length (SampleSubgraph.neighbor_list s);
                        neighbor_info.num_edges := length src |} ];
                 SampleSubgraph.neighbor_list := SampleSubgraph.neighbor_list s ++ src;
                 SampleSubgraph.edge_list := SampleSubgraph.edge_list s ++ edges;
                 SampleSubgraph.layer_offsets := SampleSubgraph.layer_offsets s;
                 SampleSubgraph.num_edges := SampleSubgraph.num_edges s + length src;
                 SampleSubgraph.time_seed := seed' |}
       ∧ length src = degree csr v `min` k ∧ length edges = length src
       ∧ length idxs = length src ∧ StronglySorted lt idxs
       ∧ ∀ j t, idxs !! j = Some t →
           ∃ w eid, csr_slot csr v t w eid ∧ src !! j = Some w ∧ edges !! j = Some eid)
    (SampleSubgraph.expand_vertex csr None k s idx).
Proof.
  intros Hidx Hv. unfold SampleSubgraph.expand_vertex.
  rewrite (proj2 (index_Ok _ _ _) Hidx). run_Ok. cbn [fst snd].
  rewrite Nat.add_1_r.
  rewrite (proj2 (index_Ok _ _ _) (csr_off_lookup csr n (S v) csr_wf ltac:(lia))). run_Ok.
  rewrite (proj2 (index_Ok _ _ _) (csr_off_lookup csr n v csr_wf ltac:(lia))). run_Ok.
  pose proof (co_mono _ _ csr_wf v Hv) as Hmono.
  pose proof (csr_off_le csr n csr_wf (S v) n ltac:(lia)) as Htop.
  pose proof (co_indices _ _ csr_wf) as Hci. pose proof (co_edge_ids _ _ csr_wf) as Hce.
  rewrite usub_le by done. fold (degree csr v).
  eapply safe_bind.
  { apply GetUniformSample_safe; rewrite length_drop; unfold degree; lia. }
  intros [[src edges] seed'] (idxs & Hlen & Hsorted & Hrange & Hsrc & Hedges).
  simpl in Hsrc, Hedges. cbv beta iota.
  assert (length src = length idxs) as Hls by (by rewrite Hsrc; unfold picked; rewrite length_map).
  assert (length edges = length idxs) as Hle
    by (by rewrite Hedges; unfold picked; rewrite length_map).
  rewrite bool_decide_eq_true_2 by lia. simpl.
  destruct (foldl _ _ src) as [m' sv'] eqn:Hfold. simpl.
  exists src, edges, seed', idxs, m', sv'.
  split; [done|]. split; [done|]. split; [lia|]. split; [lia|]. split; [lia|].
  split; [done|]. intros j t Hj.
  assert (t < degree csr v) as Ht.
  { rewrite Forall_forall in Hrange. apply Hrange. by eapply list_elem_of_lookup_2. }
  destruct (picked_lookup (drop (off (indptr csr) v) (indices csr)) idxs j t Hj)
    as (w & Hw & Hcol); [rewrite length_drop; unfold degree in Ht; lia|].
  destruct (picked_lookup (drop (off (indptr csr) v) (edge_ids csr)) idxs j t Hj)
    as (eid & He & Heid); [rewrite length_drop; unfold degree in Ht; lia|].
  rewrite lookup_drop in Hcol, Heid.
  exists w, eid. split; [by split|]. by rewrite Hsrc, Hedges.
Qed.

(** Rows recorded once stay as they are when the buffers grow. *)
Lemma row_sampled_grow (s s' : SampleSubgraph.state) (i : nat) (np : neighbor_info.t) :
  row_sampled csr k s i np → i < length (SampleSubgraph.neigh_pos s) →
  (∃ a, SampleSubgraph.sub_vers s' = SampleSubgraph.sub_vers s ++ a) →
  (∃ a, SampleSubgraph.neigh_pos s' = SampleSubgraph.neigh_pos s ++ a) →
  (∃ a, SampleSubgraph.neighbor_list s' = SampleSubgraph.neighbor_list s ++ a) →
  (∃ a, SampleSubgraph.edge_list s' = SampleSubgraph.edge_list s ++ a) →
  row_sampled csr k s' i np.
Proof.
  intros (lvl & idxs & Hsv & Hpos & Hne & Hlen & Hsorted & Hslots) Hi
    [a1 H1] [a2 H2] [a3 H3] [a4 H4].
  exists lvl, idxs. rewrite H1, H2, H3, H4.
  split; [by apply lookup_app_l_Some|]. split.
  { rewrite Hpos. unfold row_pos. by rewrite take_app_le by lia. }
  split; [done|]. split; [done|]. split; [done|].
  intros j t Hj. destruct (Hslots j t Hj) as (w & eid & i' & Hslot & Hn & He & Hq).
  exists w, eid, i'. split; [done|].
  split; [by apply lookup_app_l_Some|]. split; by apply lookup_app_l_Some.
Qed.

Variable upto : nat.
Variable sv0 : list (dgl_id_t * nat).
Variable lo0 : list nat.
Hypothesis upto_pos : 1 ≤ upto.
Hypothesis top0 : off lo0 upto = length sv0.
Hypothesis first0 : off lo0 (upto - 1) ≤ off lo0 upto.
Hypothesis levels0 : ∀ i p,
  off lo0 (upto - 1) ≤ i < off lo0 upto → sv0 !! i = Some p → p.2 = upto - 1.

Lemma expanding_step (j : nat) (s : SampleSubgraph.state) :
  j < off lo0 upto - off lo0 (upto - 1) →
  expanding csr n k upto sv0 lo0 j s →
  safe (needs_random csr n k) (expanding csr n k upto sv0 lo0 (S j))
    (SampleSubgraph.expand_vertex csr None k s (off lo0 (upto - 1) + j)).
Proof.
  intros Hj [Hlo (new & Hsv & Hnd & Hmap & Hlvl) Hrl [Hne Hel Htot Hvalid Hrows]].
  set (idx := off lo0 (upto - 1) + j).
  destruct (lookup_lt_is_Some_2 sv0 idx ltac:(lia)) as [[v lvl] Hidx0].
  assert (lvl = upto - 1) as -> by (apply (levels0 idx (v, lvl)); [lia|done]).
  assert (SampleSubgraph.sub_vers s !! idx = Some (v, upto - 1)) as Hidx
    by (rewrite Hsv; by apply lookup_app_l_Some).
  assert (v < n) as Hv by exact (Hvalid idx (v, upto - 1) Hidx).
  eapply safe_mono; [| |apply (expand_vertex_safe s idx v (upto - 1) Hidx Hv)].
  { intros Hdeg. by exists v. }
  intros s' (src & edges & seed' & idxs & m' & sv' & Hfold & -> & Hls & Hle & Hli & Hsorted
             & Hslots).
  destruct (foldl_enqueue_spec (upto - 1) src (SampleSubgraph.sub_ver_map s)
              (SampleSubgraph.sub_vers s)) as (add & Hfold' & Hadd_nd & Hfresh & Hadd_lvl & Hall).
  rewrite Hfold in Hfold'. injection Hfold' as -> ->.
  assert (∀ w, w ∈ src → w < n) as Hsrc_valid.
  { intros w [j' Hj']%list_elem_of_lookup.
    destruct (lookup_lt_is_Some_2 idxs j') as [t Ht];
      [rewrite Hli; by eapply lookup_lt_Some|].
    destruct (Hslots j' t Ht) as (w' & eid & Hslot & Hw' & _).
    rewrite Hj' in Hw'. injection Hw' as <-. by eapply csr_slot_lt. }
  constructor; simpl.
  - done.
  - exists (new ++ add). rewrite Hsv, <- app_assoc. split; [done|].
    rewrite fmap_app. split; [|split].
    + apply NoDup_app. split; [done|]. split; [|done].
      intros w Hw Hw'. apply Hfresh in Hw' as [Hw' _]. apply Hw'.
      rewrite Hmap. by apply elem_of_list_to_set.
    + rewrite Hmap, list_to_set_app_L. done.
    + apply Forall_app. split; [done|].
      eapply Forall_impl; [exact Hadd_lvl|]. intros p Hp. simpl in Hp. lia.
  - rewrite length_app. simpl. lia.
  - constructor; simpl.
    + rewrite length_app. lia.
    + rewrite !length_app. lia.
    + rewrite length_app, Htot. unfold row_pos.
      rewrite !take_ge by (rewrite ?length_app; simpl; lia).
      rewrite sum_list_with_app. simpl. lia.
    + intros i p [Hp|[_ Hp]]%lookup_app_Some; [by eapply Hvalid|].
      apply list_elem_of_lookup_2 in Hp.
      assert (p.1 ∈ add.*1) as Hin by (apply list_elem_of_fmap; by exists p).
      apply Hfresh in Hin as [_ Hin]. by apply Hsrc_valid.
    + intros i np [Hnp|[Hi Hnp]]%lookup_app_Some.
      * eapply (row_sampled_grow s); [by apply Hrows|by eapply lookup_lt_Some|..]; simpl; eauto.
      * destruct (decide (i = length (SampleSubgraph.neigh_pos s))) as [->|];
          [|apply lookup_lt_Some in Hnp; simpl in Hnp; lia].
        rewrite Nat.sub_diag in Hnp. injection Hnp as <-.
        exists (upto - 1), idxs. simpl.
        split; [apply lookup_app_l_Some; by rewrite Hrl|].
        split; [rewrite Htot; unfold row_pos; by rewrite take_app_length, firstn_all|].
        split; [done|]. split; [done|]. split; [done|].
        intros j' t Hjt. destruct (Hslots j' t Hjt) as (w & eid & Hslot & Hw & He).
        assert (w ∈ SampleSubgraph.sub_ver_map s ∪ list_to_set add.*1) as Hin
          by (apply Hall; by eapply list_elem_of_lookup_2).
        assert (w ∈ (new ++ add).*1) as Hin'.
        { rewrite fmap_app. rewrite Hmap in Hin. set_solver. }
        apply list_elem_of_fmap in Hin' as ([w' lw] & Hw' & Hin'). simpl in Hw'. subst w'.
        assert (lw = upto) as ->.
        { apply elem_of_app in Hin' as [Hin'|Hin'].
          - rewrite Forall_forall in Hlvl. exact (Hlvl _ Hin').
          - rewrite Forall_forall in Hadd_lvl. specialize (Hadd_lvl _ Hin'). simpl in *. lia. }
        apply list_elem_of_lookup in Hin' as [q Hq].
        exists w, eid, (length sv0 + q). split; [done|].
        split; [rewrite lookup_app_r by lia; by replace (_ + j' - _) with j' by lia|].
        split; [rewrite lookup_app_r by lia; by replace (_ + j' - _) with j' by lia|].
        rewrite Hsv, <- app_assoc, lookup_app_r by lia.
        replace (length sv0 + q - length sv0) with q by lia.
        rewrite Hq. do 2 f_equal. lia.
Qed.
End expand_safe.

(** *** One layer *)

Lemma expand_layer_rows (csr : CSR) (n k num_hops layer_id : nat) (s : SampleSubgraph.state) :
  csr_ok csr n → 1 ≤ layer_id < num_hops →
  expanded csr n k num_hops layer_id s →
  safe (needs_random csr n k)
    (λ s', (∃ new, SampleSubgraph.sub_vers s' = SampleSubgraph.sub_vers s ++ new
                   ∧ Forall (λ p, p.2 = layer_id) new
                   ∧ SampleSubgraph.layer_offsets s'
                     = <[layer_id + 1 := length (SampleSubgraph.sub_vers s) + length new]>
                         (SampleSubgraph.layer_offsets s))
           ∧ length (SampleSubgraph.neigh_pos s')
             = off (SampleSubgraph.layer_offsets s) layer_id
           ∧ rows_sampled csr n k s')
    (SampleSubgraph.expand_layer csr None k s layer_id).
Proof.
  intros Hcsr Hl [[Hlen Hzero Htop Hlayers] Hlevels Hrl Hrows].
  destruct (Hlayers (layer_id - 1) ltac:(lia)) as (first & last & Hf & Hla & Hle & _).
  replace (S (layer_id - 1)) with layer_id in Hla by lia.
  rewrite Htop in Hla. injection Hla as <-.
  unfold SampleSubgraph.expand_layer. cbn [SampleSubgraph.layer_offsets].
  rewrite (proj2 (index_Ok _ _ _) Hf). run_Ok.
  rewrite (proj2 (index_Ok _ _ _) Htop). run_Ok.
  set (sv0 := SampleSubgraph.sub_vers s) in *.
  set (lo0 := SampleSubgraph.layer_offsets s) in *.
  pose proof (off_lookup _ _ _ Hf) as Hoff1. pose proof (off_lookup _ _ _ Htop) as Hoff2.
  eapply safe_bind.
  { apply (foldM_seq_safe _ _ (λ i st, expanding csr n k layer_id sv0 lo0 (i - first) st)).
    - intros i st Hi Hst.
      replace (S i - first) with (S (i - first)) by lia.
      replace i with (off lo0 (layer_id - 1) + (i - first)) at 1 by lia.
      apply (expanding_step csr n k Hcsr layer_id sv0 lo0); [lia|lia|lia| |lia|done].
      intros i' p Hi' Hp. apply (Hlevels (layer_id - 1) i' p); [lia| |done].
      by replace (S (layer_id - 1)) with layer_id by lia.
    - rewrite Nat.sub_diag. constructor; simpl.
      + done.
      + exists []. rewrite app_nil_r. split; [done|]. split; [constructor|]. done.
      + rewrite Hrl. lia.
      + destruct Hrows as [H1 H2 H3 H4 H5]. by constructor. }
  intros s1 [Hlo1 (new & Hsv1 & Hnd & Hmap & Hlvl) Hrl1 Hrows1].
  replace (first + (length sv0 - first) - first) with (length sv0 - first) in Hrl1 by lia.
  cbv beta. rewrite Hlo1. rewrite (proj2 (index_Ok _ _ _) Htop). run_Ok.
  unfold store. rewrite decide_True by lia. run_Ok.
  unfold index. rewrite list_lookup_insert_eq by lia. run_Ok.
  rewrite Hmap, size_list_to_set, length_fmap by done.
  rewrite bool_decide_eq_true_2 by (by rewrite Hsv1, length_app). simpl.
  split; [|split].
  - by exists new.
  - lia.
  - destruct Hrows1 as [H1 H2 H3 H4 H5]. by constructor.
Qed.

Lemma expand_layer_safe (csr : CSR) (n k num_hops layer_id : nat) (s : SampleSubgraph.state) :
  csr_ok csr n → 1 ≤ layer_id < num_hops →
  expanded csr n k num_hops layer_id s →
  safe (needs_random csr n k)
    (λ s', expanded csr n k num_hops (S layer_id) s'
           ∧ (∃ new, SampleSubgraph.sub_vers s' = SampleSubgraph.sub_vers s ++ new)
           ∧ ∀ l, l ≤ layer_id → off (SampleSubgraph.layer_offsets s') l
                                 = off (SampleSubgraph.layer_offsets s) l)
    (SampleSubgraph.expand_layer csr None k s layer_id).
Proof.
  intros Hcsr Hl Hex.
  pose proof (expand_layer_rows csr n k num_hops layer_id s Hcsr Hl Hex) as Hsafe.
  destruct (SampleSubgraph.expand_layer csr None k s layer_id) as [s'|e] eqn:Hrun; [|done].
  simpl in *. destruct Hsafe as ((new & Hsv & Hlvl & Hlo) & Hrl & Hrows).
  pose proof (expand_layer_ok csr None num_hops k s s' layer_id (proj1 Hl) Hrun
                (ex_layers _ _ _ _ _ _ Hex)) as Hlayers.
  destruct Hex as [[Hlen Hzero Htop Hlayers0] Hlevels _ _].
  assert (∀ l, l ≤ layer_id → off (SampleSubgraph.layer_offsets s') l
                              = off (SampleSubgraph.layer_offsets s) l) as Hoff.
  { intros l Hle. unfold off. rewrite Hlo. by rewrite list_lookup_insert_ne by lia. }
  split; [|split; [by exists new|done]].
  constructor.
  - done.
  - intros l i p Hlt Hi Hp.
    assert (off (SampleSubgraph.layer_offsets s') (S layer_id)
            = length (SampleSubgraph.sub_vers s) + length new) as Htop'.
    { unfold off. rewrite Hlo. replace (layer_id + 1) with (S layer_id) by lia.
      by rewrite list_lookup_insert_eq by lia. }
    pose proof (off_lookup _ _ _ Htop) as Htop0.
    destruct (decide (l = layer_id)) as [->|Hne].
    + rewrite Hoff, Htop0 in Hi by lia. rewrite Htop' in Hi.
      rewrite Hsv, lookup_app_r in Hp by lia.
      rewrite Forall_forall in Hlvl. apply Hlvl. by eapply list_elem_of_lookup_2.
    + rewrite !Hoff in Hi by lia.
      destruct (Hlayers0 l ltac:(lia)) as (first & last & Hf & Hla & Hle & _).
      apply off_lookup in Hf, Hla. rewrite Hf, Hla in Hi.
      apply (Hlevels l i p); [lia|lia|].
      rewrite Hsv, lookup_app_l in Hp by lia. done.
  - rewrite Hrl. replace (S layer_id - 1) with layer_id by lia. by rewrite Hoff.
  - done.
Qed.

(** *** The seeds, and all the layers *)

Lemma add_seeds_Ok (seed_arr : list dgl_id_t) :
  ∃ m sv,
    foldM (SampleSubgraph.add_seed seed_arr) (seq 0 (length seed_arr)) (∅, []) = Ok (m, sv)
    ∧ NoDup sv.*1 ∧ m = list_to_set sv.*1 ∧ Forall (λ p, p.2 = 0) sv
    ∧ ∀ v, v ∈ sv.*1 ↔ v ∈ seed_arr.
Proof.
  destruct (foldM_seq_total (SampleSubgraph.add_seed seed_arr)
              (λ i st, NoDup st.2.*1 ∧ st.1 = list_to_set st.2.*1 ∧ Forall (λ p, p.2 = 0) st.2
                       ∧ ∀ v, v ∈ st.2.*1 ↔ v ∈ take i seed_arr)
              0 (length seed_arr) (∅, [])) as ([m sv] & Hrun & Hnd & Hm & Hlvl & Hin).
  - intros i [m sv] Hi (Hnd & Hm & Hlvl & Hin). simpl in *.
    destruct (lookup_lt_is_Some_2 seed_arr i ltac:(lia)) as [v Hv].
    unfold SampleSubgraph.add_seed. rewrite (proj2 (index_Ok _ _ _) Hv). run_Ok.
    assert (∀ w, w ∈ take (S i) seed_arr ↔ w ∈ take i seed_arr ∨ w = v) as Htake.
    { intros w. rewrite (take_S_r _ _ _ Hv), elem_of_app, list_elem_of_singleton. done. }
    case_decide as Hvm.
    + eexists. split; [done|]. simpl. split; [done|]. split; [done|]. split; [done|].
      intros w. rewrite Htake, <- Hin. split; [by left|]. intros [?| ->]; [done|].
      rewrite Hm in Hvm. by apply elem_of_list_to_set in Hvm.
    + eexists. split; [done|]. simpl. rewrite fmap_app. simpl. split; [|split; [|split]].
      * apply NoDup_app. split; [done|]. split; [|apply NoDup_singleton].
        intros w Hw ->%list_elem_of_singleton. apply Hvm. rewrite Hm.
        by apply elem_of_list_to_set.
      * rewrite list_to_set_app_L, Hm. simpl. set_solver.
      * apply Forall_app. split; [done|]. by apply Forall_singleton.
      * intros w. rewrite Htake, elem_of_app, list_elem_of_singleton, Hin. done.
  - simpl. split; [constructor|]. split; [done|]. split; [done|]. done.
  - simpl in *. rewrite firstn_all in Hin. by exists m, sv.
Qed.

Lemma expand_safe (graph : ImmutableGraph) (seed_arr : list dgl_id_t) (edge_type : string)
    (num_hops k : nat) (time_seed : seed_t) (csr : CSR) (n : nat) :
  view graph edge_type = Ok csr → csr_ok csr n → Forall (λ v, v < n) seed_arr →
  1 ≤ num_hops →
  safe (needs_random csr n k)
    (λ s, expanded csr n k num_hops num_hops s
          ∧ ∀ v, v ∈ layer_vertices (SampleSubgraph.sub_vers s)
                       (SampleSubgraph.layer_offsets s) 0 ↔ v ∈ seed_arr)
    (SampleSubgraph.expand graph seed_arr None edge_type num_hops k time_seed).
Proof.
  intros Hview Hcsr Hseeds Hnh. unfold SampleSubgraph.expand.
  unfold view in Hview. rewrite Hview. run_Ok.
  destruct (add_seeds_Ok seed_arr) as (m & sv & -> & Hnd & Hm & Hlvl & Hin). run_Ok.
  unfold store. rewrite decide_True by (rewrite length_replicate; lia). run_Ok.
  rewrite decide_True by (rewrite length_insert, length_replicate; lia). run_Ok.
  set (lo1 := <[1:=length sv]> (<[0:=0]> (replicate (num_hops + 1) 0))).
  assert (lo1 !! 0 = Some 0) as Hlo0.
  { unfold lo1. rewrite list_lookup_insert_ne by lia.
    by rewrite list_lookup_insert_eq by (rewrite length_replicate; lia). }
  assert (lo1 !! 1 = Some (length sv)) as Hlo1.
  { unfold lo1. by rewrite list_lookup_insert_eq
      by (rewrite length_insert, length_replicate; lia). }
  eapply safe_mono; [done| |].
  2: { apply (foldM_seq_safe _ _ (λ i s,
         expanded csr n k num_hops i s
         ∧ take (length sv) (SampleSubgraph.sub_vers s) = sv
         ∧ SampleSubgraph.layer_offsets s !! 1 = Some (length sv))).
       - intros i s Hi (Hex & Htake & Hl1).
         eapply safe_mono; [done| |apply (expand_layer_safe csr n k num_hops i s); [done|lia|done]].
         intros s' (Hex' & [new Hsv'] & Hoff). split; [done|].
         assert (length sv ≤ length (SampleSubgraph.sub_vers s)) as Hle.
         { rewrite <- Htake at 1. rewrite length_take. lia. }
         split; [rewrite Hsv', take_app_le by done; exact Htake|].
         destruct (lo_layers _ _ _ _ (ex_layers _ _ _ _ _ _ Hex') 0 ltac:(lia))
           as (f & l & _ & Hl & _).
         rewrite Hl. f_equal. apply off_lookup in Hl, Hl1.
         rewrite <- Hl, <- Hl1. apply Hoff. lia.
       - simpl. split; [|split; [by rewrite firstn_all|done]].
         constructor; simpl.
         + constructor.
           * unfold lo1. by rewrite !length_insert, length_replicate.
           * done.
           * done.
           * intros l Hl. assert (l = 0) as -> by lia. exists 0, (length sv).
             split; [done|]. split; [done|]. split; [lia|].
             unfold layer_slice. by rewrite drop_0, Nat.sub_0_r, firstn_all.
         + intros l i p Hl _ Hp. assert (l = 0) as -> by lia.
           rewrite Forall_forall in Hlvl. apply Hlvl. by eapply list_elem_of_lookup_2.
         + unfold off. by rewrite Hlo0.
         + constructor; simpl.
           * done.
           * done.
           * done.
           * intros i p Hp. rewrite Forall_forall in Hseeds. apply Hseeds, Hin.
             apply list_elem_of_fmap. exists p. split; [done|]. by eapply list_elem_of_lookup_2.
           * intros i np Hnp. by rewrite lookup_nil in Hnp. }
  intros s (Hex & Htake & Hl1). replace (1 + (num_hops - 1)) with num_hops in Hex by lia.
  split; [done|]. intros v. rewrite <- Hin. unfold layer_vertices.
  rewrite (lo_zero _ _ _ _ (ex_layers _ _ _ _ _ _ Hex)), Hl1.
  unfold layer_slice. by rewrite drop_0, Nat.sub_0_r, Htake.
Qed.


(** ** The NodeFlow of an expansion *)

Ltac run_check := change (CHECK true ≫= ?k) with (k ()); cbv beta iota.

Lemma sort_by_key {A} (key : A → nat) (l : list A) :
  key <$> sort_by key l = sort_by id (key <$> l).
Proof.
  apply (StronglySorted_unique (key_le id)).
  - apply (StronglySorted_fmap key (key_le key)); [done|apply sort_by_sorted].
  - apply sort_by_sorted.
  - by rewrite !sort_by_perm.
Qed.

Lemma store_lt {A} (v : list A) (i : nat) (x : A) :
  i < length v → store v i x = Ok (<[i:=x]> v).
Proof. intros Hi. unfold store. by rewrite decide_True. Qed.

Lemma sort_range_total {A} (key : A → nat) (v : list A) (first last : nat) :
  first ≤ last ≤ length v → ∃ v', sort_range key v first last = Ok v'.
Proof. intros Hle. unfold sort_range. rewrite decide_True by done. eauto. Qed.

Section layers.
Variable lo : list nat.
Variable sv0 : list (dgl_id_t * nat).
Variable nh : nat.
Hypothesis layers : layers_ok nh nh sv0 lo.
Hypothesis levels : ∀ l i p,
  l < nh → off lo l ≤ i < off lo (S l) → sv0 !! i = Some p → p.2 = l.

Lemma layers_lookup (l : nat) : l ≤ nh → lo !! l = Some (off lo l).
Proof.
  intros Hl. unfold off. destruct (lookup_lt_is_Some_2 lo l) as [x ->]; [|done].
  rewrite (lo_length _ _ _ _ layers). lia.
Qed.

Lemma layers_mono (l : nat) : l < nh → off lo l ≤ off lo (S l) ≤ length sv0.
Proof.
  intros Hl. destruct (lo_layers _ _ _ _ layers l Hl) as (first & last & Hf & Hla & Hle & _).
  apply off_lookup in Hf, Hla. lia.
Qed.

Lemma layers_zero : off lo 0 = 0.
Proof. apply off_lookup, (lo_zero _ _ _ _ layers). Qed.

Lemma layers_top : off lo nh = length sv0.
Proof. apply off_lookup, (lo_top _ _ _ _ layers). Qed.

Lemma layers_le (l l' : nat) : l ≤ l' ≤ nh → off lo l ≤ off lo l'.
Proof.
  intros Hl. by destruct (off_chain lo sv0 nh l (λ l'' Hl'', layers_mono l'' (proj2 Hl'')) l' Hl).
Qed.

Lemma layers_le_top (l : nat) : l ≤ nh → off lo l ≤ length sv0.
Proof. intros Hl. rewrite <- layers_top. by apply layers_le. Qed.

(** Every position of the queue is in one layer. *)
Lemma layer_find (i : nat) :
  i < length sv0 → ∃ l, l < nh ∧ off lo l ≤ i < off lo (S l).
Proof.
  intros Hi. rewrite <- layers_top in Hi.
  assert (∀ m, m ≤ nh → i < off lo m → ∃ l, l < m ∧ off lo l ≤ i < off lo (S l)) as Hfind.
  { induction m as [|m IH]; intros Hm Him; [rewrite layers_zero in Him; lia|].
    destruct (decide (off lo m ≤ i)) as [Hge|Hlt]; [exists m; lia|].
    destruct (IH ltac:(lia) ltac:(lia)) as (l & Hl & Hil). exists l. split; [lia|done]. }
  destruct (Hfind nh (le_n _) Hi) as (l & Hl & Hil). by exists l.
Qed.

Lemma level_layer (i l : nat) (p : dgl_id_t * nat) :
  sv0 !! i = Some p → p.2 = l → l < nh ∧ off lo l ≤ i < off lo (S l).
Proof.
  intros Hp Hl. destruct (layer_find i (lookup_lt_Some _ _ _ Hp)) as (l' & Hl' & Hi).
  pose proof (levels l' i p Hl' Hi Hp). by replace l with l' by lia.
Qed.

(** The vertices of a layer, sorted, still have the layer's level. *)
Lemma sorted_layer_level (l q : nat) (p : dgl_id_t * nat) :
  l < nh → sorted_layer sv0 lo l !! q = Some p → p.2 = l.
Proof.
  intros Hl Hq. apply list_elem_of_lookup_2 in Hq. unfold sorted_layer in Hq.
  rewrite sort_by_perm in Hq. apply list_elem_of_lookup in Hq as [q' Hq'].
  pose proof (lookup_lt_Some _ _ _ Hq') as Hlt.
  pose proof (layers_mono l Hl) as Hle.
  rewrite layer_slice_length in Hlt by done.
  rewrite layer_slice_lookup in Hq' by done.
  apply (levels l (off lo l + q') p); [done|lia|done].
Qed.

(** *** The first loop returns *)

Lemma save_vertex_total (l q : nat) (st : ConstructNodeFlow.ids_state) :
  l < nh → q < off lo (S l) - off lo l →
  ids_inv lo sv0 nh l q st →
  ∃ st', ConstructNodeFlow.save_vertex l st (off lo l + q) = Ok st'
         ∧ ConstructNodeFlow.sub_vers st' = ConstructNodeFlow.sub_vers st.
Proof.
  intros Hl Hq Hinv. pose proof (layers_mono l Hl) as Hle.
  pose proof (layers_le (S l) nh ltac:(lia)) as Hle'. pose proof layers_top as Htop.
  destruct Hinv as [_ Hlen _ Hslice Hidx _ Hlnm _ Hlmaps _ _].
  destruct (lookup_lt_is_Some_2 (ConstructNodeFlow.sub_vers st) (off lo l + q))
    as [p Hp]; [lia|].
  assert (p.2 = l) as Hlvl.
  { apply (sorted_layer_level l q p Hl). rewrite <- Hslice.
    by rewrite layer_slice_lookup. }
  destruct (lookup_lt_is_Some_2 (ConstructNodeFlow.layer_ver_maps st) l) as [m Hm]; [lia|].
  unfold ConstructNodeFlow.save_vertex.
  rewrite (proj2 (at_Ok _ _ _) Hp). run_Ok.
  unfold store. rewrite decide_True; [|rewrite Hidx, Hlnm; unfold rank; lia]. run_Ok.
  rewrite (proj2 (index_Ok _ _ _) Hm). run_Ok.
  rewrite bool_decide_eq_true_2 by done. simpl. eauto.
Qed.

Lemma save_layer_total (l : nat) (st : ConstructNodeFlow.ids_state) :
  l < nh →
  ids_done lo sv0 nh (S l) st →
  (∀ l', S l ≤ l' < nh →
     layer_slice (ConstructNodeFlow.sub_vers st) (off lo l') (off lo (S l'))
     = sorted_layer sv0 lo l') →
  ∃ st', ConstructNodeFlow.save_layer lo st l = Ok st'
         ∧ ids_done lo sv0 nh l st'
         ∧ ∀ l', l ≤ l' < nh →
             layer_slice (ConstructNodeFlow.sub_vers st') (off lo l') (off lo (S l'))
             = sorted_layer sv0 lo l'.
Proof.
  intros Hl Hdone Hsorted. pose proof (layers_mono l Hl) as Hle.
  destruct (sort_range_total fst (ConstructNodeFlow.sub_vers st) (off lo l) (off lo (S l)))
    as [sv' Hsort]; [rewrite (id_len_sv _ _ _ _ _ Hdone); lia|].
  pose proof (ids_done_sorted lo sv0 nh l st sv' Hl Hdone Hsort) as Hinv0.
  set (st0 := {| ConstructNodeFlow.sub_vers := sv';
                 ConstructNodeFlow.node_map_data := ConstructNodeFlow.node_map_data st;
                 ConstructNodeFlow.layer_ver_maps := ConstructNodeFlow.layer_ver_maps st;
                 ConstructNodeFlow.ver_id := ConstructNodeFlow.ver_id st;
                 ConstructNodeFlow.out_node_idx := ConstructNodeFlow.out_node_idx st |}) in *.
  destruct (foldM_seq_total (ConstructNodeFlow.save_vertex l)
              (λ i s, ids_inv lo sv0 nh l (i - off lo l) s ∧ ConstructNodeFlow.sub_vers s = sv')
              (off lo l) (off lo (S l) - off lo l) st0) as (st' & Hrun & Hinv & Hsv).
  { intros i s Hi [Hs Hsv].
    destruct (save_vertex_total l (i - off lo l) s Hl ltac:(lia) Hs) as (s' & Hstep & Hsv').
    replace (off lo l + (i - off lo l)) with i in Hstep by lia.
    exists s'. split; [done|]. split; [|congruence].
    replace (S i - off lo l) with (S (i - off lo l)) by lia.
    apply (save_vertex_inv lo sv0 nh l (i - off lo l) s s'); [done|lia|done|].
    by replace (off lo l + (i - off lo l)) with i by lia. }
  { by rewrite Nat.sub_diag. }
  replace (off lo l + (off lo (S l) - off lo l) - off lo l) with (off lo (S l) - off lo l)
    in Hinv by lia.
  exists st'. unfold ConstructNodeFlow.save_layer.
  rewrite (proj2 (index_Ok _ _ _) (layers_lookup l ltac:(lia))). run_Ok.
  rewrite Nat.add_1_r.
  rewrite (proj2 (index_Ok _ _ _) (layers_lookup (S l) ltac:(lia))). run_Ok.
  rewrite Hsort. run_Ok. split; [exact Hrun|].
  split; [by apply ids_inv_done|].
  intros l' Hl'. rewrite Hsv.
  apply sort_range_Ok in Hsort as (_ & Hlen' & _ & Hslice & Hdrop).
  destruct (decide (l' = l)) as [->|Hne].
  - exact (ii_slice _ _ _ _ _ _ Hinv0).
  - rewrite <- Hsorted by lia.
    pose proof (layers_mono l' ltac:(lia)) as Hle1.
    pose proof (layers_le (S l) l' ltac:(lia)) as Hle2.
    unfold layer_slice. f_equal.
    replace (off lo l') with (off lo (S l) + (off lo l' - off lo (S l))) by lia.
    by rewrite <- !drop_drop, Hdrop.
Qed.

Lemma save_vertices_total :
  ∃ s1, ConstructNodeFlow.save_vertices lo sv0 nh = Ok s1
        ∧ ids_done lo sv0 nh 0 s1
        ∧ ∀ l, l < nh →
            layer_slice (ConstructNodeFlow.sub_vers s1) (off lo l) (off lo (S l))
            = sorted_layer sv0 lo l.
Proof.
  unfold ConstructNodeFlow.save_vertices.
  destruct (foldM_total (ConstructNodeFlow.save_layer lo)
              (λ m st, ids_done lo sv0 nh (nh - m) st
                       ∧ ∀ l', nh - m ≤ l' < nh →
                           layer_slice (ConstructNodeFlow.sub_vers st) (off lo l')
                             (off lo (S l')) = sorted_layer sv0 lo l')
              (rev (seq 0 nh))
              {| ConstructNodeFlow.sub_vers := sv0;
                 ConstructNodeFlow.node_map_data := replicate (length sv0) 0;
                 ConstructNodeFlow.layer_ver_maps := replicate nh (∅ : gmap nat nat);
                 ConstructNodeFlow.ver_id := 0;
                 ConstructNodeFlow.out_node_idx := 0 |}) as (s1 & Hrun & Hdone & Hsorted).
  - intros m l st Hm [Hdone Hsorted]. apply rev_seq_lookup in Hm as [Hm ->].
    replace (nh - S m) with (nh - 1 - m) by lia.
    apply save_layer_total; [lia| |].
    + by replace (S (nh - 1 - m)) with (nh - m) by lia.
    + intros l' Hl'. apply Hsorted. lia.
  - rewrite Nat.sub_0_r. split; [|intros l' Hl'; lia].
    constructor; simpl.
    + intros l' Hl'. lia.
    + done.
    + done.
    + unfold rank. lia.
    + unfold rank. lia.
    + by rewrite length_replicate.
    + unfold rank. by rewrite !Nat.sub_diag.
    + by rewrite length_replicate.
    + intros l' m v i [-> _]%lookup_replicate Hv. by rewrite lookup_empty in Hv.
    + intros l' p v Hl'. lia.
  - rewrite length_rev, length_seq, Nat.sub_diag in Hdone, Hsorted.
    exists s1. split; [done|]. split; [done|]. intros l Hl. apply Hsorted. lia.
Qed.
End layers.

(** *** The loops of one row *)

Lemma map_neighbors_total (neighbor_list : list dgl_id_t) (m : gmap nat nat)
    (pos c0 num : nat) (col : list dgl_id_t) :
  (∀ j, j < num → ∃ w c, neighbor_list !! (pos + j) = Some w ∧ m !! w = Some c) →
  c0 + num ≤ length col →
  ∃ col',
    foldM (ConstructNodeFlow.map_neighbor neighbor_list m pos c0) (seq 0 num) col = Ok col'
    ∧ length col' = length col
    ∧ (∀ e, e < c0 → col' !! e = col !! e)
    ∧ ∀ j w c, j < num → neighbor_list !! (pos + j) = Some w → m !! w = Some c →
               col' !! (c0 + j) = Some c.
Proof.
  intros Hmap Hlen.
  destruct (foldM_seq_total (ConstructNodeFlow.map_neighbor neighbor_list m pos c0)
              (λ i st, length st = length col
                       ∧ (∀ e, e < c0 → st !! e = col !! e)
                       ∧ ∀ j w c, j < i → neighbor_list !! (pos + j) = Some w →
                                  m !! w = Some c → st !! (c0 + j) = Some c)
              0 num col) as (col' & Hrun & Hl & Hframe & Hcols).
  - intros i st Hi (Hl & Hframe & Hcols).
    destruct (Hmap i ltac:(lia)) as (w & c & Hw & Hc).
    unfold ConstructNodeFlow.map_neighbor. rewrite (proj2 (index_Ok _ _ _) Hw). run_Ok.
    rewrite Hc. unfold store. rewrite decide_True by lia.
    eexists. split; [done|]. split; [by rewrite length_insert|]. split.
    + intros e He. rewrite list_lookup_insert_ne by lia. by apply Hframe.
    + intros j w' c' Hj Hw' Hc'. destruct (decide (j = i)) as [->|Hne].
      * rewrite list_lookup_insert_eq by lia. congruence.
      * rewrite list_lookup_insert_ne by lia. apply (Hcols j w' c'); [lia|done|done].
  - split; [done|]. split; [done|]. intros j w c Hj. lia.
  - exists col'. split; [done|]. split; [done|]. split; [done|]. exact Hcols.
Qed.

Lemma copy_n_total {A} (src : list A) (pos num : nat) (dst : list A) (at_pos : nat) :
  pos + num ≤ length src → at_pos + num ≤ length dst →
  ∃ dst',
    ConstructNodeFlow.copy_n src pos num dst at_pos = Ok dst'
    ∧ length dst' = length dst
    ∧ (∀ e, e < at_pos → dst' !! e = dst !! e)
    ∧ ∀ j, j < num → dst' !! (at_pos + j) = src !! (pos + j).
Proof.
  intros Hsrc Hdst. unfold ConstructNodeFlow.copy_n.
  destruct (foldM_seq_total (λ dst i, x ← index src (pos + i); store dst (at_pos + i) x)
              (λ i st, length st = length dst
                       ∧ (∀ e, e < at_pos → st !! e = dst !! e)
                       ∧ ∀ j, j < i → st !! (at_pos + j) = src !! (pos + j))
              0 num dst) as (dst' & Hrun & Hl & Hframe & Hcopy).
  - intros i st Hi (Hl & Hframe & Hcopy).
    destruct (lookup_lt_is_Some_2 src (pos + i) ltac:(lia)) as [x Hx].
    rewrite (proj2 (index_Ok _ _ _) Hx). run_Ok.
    unfold store. rewrite decide_True by lia.
    eexists. split; [done|]. split; [by rewrite length_insert|]. split.
    + intros e He. rewrite list_lookup_insert_ne by lia. by apply Hframe.
    + intros j Hj. destruct (decide (j = i)) as [->|Hne].
      * by rewrite list_lookup_insert_eq by lia.
      * rewrite list_lookup_insert_ne by lia. apply Hcopy. lia.
  - split; [done|]. split; [done|]. intros j Hj. lia.
  - exists dst'. split; [done|]. split; [done|]. split; [done|]. exact Hcopy.
Qed.

(** *** Sums of neighbour counts *)

Lemma rows_from_le (neigh_pos : list neighbor_info.t) (a b : nat) :
  a ≤ b → rows_from neigh_pos b ≤ rows_from neigh_pos a.
Proof.
  intros Hab. unfold rows_from.
  replace b with (a + (b - a)) by lia. rewrite <- drop_drop.
  rewrite <- (take_drop (b - a) (drop a neigh_pos)) at 2.
  rewrite sum_list_with_app. lia.
Qed.

Lemma rows_from_slice (neigh_pos : list neighbor_info.t) (a b : nat) :
  a ≤ b →
  rows_from neigh_pos a
  = sum_list_with neighbor_info.num_edges (layer_slice neigh_pos a b) + rows_from neigh_pos b.
Proof.
  intros Hab. unfold rows_from, layer_slice.
  rewrite <- (take_drop (b - a) (drop a neigh_pos)) at 1.
  rewrite sum_list_with_app, drop_drop. do 3 f_equal. lia.
Qed.

Lemma row_pos_all (neigh_pos : list neighbor_info.t) :
  row_pos neigh_pos (length neigh_pos) = rows_from neigh_pos 0.
Proof. unfold row_pos, rows_from. by rewrite firstn_all, drop_0. Qed.

Lemma row_pos_le (neigh_pos : list neighbor_info.t) (i : nat) :
  row_pos neigh_pos i ≤ rows_from neigh_pos 0.
Proof.
  unfold row_pos, rows_from. rewrite drop_0.
  rewrite <- (take_drop i neigh_pos) at 2. rewrite sum_list_with_app. lia.
Qed.

Lemma sum_take_S {A} (f : A → nat) (l : list A) (q : nat) (x : A) :
  l !! q = Some x → sum_list_with f (take (S q) l) = sum_list_with f (take q l) + f x.
Proof. intros Hx. rewrite (take_S_r _ _ _ Hx), sum_list_with_app. simpl. lia. Qed.

Lemma sum_take_le {A} (f : A → nat) (l : list A) (q : nat) :
  sum_list_with f (take q l) ≤ sum_list_with f l.
Proof. rewrite <- (take_drop q l) at 2. rewrite sum_list_with_app. lia. Qed.

(** *** The second loop returns *)

Section rows_total.
Variable csr : CSR.
Variables n k nh : nat.
Variable s : SampleSubgraph.state.
Variable s1 : ConstructNodeFlow.ids_state.

Local Abbreviation lo := (SampleSubgraph.layer_offsets s).
Local Abbreviation sv0 := (SampleSubgraph.sub_vers s).
Local Abbreviation np0 := (SampleSubgraph.neigh_pos s).
Local Abbreviation nl := (SampleSubgraph.neighbor_list s).
Local Abbreviation el := (SampleSubgraph.edge_list s).
Local Abbreviation ne := (SampleSubgraph.num_edges s).
Local Abbreviation nm := (ConstructNodeFlow.node_map_data s1).
Local Abbreviation maps := (ConstructNodeFlow.layer_ver_maps s1).
Local Abbreviation rk := (rank lo nh).
Local Abbreviation np_sorted l :=
  (sort_by neighbor_info.id (layer_slice np0 (off lo l) (off lo (S l)))).
Local Abbreviation edges_of := (sum_list_with neighbor_info.num_edges).

Hypothesis Hex : expanded csr n k nh nh s.
Hypothesis Hnh : 1 ≤ nh.
Hypothesis Hdone : ids_done lo sv0 nh 0 s1.
Hypothesis Hsorted : ∀ l, l < nh →
  layer_slice (ConstructNodeFlow.sub_vers s1) (off lo l) (off lo (S l))
  = sorted_layer sv0 lo l.

Lemma ex_mono (l : nat) : l < nh → off lo l ≤ off lo (S l) ≤ length sv0.
Proof. apply layers_mono, (ex_layers _ _ _ _ _ _ Hex). Qed.

Lemma ex_le (l l' : nat) : l ≤ l' ≤ nh → off lo l ≤ off lo l'.
Proof. exact (layers_le lo sv0 nh (ex_layers _ _ _ _ _ _ Hex) l l'). Qed.

Lemma ex_rank_le (l l' : nat) : l ≤ l' ≤ nh → rk l' ≤ rk l.
Proof. apply (rank_antitone lo sv0 nh ex_mono). Qed.

Lemma ex_rank_S (l : nat) : l < nh → rk l = rk (S l) + (off lo (S l) - off lo l).
Proof. apply (rank_S lo sv0 nh ex_mono). Qed.

Lemma ex_rank_0 : rk 0 = length sv0.
Proof.
  unfold rank. rewrite (layers_zero lo sv0 nh (ex_layers _ _ _ _ _ _ Hex)).
  rewrite (layers_top lo sv0 nh (ex_layers _ _ _ _ _ _ Hex)). lia.
Qed.

Lemma np0_length : length np0 = off lo (nh - 1).
Proof. exact (ex_rows_len _ _ _ _ _ _ Hex). Qed.

Lemma edges_total : ne = rows_from np0 0 ∧ length nl = ne ∧ length el = ne.
Proof.
  destruct (ex_rows _ _ _ _ _ _ Hex) as [H1 H2 H3 _ _].
  rewrite row_pos_all in H3. lia.
Qed.

Lemma maps_sound (l' : nat) (m : gmap nat nat) (v i : nat) :
  maps !! l' = Some m → m !! v = Some i →
  rk (S l') ≤ i ∧ block sv0 lo l' !! (i - rk (S l')) = Some v.
Proof. intros Hm Hv. by destruct (id_sound _ _ _ _ _ Hdone l' m v i Hm Hv) as (_ & ? & ?). Qed.

Lemma nm_blocks : nm = concat (map (block sv0 lo) (rev (seq 0 nh))).
Proof.
  pose proof (id_nm _ _ _ _ _ Hdone) as Hnm. rewrite Nat.sub_0_r in Hnm.
  rewrite <- Hnm, take_ge; [done|].
  rewrite (id_len_nm _ _ _ _ _ Hdone), ex_rank_0. done.
Qed.

Lemma nm_lookup (l p : nat) (v : dgl_id_t) :
  l < nh → block sv0 lo l !! p = Some v → nm !! (rk (S l) + p) = Some v.
Proof.
  intros Hl Hp. rewrite nm_blocks, (block_lookup lo sv0 nh ex_mono l p Hl); [done|].
  by eapply lookup_lt_Some.
Qed.

Lemma np_slice_ids (l : nat) :
  S l < nh →
  neighbor_info.id <$> layer_slice np0 (off lo l) (off lo (S l))
  = (layer_slice sv0 (off lo l) (off lo (S l))).*1.
Proof.
  intros Hl. pose proof (ex_mono l ltac:(lia)) as Hle.
  pose proof (ex_le (S l) (nh - 1) ltac:(lia)) as Hle'. pose proof np0_length as Hnp.
  apply list_eq_same_length with (off lo (S l) - off lo l).
  - rewrite length_fmap, layer_slice_length; lia.
  - rewrite length_fmap, layer_slice_length; lia.
  - intros i x y Hi. rewrite !list_lookup_fmap, !layer_slice_lookup by done.
    destruct (np0 !! (off lo l + i)) as [np|] eqn:Hnp0; [|done]. simpl. intros [= <-].
    destruct (rs_rows _ _ _ _ (ex_rows _ _ _ _ _ _ Hex) _ _ Hnp0) as (lvl & idxs & Hsv & _).
    rewrite Hsv. simpl. by intros [= <-].
Qed.

Lemma np_sorted_ids (l : nat) :
  S l < nh → neighbor_info.id <$> np_sorted l = block sv0 lo l.
Proof.
  intros Hl. rewrite sort_by_key, np_slice_ids by done.
  unfold block, sorted_layer. by rewrite fst_sort_by.
Qed.

Lemma np_sorted_length (l : nat) :
  S l < nh → length (np_sorted l) = off lo (S l) - off lo l.
Proof.
  intros Hl. pose proof (ex_mono l ltac:(lia)) as Hle.
  pose proof (ex_le (S l) (nh - 1) ltac:(lia)) as Hle'. pose proof np0_length as Hnp.
  rewrite sort_by_length, layer_slice_length; lia.
Qed.

Lemma np_sorted_row (l q : nat) (np : neighbor_info.t) :
  S l < nh → np_sorted l !! q = Some np →
  ∃ i0, off lo l ≤ i0 < off lo (S l) ∧ np0 !! i0 = Some np.
Proof.
  intros Hl Hq. apply list_elem_of_lookup_2 in Hq. rewrite sort_by_perm in Hq.
  apply list_elem_of_lookup in Hq as [q' Hq'].
  pose proof (lookup_lt_Some _ _ _ Hq') as Hlt.
  pose proof (ex_mono l ltac:(lia)) as Hle.
  pose proof (ex_le (S l) (nh - 1) ltac:(lia)) as Hle'. pose proof np0_length as Hnp.
  rewrite layer_slice_length in Hlt by lia.
  rewrite layer_slice_lookup in Hq' by done.
  exists (off lo l + q'). split; [lia|done].
Qed.

Lemma np_sorted_sum (l : nat) :
  S l < nh → rows_from np0 (off lo l) = edges_of (np_sorted l) + rows_from np0 (off lo (S l)).
Proof.
  intros Hl. pose proof (ex_mono l ltac:(lia)) as Hle.
  rewrite (rows_from_slice np0 (off lo l) (off lo (S l))) by lia.
  by rewrite sort_by_perm.
Qed.

(** The neighbours of a row are in the table of the next layer. *)
Lemma neighbour_mapped (l i' : nat) (w : dgl_id_t) :
  sv0 !! i' = Some (w, S l) →
  S l < nh ∧ ∃ m c, maps !! S l = Some m ∧ m !! w = Some c.
Proof.
  intros Hw.
  destruct (level_layer lo sv0 nh (ex_layers _ _ _ _ _ _ Hex) (ex_levels _ _ _ _ _ _ Hex)
              i' (S l) (w, S l) Hw eq_refl) as [Hl Hi'].
  split; [done|].
  assert (w ∈ block sv0 lo (S l)) as Hin.
  { unfold block, sorted_layer. apply list_elem_of_fmap. exists (w, S l). split; [done|].
    rewrite sort_by_perm. apply list_elem_of_lookup. exists (i' - off lo (S l)).
    rewrite layer_slice_lookup by lia. rewrite <- Hw. f_equal. lia. }
  apply list_elem_of_lookup in Hin as [p Hp].
  exact (id_complete _ _ _ _ _ Hdone (S l) p w ltac:(lia) Hp).
Qed.

Lemma copy_row_total (l q : nat) (st : ConstructNodeFlow.rows_state) :
  S l < nh → q < off lo (S l) - off lo l →
  rows_inv lo nh (length sv0) ne st →
  layer_slice (ConstructNodeFlow.neigh_pos st) (off lo l) (off lo (S l)) = np_sorted l →
  length (ConstructNodeFlow.neigh_pos st) = length np0 →
  rows_filling csr k nm (rk (nh - 1)) (rk (S l) + q)
    (rows_from np0 (off lo (S l)) + edges_of (take q (np_sorted l))) st →
  ∃ st',
    ConstructNodeFlow.copy_row nl el (ConstructNodeFlow.sub_vers s1) maps l st (off lo l + q)
    = Ok st'
    ∧ ConstructNodeFlow.neigh_pos st' = ConstructNodeFlow.neigh_pos st
    ∧ (∀ r, r ≤ ConstructNodeFlow.row_idx st →
         ConstructNodeFlow.indptr_out st' !! r = ConstructNodeFlow.indptr_out st !! r)
    ∧ rows_filling csr k nm (rk (nh - 1)) (rk (S l) + S q)
        (rows_from np0 (off lo (S l)) + edges_of (take (S q) (np_sorted l))) st'.
Proof.
  intros Hl Hq [Hlip Hlcol Hlem _ Htop Hmono _] Hnps Hnpl [Hrow Hcoll Hrows].
  pose proof (ex_mono l ltac:(lia)) as Hle.
  pose proof (ex_le (S l) (nh - 1) ltac:(lia)) as Hle'. pose proof np0_length as Hnp.
  pose proof edges_total as (Hne & Hlnl & Hlel).
  (* the vertex and its record *)
  destruct (lookup_lt_is_Some_2 (np_sorted l) q) as [np Hnpq];
    [rewrite np_sorted_length by done; lia|].
  assert (ConstructNodeFlow.neigh_pos st !! (off lo l + q) = Some np) as Hat_np.
  { rewrite <- Hnpq, <- Hnps. by rewrite layer_slice_lookup. }
  assert (block sv0 lo l !! q = Some (neighbor_info.id np)) as Hblk.
  { rewrite <- np_sorted_ids by done. by rewrite list_lookup_fmap, Hnpq. }
  assert (∃ lvl, ConstructNodeFlow.sub_vers s1 !! (off lo l + q)
                 = Some (neighbor_info.id np, lvl)) as [lvl0 Hat_sv].
  { unfold block in Hblk. rewrite list_lookup_fmap in Hblk.
    destruct (sorted_layer sv0 lo l !! q) as [[v lv]|] eqn:Hsl; [|done].
    injection Hblk as ->. exists lv. rewrite <- Hsl, <- Hsorted by lia.
    by rewrite layer_slice_lookup. }
  destruct (np_sorted_row l q np Hl Hnpq) as (i0 & Hi0 & Hnp0).
  destruct (rs_rows _ _ _ _ (ex_rows _ _ _ _ _ _ Hex) _ _ Hnp0)
    as (lvl & idxs & Hsv & Hpos & Hnum & Hlen & Hsrt & Hslots).
  assert (lvl = l) as ->.
  { apply (ex_levels _ _ _ _ _ _ Hex l i0 (neighbor_info.id np, lvl)); [lia|done|done]. }
  set (num := neighbor_info.num_edges np) in *.
  set (pos := neighbor_info.pos np) in *.
  set (c0 := ConstructNodeFlow.collected_nedges st) in *.
  set (r0 := ConstructNodeFlow.row_idx st) in *.
  (* the row fits into what is left of the edge arrays *)
  assert (c0 + num ≤ ne) as Hfit.
  { rewrite Hcoll, Hne.
    pose proof (sum_take_S neighbor_info.num_edges _ _ _ Hnpq) as HS.
    pose proof (sum_take_le neighbor_info.num_edges (np_sorted l) (S q)) as Htk.
    pose proof (np_sorted_sum l Hl) as Hsum.
    pose proof (rows_from_le np0 0 (off lo l) ltac:(lia)) as H0.
    fold num in HS. lia. }
  assert (∀ j, j < num → ∃ t w eid i',
            idxs !! j = Some t ∧ csr_slot csr (neighbor_info.id np) t w eid
            ∧ nl !! (pos + j) = Some w ∧ el !! (pos + j) = Some eid
            ∧ sv0 !! i' = Some (w, S l)) as Hrow_j.
  { intros j Hj. destruct (lookup_lt_is_Some_2 idxs j ltac:(lia)) as [t Ht].
    destruct (Hslots j t Ht) as (w & eid & i' & ?). exists t, w, eid, i'. by split. }
  assert (pos + num ≤ length nl) as Hpos_le.
  { destruct (decide (num = 0)) as [Hz|Hnz].
    - pose proof (row_pos_le np0 i0). lia.
    - destruct (Hrow_j (num - 1) ltac:(lia)) as (t & w & eid & i' & _ & _ & Hw & _).
      apply lookup_lt_Some in Hw. lia. }
  unfold ConstructNodeFlow.copy_row.
  rewrite (proj2 (at_Ok _ _ _) Hat_sv). run_Ok.
  rewrite (proj2 (at_Ok _ _ _) Hat_np). run_Ok. cbn [fst].
  rewrite (bool_decide_eq_true_2 (neighbor_info.id np = neighbor_info.id np)) by done.
  run_Ok. fold pos num c0 r0.
  rewrite (bool_decide_eq_true_2 (pos ≤ length nl)) by lia. run_Ok.
  assert ((if decide (nl = []) then CHECK (bool_decide (num = 0)) else Ok ()) = Ok ()) as ->.
  { case_decide as Hnil; [|done]. rewrite bool_decide_eq_true_2; [done|].
    rewrite Hnil in Hpos_le. simpl in Hpos_le. lia. }
  run_Ok.
  (* the table of the next layer *)
  assert (∃ m, (if decide (num = 0) then Ok ∅ else index maps (l + 1)) = Ok m
               ∧ (num ≠ 0 → maps !! S l = Some m)
               ∧ ∀ j, j < num → ∃ w c, nl !! (pos + j) = Some w ∧ m !! w = Some c)
    as (m & -> & Hmaps & Hm).
  { destruct (decide (num = 0)) as [Hz|Hnz].
    - exists ∅. split; [done|]. split; [done|]. intros j Hj. lia.
    - destruct (lookup_lt_is_Some_2 maps (l + 1)) as [m Hm];
        [rewrite (id_len_maps _ _ _ _ _ Hdone); lia|].
      exists m. split; [by rewrite (proj2 (index_Ok _ _ _) Hm)|].
      split; [by replace (S l) with (l + 1) by lia|].
      intros j Hj. destruct (Hrow_j j Hj) as (t & w & eid & i' & _ & _ & Hw & _ & Hi').
      destruct (neighbour_mapped l i' w Hi') as (_ & m' & c & Hm' & Hc).
      replace (l + 1) with (S l) in Hm by lia. rewrite Hm in Hm'. injection Hm' as <-.
      by exists w, c. }
  run_Ok.
  destruct (map_neighbors_total nl m pos c0 num (ConstructNodeFlow.col_list_out st) Hm)
    as (col' & -> & Hlcol' & Hcol_frame & Hcol_new); [lia|]. run_Ok.
  destruct (copy_n_total el pos num (ConstructNodeFlow.edge_map_data st) c0)
    as (em' & -> & Hlem' & Hem_frame & Hem_new); [lia|lia|]. run_Ok.
  rewrite (proj2 (index_Ok _ _ _) Htop). run_Ok.
  assert (r0 < length sv0) as Hr0.
  { pose proof (ex_rank_S l ltac:(lia)). pose proof (ex_rank_le 0 l ltac:(lia)).
    pose proof ex_rank_0. lia. }
  unfold store. rewrite decide_True by lia.
  eexists. split; [done|]. simpl. split; [done|]. split.
  { intros r Hr. by rewrite list_lookup_insert_ne by lia. }
  constructor; simpl.
  - lia.
  - rewrite (sum_take_S neighbor_info.num_edges _ _ _ Hnpq). fold num. lia.
  - intros r Hr. destruct (decide (r = r0)) as [->|Hne_r].
    + exists c0, (neighbor_info.id np), idxs.
      rewrite list_lookup_insert_ne by lia.
      replace (S r0) with (r0 + 1) by lia. rewrite list_lookup_insert_eq by lia.
      rewrite Hlen. split; [done|]. split; [done|].
      split; [rewrite Hrow; by apply nm_lookup; [lia|]|].
      split; [done|]. split.
      { rewrite decide_False; [done|].
        pose proof (ex_rank_le (S l) (nh - 1) ltac:(lia)). lia. }
      intros j t Hjt. pose proof (lookup_lt_Some _ _ _ Hjt) as Hj.
      destruct (Hrow_j j ltac:(lia)) as (t' & w & eid & i' & Ht' & Hslot & Hw & He & Hi').
      rewrite Hjt in Ht'. injection Ht' as <-.
      destruct (Hm j ltac:(lia)) as (w' & c & Hw' & Hc).
      rewrite Hw in Hw'. injection Hw' as <-.
      exists c, w, eid. split; [by apply (Hcol_new j w c); [lia|..]|].
      split; [|split; [by rewrite Hem_new by lia|done]].
      assert (num ≠ 0) as Hnz by lia.
      destruct (neighbour_mapped l i' w Hi') as (HSl & m' & c' & Hm' & Hc').
      destruct (maps_sound (S l) m' w c' Hm' Hc') as [Hge Hb].
      pose proof (nm_lookup (S l) _ w HSl Hb) as Hnm.
      replace (rk (S (S l)) + (c' - rk (S (S l)))) with c' in Hnm by lia.
      rewrite (Hmaps Hnz) in Hm'. injection Hm' as <-.
      rewrite Hc in Hc'. by injection Hc' as <-.
    + destruct (Hrows r ltac:(lia)) as (a & u & idxs' & Ha & Hb & Hu & Hs' & Hl' & Hsl').
      specialize (Hmono r a (a + length idxs') ltac:(lia) Ha Hb).
      exists a, u, idxs'. rewrite !list_lookup_insert_ne by lia.
      split; [done|]. split; [done|]. split; [done|]. split; [done|]. split; [done|].
      intros j t Hjt. pose proof (lookup_lt_Some _ _ _ Hjt) as Hj.
      destruct (Hsl' j t Hjt) as (c & w & eid & Hc & Hw & He & Hslot).
      exists c, w, eid. fold c0 in Hmono.
      rewrite Hcol_frame, Hem_frame by lia. done.
Qed.

Lemma copy_layer_total (l : nat) (st : ConstructNodeFlow.rows_state) :
  S l < nh →
  rows_done lo nh (length sv0) ne (S l) st →
  length (ConstructNodeFlow.neigh_pos st) = length np0 →
  take (off lo (S l)) (ConstructNodeFlow.neigh_pos st) = take (off lo (S l)) np0 →
  rows_filling csr k nm (rk (nh - 1)) (rk (S l)) (rows_from np0 (off lo (S l))) st →
  (∀ m', S l ≤ m' ≤ nh - 1 →
     ConstructNodeFlow.indptr_out st !! rk m' = Some (rows_from np0 (off lo m'))) →
  ∃ st',
    ConstructNodeFlow.copy_layer nl el lo (ConstructNodeFlow.sub_vers s1) maps st l = Ok st'
    ∧ rows_done lo nh (length sv0) ne l st'
    ∧ length (ConstructNodeFlow.neigh_pos st') = length np0
    ∧ take (off lo l) (ConstructNodeFlow.neigh_pos st') = take (off lo l) np0
    ∧ rows_filling csr k nm (rk (nh - 1)) (rk l) (rows_from np0 (off lo l)) st'
    ∧ ∀ m', l ≤ m' ≤ nh - 1 →
        ConstructNodeFlow.indptr_out st' !! rk m' = Some (rows_from np0 (off lo m')).
Proof.
  intros Hl Hrd Hnpl Hframe Hfill Hbound.
  pose proof (ex_mono l ltac:(lia)) as Hle.
  pose proof (ex_le (S l) (nh - 1) ltac:(lia)) as Hle'. pose proof np0_length as Hnp.
  pose proof (ex_rank_S l ltac:(lia)) as Hrk.
  set (f := off lo l) in *. set (la := off lo (S l)) in *.
  destruct (sort_range_total neighbor_info.id (ConstructNodeFlow.neigh_pos st) f la)
    as [np' Hsort]; [lia|].
  pose proof Hsort as Hsort'.
  apply sort_range_Ok in Hsort' as (_ & Hlen' & Htake' & Hslice' & _).
  assert (layer_slice np' f la = np_sorted l) as Hnps.
  { rewrite Hslice'. f_equal. rewrite !layer_slice_alt by lia. by rewrite Hframe. }
  set (st0 := {| ConstructNodeFlow.neigh_pos := np';
                 ConstructNodeFlow.indptr_out := ConstructNodeFlow.indptr_out st;
                 ConstructNodeFlow.col_list_out := ConstructNodeFlow.col_list_out st;
                 ConstructNodeFlow.edge_map_data := ConstructNodeFlow.edge_map_data st;
                 ConstructNodeFlow.collected_nedges := ConstructNodeFlow.collected_nedges st;
                 ConstructNodeFlow.row_idx := ConstructNodeFlow.row_idx st;
                 ConstructNodeFlow.layer_off_data := ConstructNodeFlow.layer_off_data st;
                 ConstructNodeFlow.out_layer_idx := ConstructNodeFlow.out_layer_idx st |}).
  destruct Hrd as [Hrows Hrow Holi Hlod].
  destruct (foldM_seq_total
              (ConstructNodeFlow.copy_row nl el (ConstructNodeFlow.sub_vers s1) maps l)
              (λ i sti,
                 rows_inv lo nh (length sv0) ne sti
                 ∧ ConstructNodeFlow.neigh_pos sti = np'
                 ∧ ConstructNodeFlow.layer_off_data sti = ConstructNodeFlow.layer_off_data st
                 ∧ ConstructNodeFlow.out_layer_idx sti = ConstructNodeFlow.out_layer_idx st
                 ∧ rows_filling csr k nm (rk (nh - 1)) (rk (S l) + (i - f))
                     (rows_from np0 la + edges_of (take (i - f) (np_sorted l))) sti
                 ∧ ∀ m', S l ≤ m' ≤ nh - 1 →
                     ConstructNodeFlow.indptr_out sti !! rk m'
                     = Some (rows_from np0 (off lo m')))
              f (la - f) st0) as (st2 & Hrun & Hinv2 & Hnp2 & Hlod2 & Holi2 & Hfill2 & Hbound2).
  { intros i sti Hi (Hinv & Hnpi & Hlodi & Holii & Hfilli & Hboundi).
    destruct (copy_row_total l (i - f) sti Hl ltac:(lia) Hinv)
      as (st' & Hstep & Hnp' & Hipframe & Hfill'); [by rewrite Hnpi|congruence|done|].
    replace (off lo l + (i - f)) with i in Hstep by (unfold f; lia).
    pose proof (rf_row _ _ _ _ _ _ _ Hfilli) as Hrowi.
    destruct (copy_row_inv lo sv0 nh ne nl el ex_mono maps maps_sound
                (ConstructNodeFlow.sub_vers s1) l i sti st' Hl ltac:(lia) Hinv Hstep)
      as (Hinv' & Hrow' & Hlod' & Holi').
    exists st'. split; [done|]. split; [done|]. split; [congruence|].
    split; [congruence|]. split; [congruence|].
    split; [by replace (S i - f) with (S (i - f)) by lia|].
    intros m' Hm'. rewrite Hipframe; [by apply Hboundi|].
    pose proof (ex_rank_le (S l) m' ltac:(lia)). lia. }
  { rewrite Nat.sub_diag. simpl. rewrite !Nat.add_0_r.
    split; [by destruct Hrows; constructor|]. split; [done|]. split; [done|].
    split; [done|]. split; [by destruct Hfill; constructor|]. done. }
  replace (f + (la - f) - f) with (la - f) in Hfill2 by lia.
  rewrite take_ge in Hfill2 by (rewrite np_sorted_length by done; unfold f, la; lia).
  replace (rows_from np0 la + edges_of (np_sorted l)) with (rows_from np0 f) in Hfill2
    by (unfold f, la; rewrite (np_sorted_sum l Hl); lia).
  replace (rk (S l) + (la - f)) with (rk l) in Hfill2 by lia.
  pose proof (ri_len_lod _ _ _ _ _ Hinv2) as Hllod.
  set (st' := {| ConstructNodeFlow.neigh_pos := ConstructNodeFlow.neigh_pos st2;
                 ConstructNodeFlow.indptr_out := ConstructNodeFlow.indptr_out st2;
                 ConstructNodeFlow.col_list_out := ConstructNodeFlow.col_list_out st2;
                 ConstructNodeFlow.edge_map_data := ConstructNodeFlow.edge_map_data st2;
                 ConstructNodeFlow.collected_nedges := ConstructNodeFlow.collected_nedges st2;
                 ConstructNodeFlow.row_idx := ConstructNodeFlow.row_idx st2;
                 ConstructNodeFlow.layer_off_data :=
                   <[ConstructNodeFlow.out_layer_idx st2 + 1 :=
                       usub (rk (S l) + la) f]> (ConstructNodeFlow.layer_off_data st2);
                 ConstructNodeFlow.out_layer_idx :=
                   S (ConstructNodeFlow.out_layer_idx st2) |}).
  assert (ConstructNodeFlow.copy_layer nl el lo (ConstructNodeFlow.sub_vers s1) maps st l
          = Ok st') as Hrun'.
  { unfold ConstructNodeFlow.copy_layer.
    rewrite (proj2 (index_Ok _ _ _)
               (layers_lookup lo sv0 nh (ex_layers _ _ _ _ _ _ Hex) l ltac:(lia))). run_Ok.
    rewrite Nat.add_1_r.
    rewrite (proj2 (index_Ok _ _ _)
               (layers_lookup lo sv0 nh (ex_layers _ _ _ _ _ _ Hex) (S l) ltac:(lia))). run_Ok.
    fold f la. rewrite Hsort. run_Ok. fold st0. rewrite Hrun. run_Ok.
    rewrite Hlod2, Holi2, Holi.
    rewrite (proj2 (index_Ok _ _ _) (Hlod (nh - S l) (le_n _))). run_Ok.
    replace (nh - (nh - S l)) with (S l) by lia.
    unfold store. rewrite decide_True by (rewrite <- Hlod2; lia).
    unfold st'. by rewrite Hlod2, Holi2, Holi. }
  exists st'. split; [done|].
  split; [exact (copy_layer_done lo sv0 nh ne nl el ex_mono maps maps_sound
                   (ConstructNodeFlow.sub_vers s1) l st st' Hl
                   (Build_rows_done _ _ _ _ _ _ Hrows Hrow Holi Hlod) Hrun')|].
  simpl. split; [congruence|]. split.
  { rewrite Hnp2, Htake'.
    rewrite <- (take_take_le (ConstructNodeFlow.neigh_pos st) f la) by lia.
    rewrite Hframe. by rewrite take_take_le by lia. }
  split; [by destruct Hfill2; constructor|].
  intros m' Hm'. destruct (decide (m' = l)) as [->|Hne_m]; [|apply Hbound2; lia].
  pose proof (ri_top _ _ _ _ _ Hinv2) as Htop2.
  rewrite (rf_row _ _ _ _ _ _ _ Hfill2), (rf_collected _ _ _ _ _ _ _ Hfill2) in Htop2.
  exact Htop2.
Qed.

Lemma copy_layers_total (st : ConstructNodeFlow.rows_state) :
  rows_done lo nh (length sv0) ne (nh - 1) st →
  ConstructNodeFlow.neigh_pos st = np0 →
  rows_filling csr k nm (rk (nh - 1)) (rk (nh - 1)) (rows_from np0 (off lo (nh - 1))) st →
  ConstructNodeFlow.indptr_out st !! rk (nh - 1) = Some (rows_from np0 (off lo (nh - 1))) →
  ∃ s2,
    foldM (ConstructNodeFlow.copy_layer nl el lo (ConstructNodeFlow.sub_vers s1) maps)
          (rev (seq 0 (nh - 1))) st = Ok s2
    ∧ rows_done lo nh (length sv0) ne 0 s2
    ∧ rows_filling csr k nm (rk (nh - 1)) (rk 0) (rows_from np0 0) s2
    ∧ ∀ m', m' ≤ nh - 1 →
        ConstructNodeFlow.indptr_out s2 !! rk m' = Some (rows_from np0 (off lo m')).
Proof.
  intros Hrd Hnp Hfill Hbound.
  destruct (foldM_total
              (ConstructNodeFlow.copy_layer nl el lo (ConstructNodeFlow.sub_vers s1) maps)
              (λ m sti,
                 rows_done lo nh (length sv0) ne (nh - 1 - m) sti
                 ∧ length (ConstructNodeFlow.neigh_pos sti) = length np0
                 ∧ take (off lo (nh - 1 - m)) (ConstructNodeFlow.neigh_pos sti)
                   = take (off lo (nh - 1 - m)) np0
                 ∧ rows_filling csr k nm (rk (nh - 1)) (rk (nh - 1 - m))
                     (rows_from np0 (off lo (nh - 1 - m))) sti
                 ∧ ∀ m', nh - 1 - m ≤ m' ≤ nh - 1 →
                     ConstructNodeFlow.indptr_out sti !! rk m'
                     = Some (rows_from np0 (off lo m')))
              (rev (seq 0 (nh - 1))) st) as (s2 & Hrun & Hrd2 & _ & _ & Hfill2 & Hbound2).
  - intros m l sti Hm (Hrdi & Hli & Hti & Hfi & Hbi).
    apply rev_seq_lookup in Hm as [Hm ->].
    replace (nh - 1 - S m) with (nh - 1 - 1 - m) by lia.
    replace (nh - 1 - m) with (S (nh - 1 - 1 - m)) in Hrdi, Hti, Hfi, Hbi by lia.
    apply copy_layer_total; [lia|done..].
  - rewrite Nat.sub_0_r. split; [done|]. split; [by rewrite Hnp|]. split; [by rewrite Hnp|].
    split; [done|]. intros m' Hm'. by replace m' with (nh - 1) by lia.
  - rewrite length_rev, length_seq, Nat.sub_diag in Hrd2, Hfill2, Hbound2.
    rewrite (layers_zero lo sv0 nh (ex_layers _ _ _ _ _ _ Hex)) in Hfill2.
    exists s2. split; [done|]. split; [done|]. split; [done|].
    intros m' Hm'. apply Hbound2. lia.
Qed.

Lemma flow_steps_total (sub : CSR) (lod : list nat) :
  (∀ b, b ≤ nh → lod !! b = Some (rk (nh - b))) →
  (∀ m', m' ≤ nh - 1 → indptr sub !! rk m' = Some (rows_from np0 (off lo m'))) →
  ∃ fod,
    foldM (ConstructNodeFlow.flow_step sub lod) (seq 0 (nh - 1))
          (<[0:=0]> (replicate nh 0), 0) = Ok (fod, nh - 1)
    ∧ fod !! (nh - 1) = Some (rows_from np0 0).
Proof.
  intros Hlod Hbound. pose proof np0_length as Hnp.
  assert (rows_from np0 (off lo (nh - 1)) = 0) as Hlast.
  { unfold rows_from. by rewrite drop_ge by lia. }
  destruct (foldM_seq_total (ConstructNodeFlow.flow_step sub lod)
              (λ i st, st.2 = i ∧ length st.1 = nh
                       ∧ st.1 !! i = Some (rows_from np0 (off lo (nh - 1 - i))))
              0 (nh - 1) (<[0:=0]> (replicate nh 0), 0)) as ([fod out] & Hrun & Hout & Hl & Hf).
  - intros i [fod out] Hi (Hout & Hl & Hf). simpl in *. subst out.
    unfold ConstructNodeFlow.flow_step, GetDegree.
    rewrite (proj2 (index_Ok _ _ _) (Hlod (i + 1) ltac:(lia))). run_Ok.
    rewrite (proj2 (index_Ok _ _ _) (Hlod (i + 2) ltac:(lia))). run_Ok.
    rewrite (proj2 (index_Ok _ _ _) (Hbound (nh - (i + 2)) ltac:(lia))). run_Ok.
    rewrite (proj2 (index_Ok _ _ _) (Hbound (nh - (i + 1)) ltac:(lia))). run_Ok.
    rewrite (proj2 (index_Ok _ _ _) Hf). run_Ok.
    change (mret ?a ≫= ?f) with (f a). cbv beta.
    unfold store. rewrite decide_True by lia. run_Ok.
    eexists. split; [done|]. simpl. split; [done|]. split; [by rewrite length_insert|].
    replace (S i) with (i + 1) by lia. rewrite list_lookup_insert_eq by lia. f_equal.
    pose proof (ex_le (nh - (i + 2)) (nh - (i + 1)) ltac:(lia)) as Hoff.
    pose proof (rows_from_le np0 _ _ Hoff) as Hle.
    rewrite usub_le by done.
    replace (nh - 1 - i) with (nh - (i + 1)) by lia.
    replace (nh - 1 - (i + 1)) with (nh - (i + 2)) by lia. lia.
  - simpl. split; [done|]. split; [by rewrite length_insert, length_replicate|].
    rewrite list_lookup_insert_eq by (rewrite length_replicate; lia).
    by rewrite Nat.sub_0_r, Hlast.
  - simpl in *. subst out. exists fod. split; [done|].
    replace (nh - 1 - (nh - 1)) with 0 in Hf by lia.
    by rewrite (layers_zero lo sv0 nh (ex_layers _ _ _ _ _ _ Hex)) in Hf.
Qed.
End rows_total.

Lemma zero_rows_total (nv first cnt : nat) :
  cnt ≤ nv →
  foldM ConstructNodeFlow.zero_row (seq first cnt) (replicate (nv + 1) 0, 0)
  = Ok (replicate (nv + 1) 0, cnt).
Proof.
  intros Hcnt.
  destruct (foldM_seq_total ConstructNodeFlow.zero_row
              (λ i st, st = (replicate (nv + 1) 0, i - first))
              first cnt (replicate (nv + 1) 0, 0)) as (st & -> & ->).
  - intros i st Hi ->. unfold ConstructNodeFlow.zero_row, store.
    rewrite decide_True by (rewrite length_replicate; lia). run_Ok.
    eexists. split; [done|]. f_equal; [|lia].
    apply list_insert_id, lookup_replicate_2. lia.
  - by rewrite Nat.sub_diag.
  - do 2 f_equal. lia.
Qed.

(** *** [ConstructNodeFlow] returns *)

Lemma ConstructNodeFlow_run_total (csr : CSR) (n k nh : nat) (s : SampleSubgraph.state)
    (edge_type : string) (is_multigraph : bool) :
  expanded csr n k nh nh s → 1 ≤ nh →
  ∃ nf sub,
    ConstructNodeFlow.run (SampleSubgraph.neighbor_list s) (SampleSubgraph.edge_list s)
      (SampleSubgraph.layer_offsets s) (SampleSubgraph.sub_vers s)
      (SampleSubgraph.neigh_pos s) edge_type (SampleSubgraph.num_edges s) nh is_multigraph
    = Ok nf
    ∧ adjacency nf = Some sub
    ∧ node_mapping nf
      = concat (map (block (SampleSubgraph.sub_vers s) (SampleSubgraph.layer_offsets s))
                    (rev (seq 0 nh)))
    ∧ (∀ b, b ≤ nh → layer_offsets nf !! b
                     = Some (rank (SampleSubgraph.layer_offsets s) nh (nh - b)))
    ∧ ∀ r, r < length (node_mapping nf) →
        row_filled csr k (node_mapping nf) (off (layer_offsets nf) 1)
          (indptr sub) (indices sub) (edge_mapping nf) r.
Proof.
  intros Hex Hnh.
  set (lo := SampleSubgraph.layer_offsets s). set (sv0 := SampleSubgraph.sub_vers s).
  set (np0 := SampleSubgraph.neigh_pos s). set (ne := SampleSubgraph.num_edges s).
  pose proof (ex_layers _ _ _ _ _ _ Hex) as Hlayers. fold lo sv0 in Hlayers.
  destruct (save_vertices_total lo sv0 nh Hlayers (ex_levels _ _ _ _ _ _ Hex))
    as (s1 & Hsave & Hdone & Hsorted).
  pose proof (ex_rank_0 csr n k nh s Hex Hnh) as Hrk0. fold lo sv0 in Hrk0.
  pose proof (ex_rank_S csr n k nh s Hex (nh - 1) ltac:(lia)) as HrkS.
  replace (S (nh - 1)) with nh in HrkS by lia. fold lo in HrkS.
  pose proof (ex_rank_le csr n k nh s Hex 0 (nh - 1) ltac:(lia)) as Hrkle. fold lo in Hrkle.
  pose proof (np0_length csr n k nh s Hex) as Hnp. fold np0 lo in Hnp.
  pose proof (edges_total csr n k nh s Hex Hnh) as (Hne & Hlnl & Hlel). fold ne np0 in Hne.
  pose proof (layers_mono lo sv0 nh Hlayers (nh - 1) ltac:(lia)) as Hlast.
  replace (S (nh - 1)) with nh in Hlast by lia.
  pose proof (layers_top lo sv0 nh Hlayers) as Htop.
  assert (rank lo nh nh = 0) as Hrknh by (unfold rank; lia).
  assert (rank lo nh (nh - 1) = off lo nh - off lo (nh - 1)) as Hdeep by lia.
  assert (rows_from np0 (off lo (nh - 1)) = 0) as Hnone.
  { unfold rows_from. by rewrite drop_ge by lia. }
  set (lod0 := <[1:=off lo nh - off lo (nh - 1)]> (<[0:=0]> (replicate (nh + 1) 0))).
  set (st0 := {| ConstructNodeFlow.neigh_pos := np0;
                 ConstructNodeFlow.indptr_out := replicate (length sv0 + 1) 0;
                 ConstructNodeFlow.col_list_out := replicate ne 0;
                 ConstructNodeFlow.edge_map_data := replicate ne 0;
                 ConstructNodeFlow.collected_nedges := 0;
                 ConstructNodeFlow.row_idx := off lo nh - off lo (nh - 1);
                 ConstructNodeFlow.layer_off_data := lod0;
                 ConstructNodeFlow.out_layer_idx := 1 |}).
  destruct (copy_layers_total csr n k nh s s1 Hex Hnh Hdone Hsorted st0)
    as (s2 & Hcopy & Hrd & Hfill & Hbound).
  { constructor; simpl.
    - constructor; simpl.
      + by rewrite length_replicate.
      + by rewrite length_replicate.
      + by rewrite length_replicate.
      + unfold lod0. by rewrite !length_insert, length_replicate.
      + apply lookup_replicate_2. lia.
      + intros r a b _ [-> _]%lookup_replicate [-> _]%lookup_replicate. lia.
      + intros r a b e c _ [-> _]%lookup_replicate [-> _]%lookup_replicate. lia.
    - fold lo. lia.
    - lia.
    - intros b Hb. unfold lod0. fold lo. destruct b as [|[|b]]; [| |lia].
      + rewrite list_lookup_insert_ne by lia.
        rewrite list_lookup_insert_eq by (rewrite length_replicate; lia).
        rewrite Nat.sub_0_r. by rewrite Hrknh.
      + rewrite list_lookup_insert_eq by (rewrite length_insert, length_replicate; lia).
        by rewrite Hdeep. }
  { done. }
  { fold lo np0. rewrite Hnone. constructor; simpl.
    - lia.
    - done.
    - intros r Hr.
      destruct (lookup_lt_is_Some_2 (ConstructNodeFlow.node_map_data s1) r) as [u Hu].
      { rewrite (id_len_nm _ _ _ _ _ Hdone). lia. }
      exists 0, u, []. simpl.
      split; [apply lookup_replicate_2; lia|]. split; [apply lookup_replicate_2; lia|].
      split; [done|]. split; [constructor|]. split; [by rewrite decide_True by lia|].
      intros j t Hjt. by rewrite lookup_nil in Hjt. }
  { simpl. fold lo np0. rewrite Hnone. apply lookup_replicate_2. lia. }
  fold lo sv0 np0 ne in Hcopy, Hrd, Hfill, Hbound.
  destruct Hrd as [[Hlip Hlcol Hlem Hllod Hri_top _ _] Hrow Holi Hlod].
  set (sub0 := {| indptr := ConstructNodeFlow.indptr_out s2;
                  indices := ConstructNodeFlow.col_list_out s2;
                  edge_ids := replicate ne 0 |}).
  destruct (flow_steps_total csr n k nh s Hex Hnh sub0 (ConstructNodeFlow.layer_off_data s2))
    as (fod & Hflow & Hflast).
  { intros b Hb. apply Hlod. lia. }
  { exact Hbound. }
  fold lo np0 in Hflow, Hflast.
  set (sub := {| indptr := ConstructNodeFlow.indptr_out s2;
                 indices := ConstructNodeFlow.col_list_out s2;
                 edge_ids := seq 0 ne |}).
  eexists _, sub. split.
  { unfold ConstructNodeFlow.run. cbv zeta. fold lo sv0 np0 ne.
    rewrite Hsave. run_Ok.
    rewrite (bool_decide_eq_true_2 _ (eq_trans (id_idx _ _ _ _ _ Hdone) Hrk0)). run_check.
    rewrite decide_False by lia. run_Ok.
    rewrite (proj2 (index_Ok _ _ _) (layers_lookup lo sv0 nh Hlayers (nh - 1) ltac:(lia))).
    run_Ok.
    rewrite (proj2 (index_Ok _ _ _) (layers_lookup lo sv0 nh Hlayers nh (le_n _))). run_Ok.
    rewrite (zero_rows_total (length sv0)) by lia. run_Ok.
    rewrite (store_lt (replicate (nh + 1) 0) 0 0) by (rewrite length_replicate; lia). run_Ok.
    rewrite usub_le by lia.
    rewrite (store_lt (<[0:=0]> (replicate (nh + 1) 0)) 1)
      by (rewrite length_insert, length_replicate; lia).
    run_Ok. fold lod0 st0.
    rewrite Hcopy. run_Ok.
    rewrite (bool_decide_eq_true_2 _ (eq_trans Hrow Hrk0)). run_check.
    rewrite (proj2 (index_Ok _ _ _) Hri_top). run_Ok.
    rewrite (bool_decide_eq_true_2 _
               (eq_trans (rf_collected _ _ _ _ _ _ _ Hfill) (eq_sym Hne))). run_check.
    rewrite (bool_decide_eq_true_2 (ConstructNodeFlow.out_layer_idx s2 = nh)) by lia. run_check.
    rewrite Holi, Nat.sub_0_r.
    rewrite (proj2 (index_Ok _ _ _) (Hlod nh ltac:(lia))). run_Ok.
    rewrite Nat.sub_diag.
    rewrite (bool_decide_eq_true_2 _ Hrk0). run_check.
    rewrite (store_lt (replicate nh 0) 0 0) by (rewrite length_replicate; lia). run_Ok.
    rewrite (lo_length _ _ _ _ Hlayers).
    replace (nh + 1 - 2) with (nh - 1) by lia. fold sub0. rewrite Hflow. run_Ok.
    rewrite (bool_decide_eq_true_2 (nh - 1 = nh - 1)) by done. run_check.
    rewrite (proj2 (index_Ok _ _ _) Hflast). run_Ok.
    rewrite (bool_decide_eq_true_2 _ (eq_sym Hne)). run_check.
    reflexivity. }
  split; [unfold adjacency; simpl; by destruct (String.eqb edge_type "in")|].
  simpl. split; [exact (nm_blocks csr n k nh s s1 Hex Hnh Hdone)|].
  split; [intros b Hb; apply Hlod; lia|].
  intros r Hr. rewrite (id_len_nm _ _ _ _ _ Hdone) in Hr.
  unfold off at 1. rewrite (Hlod 1 ltac:(lia)). simpl.
  apply (rf_rows _ _ _ _ _ _ _ Hfill). lia.
Qed.


(** ** Neighbour sampling on a well-formed graph *)

Lemma seed_block (lo : list nat) (sv0 : list (dgl_id_t * nat)) (nh : nat) :
  layers_ok nh nh sv0 lo → 1 ≤ nh →
  drop (rank lo nh 1) (concat (map (block sv0 lo) (rev (seq 0 nh))))
  = sort_by id (layer_vertices sv0 lo 0).
Proof.
  intros Hlayers Hnh.
  pose proof (layers_mono lo sv0 nh Hlayers) as Hmono.
  replace nh with (S (nh - 1)) at 2 by lia. cbn [seq rev].
  rewrite map_app, concat_app. simpl. rewrite app_nil_r.
  pose proof (concat_blocks_length lo sv0 nh Hmono 1 Hnh) as Hlen.
  rewrite drop_app_length'; [|done].
  unfold block, sorted_layer, layer_vertices.
  rewrite (layers_lookup lo sv0 nh Hlayers 0 ltac:(lia)).
  rewrite (layers_lookup lo sv0 nh Hlayers 1 ltac:(lia)).
  apply fst_sort_by.
Qed.

Lemma SampleSubgraph_run_safe (graph : ImmutableGraph) (seed_arr : list dgl_id_t)
    (edge_type : string) (num_hops k : nat) (time_seed : seed_t) (csr : CSR) (n : nat) :
  view graph edge_type = Ok csr → csr_ok csr n → Forall (λ v, v < n) seed_arr →
  1 ≤ num_hops →
  safe (needs_random csr n k)
    (λ nf, ∃ sub a,
       adjacency nf = Some sub
       ∧ (∀ r, r < length (node_mapping nf) →
            row_filled csr k (node_mapping nf) (off (layer_offsets nf) 1)
              (indptr sub) (indices sub) (edge_mapping nf) r)
       ∧ layer_offsets nf !! (num_hops - 1) = Some a
       ∧ StronglySorted lt (drop a (node_mapping nf))
       ∧ ∀ v, v ∈ drop a (node_mapping nf) ↔ v ∈ seed_arr)
    (SampleSubgraph.run graph seed_arr None edge_type num_hops k time_seed).
Proof.
  intros Hview Hcsr Hseeds Hnh. unfold SampleSubgraph.run.
  eapply safe_bind; [by apply (expand_safe graph seed_arr edge_type num_hops k time_seed csr n)|].
  intros s [Hex Hlayer0]. apply safe_total.
  destruct (ConstructNodeFlow_run_total csr n k num_hops s edge_type (is_multigraph_ graph)
              Hex Hnh) as (nf & sub & Hrun & Hadj & Hnm & Hlod & Hrows).
  exists nf. split; [done|].
  exists sub, (rank (SampleSubgraph.layer_offsets s) num_hops 1).
  split; [done|]. split; [done|].
  split; [rewrite (Hlod (num_hops - 1)) by lia; do 2 f_equal; lia|].
  pose proof (ex_layers _ _ _ _ _ _ Hex) as Hlayers.
  rewrite Hnm, (seed_block _ _ _ Hlayers Hnh). split.
  - apply sort_ids_sorted. unfold layer_vertices.
    destruct (lo_layers _ _ _ _ Hlayers 0 ltac:(lia)) as (first & last & -> & -> & _ & Hnd).
    done.
  - intros v. by rewrite sort_by_perm.
Qed.

Lemma star4_csr_ok : csr_ok star4_csr 4.
Proof.
  constructor; simpl.
  - done.
  - intros v Hv. do 4 (destruct v as [|v]; [unfold off; simpl; lia|]). lia.
  - unfold off. simpl. lia.
  - unfold off. simpl. lia.
  - repeat constructor.
Qed.

(** On a well-formed graph and with seeds that are vertices of it, neighbour
    sampling never fails one of its checks and never reads outside a
    buffer: it returns a NodeFlow, unless it runs out of random values, which
    it only draws when some vertex has more neighbours than the fan-out. *)
Theorem NeighborUniformSample_never_fails_a_check (graph : ImmutableGraph)
    (seeds : list dgl_id_t) (edge_type : string) (num_hops expand_factor : nat)
    (time_seed : seed_t) (csr : CSR) (n : nat) :
  view graph edge_type = Ok csr → csr_ok csr n → Forall (λ v, v < n) seeds →
  (∃ nf, NeighborUniformSample graph seeds edge_type num_hops expand_factor time_seed = Ok nf)
  ∨ (NeighborUniformSample graph seeds edge_type num_hops expand_factor time_seed
       = Err OutOfRandomness
     ∧ needs_random csr n expand_factor).
Proof.
  intros Hview Hcsr Hseeds.
  pose proof (SampleSubgraph_run_safe graph seeds edge_type (num_hops + 1) expand_factor
                time_seed csr n Hview Hcsr Hseeds ltac:(lia)) as Hsafe.
  unfold NeighborUniformSample.
  destruct (SampleSubgraph.run _ _ _ _ _ _ _) as [nf|e]; simpl in Hsafe.
  - left. by exists nf.
  - right. by destruct Hsafe as [-> ?].
Qed.

Lemma NeighborUniformSample_never_fails_a_check_witness :
  (∃ nf, NeighborUniformSample star4 [0] "out" 1 2 [5] = Ok nf)
  ∨ (NeighborUniformSample star4 [0] "out" 1 2 [5] = Err OutOfRandomness
     ∧ needs_random star4_csr 4 2).
Proof.
  apply (NeighborUniformSample_never_fails_a_check star4 [0] "out" 1 2 [5] star4_csr 4).
  - reflexivity.
  - exact star4_csr_ok.
  - repeat constructor.
Defined.

(** Every row of the NodeFlow a sampling call returns is a selection of the
    row of its vertex in the graph: the row of a vertex of the deepest layer
    is empty, any other row has as many columns as the vertex has
    neighbours, up to the fan-out; the columns are read from slots of the
    vertex's row at strictly increasing positions, each column the position
    in [node_mapping] of the slot's neighbour and each entry of
    [edge_mapping] the slot's edge id. *)
Theorem NeighborUniformSample_rows_are_graph_edges (graph : ImmutableGraph)
    (seeds : list dgl_id_t) (edge_type : string) (num_hops expand_factor : nat)
    (time_seed : seed_t) (csr : CSR) (n : nat) (nf : NodeFlow) :
  view graph edge_type = Ok csr → csr_ok csr n → Forall (λ v, v < n) seeds →
  NeighborUniformSample graph seeds edge_type num_hops expand_factor time_seed = Ok nf →
  ∃ sub,
    adjacency nf = Some sub
    ∧ ∀ r, r < length (node_mapping nf) →
        row_filled csr expand_factor (node_mapping nf) (off (layer_offsets nf) 1)
          (indptr sub) (indices sub) (edge_mapping nf) r.
Proof.
  intros Hview Hcsr Hseeds Hrun.
  pose proof (SampleSubgraph_run_safe graph seeds edge_type (num_hops + 1) expand_factor
                time_seed csr n Hview Hcsr Hseeds ltac:(lia)) as Hsafe.
  unfold NeighborUniformSample in Hrun. rewrite Hrun in Hsafe.
  destruct Hsafe as (sub & a & Hadj & Hrows & _). by exists sub.
Qed.

Lemma NeighborUniformSample_rows_are_graph_edges_witness :
  NeighborUniformSample star4 [0] "out" 1 2 [5] = Ok star4_nodeflow
  ∧ ∃ sub,
      adjacency star4_nodeflow = Some sub
      ∧ ∀ r, r < length (node_mapping star4_nodeflow) →
          row_filled star4_csr 2 (node_mapping star4_nodeflow)
            (off (layer_offsets star4_nodeflow) 1)
            (indptr sub) (indices sub) (edge_mapping star4_nodeflow) r.
Proof.
  split; [reflexivity|].
  apply (NeighborUniformSample_rows_are_graph_edges star4 [0] "out" 1 2 [5] star4_csr 4).
  - reflexivity.
  - exact star4_csr_ok.
  - repeat constructor.
  - reflexivity.
Defined.

(** The last block of [node_mapping], the seed layer, holds the seeds, each
    of them once, in increasing order. *)
Theorem NeighborUniformSample_seed_layer (graph : ImmutableGraph)
    (seeds : list dgl_id_t) (edge_type : string) (num_hops expand_factor : nat)
    (time_seed : seed_t) (csr : CSR) (n : nat) (nf : NodeFlow) :
  view graph edge_type = Ok csr → csr_ok csr n → Forall (λ v, v < n) seeds →
  NeighborUniformSample graph seeds edge_type num_hops expand_factor time_seed = Ok nf →
  ∃ a,
    layer_offsets nf !! num_hops = Some a
    ∧ StronglySorted lt (drop a (node_mapping nf))
    ∧ ∀ v, v ∈ drop a (node_mapping nf) ↔ v ∈ seeds.
Proof.
  intros Hview Hcsr Hseeds Hrun.
  pose proof (SampleSubgraph_run_safe graph seeds edge_type (num_hops + 1) expand_factor
                time_seed csr n Hview Hcsr Hseeds ltac:(lia)) as Hsafe.
  unfold NeighborUniformSample in Hrun. rewrite Hrun in Hsafe.
  destruct Hsafe as (sub & a & _ & _ & Ha & Hsorted & Hin).
  replace (num_hops + 1 - 1) with num_hops in Ha by lia. by exists a.
Qed.

Lemma NeighborUniformSample_seed_layer_witness :
  NeighborUniformSample star4 [0; 0] "out" 1 2 [5] = Ok star4_nodeflow
  ∧ ∃ a,
      layer_offsets star4_nodeflow !! 1 = Some a
      ∧ StronglySorted lt (drop a (node_mapping star4_nodeflow))
      ∧ ∀ v, v ∈ drop a (node_mapping star4_nodeflow) ↔ v ∈ [0; 0].
Proof.
  split; [reflexivity|].
  apply (NeighborUniformSample_seed_layer star4 [0; 0] "out" 1 2 [5] star4_csr 4).
  - reflexivity.
  - exact star4_csr_ok.
  - repeat constructor.
  - reflexivity.
Defined.


(** ** The alias variant with replacement *)

Lemma AliasSampler_count_all (prob : list Q) (idm : list nat) :
  foldM (AliasSampler.count_unused true prob (replicate (length prob) false))
        (seq 0 (length prob)) (0, 0%Q, idm)
  = Ok (length prob, prefix_weight prob (length prob), idm).
Proof.
  destruct (foldM_seq_total
              (AliasSampler.count_unused true prob (replicate (length prob) false))
              (λ i st, st = (i, prefix_weight prob i, idm))
              0 (length prob) (0, 0%Q, idm)) as (st & Hrun & ->).
  - intros i st Hi ->. unfold AliasSampler.count_unused.
    assert (replicate (length prob) false !! i = Some false) as Hu
      by (apply lookup_replicate_2; lia).
    rewrite (proj2 (index_Ok _ _ _) Hu). run_Ok.
    destruct (lookup_lt_is_Some_2 prob i) as [p Hp]; [lia|].
    rewrite (proj2 (index_Ok _ _ _) Hp). run_Ok.
    eexists. split; [done|]. by rewrite (prefix_weight_S _ _ _ Hp).
  - done.
  - exact Hrun.
Qed.

Lemma AliasSampler_classify_all (prob : list Q) (avg : Q) (K : list nat) :
  length K = length prob → Forall (λ x, x < length prob) K →
  ∃ under over K',
    foldM (AliasSampler.classify true prob [] avg) (seq 0 (length prob)) ([], [], K)
    = Ok (under, over, K')
    ∧ length under + length over = length prob
    ∧ Forall (λ e, e.1 < length prob) under ∧ Forall (λ e, e.1 < length prob) over
    ∧ length K' = length prob ∧ Forall (λ x, x < length prob) K'.
Proof.
  intros HlK HK.
  destruct (foldM_seq_total (AliasSampler.classify true prob [] avg)
              (λ i st, length st.1.1 + length st.1.2 = i
                       ∧ Forall (λ e, e.1 < length prob) st.1.1
                       ∧ Forall (λ e, e.1 < length prob) st.1.2
                       ∧ length st.2 = length prob ∧ Forall (λ x, x < length prob) st.2)
              0 (length prob) ([], [], K)) as ([[under over] K'] & Hrun & HI).
  - intros i [[under over] Ki] Hi (Hlen & Hu & Ho & HlKi & HKi). cbn [fst snd] in *.
    unfold AliasSampler.classify, AliasSampler.Map.
    run_Ok.
    destruct (lookup_lt_is_Some_2 prob i) as [p Hp]; [lia|].
    rewrite (proj2 (index_Ok _ _ _) Hp). run_Ok.
    unfold store. rewrite decide_True by lia. run_Ok.
    destruct (Qgt_bool p avg).
    + eexists. split; [done|]. cbn [fst snd]. rewrite length_app, length_insert. simpl.
      split; [lia|]. split; [done|]. split; [apply Forall_app; split; [done|]|].
      * apply Forall_singleton. simpl. lia.
      * split; [done|]. apply Forall_insert; [done|lia].
    + eexists. split; [done|]. cbn [fst snd]. rewrite length_app, length_insert. simpl.
      split; [lia|]. split; [apply Forall_app; split; [done|]|].
      * apply Forall_singleton. simpl. lia.
      * split; [done|]. split; [done|]. apply Forall_insert; [done|lia].
  - simpl. done.
  - simpl in HI. exists under, over, K'. by split.
Qed.

Lemma AliasSampler_pair_up_total (n : nat) (avg : Q) :
  ∀ fuel under over K U,
    length under + length over ≤ fuel →
    Forall (λ e, e.1 < n) under → Forall (λ e, e.1 < n) over →
    length K = n → length U = n → Forall (λ x, x < n) K →
    ∃ K' U', AliasSampler.pair_up fuel avg under over K U = Ok (K', U')
             ∧ length K' = n ∧ length U' = n ∧ Forall (λ x, x < n) K'.
Proof.
  induction fuel as [|fuel IH]; intros under over K U Hfuel Hu Ho HlK HlU HK.
  - destruct under as [|[i_u p_u] under]; [by exists K, U|].
    destruct over as [|[i_o p_o] over]; [by exists K, U|]. simpl in Hfuel. lia.
  - destruct under as [|[i_u p_u] under]; [by exists K, U|].
    destruct over as [|[i_o p_o] over]; [by exists K, U|].
    apply Forall_cons in Hu as [Hiu Hu]. apply Forall_cons in Ho as [Hio Ho].
    simpl in Hiu, Hio, Hfuel.
    cbn [AliasSampler.pair_up]. unfold store.
    rewrite decide_True by lia. run_Ok. rewrite decide_True by lia. run_Ok.
    assert (Forall (λ x, x < n) (<[i_u:=i_o]> K)) as HK' by (by apply Forall_insert).
    destruct (Qgt_bool (p_o + p_u) (2 * avg)); [|destruct (Qgt_bool (2 * avg) (p_o + p_u))].
    + apply IH; rewrite ?length_insert, ?length_app; simpl; try done; [lia|].
      apply Forall_app. split; [done|]. by apply Forall_singleton.
    + apply IH; rewrite ?length_insert, ?length_app; simpl; try done; [lia|].
      apply Forall_app. split; [done|]. by apply Forall_singleton.
    + apply IH; rewrite ?length_insert; try done. lia.
Qed.

Lemma AliasSampler_make_with_replacement (prob : list Q) :
  prob ≠ [] →
  ∃ s, AliasSampler.make true prob = Ok s
       ∧ AliasSampler.N s = length prob
       ∧ AliasSampler.id_mapping s = []
       ∧ length (AliasSampler.K s) = length prob
       ∧ length (AliasSampler.U s) = length prob
       ∧ Forall (λ x, x < length prob) (AliasSampler.K s).
Proof.
  intros Hne. assert (length prob ≠ 0) as Hn by (by destruct prob).
  unfold AliasSampler.make, AliasSampler.ResetState, AliasSampler.Reconstruct.
  simpl AliasSampler.used. simpl AliasSampler.id_mapping. simpl AliasSampler.K.
  simpl AliasSampler._prob.
  rewrite AliasSampler_count_all. run_Ok.
  rewrite bool_decide_eq_false_2 by done. simpl negb. run_check.
  set (avg := (prefix_weight prob (length prob) / of_Idx (length prob))%Q).
  destruct (AliasSampler_classify_all prob avg (resize [] (length prob) 0))
    as (under & over & K' & -> & Hlen & Hu & Ho & HlK & HK).
  { unfold resize. rewrite length_app, length_take, length_replicate. simpl. lia. }
  { unfold resize. simpl. rewrite take_nil. simpl. apply Forall_replicate. lia. }
  run_Ok.
  destruct (AliasSampler_pair_up_total (length prob) avg (length under + length over)
              under over K' (replicate (length prob) avg))
    as (K2 & U2 & -> & HlK2 & HlU2 & HK2); [done..|by rewrite length_replicate|done|].
  run_Ok. eexists. split; [done|]. simpl. done.
Qed.

Lemma to_Idx_lt (x : Q) (n : nat) : (0 <= x)%Q → (x < of_Idx n)%Q → to_Idx x < n.
Proof.
  intros H0 Hn. unfold to_Idx, of_Idx in *.
  pose proof (Qfloor_le x) as Hfl.
  assert (inject_Z (Qfloor x) < inject_Z (Z.of_nat n))%Q as Hlt by lra.
  rewrite <- Zlt_Qlt in Hlt.
  pose proof (Qfloor_resp_le _ _ H0) as Hge. change (Qfloor 0) with 0%Z in Hge. lia.
Qed.

(** With replacement the alias variant reads its tables inside their bounds,
    whatever the weights.  The constructor returns for every non-empty list
    of weights and builds the tables [K] and [U] with one entry per weight,
    every alias in [K] being a position of the tables; a draw reads one
    variate, returns a position of the weights and leaves the sampler as it
    was. *)
Theorem AliasSampler_Draw_in_range (prob : list Q) (u : Q) (re : RandomEngine) :
  prob ≠ [] → (0 <= u)%Q → (u < 1)%Q →
  ∃ s i,
    AliasSampler.make true prob = Ok s
    ∧ AliasSampler.N s = length prob
    ∧ length (AliasSampler.K s) = length prob
    ∧ length (AliasSampler.U s) = length prob
    ∧ Forall (λ x, x < length prob) (AliasSampler.K s)
    ∧ AliasSampler.Draw true s (u :: re) = Ok (i, s, re)
    ∧ i < length prob.
Proof.
  intros Hne Hu0 Hu1.
  destruct (AliasSampler_make_with_replacement prob Hne)
    as (s & Hmake & HN & Hidm & HlK & HlU & HK).
  assert (0 < of_Idx (length prob))%Q as Hnpos.
  { unfold of_Idx. change 0%Q with (inject_Z 0). rewrite <- Zlt_Qlt.
    destruct prob; [done|]. simpl. lia. }
  set (dice := (0 + u * (of_Idx (AliasSampler.N s) - 0))%Q).
  assert (to_Idx dice < length prob) as Hi.
  { apply to_Idx_lt; unfold dice; rewrite HN; nra. }
  destruct (lookup_lt_is_Some_2 (AliasSampler.U s) (to_Idx dice)) as [p Hp]; [lia|].
  destruct (lookup_lt_is_Some_2 (AliasSampler.K s) (to_Idx dice)) as [j Hj]; [lia|].
  assert (j < length prob) as Hjn.
  { rewrite Forall_forall in HK. apply HK. by eapply list_elem_of_lookup_2. }
  cut (∃ i, AliasSampler.Draw true s (u :: re) = Ok (i, s, re) ∧ i < length prob).
  { intros (i & Hdraw & Hlt). exists s, i. do 5 (split; [done|]). done. }
  unfold AliasSampler.Draw, AliasSampler.throw, Uniform, AliasSampler.Map.
  run_Ok. fold dice. run_Ok.
  rewrite (proj2 (index_Ok _ _ _) Hp). run_Ok.
  destruct (Qle_bool _ p).
  - by exists (to_Idx dice).
  - rewrite (proj2 (index_Ok _ _ _) Hj). run_Ok. by exists j.
Qed.

Lemma AliasSampler_Draw_in_range_witness :
  ∃ s i,
    AliasSampler.make true [1%Q; 3%Q] = Ok s
    ∧ length (AliasSampler.K s) = 2 ∧ length (AliasSampler.U s) = 2
    ∧ Forall (λ x, x < 2) (AliasSampler.K s)
    ∧ AliasSampler.Draw true s [1 # 4; 1 # 2] = Ok (i, s, [1 # 2])
    ∧ i < 2.
Proof.
  destruct (AliasSampler_Draw_in_range [1%Q; 3%Q] (1 # 4) [1 # 2])
    as (s & i & Hmake & _ & HK & HU & Hin & Hdraw & Hi); [done..|].
  by exists s, i.
Defined.


(** ** The step a random walk takes *)

(** In every buffer [RandomWalk] returns, the vertex after position [k] of
    a trace is the successor of the vertex at position [k] that the random
    value of the step selects: the entry of the successor list at the
    value's residue modulo the list's length. *)
Theorem RandomWalk_steps_by_residue {G : Type} `{GraphInterface G}
    (rnd : nat → nat → nat → nat) (gptr : G)
    (seeds : list dgl_id_t) (num_traces num_hops : nat) (traces : list dgl_id_t) :
  RandomWalker.RandomWalk rnd gptr seeds num_traces num_hops = Ok traces →
  ∀ s t k seed_id,
    seeds !! s = Some seed_id → t < num_traces → k < num_hops →
    ∃ u, traces !! ((s * num_traces + t) * (num_hops + 1) + k) = Some u
         ∧ traces !! ((s * num_traces + t) * (num_hops + 1) + S k)
           = Some (nth (rnd s t k mod length (SuccVec gptr u)) (SuccVec gptr u) 0).
Proof.
  intros [-> _]%RandomWalk_Ok_inv s t k seed_id Hs Ht Hk.
  exists (RandomWalker.visited rnd gptr seed_id s t k).
  rewrite !(all_traces_lookup rnd gptr seeds num_traces (num_hops + 1) s t _ seed_id)
    by (done || lia).
  done.
Qed.

Lemma RandomWalk_steps_by_residue_witness :
  ∃ u, [0; 1; 2; 0] !! ((0 * 1 + 0) * (3 + 1) + 1) = Some u
       ∧ [0; 1; 2; 0] !! ((0 * 1 + 0) * (3 + 1) + 2)
         = Some (nth (5 mod length (SuccVec cycle3 u)) (SuccVec cycle3 u) 0).
Proof.
  apply (RandomWalk_steps_by_residue (λ _ _ _, 5) cycle3 [0] 1 3 [0; 1; 2; 0])
    with (seed_id := 0); [reflexivity|reflexivity|lia|lia].
Defined.


(** ** Rounding in the sum tree *)

(** The threshold depends on the random value through its residue modulo
    100 only. *)
Lemma Binary32_threshold_mod (root : spec_float) (r : nat) :
  Binary32.threshold root r = Binary32.threshold root (r mod 100).
Proof. unfold Binary32.threshold. by rewrite Nat.Div0.mod_mod. Qed.

(** A walk that ends in the same leaf for each of the hundred residues ends
    there for every random value. *)
Lemma Binary32_Sample_all (h : Binary32.ArrayHeap.t) (root : spec_float) (leaf from : nat) :
  index (Binary32.ArrayHeap.heap_ h) 1 = Ok root →
  forallb (λ a, match Binary32.ArrayHeap.Sample_loop
                        (Binary32.ArrayHeap.limit_ h) (Binary32.ArrayHeap.heap_ h)
                        (Binary32.ArrayHeap.limit_ h) (Binary32.threshold root a) 1 with
                | Ok i => Nat.eqb i leaf
                | Err _ => false
                end) (seq from (100 - from)) = true →
  ∀ r seed, from ≤ r mod 100 →
    Binary32.ArrayHeap.Sample h (r :: seed)
    = Ok (leaf - Binary32.ArrayHeap.limit_ h, seed).
Proof.
  intros Hroot Hall r seed Hr.
  rewrite forallb_forall in Hall. specialize (Hall (r mod 100)).
  rewrite <- Binary32_threshold_mod in Hall.
  unfold Binary32.ArrayHeap.Sample, rand_r. rewrite Hroot.
  change (Ok ?a ≫= ?k) with (k a). cbv beta.
  change (Ok ?a ≫= ?k) with (k a). cbv beta iota.
  destruct (Binary32.ArrayHeap.Sample_loop _ _ _ _ 1) as [i|e].
  - rewrite (proj1 (Nat.eqb_eq i leaf)); [done|]. apply Hall.
    apply in_seq. pose proof (Nat.mod_upper_bound r 100). lia.
  - discriminate Hall. apply in_seq. pose proof (Nat.mod_upper_bound r 100). lia.
Qed.

Lemma Binary32_SampleWithoutReplacement_step_Ok (h h' : Binary32.ArrayHeap.t)
    (samples : list nat) (seed seed' : seed_t) (i s : nat) :
  Binary32.ArrayHeap.Sample h seed = Ok (s, seed') → i < length samples →
  Binary32.ArrayHeap.Delete h s = Ok h' →
  Binary32.ArrayHeap.SampleWithoutReplacement_step (h, samples, seed) i
  = Ok (h', <[i:=s]> samples, seed').
Proof.
  intros Hs Hi Hd. unfold Binary32.ArrayHeap.SampleWithoutReplacement_step.
  rewrite Hs. simpl. rewrite decide_True by done. simpl. by rewrite Hd.
Qed.

(** Over the binary32 weights 1, 2^-30, 2^-30 and 2^-30, all positive, the
    sum tree loses the small weights to rounding: the root holds 1.  The
    first sample is position 0 and its removal leaves the root empty, so the
    second is position 2, whatever the random values; its removal leaves the
    root negative, and the third sample is position 0 again unless its
    random value is a multiple of 100.  The selection then returns the
    neighbour at position 0 twice. *)
Theorem Binary32_GetNonUniformSample_repeats (r1 r2 r3 : nat) (seed : seed_t) :
  r3 mod 100 ≠ 0 →
  let weights := [Binary32.of_Z 1 0; Binary32.of_Z 1 (-30); Binary32.of_Z 1 (-30);
                  Binary32.of_Z 1 (-30)] in
  Forall (λ x, SFltb Binary32.zero x = true) weights
  ∧ (∃ h h',
       Binary32.ArrayHeap.make weights = Ok h
       ∧ Binary32.ArrayHeap.heap_ h !! 1 = Some (Binary32.of_Z 1 0)
       ∧ Binary32.ArrayHeap.SampleWithoutReplacement h 3 [0; 0; 0] (r1 :: r2 :: r3 :: seed)
         = Ok (h', [0; 2; 0], seed)
       ∧ Binary32.ArrayHeap.heap_ h' !! 1 = Some (Binary32.of_Z (-1) (-30)))
  ∧ Binary32.GetNonUniformSample weights [10; 11; 12; 13] [0; 1; 2; 3] 4 3 [] []
      (r1 :: r2 :: r3 :: seed)
    = Ok ([0; 0; 2], [10; 10; 12], seed).
Proof.
  intros Hr3 weights.
  assert (∃ h h',
            Binary32.ArrayHeap.make weights = Ok h
            ∧ Binary32.ArrayHeap.heap_ h !! 1 = Some (Binary32.of_Z 1 0)
            ∧ Binary32.ArrayHeap.SampleWithoutReplacement h 3 [0; 0; 0]
                (r1 :: r2 :: r3 :: seed)
              = Ok (h', [0; 2; 0], seed)
            ∧ Binary32.ArrayHeap.heap_ h' !! 1 = Some (Binary32.of_Z (-1) (-30)))
    as (h & h' & Hmake & Hroot & Hdraws & Hroot').
  { eexists _, _. split; [by vm_compute|]. split; [by vm_compute|].
    unfold Binary32.ArrayHeap.SampleWithoutReplacement.
    change (seq 0 3) with [0; 1; 2]. cbn [foldM].
    erewrite Binary32_SampleWithoutReplacement_step_Ok;
      [|apply (Binary32_Sample_all _ (Binary32.of_Z 1 0) 4 0); [by vm_compute|by vm_compute|lia]
       |simpl; lia|by vm_compute].
    change (Ok ?a ≫= ?k) with (k a). cbv beta.
    erewrite Binary32_SampleWithoutReplacement_step_Ok;
      [|apply (Binary32_Sample_all _ Binary32.zero 6 0); [by vm_compute|by vm_compute|lia]
       |simpl; lia|by vm_compute].
    change (Ok ?a ≫= ?k) with (k a). cbv beta.
    erewrite Binary32_SampleWithoutReplacement_step_Ok;
      [|apply (Binary32_Sample_all _ (Binary32.of_Z (-1) (-30)) 4 1); [by vm_compute|by vm_compute|lia]
       |simpl; lia|by vm_compute].
    change (Ok ?a ≫= ?k) with (k a). cbv beta.
    split; [reflexivity|]. by vm_compute. }
  split; [repeat constructor|]. split; [by exists h, h'|].
  unfold Binary32.GetNonUniformSample. rewrite decide_False by lia. cbv zeta.
  change (foldM (Binary32.gather_prob weights [0; 1; 2; 3]) (seq 0 4)
            (replicate 4 Binary32.zero)) with (Ok weights).
  change (Ok ?a ≫= ?k) with (k a). cbv beta.
  rewrite Hmake.
  change (Ok ?a ≫= ?k) with (k a). cbv beta.
  change (replicate 3 0) with [0; 0; 0]. rewrite Hdraws. reflexivity.
Qed.

Lemma Binary32_GetNonUniformSample_repeats_witness :
  Binary32.GetNonUniformSample
    [Binary32.of_Z 1 0; Binary32.of_Z 1 (-30); Binary32.of_Z 1 (-30); Binary32.of_Z 1 (-30)]
    [10; 11; 12; 13] [0; 1; 2; 3] 4 3 [] [] [0; 0; 50]
  = Ok ([0; 0; 2], [10; 10; 12], []).
Proof.
  apply (Binary32_GetNonUniformSample_repeats 0 0 50 []). simpl. lia.
Defined.
